(** * filterfasta: a shallow embedding of the MPI record extractor

    The development follows the C source function by function.  Memory
    that the C code walks with character pointers is a [list ascii]; a
    pointer into it is the [nat] index of the byte it designates.  Sizes
    and counters ([long long int], [int]) are [Z], with the wrap-around
    written out where the code converts a value to [int] or stores a
    product.  Every [while(1)] loop of the source becomes a [Fixpoint] on
    a fuel argument that is computed from the distance to the end pointer
    the loop tests.  What is undefined in C in the option parser (a read
    or a write outside an array) is [None]. *)

From Stdlib Require Import String Ascii List ZArith Bool Lia Arith.
Import ListNotations.
Open Scope Z_scope.

(* ------------------------------------------------------------------ *)
(** ** Bytes, memory and constants *)

Definition GT  : ascii := ">"%char.
Definition NL  : ascii := "010"%char.
Definition BAR : ascii := "|"%char.
Definition SOH : ascii := "001"%char.
(** The byte that compares equal to [EOF] once widened to [int]: with a
    signed [char] this is 0xFF. *)
Definition EOFCH : ascii := "255"%char.

Definition INT_MAX : Z := 2147483647.
Definition INT_MIN : Z := -2147483648.
Definition LLONG_MAX : Z := 9223372036854775807.
Definition LLONG_MIN : Z := -9223372036854775808.

(** A value brought into the range of a signed integer of [bits] bits,
    modulo 2^bits: what a conversion to [int] and a product of
    [long long] values give on the machines the program runs on. *)
Definition wrap (bits x : Z) : Z :=
  (x + 2 ^ (bits - 1)) mod 2 ^ bits - 2 ^ (bits - 1).

Definition OUTPUT_FILE : string := "filter.out".
Definition SEQ_COUNT   : Z := LLONG_MAX.
Definition ANNOT_CNT   : Z := INT_MAX.
Definition BYTES_LIMIT : Z := LLONG_MAX.
Definition PIPE_MODE   : Z := 0.
Definition SEARCH_MODE : Z := 0.
Definition MAXARG_CNT  : Z := 5.
Definition FILE_LEN    : nat := 128.
Definition ERROR       : Z := -1.
Definition CFGERROR    : Z := -2.

(** [*p]: the byte at index [p]. *)
Definition deref (m : list ascii) (p : nat) : ascii := nth p m zero.

(** The [n] bytes starting at index [p].  A read that runs past the end
    of the mapped memory is undefined in C; here it yields the bytes that
    exist. *)
Definition slice (m : list ascii) (p n : nat) : list ascii :=
  firstn n (skipn p m).

(** [*p = c]. *)
Fixpoint poke (m : list ascii) (p : nat) (c : ascii) : list ascii :=
  match m, p with
  | [], _ => []
  | _ :: t, O => c :: t
  | h :: t, S p' => h :: poke t p' c
  end.

(** [v[i] = x] on an [int] array. *)
Fixpoint setZ (v : list Z) (i : nat) (x : Z) : list Z :=
  match v, i with
  | [], _ => []
  | _ :: t, O => x :: t
  | h :: t, S i' => h :: setZ t i' x
  end.

Fixpoint bytes_eqb (a b : list ascii) : bool :=
  match a, b with
  | [], [] => true
  | x :: a', y :: b' => Ascii.eqb x y && bytes_eqb a' b'
  | _, _ => false
  end.

Definition bytes (s : string) : list ascii := list_ascii_of_string s.

(* ------------------------------------------------------------------ *)
(** ** Structures *)

(** [args_t]: the command line options. *)
Record args_t := mkArgs {
  qf         : string;
  of'        : string;
  sf         : string;
  btable     : string;
  rseqLen    : list Z;
  seqLen     : list Z;
  seqCnt     : Z;
  bytesLimit : Z;
  seqLenBuf  : Z;
  rseqLenBuf : Z;
  annotCnt   : Z;
  pipeMode   : Z;
  searchMode : Z
}.

(** [query_t]: the four record pointers (the carry buffer is handled by
    the window loop). *)
Record query_t := mkQuery {
  iaq : nat;
  faq : nat;
  isq : nat;
  fsq : nat
}.

(** [hits_t]: the hit list and its characteristic vector.  The C code
    keeps the count [htotal] next to the array; here it is the length of
    [hitList]. *)
Record hits_t := mkHits {
  hitList     : list (list ascii);
  charVect    : list Z;
  hpipeMode   : Z;
  hsearchMode : Z
}.

Definition htotal (h : hits_t) : Z := Z.of_nat (length (hitList h)).

(* ------------------------------------------------------------------ *)
(** ** getAnnot, getSequence, parseAnnot *)

(** The two loops of [getAnnot]: walk forward from [p]; reaching the end
    pointer [fin] is an error ([None]), the first byte equal to [sym] is
    the result. *)
Fixpoint scanFor (sym : ascii) (m : list ascii) (fin : nat)
         (fuel : nat) (p : nat) : option nat :=
  match fuel with
  | O => None
  | S fuel' =>
      if Nat.eqb p fin then None
      else if Ascii.eqb (deref m p) sym then Some p
      else scanFor sym m fin fuel' (S p)
  end.

(** [getAnnot]: [fin] is the end pointer of the region being scanned
    ([iomap->fMap] for a map, [query->fbuf] for the carry buffer; a
    pointer into one is never equal to the end of the other). *)
Definition getAnnot (m : list ascii) (fin : nat) (q : query_t)
  : option query_t :=
  match scanFor GT m fin (S fin - fsq q) (fsq q) with
  | None => None
  | Some a =>
      match scanFor NL m fin (S fin - S a) (S a) with
      | None => None
      | Some f => Some (mkQuery a f (isq q) (fsq q))
      end
  end.

(** The loop of [getSequence]; the result is [(fsq, seqSz)]. *)
Fixpoint seqLoop (m : list ascii) (fin : nat) (fuel : nat) (p : nat)
         (seqSz : Z) : nat * Z :=
  match fuel with
  | O => (p, seqSz)
  | S fuel' =>
      if Nat.eqb p fin then (p, seqSz)
      else if Ascii.eqb (deref m p) NL then seqLoop m fin fuel' (S p) seqSz
      else if Ascii.eqb (deref m p) GT then (Nat.pred p, seqSz)
      else seqLoop m fin fuel' (S p) (seqSz + 1)
  end.

(** [getSequence]: [None] is the "no sequence data found" error. *)
Definition getSequence (m : list ascii) (fin : nat) (q : query_t)
  : option (Z * query_t) :=
  let i := S (faq q) in
  let '(f, seqSz) := seqLoop m fin (S fin - i) i 0 in
  if seqSz =? 0 then None
  else Some (seqSz, mkQuery (iaq q) (faq q) i f).

Definition isDelim (c : ascii) : bool :=
  Ascii.eqb c BAR || Nat.eqb (nat_of_ascii c) 1.

(** The loop of [parseAnnot]; the result is the new [*annotSz]. *)
Fixpoint parseLoop (m : list ascii) (q : query_t) (fuel : nat) (p : nat)
         (cnt : Z) (annotSz : Z) : Z :=
  match fuel with
  | O => annotSz - 1
  | S fuel' =>
      if Nat.eqb p (faq q) then annotSz - 1
      else if isDelim (deref m p) then
        if cnt - 1 =? 0 then Z.of_nat (p - iaq q)
        else parseLoop m q fuel' (S p) (cnt - 1) annotSz
      else parseLoop m q fuel' (S p) cnt annotSz
  end.

Definition parseAnnot (cnt : Z) (annotSz : Z) (m : list ascii)
           (q : query_t) : Z :=
  parseLoop m q (S (faq q) - iaq q) (iaq q) cnt annotSz.

(* ------------------------------------------------------------------ *)
(** ** extractQueries: the two predicates *)

(** [strncmp(hit, m + pos, strlen(hit)) == 0].  A hit ID is a C string,
    so none of its first [strlen] bytes is NUL and the comparison is an
    equality of [strlen(hit)] bytes. *)
Definition strncmp0 (hit : list ascii) (m : list ascii) (pos : nat) : bool :=
  bytes_eqb hit (slice m pos (length hit)).

(** The inner [while( paq != query->faq )] loop for one hit ID: the
    position of the first SOH after which the hit ID compares equal. *)
Fixpoint altLoop (hit : list ascii) (m : list ascii) (fq : nat)
         (fuel : nat) (paq : nat) : option nat :=
  match fuel with
  | O => None
  | S fuel' =>
      if Nat.eqb paq fq then None
      else
        let paq' := S paq in
        if Ascii.eqb (deref m paq') SOH && strncmp0 hit m (S paq')
        then Some paq'
        else altLoop hit m fq fuel' paq'
  end.

(** [for(i = 0; i < hits->htotal && seqSelect == 0; i++)]: the result is
    the memory, the query pointers, the characteristic vector and
    [seqSelect]. *)
Fixpoint hitLoop (a : args_t) (hl : list (list ascii)) (i : nat)
         (m : list ascii) (q : query_t) (cv : list Z)
  : list ascii * query_t * list Z * Z :=
  match hl with
  | [] => (m, q, cv, 0)
  | hit :: rest =>
      if strncmp0 hit m (S (iaq q)) then (m, q, setZ cv i 1, 1)
      else
        match altLoop hit m (faq q) (faq q - iaq q) (iaq q) with
        | Some paq =>
            if negb (annotCnt a =? 0)
            then (poke m paq GT, mkQuery paq (faq q) (isq q) (fsq q),
                  setZ cv i 1, 1)
            else (m, q, setZ cv i 1, 1)
        | None => hitLoop a rest (S i) m q cv
        end
  end.

(** [for(i = 0; i < n && cond(i); i++) { seqSelect = 1; break; }].  The
    body leaves the loop at once, so [i++] is never executed: the loop
    tests its condition at [i = 0] only. *)
Definition forBreak (n : Z) (cond : Z -> bool) (seqSelect : Z) : Z :=
  if (0 <? n) && cond 0 then 1 else seqSelect.

Definition zidx (l : list Z) (i : Z) : Z := nth (Z.to_nat i) l 0.

(** The "normal filtering" branch. *)
Definition lenSelect (a : args_t) (seqSz : Z) : Z :=
  if (seqLenBuf a =? 0) && (rseqLenBuf a =? 0) then 1
  else
    let s1 :=
      if 0 <? seqLenBuf a
      then forBreak (seqLenBuf a) (fun i => zidx (seqLen a) i =? seqSz) 0
      else 0 in
    if 0 <? rseqLenBuf a
    then forBreak (rseqLenBuf a)
           (fun i => (zidx (rseqLen a) (i * 2) <=? seqSz)
                     && (zidx (rseqLen a) (i * 2 + 1) >=? seqSz)) s1
    else s1.

Definition lookupMode (h : hits_t) : bool :=
  negb (hpipeMode h =? 0) || negb (hsearchMode h =? 0).

(** The selection part of one iteration of [extractQueries]. *)
Definition selectQuery (a : args_t) (h : hits_t) (m : list ascii)
           (q : query_t) (seqSz : Z)
  : list ascii * query_t * list Z * Z :=
  if lookupMode h
  then hitLoop a (hitList h) 0 m q (charVect h)
  else (m, q, charVect h, lenSelect a seqSz).

(* ------------------------------------------------------------------ *)
(** ** extractQueries: the writer and the loop *)

(** What one call of [extractQueries] reads and updates: the region it
    scans ([mem], shared with the caller), the record pointers, the hit
    index, [iomap->xCnt], the output stream, [*bytesWritten], [*done]. *)
Record scan_t := mkScan {
  mem          : list ascii;
  query        : query_t;
  hits         : hits_t;
  xCnt         : Z;
  ofd          : list ascii;
  bytesWritten : Z;
  done         : Z
}.

Definition set_done (st : scan_t) : scan_t :=
  mkScan (mem st) (query st) (hits st) (xCnt st) (ofd st)
         (bytesWritten st) 1.

Definition set_ofd (st : scan_t) (f : list ascii) (bw : Z) : scan_t :=
  mkScan (mem st) (query st) (hits st) (xCnt st) f bw (done st).

(** [iomap->xCnt++]. *)
Definition count_query (st : scan_t) : scan_t :=
  mkScan (mem st) (query st) (hits st) (xCnt st + 1) (ofd st)
         (bytesWritten st) (done st).

Definition set_charVect (h : hits_t) (cv : list Z) : hits_t :=
  mkHits (hitList h) cv (hpipeMode h) (hsearchMode h).

(** [lerr = fwrite(m + p, sizeof(char), n, ofd)]: the stream after the
    call and the number of elements written.  The stream takes every
    byte it is given. *)
Definition fwrite (m : list ascii) (p : nat) (n : Z) (f : list ascii)
  : list ascii * Z :=
  let d := slice m p (Z.to_nat n) in
  (f ++ d, Z.of_nat (length d)).

(** [if( (wCnt + *bytesWritten) > args->bytesLimit ) { *done = 1; break; }]
    followed by the writes [k]; the boolean is "the loop is left". *)
Definition budget (a : args_t) (st : scan_t) (wCnt : Z)
           (k : scan_t -> scan_t) : scan_t * bool :=
  if wCnt + bytesWritten st >? bytesLimit a
  then (set_done st, true)
  else (count_query (k st), false).

Definition put (m : list ascii) (p : nat) (n : Z) (st : scan_t) : scan_t :=
  let '(f, lerr) := fwrite m p n (ofd st) in
  set_ofd st f (bytesWritten st + lerr).

Definition putNL (st : scan_t) : scan_t :=
  let '(f, lerr) := fwrite [NL] 0 1 (ofd st) in
  set_ofd st f (bytesWritten st + lerr).

(** The [if( seqSelect == 1 )] block. *)
Definition writeQuery (a : args_t) (st : scan_t) (annotSz rawSeqSz : Z)
  : scan_t * bool :=
  let q := query st in
  let m := mem st in
  if (annotCnt a =? INT_MAX) || (annotCnt a =? INT_MIN + 1) then
    let wCnt := if annotCnt a =? INT_MAX then annotSz + rawSeqSz
                else annotSz in
    budget a st wCnt (put m (iaq q) wCnt)
  else if negb (annotCnt a =? 0) then
    let annotSz := parseAnnot (Z.abs (annotCnt a)) annotSz m q in
    if annotCnt a >? 0 then
      budget a st (annotSz + rawSeqSz + 1)
        (fun s => put m (isq q) rawSeqSz (putNL (put m (iaq q) annotSz s)))
    else
      budget a st annotSz
        (fun s => putNL (put m (S (iaq q)) (annotSz - 1) s))
  else
    budget a st rawSeqSz (put m (isq q) rawSeqSz).

(** The loop body of [extractQueries] below the quota tests; the
    boolean is "the loop is left".  After an error of [getAnnot] or
    [getSequence] the loop is left and the caller resets the pointers. *)
Definition extractBody (a : args_t) (fin : nat) (st : scan_t)
  : scan_t * bool :=
  match getAnnot (mem st) fin (query st) with
  | None => (st, true)
  | Some q1 =>
      let annotSz := Z.of_nat (faq q1) - Z.of_nat (iaq q1) + 1 in
      match getSequence (mem st) fin q1 with
      | None => (st, true)
      | Some (seqSz, q2) =>
          let rawSeqSz := Z.of_nat (fsq q2) - Z.of_nat (isq q2) + 1 in
          let '(m', q3, cv', seqSelect) :=
            selectQuery a (hits st) (mem st) q2 seqSz in
          let st1 := mkScan m' q3 (set_charVect (hits st) cv') (xCnt st)
                            (ofd st) (bytesWritten st) (done st) in
          if seqSelect =? 1 then writeQuery a st1 annotSz rawSeqSz
          else (st1, false)
      end
  end.

(** One turn of the [while( 1 )] loop of [extractQueries]: the quota
    tests of the serial mode, then the body. *)
Definition extractStep (a : args_t) (procCnt : Z) (fin : nat)
           (st : scan_t) : scan_t * bool :=
  if (procCnt =? 1) && (xCnt st =? seqCnt a) then (set_done st, true)
  else if (procCnt =? 1) && lookupMode (hits st)
          && (xCnt st =? htotal (hits st)) then (set_done st, true)
  else extractBody a fin st.

(** The [while( 1 )] loop; [None] only when the fuel runs out. *)
Fixpoint extractLoop (a : args_t) (procCnt : Z) (fin : nat) (fuel : nat)
         (st : scan_t) : option scan_t :=
  match fuel with
  | O => None
  | S fuel' =>
      let '(st', brk) := extractStep a procCnt fin st in
      if brk then Some st' else extractLoop a procCnt fin fuel' st'
  end.

(** [extractQueries]: every turn that stays in the loop moves [fsq]
    forward, so [fin + 2] turns are enough (proved below). *)
Definition extractQueries (a : args_t) (procCnt : Z) (fin : nat)
           (st : scan_t) : option scan_t :=
  extractLoop a procCnt fin (S (S fin)) st.

(* ------------------------------------------------------------------ *)
(** ** adjustMapBegin, adjustMapEnd, the scan of partQueryFile *)

(** The loop of [adjustMapBegin]: the index of the first [>] strictly
    before the end pointer; [None] is [ERROR]. *)
Fixpoint beginLoop (m : list ascii) (fin : nat) (fuel : nat) (c : nat)
  : option nat :=
  match fuel with
  | O => None
  | S fuel' =>
      if Nat.eqb c fin then None
      else if Ascii.eqb (deref m c) EOFCH then None
      else if Ascii.eqb (deref m c) GT then Some c
      else beginLoop m fin fuel' (S c)
  end.

(** [adjustMapBegin]: the shift, the map from its new [iMap] on, the
    index of [fMap] in it, and the carry buffer. *)
Definition adjustMapBegin (m : list ascii) (fin : nat) (buf : list ascii)
  : option (nat * list ascii * nat * list ascii) :=
  match beginLoop m fin (S fin) 0 with
  | None => None
  | Some offset =>
      if (0 <? offset)%nat
      then Some (offset, skipn offset m, (fin - offset)%nat,
                 buf ++ slice m 0 offset)
      else Some (offset, m, fin, buf)
  end.

(** The loop of [adjustMapEnd]: walking back from [c], the index of the
    first [>] met before [iMap] (index 0) is reached. *)
Fixpoint endLoop (m : list ascii) (c : nat) : option nat :=
  match c with
  | O => None
  | S c' =>
      if Ascii.eqb (deref m c) EOFCH then None
      else if Ascii.eqb (deref m c) GT then Some c
      else endLoop m c'
  end.

(** [adjustMapEnd]: the new index of [fMap] and the carry buffer. *)
Definition adjustMapEnd (m : list ascii) (fin : nat)
  : option (nat * list ascii) :=
  match endLoop m fin with
  | None => None
  | Some c =>
      let i := (fin - c)%nat in
      let fin' := (fin - (i + 1))%nat in
      Some (fin', slice m (S fin') (i + 1))
  end.

(** A partition plan entry [(fileOffs[3r], fileOffs[3r+1], fileOffs[3r+2])]. *)
Definition offs_t : Type := Z * Z * Z.

(** [initQueryMap]: the mapping covers [msz + skew] bytes of the file
    from [offset + page_offset]; [iMap] is moved past the skew and
    [fMap] designates the last mapped byte.  The result is the memory
    from [iMap] on and the index of [fMap] in it. *)
Definition initQueryMap (file : list ascii) (fo : offs_t)
           (msz offset : Z) : list ascii * nat :=
  let '(po, sk, _) := fo in
  let offset := offset + po in
  let msz := msz + sk in
  let map := slice file (Z.to_nat offset) (Z.to_nat msz) in
  (skipn (Z.to_nat sk) map, (Z.to_nat msz - 1 - Z.to_nat sk)%nat).

Definition start_query : query_t := mkQuery 0 0 0 0.

Definition with_region (st : scan_t) (m : list ascii) : scan_t :=
  mkScan m start_query (hits st) (xCnt st) (ofd st)
         (bytesWritten st) (done st).

(** [ceil((double)qfsz / msz)] on integers. *)
Definition ceil_div (a b : Z) : Z := (a + b - 1) / b.

(** The state of the [for] loop of [partQueryFile]: the scan state, the
    carry buffer and [err]. *)
Definition run_t : Type := scan_t * list ascii * Z.

(** One turn of [for(nmap = 0; nmap < nmaps && !done; nmap++)]; the
    boolean is "the loop is left by [break]". *)
Definition mapStep (a : args_t) (procCnt : Z) (file : list ascii)
           (fo : offs_t) (msz nmaps nmap : Z) (st : scan_t)
           (buf : list ascii) : option (run_t * bool) :=
  let qfsz := snd fo in
  let mrem := nmaps - (nmap + 1) in
  let offset := nmap * msz in
  let msz := if mrem =? 0 then qfsz - offset else msz in
  let '(m, fin) := initQueryMap file fo msz offset in
  let begun :=
    if nmap >? 0 then
      match adjustMapBegin m fin buf with
      | None => Some (inr ERROR)
      | Some (_, m', fin', buf') =>
          match extractQueries a procCnt (length buf' - 1)
                               (with_region st buf') with
          | None => None
          | Some st' => Some (inl (st', m', fin'))
          end
      end
    else Some (inl (st, m, fin)) in
  match begun with
  | None => None
  | Some (inr e) => Some ((st, buf, e), true)
  | Some (inl (st, m, fin)) =>
      let ended :=
        if mrem >? 0 then
          match adjustMapEnd m fin with
          | None => None
          | Some (fin', buf') => Some (fin', buf')
          end
        else Some (fin, []) in
      match ended with
      | None => Some ((st, [], ERROR), true)
      | Some (fin, buf) =>
          match extractQueries a procCnt fin (with_region st m) with
          | None => None
          | Some st' => Some ((st', buf, 0), false)
          end
      end
  end.

Fixpoint mapLoop (a : args_t) (procCnt : Z) (file : list ascii)
         (fo : offs_t) (msz nmaps : Z) (fuel : nat) (nmap : Z)
         (st : scan_t) (buf : list ascii) : option (scan_t * Z) :=
  match fuel with
  | O => Some (st, 0)
  | S fuel' =>
      if (nmap <? nmaps) && (done st =? 0) then
        match mapStep a procCnt file fo msz nmaps nmap st buf with
        | None => None
        | Some ((st', buf', e), brk) =>
            if brk then Some (st', e)
            else mapLoop a procCnt file fo msz nmaps fuel' (nmap + 1)
                         st' buf'
        end
      else Some (st, 0)
  end.

(** The scan of [partQueryFile] for the worker whose plan entry is [fo],
    with map chunks of [msz] bytes ([IMAP_LIMIT] in the source): the
    [for] loop over the chunks, from the state the function sets up;
    the result is the final scan state and [err] as the loop leaves
    it. *)
Definition partScan (a : args_t) (h : hits_t) (procCnt : Z)
           (file : list ascii) (fo : offs_t) (msz : Z)
  : option (scan_t * Z) :=
  let qfsz := snd fo in
  let nmaps := ceil_div qfsz msz in
  mapLoop a procCnt file fo msz nmaps (Z.to_nat nmaps) 0
          (mkScan [] start_query h 0 [] 0 0) [].


(* ------------------------------------------------------------------ *)
(** ** writeHitsNotFound *)

Fixpoint vect_add (u v : list Z) : list Z :=
  match u, v with
  | x :: u', y :: v' => (x + y) :: vect_add u' v'
  | _, _ => []
  end.

(** [MPI_Reduce(charVect, allCharVect, htotal, MPI_INT, MPI_SUM, 0, ...)]:
    the element-wise sum of the workers' vectors, each of [htotal]
    entries. *)
Definition MPI_Reduce_sum (htot : nat) (vs : list (list Z)) : list Z :=
  fold_left vect_add vs (repeat 0 htot).

(** The [for( i = 0; i < hits->htotal; i++ )] loop of rank 0. *)
Fixpoint notFoundLoop (hl : list (list ascii)) (all : list Z) (i : nat)
         (f : list ascii) : list ascii :=
  match hl with
  | [] => f
  | hit :: rest =>
      let f' := if nth i all 0 =? 0 then (f ++ hit) ++ [NL] else f in
      notFoundLoop rest all (S i) f'
  end.

(** [writeHitsNotFound]: [opened] says that rank 0 could open
    [<of>.notFound], and [vs] are the vectors of the workers that
    [MPI_Reduce] sums.  The result is the value returned, the same on
    every rank, and the content of the report on rank 0; [None] when
    there is no file: it was not opened, or it is removed because
    [fsize], the size of the file stored in an [int], is not
    positive. *)
Definition writeHitsNotFound (opened : bool) (h : hits_t)
           (vs : list (list Z)) : Z * option (list ascii) :=
  if opened then
    let allCharVect := MPI_Reduce_sum (length (hitList h)) vs in
    let f := notFoundLoop (hitList h) allCharVect 0 [] in
    let fsize := wrap 32 (Z.of_nat (length f)) in
    (0, if fsize <=? 0 then None else Some f)
  else (ERROR, None).

(** [partQueryFile] for the worker whose plan entry is [fo], its output
    file opened: the scan of the partition and then, in lookup mode,
    the report of the hit IDs not found, whose status replaces [err];
    [others] are the vectors of the other workers.  (The code is
    compiled without [BCAST_OUTFILES].) *)
Definition partQueryFile (a : args_t) (h : hits_t) (procCnt : Z)
           (file : list ascii) (fo : offs_t) (msz : Z)
           (opened : bool) (others : list (list Z))
  : option (scan_t * Z) :=
  match partScan a h procCnt file fo msz with
  | None => None
  | Some (st, err) =>
      Some (st,
            if lookupMode (hits st)
            then fst (writeHitsNotFound opened (hits st)
                                        (charVect (hits st) :: others))
            else err)
  end.

(* ------------------------------------------------------------------ *)
(** ** setOffsQueryFile, setOffs *)

(** [fseeko(fd, readOffs, SEEK_SET)] then
    [fread(buffer, sizeof(char), seqChunks, fd)]: bytes past the end of
    the file are not read and the buffer keeps what it held there. *)
Definition fread (file : list ascii) (readOffs seqChunks : Z)
           (buffer : list ascii) : list ascii :=
  let d := slice file (Z.to_nat readOffs) (Z.to_nat seqChunks) in
  d ++ skipn (length d) buffer.

(** [for(c = seqChunks - 1; c >= 0; c--)]: [n] is [c + 1]; the result is
    [offset] and whether a [>] was met. *)
Fixpoint chunkLoop (buffer : list ascii) (n : nat) (offset : Z)
  : Z * bool :=
  match n with
  | O => (offset, false)
  | S c =>
      let offset := offset + 1 in
      if Ascii.eqb (deref buffer c) GT then (offset, true)
      else chunkLoop buffer c offset
  end.

Inductive seek_t :=
| SeekLen (len : Z) (buffer : list ascii)   (* [fileOffs[i*3+2]] is set *)
| SeekRetry                                 (* [return 2] *)
| SeekFuel.

(** [while( foundSeqBeg == 0 )] for the partition that starts at page
    offset [po] with skew [sk]. *)
Fixpoint seekLoop (file : list ascii) (seqChunks partSz po sk : Z)
         (fuel : nat) (j offset : Z) (buffer : list ascii) : seek_t :=
  match fuel with
  | O => SeekFuel
  | S fuel' =>
      let j := j + 1 in
      let readOffs := po + partSz - seqChunks * j in
      if readOffs <? 0 then SeekRetry
      else
        let buffer := fread file readOffs seqChunks buffer in
        let '(offset, found) :=
          chunkLoop buffer (Z.to_nat seqChunks) offset in
        if found then
          let len := partSz - offset - sk in
          if len =? 0 then SeekRetry else SeekLen len buffer
        else seekLoop file seqChunks partSz po sk fuel' j offset buffer
  end.

Inductive offs_result :=
| OffsOk (fileOffs : list offs_t)   (* [return 0] *)
| OffsRetry                         (* [return 2] *)
| OffsFuel.

(** [prevOffs], [chunkOffs] and the first two entries of partition [i]
    computed from partition [i-1] (the last entry of [plan]). *)
Definition nextOffs (seqChunks : Z) (plan : list offs_t) : Z * Z :=
  let '(ppo, psk, plen) := last plan (0, 0, 0) in
  let prevOffs := ppo + psk + plen in
  let chunkOffs := prevOffs / seqChunks in
  (seqChunks * chunkOffs, prevOffs - seqChunks * chunkOffs).

(** [for(i = 0; i < procCnt; i++)]: [plan] holds partitions [0..i-1],
    [fuel] is [procCnt - i]. *)
Fixpoint offsLoop (file : list ascii) (fsize seqChunks partSz : Z)
         (procCnt : Z) (fuel : nat) (i : Z) (plan : list offs_t)
         (buffer : list ascii) : offs_result :=
  match fuel with
  | O => OffsOk plan
  | S fuel' =>
      if i <? procCnt - 1 then
        let '(po, sk) :=
          if i =? 0 then (0, 0) else nextOffs seqChunks plan in
        match seekLoop file seqChunks partSz po sk
                (S (Z.to_nat ((po + partSz) / seqChunks))) 0 0 buffer with
        | SeekRetry => OffsRetry
        | SeekFuel => OffsFuel
        | SeekLen len buffer' =>
            offsLoop file fsize seqChunks partSz procCnt fuel' (i + 1)
                     (plan ++ [(po, sk, len)]) buffer'
        end
      else
        let '(po, sk) := nextOffs seqChunks plan in
        offsLoop file fsize seqChunks partSz procCnt fuel' (i + 1)
                 (plan ++ [(po, sk, fsize - (po + sk))]) buffer
  end.

(** [setOffsQueryFile]: [seqChunks] is the page size, [buffer] the
    content of the freshly allocated page buffer.  The partition size is
    [ceil((double)fsize / procCnt)] rounded down to whole pages; the
    quotients are taken on integers (the [double] ones agree with them
    below 2^53). *)
Definition setOffsQueryFile (file : list ascii) (fsize seqChunks : Z)
           (procCnt : Z) (buffer : list ascii) : offs_result :=
  let partSz := ceil_div fsize procCnt in
  let multiplier := partSz / seqChunks in
  let partSz := seqChunks * multiplier in
  offsLoop file fsize seqChunks partSz procCnt (Z.to_nat procCnt) 0 []
           buffer.

(** The [while( 1 )] loop of rank 0 in [setOffs]: the adjusted process
    count and the plan.  [heap n] is what the page buffer holds when it
    is allocated for the attempt with [n] processes. *)
Fixpoint setOffs (file : list ascii) (qfsz seqChunks : Z)
         (heap : nat -> list ascii) (procCnt : nat)
  : option (nat * list offs_t) :=
  match procCnt with
  | O => None
  | S n =>
      if Nat.eqb procCnt 1 then Some (1%nat, [(0, 0, qfsz)])
      else
        match setOffsQueryFile file qfsz seqChunks (Z.of_nat procCnt)
                (heap procCnt) with
        | OffsOk plan => Some (procCnt, plan)
        | OffsRetry => setOffs file qfsz seqChunks heap n
        | OffsFuel => None
        end
  end.

(* ------------------------------------------------------------------ *)
(** ** parseCmdline *)

(** The argument of [-l] when it holds a [':'], as the code tells the
    forms apart: [":"] alone, a [':'] at both ends, a [':'] at one end
    with the value [strtoll] reads, or two values.  [more] says that
    [strtok] finds one more value after the expected ones. *)
Inductive range_arg :=
| RangeAll
| RangeBothEnds
| RangeUpTo (testOpt : Z) (more : bool)
| RangeFrom (testOpt : Z) (more : bool)
| RangePair (startLen endLen : Z) (more : bool).

(** One option as [getopt_long] returns it.  The numeric arguments of
    [-c], [-l], [-a] and [-p] are given as [strtoll] reads them from
    [optarg].  The case [-l] first copies its argument into the scratch
    array [loptarg] ([strncpy] over 128 bytes) and parses it there:
    [copy] is what the array holds when the turn ends, the argument
    and the NUL bytes [strncpy] pads with, the [':'] that [strtok] met
    replaced by NUL.  The case [-b] reads its number from [loptarg]:
    [optarg] holds the bytes of the argument up to its NUL, a leading
    ['='] skipped, and [before] the bytes that stand before them in the
    same element of [argv] (none when the argument is an element of
    its own). *)
Inductive cmd_opt :=
| Opt_q (optarg : string)
| Opt_o (optarg : string)
| Opt_s (optarg : string)
| Opt_c (testOpt : Z)
| Opt_l (testOpt : Z) (copy : list ascii)
| Opt_l_range (r : range_arg) (copy : list ascii)
| Opt_a (testOpt : Z)
| Opt_b (before optarg : list ascii)
| Opt_v
| Opt_z
| Opt_t (optarg : string)
| Opt_p (testOpt : Z)
| Opt_unknown.

(** [strncpy(dst, optarg, FILE_LEN)]. *)
Definition strncpy (optarg : string) : string := substring 0 FILE_LEN optarg.

(** [strncmp(a, b, FILE_LEN) == 0]. *)
Definition same_file (a b : string) : bool :=
  String.eqb (substring 0 FILE_LEN a) (substring 0 FILE_LEN b).

Definition set_files (a : args_t) (q o s t : string) : args_t :=
  mkArgs q o s t (rseqLen a) (seqLen a) (seqCnt a) (bytesLimit a)
         (seqLenBuf a) (rseqLenBuf a) (annotCnt a) (pipeMode a)
         (searchMode a).

Definition set_limits (a : args_t) (c b an : Z) : args_t :=
  mkArgs (qf a) (of' a) (sf a) (btable a) (rseqLen a) (seqLen a) c b
         (seqLenBuf a) (rseqLenBuf a) an (pipeMode a) (searchMode a).

Definition set_modes (a : args_t) (p s : Z) : args_t :=
  mkArgs (qf a) (of' a) (sf a) (btable a) (rseqLen a) (seqLen a)
         (seqCnt a) (bytesLimit a) (seqLenBuf a) (rseqLenBuf a)
         (annotCnt a) p s.

Definition set_lengths (a : args_t) (r : list Z) (rn : Z) (l : list Z)
           (ln : Z) : args_t :=
  mkArgs (qf a) (of' a) (sf a) (btable a) r l (seqCnt a) (bytesLimit a)
         ln rn (annotCnt a) (pipeMode a) (searchMode a).

(** [for(i = 0; i < seqLenBuf; i++) if( testOpt == seqLen[i] ) found = 1]. *)
Fixpoint foundLen (l : list Z) (n : nat) (i : Z) (testOpt : Z) : bool :=
  match n with
  | O => false
  | S n' => if testOpt =? zidx l i then true
            else foundLen l n' (i + 1) testOpt
  end.

Fixpoint foundRange (r : list Z) (n : nat) (i : Z) (startLen endLen : Z)
  : bool :=
  match n with
  | O => false
  | S n' =>
      if (startLen =? zidx r (i * 2)) && (endLen =? zidx r (i * 2 + 1))
      then true
      else foundRange r n' (i + 1) startLen endLen
  end.

(** The tail of the range case once [startLen] and [endLen] are known. *)
Definition addRange (a : args_t) (ret startLen endLen : Z) : args_t * Z :=
  if endLen <=? startLen then (a, ERROR)
  else if rseqLenBuf a <? MAXARG_CNT then
    if foundRange (rseqLen a) (Z.to_nat (rseqLenBuf a)) 0 startLen endLen
    then (a, ret)
    else
      let r := setZ (setZ (rseqLen a) (Z.to_nat (rseqLenBuf a * 2)) startLen)
                    (Z.to_nat (rseqLenBuf a * 2 + 1)) endLen in
      (set_lengths a r (rseqLenBuf a + 1) (seqLen a) (seqLenBuf a), ret)
  else (a, ret).

(** [isalpha], [toupper], [isspace] and the decimal digits, in the C
    locale. *)
Definition isupper (c : ascii) : bool :=
  (65 <=? nat_of_ascii c)%nat && (nat_of_ascii c <=? 90)%nat.

Definition islower (c : ascii) : bool :=
  (97 <=? nat_of_ascii c)%nat && (nat_of_ascii c <=? 122)%nat.

Definition isalpha (c : ascii) : bool := isupper c || islower c.

Definition toupper (c : ascii) : ascii :=
  if islower c then ascii_of_nat (nat_of_ascii c - 32) else c.

Definition isspace (c : ascii) : bool :=
  (nat_of_ascii c =? 32)%nat
  || ((9 <=? nat_of_ascii c)%nat && (nat_of_ascii c <=? 13)%nat).

Definition isdigit (c : ascii) : bool :=
  (48 <=? nat_of_ascii c)%nat && (nat_of_ascii c <=? 57)%nat.

Fixpoint skipSpaces (s : list ascii) : list ascii :=
  match s with
  | c :: t => if isspace c then skipSpaces t else s
  | [] => []
  end.

(** The digits at the head of [s] read in base 10 after [acc], and what
    follows them. *)
Fixpoint readDigits (s : list ascii) (acc : Z) : Z * list ascii :=
  match s with
  | c :: t =>
      if isdigit c
      then readDigits t (acc * 10 + Z.of_nat (nat_of_ascii c - 48))
      else (acc, s)
  | [] => (acc, [])
  end.

(** [strtoll(buf, NULL, 10)] on an array of bytes: white space, a sign
    and digits are read up to the first byte that is none of them (a
    NUL, for one); the value is brought into the range of [long long].
    [None] when no byte of the array stops the reading: the function
    then reads past the array. *)
Definition strtoll (buf : list ascii) : option Z :=
  let s := skipSpaces buf in
  let '(neg, s) :=
    match s with
    | c :: t => if Ascii.eqb c "-" then (true, t)
                else if Ascii.eqb c "+" then (false, t)
                else (false, s)
    | [] => (false, [])
    end in
  let '(v, rest) := readDigits s 0 in
  match rest with
  | [] => None
  | _ :: _ => Some (Z.max LLONG_MIN (Z.min LLONG_MAX (if neg then - v else v)))
  end.

(** The state of the option loop: the options structure, [ret] and the
    scratch array [loptarg]. *)
Definition pstate : Type := args_t * Z * list ascii.

(** [*(optarg + optlen - k)] for [k] = 1, 2: [None] when the byte lies
    before the element of [argv] that holds the argument. *)
Definition back (before optarg : list ascii) (k : nat) : option ascii :=
  let m := before ++ optarg in
  if (k <=? length m)%nat then Some (nth (length m - k) m zero) else None.

(** The multiplier of a suffix, upper-cased: KB, MB or GB. *)
Definition multiplier (s0 s1 : ascii) : option Z :=
  if Ascii.eqb s1 "B" then
    if Ascii.eqb s0 "K" then Some (2 ^ 10)
    else if Ascii.eqb s0 "M" then Some (2 ^ 20)
    else if Ascii.eqb s0 "G" then Some (2 ^ 30)
    else None
  else None.

(** The end of the case [-b]: [strtoll(loptarg, NULL, 10)], the test
    of the value and the product, which is stored modulo 2^64. *)
Definition setBytes (a : args_t) (ret : Z) (loptarg : list ascii) (mult : Z)
  : option pstate :=
  match strtoll loptarg with
  | None => None
  | Some testOpt =>
      if testOpt <? 1 then Some (a, ERROR, loptarg)
      else Some (set_limits a (seqCnt a) (wrap 64 (testOpt * mult))
                            (annotCnt a), ret, loptarg)
  end.

(** The case [-b].  With a suffix of two letters the bytes before it are
    copied into [loptarg] and a NUL is written after them; without one
    the bytes of the argument are copied and no NUL is written, so that
    [strtoll] goes on into what the array held before.  [None] stands
    for undefined behaviour: a byte read before the argument's element,
    a copy of [optlen - 2 < 0] bytes, a write past the 128 bytes of
    [loptarg], or [strtoll] reading past them. *)
Definition parseBytes (a : args_t) (ret : Z) (loptarg : list ascii)
           (before optarg : list ascii) : option pstate :=
  let optlen := length optarg in
  match back before optarg 1 with
  | None => None
  | Some c1 =>
      let suffixed :=
        if isalpha c1 then option_map isalpha (back before optarg 2)
        else Some false in
      match suffixed with
      | None => None
      | Some true =>
          if (optlen <? 2)%nat || (128 <=? optlen - 2)%nat then None
          else
            let n := (optlen - 2)%nat in
            let l := poke (firstn n optarg ++ skipn n loptarg) n zero in
            match multiplier (toupper (nth n optarg zero))
                             (toupper (nth (S n) optarg zero)) with
            | None => Some (a, ERROR, l)
            | Some mult => setBytes a ret l mult
            end
      | Some false =>
          if (128 <? optlen)%nat then None
          else setBytes a ret (firstn optlen optarg ++ skipn optlen loptarg) 1
      end
  end.

(** One turn of the option loop: the [switch( opt )]. *)
Definition parseOpt (a : args_t) (ret : Z) (loptarg : list ascii)
           (o : cmd_opt) : option pstate :=
  match o with
  | Opt_q s =>
      Some (set_files a (strncpy s) (of' a) (sf a) (btable a), ret, loptarg)
  | Opt_o s =>
      Some (set_files a (qf a) (strncpy s) (sf a) (btable a), ret, loptarg)
  | Opt_s s =>
      Some (set_modes (set_files a (qf a) (of' a) (strncpy s) (btable a))
                      (pipeMode a) 1, ret, loptarg)
  | Opt_c testOpt =>
      if testOpt <? 0 then Some (a, ERROR, loptarg)
      else Some (set_limits a testOpt (bytesLimit a) (annotCnt a), ret,
                 loptarg)
  | Opt_l_range r copy =>
      Some (match r with
            | RangeAll => addRange a ret 0 SEQ_COUNT
            | RangeBothEnds => (a, ERROR)
            | RangeUpTo testOpt more =>
                if testOpt <? 0 then (a, ERROR)
                else if more then (a, ERROR)
                else addRange a ret 0 testOpt
            | RangeFrom testOpt more =>
                if testOpt <? 0 then (a, ERROR)
                else if more then (a, ERROR)
                else addRange a ret testOpt SEQ_COUNT
            | RangePair startLen endLen more =>
                if startLen <? 0 then (a, ERROR)
                else if endLen <? 1 then (a, ERROR)
                else if more then (a, ERROR)
                else addRange a ret startLen endLen
            end, copy)
  | Opt_l testOpt copy =>
      Some (if testOpt <? 0 then (a, ERROR)
            else if seqLenBuf a <? MAXARG_CNT then
              if foundLen (seqLen a) (Z.to_nat (seqLenBuf a)) 0 testOpt
              then (a, ret)
              else (set_lengths a (rseqLen a) (rseqLenBuf a)
                      (setZ (seqLen a) (Z.to_nat (seqLenBuf a)) testOpt)
                      (seqLenBuf a + 1), ret)
            else (a, ret), copy)
  | Opt_a testOpt =>
      if testOpt =? INT_MIN then Some (a, ERROR, loptarg)
      else Some (set_limits a (seqCnt a) (bytesLimit a) (wrap 32 testOpt),
                 ret, loptarg)
  | Opt_b before optarg => parseBytes a ret loptarg before optarg
  | Opt_v => Some (a, ret, loptarg)
  | Opt_z => Some (a, ret, loptarg)
  | Opt_t s =>
      Some (set_files a (qf a) (of' a) (sf a) (strncpy s), ret, loptarg)
  | Opt_p testOpt =>
      if (testOpt <? 0) || (testOpt >? 2) then Some (a, ERROR, loptarg)
      else Some (set_modes a testOpt (searchMode a), ret, loptarg)
  | Opt_unknown => Some (a, ERROR, loptarg)
  end.

(** The structure after [memset] and the defaults. *)
Definition default_args : args_t :=
  mkArgs "" OUTPUT_FILE "" "" (repeat 0 10) (repeat 0 5) SEQ_COUNT
         BYTES_LIMIT 0 0 ANNOT_CNT PIPE_MODE SEARCH_MODE.

Definition orErr (c : bool) (ret : Z) : Z := if c then ERROR else ret.

(** The checks after the option loop. *)
Definition validate (a : args_t) (ret : Z) : Z :=
  let ret := orErr (negb (pipeMode a =? 0) && negb (searchMode a =? 0)) ret in
  let ret :=
    if String.eqb (qf a) "" then ERROR
    else
      let ret := orErr (same_file (qf a) (of' a)) ret in
      if negb (searchMode a =? 0)
      then orErr (same_file (qf a) (sf a)) ret
      else ret in
  if negb (pipeMode a =? 0) then
    if String.eqb (btable a) "" then ERROR
    else
      let ret := orErr (same_file (btable a) (qf a)) ret in
      orErr (same_file (btable a) (of' a)) ret
  else ret.

(** The option loop from the state [s] on; an undefined turn ends it. *)
Definition optStep (s : option pstate) (o : cmd_opt) : option pstate :=
  match s with
  | Some (a, ret, loptarg) => parseOpt a ret loptarg o
  | None => None
  end.

Definition optLoop (argv : list cmd_opt) (s : option pstate)
  : option pstate :=
  fold_left optStep argv s.

(** [parseCmdline]: the value returned and the options structure.
    [stack] is what the array [loptarg] holds when the function is
    entered. *)
Definition parseCmdline (stack : list ascii) (argv : list cmd_opt)
  : option (Z * args_t) :=
  match optLoop argv (Some (default_args, 0, stack)) with
  | Some (a, ret, _) => Some (validate a ret, a)
  | None => None
  end.

(** The options structure of a command line; the defaults when the
    parsing is undefined. *)
Definition args_of (r : option (Z * args_t)) : args_t :=
  match r with
  | Some (_, a) => a
  | None => default_args
  end.

(** [main]: the exit status decided by the value [parseCmdline]
    returns; [None] means the run goes on to the scan. *)
Definition config_status (ret : Z) : option Z :=
  if ret =? 0 then None else Some CFGERROR.

(* ------------------------------------------------------------------ *)
(** ** Conditions used in the statements *)

(** The two quota tests at the top of the extraction loop. *)
Definition quota_reached (a : args_t) (procCnt : Z) (st : scan_t) : bool :=
  (procCnt =? 1)
  && ((xCnt st =? seqCnt a)
      || (lookupMode (hits st) && (xCnt st =? htotal (hits st)))).

(** The entries of a characteristic vector are flags. *)
Definition flags (cv : list Z) : Prop := Forall (fun x => x = 0 \/ x = 1) cv.

(** The hit index is the one loaded before the scan, its vector apart. *)
Definition same_index (h0 h : hits_t) : Prop :=
  hitList h = hitList h0 /\ hpipeMode h = hpipeMode h0 /\
  hsearchMode h = hsearchMode h0 /\
  length (charVect h) = length (charVect h0).

(** The state [partQueryFile] starts from. *)
Definition init_scan (h : hits_t) : scan_t :=
  mkScan [] start_query h 0 [] 0 0.

(* ------------------------------------------------------------------ *)
(** ** The predicates as the specification words them *)

(** Filter predicate of the specification: [seqlen] equals one of the
    configured exact lengths or lies in one of the configured ranges. *)
Definition filter_predicate_spec (lens : list Z) (ranges : list (Z * Z))
           (seqlen : Z) : bool :=
  existsb (Z.eqb seqlen) lens
  || existsb (fun r => (fst r <=? seqlen) && (seqlen <=? snd r)) ranges.

(** The bytes of [l] up to the next field delimiter. *)
Fixpoint take_id (l : list ascii) : list ascii :=
  match l with
  | [] => []
  | c :: t => if isDelim c then [] else c :: take_id t
  end.

(** Every ID that begins immediately after an SOH of [l]. *)
Fixpoint alt_ids (l : list ascii) : list (list ascii) :=
  match l with
  | [] => []
  | c :: t => if Ascii.eqb c SOH then take_id t :: alt_ids t else alt_ids t
  end.

(** Header list of the specification for the header text [hdr] (the
    bytes between the leading [>] and the newline). *)
Definition header_ids (hdr : list ascii) : list (list ascii) :=
  take_id hdr :: alt_ids hdr.

(** Lookup predicate of the specification: some ID of the header list is
    bytewise equal to some indexed hit ID. *)
Definition lookup_predicate_spec (hl : list (list ascii))
           (hdr : list ascii) : bool :=
  existsb (fun id => existsb (bytes_eqb id) hl) (header_ids hdr).

(** The lines of a file, line ends dropped. *)
Fixpoint lines_from (l cur : list ascii) : list (list ascii) :=
  match l with
  | [] => match cur with [] => [] | _ => [rev cur] end
  | c :: t => if Ascii.eqb c NL then rev cur :: lines_from t []
              else lines_from t (c :: cur)
  end.

(** The header texts of the records of a FASTA file: its lines that
    begin with [>], without that byte. *)
Definition headers_of (file : list ascii) : list (list ascii) :=
  flat_map (fun ln => match ln with
                      | c :: hdr => if Ascii.eqb c GT then [hdr] else []
                      | [] => []
                      end)
           (lines_from file []).

(** Seen-count of the specification for the hit ID [hit]: the number of
    source records whose primary or any alternative header ID equals
    it. *)
Definition seen_count_spec (file : list ascii) (hit : list ascii) : Z :=
  Z.of_nat (length (filter (fun hdr => existsb (bytes_eqb hit)
                                               (header_ids hdr))
                           (headers_of file))).


(** The per-worker vectors of a run: each worker scans its plan entry
    from a copy of the loaded index. *)
Definition worker_vect (a : args_t) (h : hits_t) (procCnt : Z)
           (file : list ascii) (msz : Z) (fo : offs_t) : list Z :=
  match partScan a h procCnt file fo msz with
  | Some (st, _) => charVect (hits st)
  | None => []
  end.

(** The byte range of a plan entry: it begins at
    [page_offset + skew] and holds [length] bytes. *)
Definition range_start (fo : offs_t) : Z :=
  let '(po, sk, _) := fo in po + sk.

Definition range_end (fo : offs_t) : Z :=
  let '(po, sk, len) := fo in po + sk + len.

(** The ranges of a plan are contiguous in byte order from offset [a]:
    each begins where the previous one ends. *)
Fixpoint contiguous_from (a : Z) (plan : list offs_t) : Prop :=
  match plan with
  | [] => True
  | fo :: rest => range_start fo = a /\ contiguous_from (range_end fo) rest
  end.

(** Where a contiguous plan that begins at [a] ends. *)
Fixpoint chain_end (a : Z) (plan : list offs_t) : Z :=
  match plan with
  | [] => a
  | fo :: rest => chain_end (range_end fo) rest
  end.

(** The sum of the lengths of a plan. *)
Definition plan_sum (plan : list offs_t) : Z :=
  fold_right (fun fo acc => snd fo + acc) 0 plan.

(** Offset [p] is at the start of a line: the file start, or the byte
    after a newline. *)
Definition starts_line (file : list ascii) (p : nat) : bool :=
  Nat.eqb p 0 || Ascii.eqb (deref file (p - 1)) NL.

(** Offset [p] holds a [>] that begins a record. *)
Definition begins_record (file : list ascii) (p : nat) : bool :=
  Ascii.eqb (deref file p) GT && starts_line file p.

(** Every [>] of the file is at the start of a line. *)
Definition gt_only_at_line_start (file : list ascii) : Prop :=
  forall p, deref file p = GT -> starts_line file p = true.

(** The lines of a well-formed FASTA file: [st] is 0 before the first
    header, 1 after a header (a body line has to follow), 2 after a
    body line.  A line that begins with [>] is a header; no line is
    empty. *)
Fixpoint wf_lines (st : nat) (ls : list (list ascii)) : bool :=
  match ls with
  | [] => Nat.eqb st 2
  | [] :: _ => false
  | (c :: _) :: rest =>
      if Ascii.eqb c GT then negb (Nat.eqb st 1) && wf_lines 1 rest
      else negb (Nat.eqb st 0) && wf_lines 2 rest
  end.

(** Well-formed FASTA as the specification defines it: records made of
    a header line that begins with [>] and of one or more body lines
    that do not, every line ended by a newline. *)
Definition fasta_wf_spec (file : list ascii) : bool :=
  Ascii.eqb (last file zero) NL && wf_lines 0 (lines_from file []).

(* ------------------------------------------------------------------ *)
(** ** Records, and the scan taken record by record *)

(** A record given by its header text and its body, the newline that
    ends the body left out. *)
Definition record_t : Type := list ascii * list ascii.

Definition rec_bytes (r : record_t) : list ascii :=
  GT :: fst r ++ NL :: snd r ++ [NL].

Definition recs_bytes (recs : list record_t) : list ascii :=
  concat (map rec_bytes recs).

(** The records the scanner is written for: no [>] but the leading one,
    a header of one line, a body with at least one sequence byte. *)
Definition wf_rec (r : record_t) : Prop :=
  Forall (fun c => c <> GT /\ c <> NL) (fst r) /\
  Forall (fun c => c <> GT) (snd r) /\
  Exists (fun c => c <> NL) (snd r).

(** The logical sequence length of a body: its bytes other than
    newlines. *)
Definition seq_len (b : list ascii) : Z :=
  Z.of_nat (length (filter (fun c => negb (Ascii.eqb c NL)) b)).

(** The part of the scan state that outlives a region: the hit index,
    the counters, the output and the flag. *)
Definition core (st : scan_t) : scan_t := with_region st [].

(** The records scanned one by one, each as a region of its own, with
    the quota tests of the extraction loop before each of them and at
    the end. *)
Fixpoint scanRecords (a : args_t) (procCnt : Z) (recs : list record_t)
         (st : scan_t) : scan_t :=
  match recs with
  | [] => if quota_reached a procCnt st then set_done st else st
  | r :: rest =>
      if quota_reached a procCnt st then set_done st
      else scanRecords a procCnt rest
             (fst (extractBody a (length (rec_bytes r) - 1)
                               (with_region st (rec_bytes r))))
  end.

(** The bytes of the partition of a plan entry. *)
Definition partition_bytes (file : list ascii) (fo : offs_t) : list ascii :=
  slice file (Z.to_nat (range_start fo)) (Z.to_nat (snd fo)).

(** Rewriting of alternative headers cannot occur: annotations are not
    written, or no header holds an SOH. *)
Definition no_rewrite (a : args_t) (recs : list record_t) : Prop :=
  annotCnt a = 0 \/ Forall (fun r => Forall (fun c => c <> SOH) (fst r)) recs.

(** The pointers of the record [(hdr, b)] that stands after [n] bytes. *)
Definition rec_query (n : nat) (hdr b : list ascii) : query_t :=
  mkQuery n (n + (length hdr + 1)) (n + (length hdr + 2))
          (n + (length hdr + length b + 2)).

(** The flag [done] is raised by a quota test only. *)
Definition quota_done (a : args_t) (procCnt : Z) (st : scan_t) : Prop :=
  done st = 0 \/ (done st = 1 /\ quota_reached a procCnt st = true).

(** What the scan has done when a chunk is entered: the records [ra]
    are scanned, and the carry buffer followed by the bytes from the
    chunk on are the records [rb] still to scan. *)
Definition carried (a : args_t) (procCnt : Z) (h0 : hits_t)
           (recs : list record_t) (W k : Z) (st : scan_t)
           (buf : list ascii) : Prop :=
  exists ra rb,
    recs = ra ++ rb /\
    ((ra = [] /\ core st = core (init_scan h0)) \/
     core st = core (scanRecords a procCnt ra (init_scan h0))) /\
    quota_done a procCnt st /\ same_index h0 (hits st) /\
    bytesWritten st <= Z.of_nat (length (recs_bytes ra)) /\
    buf ++ skipn (Z.to_nat (k * W)) (recs_bytes recs) = recs_bytes rb /\
    (0 < k -> k * W < Z.of_nat (length (recs_bytes recs)) -> buf <> []) /\
    (k = 0 \/ Z.of_nat (length (recs_bytes recs)) <= k * W -> buf = []).

(* ------------------------------------------------------------------ *)
(** ** What a scan writes, record by record *)

(** The header text before its [cnt]-th field delimiter ([|] or SOH),
    the whole header when it has fewer. *)
Fixpoint fields (cnt : Z) (s : list ascii) : list ascii :=
  match s with
  | [] => []
  | c :: s' =>
      if isDelim c
      then if cnt - 1 =? 0 then [] else c :: fields (cnt - 1) s'
      else c :: fields cnt s'
  end.

(** The bytes of a selected record in the output, by the value of
    [annotCnt]. *)
Definition written (a : args_t) (r : record_t) : list ascii :=
  if annotCnt a =? INT_MAX then rec_bytes r
  else if annotCnt a =? INT_MIN + 1 then GT :: fst r ++ [NL]
  else if annotCnt a >? 0
       then GT :: fields (annotCnt a) (fst r) ++ NL :: snd r ++ [NL]
  else if annotCnt a <? 0 then fields (- annotCnt a) (fst r) ++ [NL]
  else snd r ++ [NL].

(** A record passes the length filter: no exact length and no range is
    configured, or its sequence length lies within the first range
    configured, or is the first exact length configured. *)
Definition selected (a : args_t) (r : record_t) : bool :=
  let n := seq_len (snd r) in
  if (seqLenBuf a =? 0) && (rseqLenBuf a =? 0) then true
  else ((0 <? rseqLenBuf a)
        && (nth 0 (rseqLen a) 0 <=? n) && (n <=? nth 1 (rseqLen a) 0))
       || ((0 <? seqLenBuf a) && (n =? nth 0 (seqLen a) 0)).

(** The records a scan keeps: the selected ones, and in a run of one
    process no more than [seqCnt] of them. *)
Definition kept (a : args_t) (procCnt : Z) (recs : list record_t)
  : list record_t :=
  if procCnt =? 1
  then firstn (Z.to_nat (seqCnt a)) (filter (selected a) recs)
  else filter (selected a) recs.

(** The scan state once the record [r] is written, or passed over. *)
Definition emit (a : args_t) (r : record_t) (st : scan_t) : scan_t :=
  if selected a r
  then mkScan (mem st) (query st) (hits st) (xCnt st + 1)
              (ofd st ++ written a r)
              (bytesWritten st + Z.of_nat (length (written a r))) (done st)
  else st.

(* ------------------------------------------------------------------ *)
(** ** loadSearchIDs *)

Definition HITS_ID_LEN : Z := 64.

(** [if( nch > longest ) longest = nch]. *)
Definition longer (nch longest : Z) : Z :=
  if nch >? longest then nch else longest.

(** The C string a buffer holds: its bytes before the first NUL. *)
Fixpoint cstr (l : list ascii) : list ascii :=
  match l with
  | [] => []
  | c :: t => if Ascii.eqb c zero then [] else c :: cstr t
  end.

(** [strncmp(s1, s2, n) == 0] on two buffers that hold C strings. *)
Definition strncmp_eq (s1 s2 : list ascii) (n : nat) : bool :=
  bytes_eqb (firstn n (cstr s1)) (firstn n (cstr s2)).

(** The first [while( 1 )] loop over the mapped file, whose last byte is
    at index [fin]: [hits->total] and [longest]. *)
Fixpoint countLoop (m : list ascii) (fin : nat) (fuel : nat) (pch : nat)
         (nch total longest : Z) : option (Z * Z) :=
  match fuel with
  | O => None
  | S fuel' =>
      let nch := nch + 1 in
      if Ascii.eqb (deref m pch) NL || Nat.eqb pch fin then
        let total := total + 1 in
        let longest := longer nch longest in
        if Nat.eqb pch fin then Some (total, longest)
        else countLoop m fin fuel' (S pch) 0 total longest
      else countLoop m fin fuel' (S pch) nch total longest
  end.

(** The inner [while( 1 )] that reads one line: the index of the byte
    that ends it (a newline, or the last byte of the file) and [len]. *)
Fixpoint lineLoop (m : list ascii) (fin : nat) (fuel : nat) (pch : nat)
         (len : Z) : option (nat * Z) :=
  match fuel with
  | O => None
  | S fuel' =>
      let len := len + 1 in
      if Ascii.eqb (deref m pch) NL || Nat.eqb pch fin then Some (pch, len)
      else lineLoop m fin fuel' (S pch) len
  end.

(** [for(j = 0; j < hits->htotal; j++) if( strncmp(line, hitList[j], len)
    == 0 ) { exists = 1; break; }]. *)
Fixpoint existsLoop (line : list ascii) (hl : list (list ascii)) (len : Z)
  : bool :=
  match hl with
  | [] => false
  | hit :: rest =>
      if strncmp_eq line hit (Z.to_nat len) then true
      else existsLoop line rest len
  end.

(** The rest of a turn of [while( done == 0 )] once [line] holds the
    [len] bytes of the line, its last byte included: the hit list after
    it.  [strncpy] followed by the NUL at [len] stores the first [len]
    bytes of the C string of [line]. *)
Definition addSearchID (hl : list (list ascii)) (line : list ascii)
           (len : Z) : list (list ascii) :=
  if len <=? 1 then hl
  else
    let len := if len + 1 >? HITS_ID_LEN then HITS_ID_LEN else len in
    let len := len - 1 in
    if existsLoop line hl len then hl
    else hl ++ [firstn (Z.to_nat len) (cstr line)].

(** [while( done == 0 )]: the hit list when the last byte is read. *)
Fixpoint readLoop (m : list ascii) (fin : nat) (fuel : nat) (pch : nat)
         (hl : list (list ascii)) : option (list (list ascii)) :=
  match fuel with
  | O => None
  | S fuel' =>
      match lineLoop m fin (S fin - pch) pch 0 with
      | None => None
      | Some (pe, len) =>
          let line := slice m (pe + 1 - Z.to_nat len) (Z.to_nat len) in
          let hl' := addSearchID hl line len in
          if Nat.eqb pe fin then Some hl'
          else readLoop m fin fuel' (S pe) hl'
      end
  end.

(** [loadSearchIDs]: [file] is the content of the search file, [None]
    when [fopen] fails; the result is the return value and the index.
    [total] and [longest + 1] are the sizes of the array of IDs and of
    the line buffer; the characteristic vector comes from [calloc]. *)
Definition loadSearchIDs (file : option (list ascii)) (h : hits_t)
  : option (Z * hits_t) :=
  if hsearchMode h =? 0 then Some (0, h)
  else
    match file with
    | None => Some (ERROR, h)
    | Some m =>
        if Z.of_nat (length m) <=? 0 then Some (ERROR, h)
        else
          let fin := (length m - 1)%nat in
          match countLoop m fin (S fin) 0 0 0 0 with
          | None => None
          | Some (total, longest) =>
              match readLoop m fin (S fin) 0 [] with
              | None => None
              | Some hl =>
                  Some (0, mkHits hl (repeat 0 (length hl)) (hpipeMode h)
                                  (hsearchMode h))
              end
          end
    end.

(** Conditions on lists of IDs used in the statements. *)
Definition is_prefix (x y : list ascii) : Prop := firstn (length x) y = x.

(** An ID a search file can hold on a line of its own: not empty, at
    most 63 bytes, none of them a newline or a NUL. *)
Definition plain_id (id : list ascii) : Prop :=
  id <> [] /\ (Z.of_nat (length id) < HITS_ID_LEN) /\
  Forall (fun c => c <> NL /\ c <> zero) id.

(** No ID of [ids] is a prefix of an ID of [seen] or of an ID that
    stands before it in [ids]. *)
Fixpoint no_prefix_before (seen ids : list (list ascii)) : Prop :=
  match ids with
  | [] => True
  | x :: rest =>
      Forall (fun hit => ~ is_prefix x hit) seen /\
      no_prefix_before (seen ++ [x]) rest
  end.

(** The shape of the IDs of an index: fewer than 64 bytes, none a
    newline or a NUL, no ID twice. *)
Definition ids_shape (hl : list (list ascii)) : Prop :=
  Forall (fun id => Z.of_nat (length id) < HITS_ID_LEN /\
                    Forall (fun c => c <> NL /\ c <> zero) id) hl /\
  NoDup hl.

(** A file of one ID per line. *)
Definition id_lines (ids : list (list ascii)) : list ascii :=
  concat (map (fun id => id ++ [NL]) ids).

(* ------------------------------------------------------------------ *)
(** ** parseBlastTableIDs, loadBlastTable *)

Definition TAB : ascii := ascii_of_nat 9.
Definition SPACE : ascii := ascii_of_nat 32.

(** The delimiters given to [strtok]: [" \t"]. *)
Definition isBlank (c : ascii) : bool := Ascii.eqb c SPACE || Ascii.eqb c TAB.

Fixpoint skipDelims (s : list ascii) : list ascii :=
  match s with
  | [] => []
  | c :: t => if isBlank c then skipDelims t else s
  end.

(** The token at the head of [s] and what follows the delimiter that
    ends it. *)
Fixpoint token (s : list ascii) : list ascii * list ascii :=
  match s with
  | [] => ([], [])
  | c :: t =>
      if isBlank c then ([], t)
      else let '(tok, r) := token t in (c :: tok, r)
  end.

(** [strtok] on the C string [s]: the next token and the string the
    following call resumes at; [None] is [NULL]. *)
Definition strtok (s : list ascii) : option (list ascii * list ascii) :=
  match skipDelims s with
  | [] => None
  | s' => Some (token s')
  end.

(** [qlen] or [hlen]: the length of the ID with its NUL, or
    [HITS_ID_LEN - 1] when that does not fit the array. *)
Definition idLen (id : list ascii) : Z :=
  let n := Z.of_nat (length id) + 1 in
  if n >? HITS_ID_LEN then HITS_ID_LEN - 1 else n.

(** [parseBlastTableIDs]: [ql] and [hl] are [queryList] and [hitList];
    [strncpy] followed, for an ID too large, by the NUL at [qlen]
    stores the first [qlen] bytes of the ID. *)
Definition parseBlastTableIDs (pipeMode : Z)
           (ql hl : list (list ascii)) (line : list ascii)
  : Z * list (list ascii) * list (list ascii) :=
  match strtok (cstr line) with
  | None => (ERROR, ql, hl)
  | Some (currQueryId, rest) =>
      match strtok rest with
      | None => (ERROR, ql, hl)
      | Some (currHitId, _) =>
          let qlen := idLen currQueryId in
          let hlen := idLen currHitId in
          let ql' :=
            if (Z.of_nat (length ql) =? 0)
               || negb (strncmp_eq currQueryId (last ql []) (Z.to_nat qlen))
            then ql ++ [firstn (Z.to_nat qlen) currQueryId]
            else ql in
          if pipeMode =? 1 then
            if negb (strncmp_eq currQueryId currHitId
                                (Z.to_nat (Z.min qlen hlen)))
            then
              if existsLoop currHitId hl hlen then (0, ql', hl)
              else (0, ql', hl ++ [firstn (Z.to_nat hlen) currHitId])
            else (0, ql', hl)
          else if pipeMode =? 2 then (ERROR, ql', hl)
          else (0, ql', hl)
      end
  end.

(** [while( done == 0 )] of [loadBlastTable]: every line is parsed, and
    the first line that fails ends the load. *)
Fixpoint tableLoop (pipeMode : Z) (m : list ascii) (fin : nat) (fuel : nat)
         (pch : nat) (ql hl : list (list ascii))
  : option (Z * list (list ascii) * list (list ascii)) :=
  match fuel with
  | O => None
  | S fuel' =>
      match lineLoop m fin (S fin - pch) pch 0 with
      | None => None
      | Some (pe, nch) =>
          let line := slice m (pe + 1 - Z.to_nat nch) (Z.to_nat nch) in
          let '(err, ql', hl') := parseBlastTableIDs pipeMode ql hl line in
          if negb (err =? 0) then Some (ERROR, ql', hl')
          else if Nat.eqb pe fin then Some (0, ql', hl')
          else tableLoop pipeMode m fin fuel' (S pe) ql' hl'
      end
  end.

(** [loadBlastTable]: [file] is the content of the table file, [None]
    when [fopen] fails.  After an error the index is freed; the result
    then holds the index as it was given. *)
Definition loadBlastTable (file : option (list ascii)) (h : hits_t)
  : option (Z * hits_t) :=
  if hpipeMode h =? 0 then Some (0, h)
  else
    match file with
    | None => Some (ERROR, h)
    | Some m =>
        if Z.of_nat (length m) <=? 0 then Some (ERROR, h)
        else
          let fin := (length m - 1)%nat in
          match countLoop m fin (S fin) 0 0 0 0 with
          | None => None
          | Some (total, longest) =>
              match tableLoop (hpipeMode h) m fin (S fin) 0 [] [] with
              | None => None
              | Some (err, ql, hl) =>
                  if negb (err =? 0) then Some (ERROR, h)
                  else Some (0, mkHits hl (repeat 0 (length hl))
                                       (hpipeMode h) (hsearchMode h))
              end
          end
    end.

(** The lines of a table parsed one after the other. *)
Fixpoint parseLines (pipeMode : Z) (lns : list (list ascii))
         (ql hl : list (list ascii))
  : Z * list (list ascii) * list (list ascii) :=
  match lns with
  | [] => (0, ql, hl)
  | ln :: rest =>
      let '(err, ql', hl') := parseBlastTableIDs pipeMode ql hl ln in
      if negb (err =? 0) then (ERROR, ql', hl')
      else parseLines pipeMode rest ql' hl'
  end.

(** A table row: the query ID, the hit ID and the other columns. *)
Definition row_t : Type := list ascii * list ascii * list ascii.

(** An ID as a column of a table: not empty, fewer than 64 bytes, none
    of them a blank, a newline or a NUL. *)
Definition word (w : list ascii) : Prop :=
  w <> [] /\ Z.of_nat (length w) < HITS_ID_LEN /\
  Forall (fun c => isBlank c = false /\ c <> NL /\ c <> zero) w.

Definition row_ok (r : row_t) : Prop :=
  let '(q, h, rest) := r in
  word q /\ word h /\ Forall (fun c => c <> NL /\ c <> zero) rest.

(** The text of a row, columns separated by tabs, without its newline. *)
Definition row_text (r : row_t) : list ascii :=
  let '(q, h, rest) := r in q ++ TAB :: h ++ TAB :: rest.

Definition table_lines (rows : list row_t) : list ascii :=
  id_lines (map row_text rows).

(** The hit IDs of the rows whose hit differs from their query, each
    once, in the order of their first row. *)
Definition hits_of_rows (rows : list row_t) : list (list ascii) :=
  fold_left (fun acc (r : row_t) =>
               let '(q, h, _) := r in
               if bytes_eqb q h then acc
               else if existsb (bytes_eqb h) acc then acc
               else acc ++ [h])
            rows [].

(** The shape of the hit IDs read from a table: fewer than 64 bytes,
    none a blank or a NUL, no ID twice. *)
Definition table_ids_shape (hl : list (list ascii)) : Prop :=
  Forall (fun id => Z.of_nat (length id) < HITS_ID_LEN /\
                    Forall (fun c => isBlank c = false /\ c <> zero) id) hl /\
  NoDup hl.

(* ------------------------------------------------------------------ *)
(** ** What a scan writes in lookup mode *)

(** What follows each SOH of a header. *)
Fixpoint after_soh (s : list ascii) : list (list ascii) :=
  match s with
  | [] => []
  | c :: t => if Ascii.eqb c SOH then t :: after_soh t else after_soh t
  end.

(** Some hit ID is a prefix of the header, or of what follows an SOH
    of the header. *)
Definition looked_up (hl : list (list ascii)) (r : record_t) : bool :=
  existsb (fun hit =>
             existsb (fun t => bytes_eqb hit (firstn (length hit) t))
                     (fst r :: after_soh (fst r)))
          hl.

(** The hit ID is a prefix of the header, or of what follows an SOH of
    the header. *)
Definition hit_in_header (hdr hit : list ascii) : bool :=
  existsb (fun t => bytes_eqb hit (firstn (length hit) t))
          (hdr :: after_soh hdr).

(** The index of the first element of a list that satisfies a test. *)
Fixpoint first_index {A : Type} (f : A -> bool) (l : list A) : option nat :=
  match l with
  | [] => None
  | x :: t => if f x then Some 0%nat else option_map S (first_index f t)
  end.

(** The characteristic vector once the record [r] is looked up: the
    entry of the first hit ID found in its header is set. *)
Definition mark (hl : list (list ascii)) (cv : list Z) (r : record_t)
  : list Z :=
  match first_index (hit_in_header (fst r)) hl with
  | Some i => setZ cv i 1
  | None => cv
  end.

(** The records a scan keeps in lookup mode: the ones looked up, and in
    a run of one process no more than [seqCnt] and no more than there
    are hit IDs. *)
Definition kept_lookup (a : args_t) (h : hits_t) (procCnt : Z)
           (recs : list record_t) : list record_t :=
  if procCnt =? 1
  then firstn (Z.to_nat (Z.min (seqCnt a) (htotal h)))
              (filter (looked_up (hitList h)) recs)
  else filter (looked_up (hitList h)) recs.

(* ------------------------------------------------------------------ *)
(** ** What the option loop keeps of the [-l] options *)

(** The exact length an option asks for, if it is one the loop does not
    refuse. *)
Definition exact_of (o : cmd_opt) : list Z :=
  match o with
  | Opt_l testOpt _ => if testOpt <? 0 then [] else [testOpt]
  | _ => []
  end.

(** The range an option asks for, if it is one the loop does not
    refuse. *)
Definition range_of (o : cmd_opt) : list (Z * Z) :=
  let ok (s e : Z) := if e <=? s then [] else [(s, e)] in
  match o with
  | Opt_l_range RangeAll _ => ok 0 SEQ_COUNT
  | Opt_l_range (RangeUpTo testOpt more) _ =>
      if (testOpt <? 0) || more then [] else ok 0 testOpt
  | Opt_l_range (RangeFrom testOpt more) _ =>
      if (testOpt <? 0) || more then [] else ok testOpt SEQ_COUNT
  | Opt_l_range (RangePair startLen endLen more) _ =>
      if (startLen <? 0) || (endLen <? 1) || more then []
      else ok startLen endLen
  | _ => []
  end.

(** A list without the repetitions of its members, first occurrences
    kept in order. *)
Definition add_new {A : Type} (eqb : A -> A -> bool) (acc : list A) (x : A)
  : list A :=
  if existsb (eqb x) acc then acc else acc ++ [x].

Definition distinct {A : Type} (eqb : A -> A -> bool) (l : list A) : list A :=
  fold_left (add_new eqb) l [].

Definition range_eqb (p q : Z * Z) : bool :=
  (fst p =? fst q) && (snd p =? snd q).

(** A list of ranges as the array [rseqLen] holds it. *)
Definition flat (l : list (Z * Z)) : list Z :=
  flat_map (fun p => [fst p; snd p]) l.

(** What the loop holds of the exact lengths and of the ranges when the
    ones asked for so far are [ls] and [rs], repetitions left out. *)
Definition kept_lengths (a : args_t) (ls : list Z) (rs : list (Z * Z))
  : Prop :=
  (exists rest, seqLen a = firstn 5 ls ++ rest) /\
  length (seqLen a) = 5%nat /\
  seqLenBuf a = Z.of_nat (Nat.min 5 (length ls)) /\
  (exists rest, rseqLen a = flat (firstn 5 rs) ++ rest) /\
  length (rseqLen a) = 10%nat /\
  rseqLenBuf a = Z.of_nat (Nat.min 5 (length rs)).

(** Every option of a command line is accepted in its turn: the turn,
    taken with the defaults and with what the scratch array holds when
    it is reached, is defined and reports no error. *)
Fixpoint accepted (loptarg : list ascii) (argv : list cmd_opt) : bool :=
  match argv with
  | [] => true
  | o :: rest =>
      match parseOpt default_args 0 loptarg o with
      | Some (_, ret, loptarg') => (ret =? 0) && accepted loptarg' rest
      | None => false
      end
  end.

(** Two turns that end with the same scratch array and agree on
    whether they report an error. *)
Definition same_verdict (ret : Z) (x y : option pstate) : Prop :=
  match x, y with
  | Some (_, ret1, l1), Some (_, ret2, l2) =>
      l1 = l2 /\ ((ret2 = 0 /\ ret1 = ret) \/ (ret2 = ERROR /\ ret1 = ERROR))
  | None, None => True
  | _, _ => False
  end.

(** [-q db.fa -s ids.txt]: the search mode. *)
Definition args_search : args_t :=
  args_of (parseCmdline [] [Opt_q "db.fa"; Opt_s "ids.txt"]).

(* ------------------------------------------------------------------ *)
(** ** The ranges of a plan and the records of the file *)

(** A range with a page offset and a skew that are not negative and a
    length that is positive. *)
Definition range_ok (fo : offs_t) : Prop :=
  0 <= fst (fst fo) /\ 0 <= snd (fst fo) /\ 0 < snd fo.

(** The range [fo] of the file holds the records [rs], whole, and at
    least one. *)
Definition range_holds (file : list ascii) (fo : offs_t)
           (rs : list record_t) : Prop :=
  rs <> [] /\ partition_bytes file fo = recs_bytes rs /\
  snd fo = Z.of_nat (length (recs_bytes rs)).

(** The records a scan keeps, in lookup mode or outside it. *)
Definition kept_any (a : args_t) (h : hits_t) (procCnt : Z)
           (recs : list record_t) : list record_t :=
  if lookupMode h then kept_lookup a h procCnt recs else kept a procCnt recs.

(* ------------------------------------------------------------------ *)
(** ** Sample inputs *)

Definition nl : string := String NL EmptyString.
Definition soh : string := String SOH EmptyString.

(** The 128 bytes [strncpy] leaves in [loptarg] for a short argument. *)
Definition padded (s : string) : list ascii :=
  firstn 128 (bytes s ++ repeat zero 128).

(** The two records of the specification's first scenarios. *)
Definition fasta_r1 : list ascii := bytes (">r1|alpha" ++ nl ++ "ACGT" ++ nl).
Definition fasta_r2 : list ascii :=
  bytes (">r2|beta" ++ nl ++ "GGG" ++ nl ++ "TTT" ++ nl).
Definition fasta_two : list ascii := fasta_r1 ++ fasta_r2.

Definition no_hits : hits_t := mkHits [] [] 0 0.

(** [-q db.fa -l 4 -l 6]. *)
Definition args_len_4_6 : args_t :=
  args_of (parseCmdline [] [Opt_q "db.fa"; Opt_l 4 (padded "4");
                            Opt_l 6 (padded "6")]).

(** The whole file as the single partition of a one-process run. *)
Definition whole (file : list ascii) : offs_t :=
  (0, 0, Z.of_nat (length file)).

(** What a run leaves in the output stream. *)
Definition output_of (r : option (scan_t * Z)) : option (list ascii) :=
  match r with
  | Some (st, _) => Some (ofd st)
  | None => None
  end.

(** [IMAP_LIMIT] and the chunk size [partQueryFile] derives from it
    for the page size [psz]. *)
Definition IMAP_LIMIT : Z := 2 ^ 28.

Definition map_chunk (psz : Z) : Z :=
  if (IMAP_LIMIT <? psz) || negb (IMAP_LIMIT mod psz =? 0)
  then psz * 1024 else IMAP_LIMIT.

(** A lookup index holding the single hit ID [h1], as [main] sets it up
    for the HMMER pipeline. *)
Definition hits_h1 : hits_t := mkHits [bytes "h1"] [0] 1 0.

(** A record whose primary ID is [h10]. *)
Definition fasta_h10 : list ascii := bytes (">h10|x" ++ nl ++ "ACGT" ++ nl).

(** [-q db.fa -t hits.tbl -p 1]: the HMMER pipeline. *)
Definition args_pipe : args_t :=
  args_of (parseCmdline [] [Opt_q "db.fa"; Opt_t "hits.tbl"; Opt_p 1]).

(** Three records that all carry the primary ID [h1]. *)
Definition fasta_h1a : list ascii := bytes (">h1|a" ++ nl ++ "AC" ++ nl).
Definition fasta_h1b : list ascii := bytes (">h1|b" ++ nl ++ "GT" ++ nl).
Definition fasta_h1c : list ascii := bytes (">h1|c" ++ nl ++ "TT" ++ nl).
Definition fasta_h1_thrice : list ascii := fasta_h1a ++ fasta_h1b ++ fasta_h1c.

(** The first two of them, and an index of two hit IDs of which only
    the first is in the file. *)
Definition fasta_h1_twice : list ascii := fasta_h1a ++ fasta_h1b.
Definition hits_h1_h2 : hits_t := mkHits [bytes "h1"; bytes "h2"] [0; 0] 1 0.



(** Two records, the header of the first holding a [>] of its own. *)
Definition fasta_gt_in_header : list ascii :=
  bytes (">a>b" ++ nl ++ "AC" ++ nl ++ ">c" ++ nl ++ "GT" ++ nl).

(** A page buffer that [malloc] hands out zeroed. *)
Definition zero_heap (seqChunks : nat) : nat -> list ascii :=
  fun _ => repeat zero seqChunks.

(** The state a run ends in. *)
Definition run_state (r : option (scan_t * Z)) : scan_t :=
  match r with
  | Some (st, _) => st
  | None => init_scan no_hits
  end.

(** Five records of 8 bytes each. *)
Definition recs_five : list record_t :=
  [(bytes "a", bytes "ACGT"); (bytes "b", bytes "CCGG");
   (bytes "c", bytes "TTAA"); (bytes "d", bytes "GGGG");
   (bytes "e", bytes "ACAC")].
Definition fasta_five : list ascii := recs_bytes recs_five.

(** A record of 4094 bytes followed by one of 8 bytes: the second
    begins two bytes before offset 4096. *)
Definition rec_long : record_t := (bytes "a", repeat "A"%char 4090).
Definition rec_short : record_t := (bytes "b", bytes "CCCC").
Definition fasta_long : list ascii := recs_bytes [rec_long; rec_short].

(* ================================================================== *)
(** * Properties *)

(* ------------------------------------------------------------------ *)
(** ** Lists of bytes *)

Lemma bytes_eqb_eq (a b : list ascii) : bytes_eqb a b = true <-> a = b.
Proof.
  revert b; induction a as [|x a IH]; intros [|y b]; simpl;
    try (split; [discriminate | congruence]); try tauto.
  rewrite andb_true_iff, Ascii.eqb_eq, IH.
  split; [intros [-> ->]; reflexivity | intros H; inversion H; auto].
Qed.

Lemma bytes_eqb_refl (a : list ascii) : bytes_eqb a a = true.
Proof. apply bytes_eqb_eq; reflexivity. Qed.

Lemma strncmp0_prefix (hit m : list ascii) (pos : nat) :
  strncmp0 hit m pos = true <-> slice m pos (length hit) = hit.
Proof.
  unfold strncmp0. rewrite bytes_eqb_eq. split; congruence.
Qed.

Lemma slice_length (m : list ascii) (p n : nat) :
  (length (slice m p n) <= n)%nat.
Proof. unfold slice. rewrite length_firstn. lia. Qed.

Lemma slice_length_in (m : list ascii) (p n : nat) :
  (p + n <= length m)%nat -> length (slice m p n) = n.
Proof. intros H. unfold slice. rewrite length_firstn, length_skipn. lia. Qed.

Lemma deref_app_l (a b : list ascii) (p : nat) :
  (p < length a)%nat -> deref (a ++ b) p = deref a p.
Proof. intros H. unfold deref. apply app_nth1; exact H. Qed.

Lemma deref_app_r (a b : list ascii) (p : nat) :
  deref (a ++ b) (length a + p) = deref b p.
Proof.
  unfold deref. rewrite app_nth2 by lia. f_equal. lia.
Qed.

Lemma slice_app_r (a b : list ascii) (p n : nat) :
  slice (a ++ b) (length a + p) n = slice b p n.
Proof.
  unfold slice. rewrite skipn_app.
  replace (length a + p - length a)%nat with p by lia.
  rewrite skipn_all2 by lia. reflexivity.
Qed.

Lemma slice_app_l (a b : list ascii) (p n : nat) :
  (p + n <= length a)%nat -> slice (a ++ b) p n = slice a p n.
Proof.
  intros H. unfold slice. rewrite skipn_app, firstn_app.
  rewrite length_skipn.
  replace (n - (length a - p))%nat with 0%nat by lia.
  simpl. rewrite app_nil_r. reflexivity.
Qed.

Lemma slice_all (a : list ascii) : slice a 0 (length a) = a.
Proof. unfold slice. simpl. apply firstn_all. Qed.

Lemma poke_length (m : list ascii) (p : nat) (c : ascii) :
  length (poke m p c) = length m.
Proof.
  revert p; induction m as [|h t IH]; intros [|p]; simpl; auto.
Qed.

Lemma setZ_length (v : list Z) (i : nat) (x : Z) :
  length (setZ v i x) = length v.
Proof.
  revert i; induction v as [|h t IH]; intros [|i]; simpl; auto.
Qed.

Lemma setZ_Forall (P : Z -> Prop) (v : list Z) (i : nat) (x : Z) :
  P x -> Forall P v -> Forall P (setZ v i x).
Proof.
  intros Hx. revert i; induction v as [|h t IH]; intros [|i] H; simpl;
    inversion H; subst; constructor; auto.
Qed.

(* ------------------------------------------------------------------ *)
(** ** The filter predicate (C1) *)

(** What the two length loops compute: only the first exact length and
    the first range are ever compared with the sequence length. *)
Lemma lenSelect_first_entries (a : args_t) (seqSz : Z) :
  0 <= seqLenBuf a -> 0 <= rseqLenBuf a ->
  0 < seqLenBuf a + rseqLenBuf a ->
  (lenSelect a seqSz = 1 <->
   (0 < seqLenBuf a /\ zidx (seqLen a) 0 = seqSz) \/
   (0 < rseqLenBuf a /\
    zidx (rseqLen a) 0 <= seqSz <= zidx (rseqLen a) 1)).
Proof.
  intros H1 H2 H3. unfold lenSelect, forBreak. cbv beta.
  change (0 * 2) with 0. change (0 + 1) with 1. rewrite Z.geb_leb.
  repeat match goal with
         | |- context [?x =? ?y] => destruct (Z.eqb_spec x y)
         | |- context [?x <? ?y] => destruct (Z.ltb_spec x y)
         | |- context [?x <=? ?y] => destruct (Z.leb_spec x y)
         end; simpl; split; intros; try discriminate; try lia; auto.
Qed.

(** C1 (defect of the code).  The claim: in filter mode a record is
    accepted iff its sequence length equals one of the configured exact
    lengths or lies in one of the configured ranges.  With [-l 4 -l 6]
    the options hold the two lengths, the specified predicate accepts a
    sequence of length 6, but the length loop leaves after its test at
    index 0: the record of length 6 is not selected and the run on the
    two-record file writes the record of length 4 only. *)
Theorem C1_second_exact_length_never_tested :
  seqLenBuf args_len_4_6 = 2 /\
  seqLen args_len_4_6 = [4; 6; 0; 0; 0] /\
  filter_predicate_spec [4; 6] [] 6 = true /\
  lenSelect args_len_4_6 6 = 0 /\
  output_of (partQueryFile args_len_4_6 no_hits 1 fasta_two
                           (whole fasta_two) IMAP_LIMIT true [])
  = Some fasta_r1.
Proof. repeat split; vm_compute; reflexivity. Qed.

(* ------------------------------------------------------------------ *)
(** ** The lookup predicate (C2) *)

Lemma altLoop_some (hit m : list ascii) (fq fuel paq r : nat) :
  (paq <= fq)%nat ->
  altLoop hit m fq fuel paq = Some r ->
  (paq < r <= fq)%nat /\ deref m r = SOH /\ strncmp0 hit m (S r) = true.
Proof.
  revert paq; induction fuel as [|fuel IH]; intros paq Hle; simpl;
    [discriminate|].
  destruct (Nat.eqb_spec paq fq) as [->|Hne]; [discriminate|].
  destruct (Ascii.eqb (deref m (S paq)) SOH && strncmp0 hit m (S (S paq)))
    eqn:E.
  - intros H; inversion H; subst r.
    apply andb_true_iff in E as [E1 E2]. apply Ascii.eqb_eq in E1.
    repeat split; auto; lia.
  - intros H. apply IH in H as (Hr & Hs & Hc); [|lia].
    repeat split; auto; lia.
Qed.

Lemma altLoop_none (hit m : list ascii) (fq fuel paq : nat) :
  (fq - paq <= fuel)%nat ->
  altLoop hit m fq fuel paq = None ->
  forall r, (paq < r <= fq)%nat ->
            deref m r = SOH -> strncmp0 hit m (S r) = true -> False.
Proof.
  revert paq; induction fuel as [|fuel IH]; intros paq Hf; simpl.
  - intros _ r Hr. lia.
  - destruct (Nat.eqb_spec paq fq) as [->|Hne]; [intros _ r Hr; lia|].
    destruct (Ascii.eqb (deref m (S paq)) SOH && strncmp0 hit m (S (S paq)))
      eqn:E; [discriminate|].
    intros H r Hr Hs Hc.
    destruct (Nat.eq_dec r (S paq)) as [->|Hr'].
    + rewrite Hs, Hc in E. rewrite Ascii.eqb_refl in E. discriminate.
    + apply (IH (S paq)) with (r := r); auto; lia.
Qed.

(** What the loop over the hit IDs decides. *)
Lemma hitLoop_select (a : args_t) (hl : list (list ascii)) (i : nat)
      (m : list ascii) (q : query_t) (cv : list Z) :
  (iaq q <= faq q)%nat ->
  (snd (hitLoop a hl i m q cv) = 1 <->
   exists hit, In hit hl /\
     (strncmp0 hit m (S (iaq q)) = true \/
      exists paq, (iaq q < paq <= faq q)%nat /\ deref m paq = SOH /\
                  strncmp0 hit m (S paq) = true)).
Proof.
  intros Hq. revert i cv; induction hl as [|hit rest IH]; intros i cv; simpl.
  - split; [discriminate | intros (hit & [] & _)].
  - destruct (strncmp0 hit m (S (iaq q))) eqn:E1.
    + simpl. split; auto. intros _. exists hit; auto.
    + destruct (altLoop hit m (faq q) (faq q - iaq q) (iaq q)) as [paq|] eqn:E2.
      * apply altLoop_some in E2 as (Hr & Hs & Hc); auto.
        assert (Hex : exists hit0, In hit0 (hit :: rest) /\
                   (strncmp0 hit0 m (S (iaq q)) = true \/
                    exists paq0, (iaq q < paq0 <= faq q)%nat /\
                      deref m paq0 = SOH /\ strncmp0 hit0 m (S paq0) = true))
          by (exists hit; split; [left; auto | right; exists paq; auto]).
        destruct (negb (annotCnt a =? 0)); simpl; split; auto.
      * rewrite IH. split.
        -- intros (h0 & Hin & H). exists h0; split; [right; auto | auto].
        -- intros (h0 & [<-|Hin] & H).
           ++ destruct H as [H|(paq & Hr & Hs & Hc)]; [congruence|].
              exfalso. eapply altLoop_none; eauto.
           ++ exists h0; auto.
Qed.

(** C2 (amended).  In lookup mode a parsed record is selected iff some
    indexed hit ID is a prefix of the bytes that follow the leading [>]
    of its header, or of the bytes that follow some SOH of its header:
    the comparison covers the length of the hit ID, not the length of
    the header ID. *)
Theorem C2_lookup_selects_on_hit_prefix (a : args_t) (h : hits_t)
        (m : list ascii) (q : query_t) (seqSz : Z) :
  lookupMode h = true ->
  (iaq q <= faq q)%nat ->
  (snd (selectQuery a h m q seqSz) = 1 <->
   exists hit, In hit (hitList h) /\
     (slice m (S (iaq q)) (length hit) = hit \/
      exists paq, (iaq q < paq <= faq q)%nat /\ deref m paq = SOH /\
                  slice m (S paq) (length hit) = hit)).
Proof.
  intros Hl Hq. unfold selectQuery. rewrite Hl.
  rewrite hitLoop_select by exact Hq.
  split; intros (hit & Hin & H); exists hit; split; auto;
    destruct H as [H|(paq & Hr & Hs & Hc)];
    [ left; apply strncmp0_prefix; exact H
    | right; exists paq; rewrite <- strncmp0_prefix; auto
    | left; apply strncmp0_prefix; exact H
    | right; exists paq; rewrite strncmp0_prefix; auto ].
Qed.

(** The amended statement at the record [>z|foo^Ah2|bar]: the hit ID
    [h2] follows the SOH at index 6. *)
Lemma C2_lookup_selects_on_hit_prefix_witness :
  snd (selectQuery args_pipe (mkHits [bytes "h2"] [0] 1 0)
         (bytes (">z|foo" ++ soh ++ "h2|bar" ++ nl ++ "ACGT" ++ nl))
         (mkQuery 0 13 14 18) 4) = 1.
Proof.
  apply (C2_lookup_selects_on_hit_prefix args_pipe
           (mkHits [bytes "h2"] [0] 1 0)
           (bytes (">z|foo" ++ soh ++ "h2|bar" ++ nl ++ "ACGT" ++ nl))
           (mkQuery 0 13 14 18) 4).
  - reflexivity.
  - simpl. lia.
  - exists (bytes "h2"). split; [left; reflexivity|].
    right. exists 6%nat. simpl. repeat split; lia.
Defined.

(** C2 (counterexample).  The header list of [>h10|x] is the single ID
    [h10], which differs from the hit ID [h1], so the claim rejects the
    record; the code compares [strlen("h1")] bytes, selects the record
    and writes it. *)
Lemma C2_prefix_of_longer_id_selected :
  header_ids (bytes "h10|x") = [bytes "h10"] /\
  lookup_predicate_spec (hitList hits_h1) (bytes "h10|x") = false /\
  getAnnot fasta_h10 11 start_query = Some (mkQuery 0 6 0 0) /\
  snd (selectQuery args_pipe hits_h1 fasta_h10 (mkQuery 0 6 7 11) 4) = 1 /\
  output_of (partQueryFile args_pipe hits_h1 1 fasta_h10 (whole fasta_h10)
                           IMAP_LIMIT true []) = Some fasta_h10.
Proof. repeat split; vm_compute; reflexivity. Qed.

(* ------------------------------------------------------------------ *)
(** ** What the scanning functions return *)

Lemma scanFor_some (sym : ascii) (m : list ascii) (fin fuel p r : nat) :
  scanFor sym m fin fuel p = Some r ->
  (p <= r < p + fuel)%nat /\ r <> fin /\ deref m r = sym.
Proof.
  revert p; induction fuel as [|fuel IH]; intros p; simpl; [discriminate|].
  destruct (Nat.eqb_spec p fin) as [->|Hne]; [discriminate|].
  destruct (Ascii.eqb_spec (deref m p) sym) as [He|He].
  - intros H; inversion H; subst r. repeat split; auto; lia.
  - intros H. apply IH in H as (Hr & Hf & Hd). repeat split; auto; lia.
Qed.

Lemma getAnnot_some (m : list ascii) (fin : nat) (q q1 : query_t) :
  getAnnot m fin q = Some q1 ->
  (fsq q <= iaq q1 < faq q1)%nat /\ (faq q1 < fin)%nat /\
  deref m (iaq q1) = GT /\ deref m (faq q1) = NL.
Proof.
  unfold getAnnot.
  destruct (scanFor GT m fin (S fin - fsq q) (fsq q)) as [a|] eqn:E1;
    [|discriminate].
  destruct (scanFor NL m fin (S fin - S a) (S a)) as [f|] eqn:E2;
    [|discriminate].
  intros H; inversion H; subst q1; simpl.
  apply scanFor_some in E1 as (H1 & H2 & H3).
  apply scanFor_some in E2 as (H4 & H5 & H6).
  repeat split; auto; lia.
Qed.

Lemma seqLoop_bounds (m : list ascii) (fin fuel p : nat) (sz : Z)
      (f : nat) (sz' : Z) :
  seqLoop m fin fuel p sz = (f, sz') ->
  sz <= sz' /\ (Nat.pred p <= f)%nat /\ (sz < sz' -> (p <= f)%nat) /\
  ((p <= fin)%nat -> (f <= fin)%nat).
Proof.
  revert p sz; induction fuel as [|fuel IH]; intros p sz; simpl.
  - intros H; inversion H; subst. repeat split; lia.
  - destruct (Nat.eqb_spec p fin) as [->|Hne].
    + intros H; inversion H; subst. repeat split; lia.
    + destruct (Ascii.eqb (deref m p) NL).
      * intros H. apply IH in H as (H1 & H2 & H3 & H4).
        simpl in H2. repeat split; try lia.
      * destruct (Ascii.eqb (deref m p) GT).
        -- intros H; inversion H; subst. repeat split; lia.
        -- intros H. apply IH in H as (H1 & H2 & H3 & H4).
           simpl in H2. repeat split; try lia.
Qed.

Lemma getSequence_some (m : list ascii) (fin : nat) (q q2 : query_t)
      (seqSz : Z) :
  (faq q < fin)%nat ->
  getSequence m fin q = Some (seqSz, q2) ->
  iaq q2 = iaq q /\ faq q2 = faq q /\ isq q2 = S (faq q) /\
  (isq q2 <= fsq q2 <= fin)%nat /\ 0 < seqSz.
Proof.
  intros Hf. unfold getSequence.
  destruct (seqLoop m fin (S fin - S (faq q)) (S (faq q)) 0) as [f sz] eqn:E.
  destruct (Z.eqb_spec sz 0) as [->|Hz]; [discriminate|].
  intros H; inversion H; subst; simpl.
  apply seqLoop_bounds in E as (H1 & H2 & H3 & H4).
  repeat split; auto; lia.
Qed.

Lemma deref_poke_same (m : list ascii) (p : nat) (c : ascii) :
  (p < length m)%nat -> deref (poke m p c) p = c.
Proof.
  unfold deref. revert p; induction m as [|h t IH]; intros [|p] H; simpl in *;
    try lia; auto. apply IH. lia.
Qed.

(** The loop over the hit IDs leaves [faq], [isq], [fsq] alone, keeps
    [iaq] at a [>] no later than [faq], and keeps the sizes of the
    memory and of the vector. *)
Lemma hitLoop_shape (a : args_t) (hl : list (list ascii)) (i : nat)
      (m : list ascii) (q : query_t) (cv : list Z)
      (m' : list ascii) (q' : query_t) (cv' : list Z) (sel : Z) :
  (iaq q <= faq q)%nat -> (faq q < length m)%nat -> deref m (iaq q) = GT ->
  hitLoop a hl i m q cv = (m', q', cv', sel) ->
  faq q' = faq q /\ isq q' = isq q /\ fsq q' = fsq q /\
  (iaq q <= iaq q' <= faq q)%nat /\ deref m' (iaq q') = GT /\
  length m' = length m /\ length cv' = length cv /\
  (Forall (fun x => x = 0 \/ x = 1) cv ->
   Forall (fun x => x = 0 \/ x = 1) cv').
Proof.
  intros Hq Hl Hg. revert i cv; induction hl as [|hit rest IH];
    intros i cv; simpl.
  - intros H; inversion H; subst. repeat split; auto; lia.
  - destruct (strncmp0 hit m (S (iaq q))).
    + intros H; inversion H; subst.
      repeat split; auto; try lia; try apply setZ_length.
      intros; apply setZ_Forall; auto.
    + destruct (altLoop hit m (faq q) (faq q - iaq q) (iaq q)) as [paq|] eqn:E.
      * apply altLoop_some in E as (Hr & Hs & Hc); auto.
        destruct (negb (annotCnt a =? 0)); intros H; inversion H; subst; simpl;
          repeat split; auto; try lia; try apply setZ_length;
          try apply poke_length;
          try (intros; apply setZ_Forall; auto).
        apply deref_poke_same. lia.
      * apply IH.
Qed.

Lemma selectQuery_shape (a : args_t) (h : hits_t) (m : list ascii)
      (q : query_t) (seqSz : Z)
      (m' : list ascii) (q' : query_t) (cv' : list Z) (sel : Z) :
  (iaq q <= faq q)%nat -> (faq q < length m)%nat -> deref m (iaq q) = GT ->
  selectQuery a h m q seqSz = (m', q', cv', sel) ->
  faq q' = faq q /\ isq q' = isq q /\ fsq q' = fsq q /\
  (iaq q <= iaq q' <= faq q)%nat /\ deref m' (iaq q') = GT /\
  length m' = length m /\ length cv' = length (charVect h) /\
  (Forall (fun x => x = 0 \/ x = 1) (charVect h) ->
   Forall (fun x => x = 0 \/ x = 1) cv').
Proof.
  intros Hq Hl Hg. unfold selectQuery. destruct (lookupMode h).
  - apply hitLoop_shape; auto.
  - intros H; inversion H; subst. repeat split; auto; lia.
Qed.

Lemma deref_in_range (m : list ascii) (p : nat) (c : ascii) :
  deref m p = c -> c <> zero -> (p < length m)%nat.
Proof.
  unfold deref. intros H Hc.
  destruct (lt_dec p (length m)); auto.
  rewrite nth_overflow in H by lia. congruence.
Qed.

(** The new [*annotSz] that [parseAnnot] leaves is at least 1 when the
    annotation starts at a [>]. *)
Lemma parseLoop_pos (m : list ascii) (q : query_t) (fuel p : nat)
      (cnt annotSz : Z) :
  2 <= annotSz ->
  ((iaq q < p)%nat \/ (p = iaq q /\ isDelim (deref m p) = false)) ->
  1 <= parseLoop m q fuel p cnt annotSz.
Proof.
  intros Ha. revert p cnt; induction fuel as [|fuel IH]; intros p cnt Hp;
    simpl; [lia|].
  destruct (Nat.eqb p (faq q)); [lia|].
  destruct (isDelim (deref m p)) eqn:Ed.
  - destruct Hp as [Hp|[_ Hp]]; [|congruence].
    destruct (cnt - 1 =? 0); [lia|]. apply IH. left; lia.
  - apply IH. left; lia.
Qed.

Lemma parseAnnot_pos (cnt annotSz : Z) (m : list ascii) (q : query_t) :
  2 <= annotSz -> deref m (iaq q) = GT ->
  1 <= parseAnnot cnt annotSz m q.
Proof.
  intros Ha Hg. unfold parseAnnot. apply parseLoop_pos; auto.
  right. split; auto. rewrite Hg. reflexivity.
Qed.

(* ------------------------------------------------------------------ *)
(** ** What one turn of the extraction loop does *)

Lemma put_effect (m : list ascii) (p : nat) (n : Z) (st : scan_t) :
  exists d,
    put m p n st =
      mkScan (mem st) (query st) (hits st) (xCnt st) (ofd st ++ d)
             (bytesWritten st + Z.of_nat (length d)) (done st)
    /\ Z.of_nat (length d) <= Z.max 0 n.
Proof.
  unfold put, fwrite, set_ofd. simpl.
  exists (slice m p (Z.to_nat n)). split; auto.
  pose proof (slice_length m p (Z.to_nat n)). lia.
Qed.

Lemma putNL_effect (st : scan_t) :
  putNL st =
    mkScan (mem st) (query st) (hits st) (xCnt st) (ofd st ++ [NL])
           (bytesWritten st + 1) (done st).
Proof. reflexivity. Qed.

Lemma budget_effect (a : args_t) (st : scan_t) (wCnt : Z)
      (k : scan_t -> scan_t) (st' : scan_t) (b : bool) :
  (forall s, exists d,
      k s = mkScan (mem s) (query s) (hits s) (xCnt s) (ofd s ++ d)
                   (bytesWritten s + Z.of_nat (length d)) (done s)
      /\ Z.of_nat (length d) <= wCnt) ->
  budget a st wCnt k = (st', b) ->
  mem st' = mem st /\ query st' = query st /\ hits st' = hits st /\
  ((b = true /\ done st' = 1 /\ xCnt st' = xCnt st /\ ofd st' = ofd st /\
    bytesWritten st' = bytesWritten st /\
    bytesLimit a < wCnt + bytesWritten st) \/
   (b = false /\ done st' = done st /\ xCnt st' = xCnt st + 1 /\
    exists d, ofd st' = ofd st ++ d /\
              bytesWritten st' = bytesWritten st + Z.of_nat (length d) /\
              bytesWritten st' <= bytesLimit a)).
Proof.
  intros Hk. unfold budget.
  destruct (Z.gtb_spec (wCnt + bytesWritten st) (bytesLimit a)) as [Hg|Hg];
    intros H; inversion H; subst; clear H.
  - simpl. repeat split; auto. left. repeat split; auto.
  - destruct (Hk st) as (d & -> & Hd). simpl. repeat split; auto.
    right. repeat split; auto. exists d. repeat split; auto. lia.
Qed.

(** The writer either signals "done" and writes nothing, or appends the
    bytes of one record, counts the record, and stays within
    [bytesLimit]. *)
Lemma writeQuery_effect (a : args_t) (st : scan_t) (annotSz rawSeqSz : Z)
      (st' : scan_t) (b : bool) :
  2 <= annotSz -> 1 <= rawSeqSz ->
  deref (mem st) (iaq (query st)) = GT ->
  writeQuery a st annotSz rawSeqSz = (st', b) ->
  mem st' = mem st /\ query st' = query st /\ hits st' = hits st /\
  ((b = true /\ done st' = 1 /\ xCnt st' = xCnt st /\ ofd st' = ofd st /\
    bytesWritten st' = bytesWritten st) \/
   (b = false /\ done st' = done st /\ xCnt st' = xCnt st + 1 /\
    exists d, ofd st' = ofd st ++ d /\
              bytesWritten st' = bytesWritten st + Z.of_nat (length d) /\
              bytesWritten st' <= bytesLimit a)).
Proof.
  intros Ha Hr Hg. unfold writeQuery.
  assert (Hp : 1 <= parseAnnot (Z.abs (annotCnt a)) annotSz (mem st)
                               (query st))
    by (apply parseAnnot_pos; auto).
  set (pa := parseAnnot (Z.abs (annotCnt a)) annotSz (mem st) (query st))
    in *.
  assert (Hw : forall wCnt k st' b,
            (forall s, exists d,
                k s = mkScan (mem s) (query s) (hits s) (xCnt s) (ofd s ++ d)
                        (bytesWritten s + Z.of_nat (length d)) (done s)
                /\ Z.of_nat (length d) <= wCnt) ->
            budget a st wCnt k = (st', b) ->
            mem st' = mem st /\ query st' = query st /\ hits st' = hits st /\
            ((b = true /\ done st' = 1 /\ xCnt st' = xCnt st /\
              ofd st' = ofd st /\ bytesWritten st' = bytesWritten st) \/
             (b = false /\ done st' = done st /\ xCnt st' = xCnt st + 1 /\
              exists d, ofd st' = ofd st ++ d /\
                bytesWritten st' = bytesWritten st + Z.of_nat (length d) /\
                bytesWritten st' <= bytesLimit a))).
  { intros wCnt k s1 b1 Hk Hb.
    destruct (budget_effect a st wCnt k s1 b1 Hk Hb) as (H1 & H2 & H3 & H4).
    repeat split; auto. destruct H4 as [H4|H4]; [left|right]; tauto. }
  destruct ((annotCnt a =? INT_MAX) || (annotCnt a =? INT_MIN + 1)).
  - apply Hw. intros s.
    destruct (put_effect (mem st) (iaq (query st))
                (if annotCnt a =? INT_MAX then annotSz + rawSeqSz
                 else annotSz) s) as (d & -> & Hd).
    exists d. split; auto. destruct (annotCnt a =? INT_MAX); lia.
  - destruct (negb (annotCnt a =? 0)).
    + destruct (annotCnt a >? 0).
      * apply Hw. intros s.
        destruct (put_effect (mem st) (iaq (query st)) pa s)
          as (d1 & E1 & Hd1).
        rewrite E1, putNL_effect. simpl.
        match goal with
        | |- context [put ?m ?p ?n ?s'] =>
            destruct (put_effect m p n s') as (d2 & E2 & Hd2)
        end.
        rewrite E2. simpl.
        exists (d1 ++ [NL] ++ d2). split.
        -- rewrite !length_app, <- !app_assoc. simpl length.
           f_equal. lia.
        -- rewrite !length_app. simpl length. lia.
      * apply Hw. intros s.
        destruct (put_effect (mem st) (S (iaq (query st))) (pa - 1) s)
          as (d1 & E1 & Hd1).
        rewrite E1, putNL_effect. simpl.
        exists (d1 ++ [NL]). split.
        -- rewrite !length_app, <- !app_assoc. simpl length.
           f_equal. lia.
        -- rewrite !length_app. simpl length. lia.
    + apply Hw. intros s.
      destruct (put_effect (mem st) (isq (query st)) rawSeqSz s)
        as (d & -> & Hd).
      exists d. split; auto. lia.
Qed.

Lemma lookupMode_same (h0 h : hits_t) :
  same_index h0 h -> lookupMode h = lookupMode h0 /\ htotal h = htotal h0.
Proof.
  intros (H1 & H2 & H3 & _). unfold lookupMode, htotal.
  rewrite H1, H2, H3. auto.
Qed.

Lemma extractStep_quota (a : args_t) (procCnt : Z) (fin : nat)
      (st : scan_t) :
  extractStep a procCnt fin st =
    if quota_reached a procCnt st then (set_done st, true)
    else extractBody a fin st.
Proof.
  unfold extractStep, quota_reached.
  destruct (procCnt =? 1), (xCnt st =? seqCnt a), (lookupMode (hits st)),
    (xCnt st =? htotal (hits st)); reflexivity.
Qed.

Lemma extractBody_effect (a : args_t) (fin : nat) (st st' : scan_t)
      (b : bool) :
  extractBody a fin st = (st', b) ->
  same_index (hits st) (hits st') /\
  (flags (charVect (hits st)) -> flags (charVect (hits st'))) /\
  ((b = true /\ xCnt st' = xCnt st /\ ofd st' = ofd st /\
    bytesWritten st' = bytesWritten st /\
    (done st' = done st \/ done st' = 1)) \/
   (b = false /\ done st' = done st /\
    (fsq (query st) < fsq (query st') <= fin)%nat /\
    ((xCnt st' = xCnt st /\ ofd st' = ofd st /\
      bytesWritten st' = bytesWritten st) \/
     (xCnt st' = xCnt st + 1 /\
      exists d, ofd st' = ofd st ++ d /\
                bytesWritten st' = bytesWritten st + Z.of_nat (length d) /\
                bytesWritten st' <= bytesLimit a)))).
Proof.
  unfold extractBody.
  assert (Hrefl : same_index (hits st) (hits st)) by (repeat split; auto).
  destruct (getAnnot (mem st) fin (query st)) as [q1|] eqn:Ea.
  2:{ intros H; inversion H; subst. repeat split; auto.
      left; repeat split; auto. }
  destruct (getSequence (mem st) fin q1) as [[seqSz q2]|] eqn:Eq.
  2:{ intros H; inversion H; subst. repeat split; auto.
      left; repeat split; auto. }
  apply getAnnot_some in Ea as (A1 & A2 & A3 & A4).
  apply getSequence_some in Eq as (S1 & S2 & S3 & S4 & S5); auto.
  destruct (selectQuery a (hits st) (mem st) q2 seqSz)
    as [[[m' q3] cv'] sel] eqn:Esel.
  assert (Hlen : (faq q2 < length (mem st))%nat).
  { rewrite S2. eapply deref_in_range; [exact A4|]. discriminate. }
  apply selectQuery_shape in Esel
    as (T1 & T2 & T3 & T4 & T5 & T6 & T7 & T8);
    try (rewrite ?S1, ?S2; auto; lia).
  assert (Hidx : same_index (hits st) (set_charVect (hits st) cv'))
    by (repeat split; auto).
  destruct (sel =? 1).
  - intros H. apply writeQuery_effect in H; simpl; auto; try lia.
    simpl in H. destruct H as (W1 & W2 & W3 & W4). rewrite W3.
    repeat split; auto.
    destruct W4 as [(-> & W4)|(-> & Wd & Wx & d & Wo & Wb & Wl)].
    + left. repeat split; tauto.
    + right. repeat split; auto; try (rewrite W2; simpl; lia).
      right. split; auto. exists d. auto.
  - intros H; inversion H; subst; simpl. repeat split; auto.
    right. repeat split; auto; try lia.
Qed.

(** One turn of the loop: it is left without a byte written (quota,
    error or byte limit), or it goes on after a record that was skipped
    or written whole. *)
Lemma extractStep_effect (a : args_t) (procCnt : Z) (fin : nat)
      (st st' : scan_t) (b : bool) :
  extractStep a procCnt fin st = (st', b) ->
  same_index (hits st) (hits st') /\
  (flags (charVect (hits st)) -> flags (charVect (hits st'))) /\
  ((b = true /\ xCnt st' = xCnt st /\ ofd st' = ofd st /\
    bytesWritten st' = bytesWritten st /\
    (done st' = done st \/ done st' = 1) /\
    (quota_reached a procCnt st = true -> st' = set_done st)) \/
   (b = false /\ quota_reached a procCnt st = false /\
    done st' = done st /\
    (fsq (query st) < fsq (query st') <= fin)%nat /\
    ((xCnt st' = xCnt st /\ ofd st' = ofd st /\
      bytesWritten st' = bytesWritten st) \/
     (xCnt st' = xCnt st + 1 /\
      exists d, ofd st' = ofd st ++ d /\
                bytesWritten st' = bytesWritten st + Z.of_nat (length d) /\
                bytesWritten st' <= bytesLimit a)))).
Proof.
  rewrite extractStep_quota.
  destruct (quota_reached a procCnt st) eqn:Eq.
  - intros H; inversion H; subst; simpl.
    repeat split; auto. left; repeat split; auto.
  - intros H. apply extractBody_effect in H as (H1 & H2 & H3).
    split; [exact H1 | split; [exact H2 |]].
    destruct H3 as [(-> & H3)|(-> & H3)]; [left|right]; repeat split;
      try tauto. discriminate.
Qed.

(* ------------------------------------------------------------------ *)
(** ** The extraction loop and the window loop return *)

Lemma extractLoop_total (a : args_t) (procCnt : Z) (fin fuel : nat)
      (st : scan_t) :
  (S fin - fsq (query st) < fuel)%nat ->
  exists st', extractLoop a procCnt fin fuel st = Some st'.
Proof.
  revert st; induction fuel as [|fuel IH]; intros st Hf; [lia|].
  simpl. destruct (extractStep a procCnt fin st) as [st1 b] eqn:E.
  destruct b; [eauto|].
  apply extractStep_effect in E as (_ & _ & [(Hb & _)|(_ & _ & _ & Hq & _)]);
    [discriminate|].
  apply IH. lia.
Qed.

Lemma extractQueries_total (a : args_t) (procCnt : Z) (fin : nat)
      (st : scan_t) :
  exists st', extractQueries a procCnt fin st = Some st'.
Proof. apply extractLoop_total. lia. Qed.

Ltac split_match :=
  repeat match goal with
         | H : context [match ?x with _ => _ end] |- _ =>
             destruct x eqn:?
         | H : Some _ = Some _ |- _ => inversion H; subst; clear H
         | H : (_, _) = (_, _) |- _ => inversion H; subst; clear H
         | H : inl _ = inl _ |- _ => inversion H; subst; clear H
         | H : inr _ = inr _ |- _ => inversion H; subst; clear H
         | H : inl _ = inr _ |- _ => discriminate H
         | H : inr _ = inl _ |- _ => discriminate H
         | H : None = Some _ |- _ => discriminate H
         | H : Some _ = None |- _ => discriminate H
         end.

Lemma mapStep_total (a : args_t) (procCnt : Z) (file : list ascii)
      (fo : offs_t) (msz nmaps nmap : Z) (st : scan_t) (buf : list ascii) :
  exists r, mapStep a procCnt file fo msz nmaps nmap st buf = Some r.
Proof.
  unfold mapStep.
  destruct (initQueryMap file fo
              (if nmaps - (nmap + 1) =? 0 then snd fo - nmap * msz else msz)
              (nmap * msz)) as [m fin].
  destruct (nmap >? 0).
  - destruct (adjustMapBegin m fin buf) as [[[[o m'] fin'] buf']|]; [|eauto].
    destruct (extractQueries_total a procCnt (length buf' - 1)
                (with_region st buf')) as (st1 & ->).
    destruct (nmaps - (nmap + 1) >? 0).
    + destruct (adjustMapEnd m' fin') as [[fin2 buf2]|]; [|eauto].
      destruct (extractQueries_total a procCnt fin2 (with_region st1 m'))
        as (st2 & ->). eauto.
    + destruct (extractQueries_total a procCnt fin' (with_region st1 m'))
        as (st2 & ->). eauto.
  - destruct (nmaps - (nmap + 1) >? 0).
    + destruct (adjustMapEnd m fin) as [[fin2 buf2]|]; [|eauto].
      destruct (extractQueries_total a procCnt fin2 (with_region st m))
        as (st2 & ->). eauto.
    + destruct (extractQueries_total a procCnt fin (with_region st m))
        as (st2 & ->). eauto.
Qed.

Lemma mapLoop_total (a : args_t) (procCnt : Z) (file : list ascii)
      (fo : offs_t) (msz nmaps : Z) (fuel : nat) (nmap : Z) (st : scan_t)
      (buf : list ascii) :
  exists r, mapLoop a procCnt file fo msz nmaps fuel nmap st buf = Some r.
Proof.
  revert nmap st buf; induction fuel as [|fuel IH]; intros nmap st buf;
    simpl; [eauto|].
  destruct ((nmap <? nmaps) && (done st =? 0)); [|eauto].
  destruct (mapStep_total a procCnt file fo msz nmaps nmap st buf)
    as ([[[st' buf'] e] brk] & ->).
  destruct brk; eauto.
Qed.

(** The scan always returns: no fuel of the model runs out. *)
Lemma partScan_total (a : args_t) (h : hits_t) (procCnt : Z)
      (file : list ascii) (fo : offs_t) (msz : Z) :
  exists st e, partScan a h procCnt file fo msz = Some (st, e).
Proof.
  unfold partScan.
  destruct (mapLoop_total a procCnt file fo msz (ceil_div (snd fo) msz)
              (Z.to_nat (ceil_div (snd fo) msz)) 0
              (mkScan [] start_query h 0 [] 0 0) []) as ([st e] & ->).
  eauto.
Qed.

(* ------------------------------------------------------------------ *)
(** ** Properties that every turn keeps hold at the end of the scan *)

Section Preservation.

Variables (a : args_t) (procCnt : Z) (P : scan_t -> Prop).

Hypothesis P_region : forall st m, P st -> P (with_region st m).
Hypothesis P_step : forall fin st st' b,
    P st -> extractStep a procCnt fin st = (st', b) -> P st'.

Lemma extractLoop_preserves (fin fuel : nat) (st st' : scan_t) :
  P st -> extractLoop a procCnt fin fuel st = Some st' -> P st'.
Proof.
  revert st; induction fuel as [|fuel IH]; intros st HP; simpl;
    [discriminate|].
  destruct (extractStep a procCnt fin st) as [st1 b] eqn:E.
  pose proof (P_step _ _ _ _ HP E) as HP1.
  destruct b; [intros H; inversion H; subst; exact HP1|].
  apply IH; exact HP1.
Qed.

Lemma extractQueries_preserves (fin : nat) (st st' : scan_t) :
  P st -> extractQueries a procCnt fin st = Some st' -> P st'.
Proof. apply extractLoop_preserves. Qed.

Lemma mapStep_preserves (file : list ascii) (fo : offs_t)
      (msz nmaps nmap : Z) (st : scan_t) (buf : list ascii)
      (st' : scan_t) (buf' : list ascii) (e : Z) (brk : bool) :
  P st ->
  mapStep a procCnt file fo msz nmaps nmap st buf
  = Some ((st', buf', e), brk) ->
  P st'.
Proof.
  intros HP H. unfold mapStep in H. split_match; auto;
    repeat match goal with
           | H : extractQueries _ _ _ (with_region ?s ?m) = Some ?s' |- _ =>
               assert (P s') by
                 (eapply extractQueries_preserves; [|exact H];
                  apply P_region; auto);
               clear H
           end; auto.
Qed.

Lemma mapLoop_preserves (file : list ascii) (fo : offs_t)
      (msz nmaps : Z) (fuel : nat) (nmap : Z) (st : scan_t)
      (buf : list ascii) (st' : scan_t) (e : Z) :
  P st ->
  mapLoop a procCnt file fo msz nmaps fuel nmap st buf = Some (st', e) ->
  P st'.
Proof.
  revert nmap st buf; induction fuel as [|fuel IH]; intros nmap st buf HP;
    simpl.
  - intros H; inversion H; subst; auto.
  - destruct ((nmap <? nmaps) && (done st =? 0)).
    + destruct (mapStep a procCnt file fo msz nmaps nmap st buf)
        as [[[[st1 buf1] e1] brk]|] eqn:E; [|discriminate].
      pose proof (mapStep_preserves _ _ _ _ _ _ _ _ _ _ _ HP E) as HP1.
      destruct brk.
      * intros H; inversion H; subst; auto.
      * apply IH; auto.
    + intros H; inversion H; subst; auto.
Qed.

Lemma partScan_preserves (h : hits_t) (file : list ascii)
      (fo : offs_t) (msz : Z) (st : scan_t) (e : Z) :
  P (init_scan h) ->
  partScan a h procCnt file fo msz = Some (st, e) -> P st.
Proof. intros HP. unfold partScan. apply mapLoop_preserves; auto. Qed.

End Preservation.

(* ------------------------------------------------------------------ *)
(** ** Byte and record budgets (C3) *)

Lemma same_index_trans (h0 h1 h2 : hits_t) :
  same_index h0 h1 -> same_index h1 h2 -> same_index h0 h2.
Proof.
  intros (A1 & A2 & A3 & A4) (B1 & B2 & B3 & B4).
  repeat split; congruence.
Qed.

Lemma same_index_refl (h : hits_t) : same_index h h.
Proof. repeat split; auto. Qed.


(** Case analysis on the tests of a goal or of the hypothesis [H]. *)
Ltac break_if :=
  match goal with
  | |- context [if ?c then _ else _] => destruct c eqn:?
  end.

Ltac break_in H :=
  match type of H with
  | context [if ?c then _ else _] => (destruct c eqn:?)
  | context [match ?c with Some _ => _ | None => _ end] =>
      (destruct c eqn:?)
  | context [match ?c with (_, _) => _ end] => (destruct c eqn:?)
  end.





Lemma parseCmdline_some (stack : list ascii) (argv : list cmd_opt)
      (r : Z) (a : args_t) :
  parseCmdline stack argv = Some (r, a) ->
  exists ret l,
    optLoop argv (Some (default_args, 0, stack)) = Some (a, ret, l) /\
    r = validate a ret.
Proof.
  unfold parseCmdline. intros H.
  destruct (optLoop argv (Some (default_args, 0, stack)))
    as [[[a0 ret] l]|]; [|discriminate].
  inversion H; subst. eauto.
Qed.




(** [partQueryFile] and the scan: the state is the one of the scan;
    the value returned is [err] of the scan outside lookup mode, and
    the status of the report in lookup mode. *)
Lemma partQueryFile_scan (a : args_t) (h : hits_t) (procCnt : Z)
      (file : list ascii) (fo : offs_t) (msz : Z) (opened : bool)
      (others : list (list Z)) :
  partQueryFile a h procCnt file fo msz opened others
  = match partScan a h procCnt file fo msz with
    | Some (st, err) =>
        Some (st, if lookupMode h then (if opened then 0 else ERROR)
                  else err)
    | None => None
    end.
Proof.
  unfold partQueryFile.
  destruct (partScan a h procCnt file fo msz) as [[st err]|] eqn:E;
    [|reflexivity].
  assert (Hi : same_index h (hits st)).
  { pose proof (partScan_preserves a procCnt
                  (fun s => same_index h (hits s))) as HP.
    apply (HP (fun s m Hs => Hs)
              (fun fin s s' b Hs Hstep =>
                 same_index_trans _ _ _ Hs
                   (proj1 (extractStep_effect a procCnt fin s s' b Hstep)))
              h file fo msz st err); auto.
    apply same_index_refl. }
  destruct (lookupMode_same _ _ Hi) as [-> _].
  unfold writeHitsNotFound. destruct (lookupMode h), opened; reflexivity.
Qed.


(* ------------------------------------------------------------------ *)
(** ** The hit quota of a one-process run (C10) *)

Lemma hit_quota_step (a : args_t) (h : hits_t) (fin : nat)
      (st st' : scan_t) (b : bool) :
  lookupMode h = true ->
  (same_index h (hits st) /\ 0 <= xCnt st <= htotal h) ->
  extractStep a 1 fin st = (st', b) ->
  same_index h (hits st') /\ 0 <= xCnt st' <= htotal h.
Proof.
  intros Hl (I1 & I2) E.
  apply extractStep_effect in E
    as (Hi & _ & [(_ & Hx & _)|(_ & Hq & _ & _ & [(Hx & _)|(Hx & _)])]);
    (split; [eapply same_index_trans; eauto|]); try lia.
  destruct (lookupMode_same _ _ I1) as [L1 L2].
  unfold quota_reached in Hq. rewrite L1, L2, Hl in Hq. simpl in Hq.
  apply orb_false_iff in Hq as [_ Hq]. apply Z.eqb_neq in Hq. lia.
Qed.

(** C10.  In a one-process run with a lookup source: a turn of the
    extraction loop that starts with as many records extracted as there
    are indexed hit IDs signals "done" and leaves the loop at once,
    whatever the rest of the input holds; and the scan returns with at
    most [htotal] records extracted. *)
Theorem C10_hit_quota_single_worker (a : args_t) (h : hits_t)
        (file : list ascii) (fo : offs_t) (msz : Z)
        (opened : bool) (others : list (list Z)) :
  lookupMode h = true ->
  (forall fin s,
      same_index h (hits s) -> xCnt s = htotal h ->
      extractStep a 1 fin s = (set_done s, true)) /\
  exists st e,
    partQueryFile a h 1 file fo msz opened others = Some (st, e) /\
    0 <= xCnt st <= htotal h.
Proof.
  intros Hl. split.
  - intros fin s Hi Hx. destruct (lookupMode_same _ _ Hi) as [L1 L2].
    unfold extractStep. rewrite L1, L2, Hl, Hx. simpl.
    destruct (htotal h =? seqCnt a); [reflexivity|].
    rewrite Z.eqb_refl. reflexivity.
  - destruct (partScan_total a h 1 file fo msz) as (st & e & E).
    rewrite partQueryFile_scan, E.
    eexists st, _. split; [reflexivity|].
    pose proof (partScan_preserves a 1
      (fun s => same_index h (hits s) /\ 0 <= xCnt s <= htotal h)) as HP.
    destruct (HP (fun s m Hs => Hs)
                 (fun fin s s' b Hs Hstep =>
                    hit_quota_step a h fin s s' b Hl Hs Hstep)
                 h file fo msz st e) as (_ & I2); auto.
    simpl. split; [apply same_index_refl|]. unfold htotal. lia.
Qed.

(** The statement at the index [h1] and the file of three records that
    all match it. *)
Lemma C10_hit_quota_single_worker_witness :
  lookupMode hits_h1 = true /\
  exists st e,
    partQueryFile args_pipe hits_h1 1 fasta_h1_thrice
                  (whole fasta_h1_thrice) IMAP_LIMIT true []
    = Some (st, e) /\
    0 <= xCnt st <= htotal hits_h1.
Proof.
  split; [reflexivity|].
  apply (C10_hit_quota_single_worker args_pipe hits_h1 fasta_h1_thrice
           (whole fasta_h1_thrice) IMAP_LIMIT true []).
  reflexivity.
Defined.

(** Three records match the one hit ID; the first consumes the quota
    and the other two are never extracted. *)
Example hit_quota_stops_after_first_match :
  seen_count_spec fasta_h1_thrice (bytes "h1") = 3 /\
  output_of (partQueryFile args_pipe hits_h1 1 fasta_h1_thrice
                           (whole fasta_h1_thrice) IMAP_LIMIT true [])
  = Some fasta_h1a.
Proof. split; vm_compute; reflexivity. Qed.

(* ------------------------------------------------------------------ *)
(** ** The characteristic vector (C4) *)

Lemma vect_add_bounds (lo hi : Z) (u v : list Z) :
  Forall (fun x => lo <= x <= hi) u -> flags v ->
  Forall (fun x => lo <= x <= hi + 1) (vect_add u v).
Proof.
  intros Hu. revert v; induction Hu as [|x u Hx Hu IH]; intros v Hv; simpl;
    [constructor|].
  destruct v as [|y v]; [constructor|].
  inversion Hv; subst. constructor; [|apply IH; assumption].
  match goal with H : y = 0 \/ y = 1 |- _ => destruct H; lia end.
Qed.

Lemma reduce_bounds (vs : list (list Z)) (lo hi : Z) (acc : list Z) :
  Forall flags vs ->
  Forall (fun x => lo <= x <= hi) acc ->
  Forall (fun x => lo <= x <= hi + Z.of_nat (length vs))
         (fold_left vect_add vs acc).
Proof.
  intros Hvs. revert hi acc; induction Hvs as [|v vs Hv Hvs IH];
    intros hi acc Hacc; simpl fold_left.
  - eapply Forall_impl; [|exact Hacc]. intros x Hx. cbv beta in Hx |- *.
    simpl length. lia.
  - eapply Forall_impl; [|apply (IH (hi + 1)); apply vect_add_bounds; auto].
    intros x Hx. cbv beta in Hx |- *. rewrite length_cons. lia.
Qed.

Lemma repeat_zero_bounds (n : nat) :
  Forall (fun x => 0 <= x <= 0) (repeat 0 n).
Proof.
  induction n; simpl; constructor; auto; lia.
Qed.

Lemma flags_repeat_zero (n : nat) : flags (repeat 0 n).
Proof. induction n; simpl; constructor; auto. Qed.

(** The vector a worker ends with is a vector of flags. *)
Lemma worker_vect_flags (a : args_t) (h : hits_t) (procCnt : Z)
      (file : list ascii) (msz : Z) (fo : offs_t) :
  flags (charVect h) ->
  flags (worker_vect a h procCnt file msz fo).
Proof.
  intros Hf. unfold worker_vect.
  destruct (partScan a h procCnt file fo msz) as [[st e]|] eqn:E;
    [|constructor].
  pose proof (partScan_preserves a procCnt
                (fun s => flags (charVect (hits s)))) as HP.
  apply (HP (fun s m Hs => Hs)) with (h := h) (file := file) (fo := fo)
                                     (msz := msz) (e := e); auto.
  intros fin s s' b Hs Hstep.
  apply extractStep_effect in Hstep as (_ & Hfl & _). auto.
Qed.

(** What the loop over the hit IDs does to the vector: nothing when no
    hit ID matches, else entry [i] of the first matching hit ID is set
    to 1. *)
Lemma hitLoop_marks (a : args_t) (hl : list (list ascii)) (i0 : nat)
      (m : list ascii) (q : query_t) (cv : list Z) :
  let r := hitLoop a hl i0 m q cv in
  (snd r = 0 /\ snd (fst r) = cv) \/
  (snd r = 1 /\ exists i hit, nth_error hl i = Some hit /\
                              snd (fst r) = setZ cv (i0 + i) 1).
Proof.
  revert i0; induction hl as [|hit rest IH]; intros i0; simpl; [auto|].
  assert (Hhere : exists i hit0, nth_error (hit :: rest) i = Some hit0 /\
                                 setZ cv i0 1 = setZ cv (i0 + i) 1)
    by (exists 0%nat, hit; split; [reflexivity | f_equal; lia]).
  destruct (strncmp0 hit m (S (iaq q))); [right; simpl; auto|].
  destruct (altLoop hit m (faq q) (faq q - iaq q) (iaq q)).
  - destruct (negb (annotCnt a =? 0)); right; simpl; auto.
  - destruct (IH (S i0)) as [H|(H & i & hit0 & Hn & Hs)]; [auto|].
    right. split; [exact H|]. exists (S i), hit0. split; [exact Hn|].
    rewrite Hs. f_equal. lia.
Qed.

(* ------------------------------------------------------------------ *)
(** ** The report of the hit IDs not found (C5) *)












(* ------------------------------------------------------------------ *)
(** ** The partition plan (C6, C7) *)

Lemma chain_end_app (a : Z) (plan : list offs_t) (fo : offs_t) :
  chain_end a (plan ++ [fo]) = range_end fo.
Proof. revert a; induction plan as [|x plan IH]; intros a; simpl; auto. Qed.

Lemma chain_end_last (plan : list offs_t) :
  chain_end 0 plan = range_end (last plan (0, 0, 0)).
Proof.
  destruct plan as [|x plan]; [reflexivity|].
  assert (H : forall a y l, chain_end a (y :: l)
                            = range_end (last (y :: l) (0, 0, 0))).
  { intros a y l; revert a y; induction l as [|z l IH]; intros a y;
      [reflexivity|]. change (chain_end a (y :: z :: l))
        with (chain_end (range_end y) (z :: l)). rewrite IH. reflexivity. }
  apply H.
Qed.

Lemma contiguous_app (a : Z) (plan : list offs_t) (fo : offs_t) :
  contiguous_from a plan -> range_start fo = chain_end a plan ->
  contiguous_from a (plan ++ [fo]).
Proof.
  revert a; induction plan as [|x plan IH]; intros a; simpl.
  - auto.
  - intros [H1 H2] H3. split; auto.
Qed.

Lemma plan_sum_chain (a : Z) (plan : list offs_t) :
  contiguous_from a plan -> plan_sum plan = chain_end a plan - a.
Proof.
  revert a; induction plan as [|[[po sk] len] plan IH]; intros a; simpl.
  - intros _. lia.
  - intros [H1 H2]. fold (plan_sum plan). rewrite (IH _ H2). lia.
Qed.

Lemma starts_from_ends (Q : Z -> Prop) (a : Z) (pre : list offs_t)
      (lst : offs_t) :
  contiguous_from a (pre ++ [lst]) -> Q a ->
  Forall (fun fo => Q (range_end fo)) pre ->
  Forall (fun fo => Q (range_start fo)) (pre ++ [lst]).
Proof.
  revert a; induction pre as [|fo pre IH]; intros a; simpl.
  - intros [H _] Ha _. constructor; [congruence | constructor].
  - intros [H1 H2] Ha Hf. inversion Hf; subst.
    constructor; [congruence | eapply IH; eauto].
Qed.

Lemma deref_slice (m : list ascii) (p n c : nat) :
  (c < n)%nat -> deref (slice m p n) c = deref m (p + c).
Proof.
  intros H. unfold deref, slice. rewrite nth_firstn.
  destruct (Nat.ltb_spec c n); [|lia]. apply nth_skipn.
Qed.

(** A page that lies inside the file is read whole. *)
Lemma fread_in_file (file : list ascii) (readOffs P : Z)
      (buffer : list ascii) (c : nat) :
  0 <= readOffs -> readOffs + P <= Z.of_nat (length file) ->
  (c < Z.to_nat P)%nat ->
  deref (fread file readOffs P buffer) c
  = deref file (Z.to_nat readOffs + c).
Proof.
  intros H0 H1 Hc. unfold fread.
  rewrite deref_app_l by (rewrite slice_length_in; lia).
  apply deref_slice. exact Hc.
Qed.

Lemma chunkLoop_spec (buffer : list ascii) (n : nat) (offset : Z)
      (o' : Z) (found : bool) :
  chunkLoop buffer n offset = (o', found) ->
  if found
  then exists c, (c < n)%nat /\ deref buffer c = GT /\
                 o' = offset + Z.of_nat (n - c)
  else o' = offset + Z.of_nat n.
Proof.
  revert offset; induction n as [|c IH]; intros offset; cbn [chunkLoop].
  - intros H; inversion H; subst. simpl. lia.
  - destruct (Ascii.eqb_spec (deref buffer c) GT) as [Hg|Hg].
    + intros H; inversion H; subst. exists c. repeat split; auto; lia.
    + intros H. apply IH in H. destruct found.
      * destruct H as (c0 & Hc & Hd & Ho). exists c0.
        repeat split; auto; lia.
      * lia.
Qed.

(** The page loop returns: it finds a [>] whose address
    [page_offset + skew + length] lies below the nominal end of the
    partition, or asks for one process less. *)
Lemma seekLoop_spec (file : list ascii) (P partSz po sk : Z) (fuel : nat)
      (j offset : Z) (buffer : list ascii) :
  0 < P -> offset = P * j -> 0 <= j <= (po + partSz) / P ->
  (po + partSz) / P - j < Z.of_nat fuel ->
  match seekLoop file P partSz po sk fuel j offset buffer with
  | SeekFuel => False
  | SeekRetry => True
  | SeekLen len _ =>
      len <> 0 /\ 0 <= po + sk + len < po + partSz /\
      (po + partSz <= Z.of_nat (length file) ->
       deref file (Z.to_nat (po + sk + len)) = GT)
  end.
Proof.
  intros HP. revert j offset buffer; induction fuel as [|fuel IH];
    intros j offset buffer Ho Hj Hf; [lia|].
  cbn [seekLoop].
  destruct (Z.ltb_spec (po + partSz - P * (j + 1)) 0) as [Hr|Hr]; [exact I|].
  destruct (chunkLoop (fread file (po + partSz - P * (j + 1)) P buffer)
                      (Z.to_nat P) offset) as [o' found] eqn:E.
  apply chunkLoop_spec in E. destruct found.
  - destruct E as (c & Hc & Hd & Ho').
    destruct (Z.eqb_spec (partSz - o' - sk) 0) as [Hz|Hz]; [exact I|].
    split; [exact Hz|]. split; [nia|].
    intros Hin. rewrite fread_in_file in Hd; try nia; try lia.
    rewrite <- Hd. f_equal. nia.
  - destruct (Z.eqb_spec (partSz - o' - sk) 0); apply IH; try nia.
    + split; [lia|]. apply Z.div_le_lower_bound; lia.
    + split; [lia|]. apply Z.div_le_lower_bound; lia.
Qed.

Lemma nextOffs_eq (P : Z) (plan : list offs_t) :
  nextOffs P plan
  = (P * (chain_end 0 plan / P),
     chain_end 0 plan - P * (chain_end 0 plan / P)).
Proof.
  unfold nextOffs. rewrite chain_end_last.
  destruct (last plan (0, 0, 0)) as [[ppo psk] plen]. reflexivity.
Qed.

(** The partition loop: when it returns a plan, the plan has one entry
    per process, is contiguous from offset 0 and ends at [fsize]; when
    the pages it reads lie inside the file, every entry but the last
    ends at a [>].  Entry [i] ends below [(i + 1) * partSz - i], because
    every [>] found lies below the nominal end of its partition. *)
Lemma offsLoop_spec (file : list ascii) (fsize P partSz procCnt : Z)
      (fuel : nat) (i : Z) (plan : list offs_t) (buffer : list ascii) :
  0 < P -> 0 <= partSz ->
  Z.of_nat fuel = procCnt - i -> (0 < fuel)%nat ->
  Z.of_nat (length plan) = i ->
  contiguous_from 0 plan -> 0 <= chain_end 0 plan <= i * partSz - i ->
  Forall (fun fo => (procCnt - 1) * partSz - (procCnt - 2)
                    <= Z.of_nat (length file) ->
                    deref file (Z.to_nat (range_end fo)) = GT) plan ->
  match offsLoop file fsize P partSz procCnt fuel i plan buffer with
  | OffsFuel => False
  | OffsRetry => True
  | OffsOk final =>
      exists pre lst,
        final = pre ++ [lst] /\ Z.of_nat (length final) = procCnt /\
        contiguous_from 0 final /\ range_end lst = fsize /\
        Forall (fun fo => (procCnt - 1) * partSz - (procCnt - 2)
                          <= Z.of_nat (length file) ->
                          deref file (Z.to_nat (range_end fo)) = GT) pre
  end.
Proof.
  intros HP Hps. revert i plan buffer; induction fuel as [|fuel IH];
    intros i plan buffer Hf Hpos Hlen Hc He Hg; [lia|].
  cbn [offsLoop]. set (prev := chain_end 0 plan) in *.
  assert (Hpo : 0 <= P * (prev / P) <= prev).
  { split; [apply Z.mul_nonneg_nonneg; [lia | apply Z.div_pos; lia]|].
    apply Z.mul_div_le; lia. }
  destruct (Z.ltb_spec i (procCnt - 1)) as [Hi|Hi].
  - assert (Epair : (if i =? 0 then (0, 0) else nextOffs P plan)
                    = (P * (prev / P), prev - P * (prev / P))).
    { destruct (Z.eqb_spec i 0) as [Hz|Hz]; [|apply nextOffs_eq].
      destruct plan; [|simpl in Hlen; lia].
      subst prev. simpl. rewrite Z.div_0_l by lia. f_equal; lia. }
    rewrite Epair.
    set (po := P * (prev / P)) in *. set (sk := prev - po).
    pose proof (seekLoop_spec file P partSz po sk
                  (S (Z.to_nat ((po + partSz) / P))) 0 0 buffer HP) as Hs.
    assert (Hx : 0 <= (po + partSz) / P) by (apply Z.div_pos; lia).
    destruct (seekLoop file P partSz po sk
                (S (Z.to_nat ((po + partSz) / P))) 0 0 buffer)
      as [len buffer'| |]; [|exact I|apply Hs; lia].
    destruct Hs as (Hl0 & Hl1 & Hl2); try lia.
    apply IH; try lia.
    + rewrite length_app. simpl. lia.
    + apply contiguous_app; auto. simpl. subst sk. fold prev. lia.
    + rewrite chain_end_app. simpl. nia.
    + apply Forall_app. split; auto. constructor; [|constructor].
      intros Hin. simpl. apply Hl2.
      destruct (Z.eq_dec partSz 0) as [Hz|Hz]; [nia|].
      assert (0 <= (procCnt - 2 - i) * (partSz - 1))
        by (apply Z.mul_nonneg_nonneg; lia).
      nia.
  - assert (fuel = 0%nat) by lia. subst fuel.
    rewrite nextOffs_eq. fold prev.
    set (po := P * (prev / P)) in *. set (sk := prev - po).
    cbn [offsLoop].
    exists plan, (po, sk, fsize - (po + sk)).
    repeat split; auto.
    + rewrite length_app. simpl. lia.
    + apply contiguous_app; auto. simpl. subst sk. fold prev. lia.
    + simpl. lia.
Qed.

Lemma ceil_div_bounds (a b : Z) :
  0 < a -> 0 < b -> 0 < ceil_div a b /\ b * ceil_div a b <= a + b - 1.
Proof.
  intros Ha Hb. unfold ceil_div. split.
  - apply Z.div_str_pos. lia.
  - apply Z.mul_div_le. lia.
Qed.

(** Every page the partitioner reads lies inside the file. *)
Lemma in_file_bound (S n P : Z) :
  0 < S -> 2 <= n -> 0 < P ->
  (n - 1) * (P * (ceil_div S n / P)) - (n - 2) <= S.
Proof.
  intros HS Hn HP.
  destruct (ceil_div_bounds S n) as [Hq1 Hq2]; try lia.
  set (q := ceil_div S n) in *.
  assert (Hm : P * (q / P) <= q) by (apply Z.mul_div_le; lia).
  assert (Hd : 0 <= P * (q / P))
    by (apply Z.mul_nonneg_nonneg; [lia | apply Z.div_pos; lia]).
  assert ((n - 1) * (P * (q / P)) <= (n - 1) * q)
    by (apply Z.mul_le_mono_nonneg_l; lia).
  nia.
Qed.

Lemma setOffsQueryFile_spec (file : list ascii) (fsize P procCnt : Z)
      (buffer : list ascii) :
  0 < fsize -> 0 < P -> 2 <= procCnt ->
  match setOffsQueryFile file fsize P procCnt buffer with
  | OffsFuel => False
  | OffsRetry => True
  | OffsOk final =>
      exists pre lst,
        final = pre ++ [lst] /\ Z.of_nat (length final) = procCnt /\
        contiguous_from 0 final /\ range_end lst = fsize /\
        Forall (fun fo => fsize = Z.of_nat (length file) ->
                          deref file (Z.to_nat (range_end fo)) = GT) pre
  end.
Proof.
  intros HS HP Hn. unfold setOffsQueryFile.
  set (partSz := P * (ceil_div fsize procCnt / P)).
  assert (Hps : 0 <= partSz).
  { apply Z.mul_nonneg_nonneg; [lia|]. apply Z.div_pos; [|lia].
    destruct (ceil_div_bounds fsize procCnt); lia. }
  pose proof (offsLoop_spec file fsize P partSz procCnt
                (Z.to_nat procCnt) 0 [] buffer HP Hps) as H.
  destruct (offsLoop file fsize P partSz procCnt (Z.to_nat procCnt) 0 []
                     buffer) as [final| |]; auto.
  - destruct H as (pre & lst & H1 & H2 & H3 & H4 & H5);
      try (simpl; auto; lia).
    exists pre, lst. repeat split; auto.
    eapply Forall_impl; [|exact H5]. simpl. intros fo Hfo Hsz.
    apply Hfo. rewrite <- Hsz. apply in_file_bound; lia.
  - apply H; simpl; auto; lia.
Qed.

(** The loop of rank 0 returns a plan for some process count between 1
    and the one asked for. *)
Lemma setOffs_spec (file : list ascii) (qfsz P : Z) (heap : nat -> list ascii)
      (N : nat) :
  0 < qfsz -> 0 < P -> (1 <= N)%nat ->
  exists n' pre lst,
    setOffs file qfsz P heap N = Some (n', pre ++ [lst]) /\
    (1 <= n' <= N)%nat /\ length (pre ++ [lst]) = n' /\
    contiguous_from 0 (pre ++ [lst]) /\ range_end lst = qfsz /\
    Forall (fun fo => qfsz = Z.of_nat (length file) ->
                      deref file (Z.to_nat (range_end fo)) = GT) pre.
Proof.
  intros HS HP. induction N as [|n IH]; intros HN; [lia|].
  cbn [setOffs]. destruct (Nat.eqb_spec (S n) 1) as [H1|H1].
  - exists 1%nat, [], (0, 0, qfsz). simpl. repeat split; auto; lia.
  - pose proof (setOffsQueryFile_spec file qfsz P (Z.of_nat (S n))
                  (heap (S n)) HS HP) as H.
    destruct (setOffsQueryFile file qfsz P (Z.of_nat (S n)) (heap (S n)))
      as [final| |].
    + destruct H as (pre & lst & -> & H2 & H3 & H4 & H5); [lia|].
      exists (S n), pre, lst. repeat split; auto; try lia.
    + destruct IH as (n' & pre & lst & E & Hn' & Hl & Hc & He & Hg); [lia|].
      exists n', pre, lst. repeat split; auto; try lia.
    + exfalso. apply H. lia.
Qed.

(** C6.  For every file size [qfsz > 0], process count [N >= 1] and page
    size [P > 0], the partitioner returns a plan for some [N'] between
    1 and [N]: [N'] triples whose ranges are contiguous in byte order
    from offset 0 and whose lengths sum to [qfsz].  (It never signals the
    hard error the claim allows.) *)
Theorem C6_partition_plan_covers (file : list ascii) (qfsz P : Z)
        (heap : nat -> list ascii) (N : nat) :
  0 < qfsz -> (1 <= N)%nat -> 0 < P ->
  exists n' plan,
    setOffs file qfsz P heap N = Some (n', plan) /\
    (1 <= n' <= N)%nat /\ length plan = n' /\
    contiguous_from 0 plan /\ plan_sum plan = qfsz.
Proof.
  intros HS HN HP.
  destruct (setOffs_spec file qfsz P heap N HS HP HN)
    as (n' & pre & lst & E & Hn' & Hl & Hc & He & _).
  exists n', (pre ++ [lst]). repeat split; auto; try lia.
  rewrite (plan_sum_chain 0) by exact Hc. rewrite chain_end_app. lia.
Qed.

(** The statement for the two-record file, three processes asked for
    and pages of 4 bytes. *)
Lemma C6_partition_plan_covers_witness :
  exists n' plan,
    setOffs fasta_two 32 4 (zero_heap 4) 3 = Some (n', plan) /\
    (1 <= n' <= 3)%nat /\ length plan = n' /\
    contiguous_from 0 plan /\ plan_sum plan = 32.
Proof.
  apply (C6_partition_plan_covers fasta_two 32 4 (zero_heap 4) 3); lia.
Defined.

(** The plan of that run. *)
Example partition_plan_two_records :
  setOffs fasta_two 32 4 (zero_heap 4) 3
  = Some (2%nat, [(0, 0, 15); (12, 3, 17)]).
Proof. vm_compute. reflexivity. Qed.

(** Scenario 5 of the specification: the pool shrinks to one worker. *)
Example partition_plan_shrinks :
  setOffs (repeat "A"%char 1000) 1000 4096 (zero_heap 4096) 16
  = Some (1%nat, [(0, 0, 1000)]).
Proof. vm_compute. reflexivity. Qed.

(** C7 (amended).  In every plan returned for a file that is not empty
    and a positive page size, the byte at [page_offset + skew] of every
    entry but the first is a [>], and every range but the last ends at
    the byte before such a [>].  That [>] is whichever [>] byte the
    backward scan meets first: it begins a record when the input holds
    no [>] except at the start of a line. *)
Theorem C7_ranges_begin_at_gt (file : list ascii) (P : Z)
        (heap : nat -> list ascii) (N n' : nat) (plan : list offs_t) :
  0 < Z.of_nat (length file) -> (1 <= N)%nat -> 0 < P ->
  setOffs file (Z.of_nat (length file)) P heap N = Some (n', plan) ->
  Forall (fun fo =>
            deref file (Z.to_nat (range_start fo)) = GT /\
            (gt_only_at_line_start file ->
             begins_record file (Z.to_nat (range_start fo)) = true))
         (tl plan) /\
  Forall (fun fo =>
            deref file (Z.to_nat (range_end fo)) = GT /\
            (gt_only_at_line_start file ->
             begins_record file (Z.to_nat (range_end fo)) = true))
         (removelast plan).
Proof.
  intros HS HN HP E.
  destruct (setOffs_spec file (Z.of_nat (length file)) P heap N HS)
    as (n1 & pre & lst & E1 & _ & _ & Hc & _ & Hg); try lia.
  rewrite E in E1. inversion E1; subst n1 plan. clear E1.
  set (Q := fun a : Z =>
              deref file (Z.to_nat a) = GT /\
              (gt_only_at_line_start file ->
               begins_record file (Z.to_nat a) = true)).
  assert (Hq : Forall (fun fo => Q (range_end fo)) pre).
  { eapply Forall_impl; [|exact Hg]. simpl. intros fo Hfo.
    assert (Hd : deref file (Z.to_nat (range_end fo)) = GT)
      by (apply Hfo; auto).
    split; [exact Hd|]. intros Hl. unfold begins_record.
    rewrite Hd, (Hl _ Hd). reflexivity. }
  split.
  - destruct pre as [|fo pre]; [constructor|].
    simpl in Hc. destruct Hc as [_ Hc]. inversion Hq; subst.
    simpl tl. apply (starts_from_ends Q (range_end fo)); auto.
  - rewrite removelast_last. exact Hq.
Qed.

(** The amended statement for the two-record file, three processes
    asked for and pages of 4 bytes: rank 1 begins at offset 15. *)
Lemma C7_ranges_begin_at_gt_witness :
  Forall (fun fo =>
            deref fasta_two (Z.to_nat (range_start fo)) = GT /\
            (gt_only_at_line_start fasta_two ->
             begins_record fasta_two (Z.to_nat (range_start fo)) = true))
         (tl [(0, 0, 15); (12, 3, 17)]) /\
  Forall (fun fo =>
            deref fasta_two (Z.to_nat (range_end fo)) = GT /\
            (gt_only_at_line_start fasta_two ->
             begins_record fasta_two (Z.to_nat (range_end fo)) = true))
         (removelast [(0, 0, 15); (12, 3, 17)]).
Proof.
  apply (C7_ranges_begin_at_gt fasta_two 4 (zero_heap 4) 3 2
           [(0, 0, 15); (12, 3, 17)]).
  - simpl. lia.
  - lia.
  - lia.
  - vm_compute. reflexivity.
Defined.

(** C7 (counterexample).  The file is well-formed FASTA and the header
    of its first record holds a [>]; with two processes and pages of 4
    bytes the backward scan stops at that [>]: rank 1 begins at offset
    2, whose byte is a [>] that follows the byte [a] and begins no
    record. *)
Lemma C7_gt_inside_header_splits_record :
  fasta_wf_spec fasta_gt_in_header = true /\
  length fasta_gt_in_header = 14%nat /\
  setOffs fasta_gt_in_header 14 4 (zero_heap 4) 2
  = Some (2%nat, [(0, 0, 2); (0, 2, 12)]) /\
  deref fasta_gt_in_header 2 = GT /\
  deref fasta_gt_in_header 1 = "a"%char /\
  begins_record fasta_gt_in_header 2 = false.
Proof. repeat split; vm_compute; reflexivity. Qed.

(* ------------------------------------------------------------------ *)
(** ** Mode exclusivity (C9) *)

Lemma validate_conflict (a : args_t) (ret : Z) :
  pipeMode a <> 0 -> searchMode a <> 0 -> validate a ret = ERROR.
Proof.
  intros Hp Hs. unfold validate, orErr.
  apply Z.eqb_neq in Hp, Hs. rewrite Hp, Hs. simpl.
  repeat match goal with
         | |- context [if ?c then _ else _] => destruct c
         end; reflexivity.
Qed.

(** C9 (amended).  What is detected before the scan is the conflict of
    the two lookup sources: a command line that leaves both the
    pipeline mode and the search mode set is a configuration error.  A
    filter length given together with a lookup source is accepted and
    ignored: with a lookup source the selection does not depend on the
    configured lengths, and without one it does not consult the hit
    index, so one predicate is active per run. *)
Theorem C9_lookup_sources_conflict (stack : list ascii)
        (argv : list cmd_opt) (r : Z) (a : args_t) :
  parseCmdline stack argv = Some (r, a) ->
  (pipeMode a <> 0 -> searchMode a <> 0 ->
   r = ERROR /\ config_status r = Some CFGERROR) /\
  (forall hl cv m q seqSz r0 rn l ln,
      let h := mkHits hl cv (pipeMode a) (searchMode a) in
      (pipeMode a <> 0 \/ searchMode a <> 0 ->
       selectQuery (set_lengths a r0 rn l ln) h m q seqSz
       = selectQuery a h m q seqSz) /\
      (pipeMode a = 0 -> searchMode a = 0 ->
       selectQuery a h m q seqSz = (m, q, cv, lenSelect a seqSz))).
Proof.
  intros Hparse. split.
  - intros Hp Hs.
    assert (E : r = ERROR).
    { apply parseCmdline_some in Hparse as (ret & l0 & _ & ->).
      apply validate_conflict; auto. }
    split; [exact E|]. rewrite E. reflexivity.
  - intros hl cv m q seqSz r0 rn l ln h. split.
    + intros Hm. unfold selectQuery, lookupMode. simpl.
      assert (El : negb (pipeMode a =? 0) || negb (searchMode a =? 0) = true).
      { destruct Hm as [Hm|Hm]; apply Z.eqb_neq in Hm; rewrite Hm;
          simpl; auto using orb_true_r. }
      rewrite El.
      assert (Hh : forall hl0 i, hitLoop (set_lengths a r0 rn l ln) hl0 i m q cv
                                 = hitLoop a hl0 i m q cv).
      { clear. intros hl0. revert cv.
        induction hl0 as [|hit rest IH]; intros cv i; simpl; [reflexivity|].
        rewrite IH. reflexivity. }
      apply Hh.
    + intros Hp Hs. unfold selectQuery, lookupMode. simpl.
      rewrite Hp, Hs. reflexivity.
Qed.

(** The amended statement at [-q db.fa -t hits.tbl -p 1 -s ids.txt]. *)
Lemma C9_lookup_sources_conflict_witness :
  let argv := [Opt_q "db.fa"; Opt_t "hits.tbl"; Opt_p 1; Opt_s "ids.txt"] in
  let a := args_of (parseCmdline [] argv) in
  parseCmdline [] argv = Some (ERROR, a) /\
  pipeMode a <> 0 /\ searchMode a <> 0 /\
  ERROR = ERROR /\ config_status ERROR = Some CFGERROR.
Proof.
  intros argv a.
  assert (Hparse : parseCmdline [] argv = Some (ERROR, a))
    by (vm_compute; reflexivity).
  assert (Hp : pipeMode a <> 0) by (vm_compute; discriminate).
  assert (Hs : searchMode a <> 0) by (vm_compute; discriminate).
  split; [exact Hparse|]. split; [exact Hp|]. split; [exact Hs|].
  exact (proj1 (C9_lookup_sources_conflict [] argv ERROR a Hparse) Hp Hs).
Defined.

(** C9 (counterexample).  [-q db.fa -l 5 -t hits.tbl -p 1] configures
    an exact length and a BLAST-table pipeline; [parseCmdline] returns 0
    and the run goes on to the scan. *)
Lemma C9_length_with_pipeline_accepted :
  let argv := [Opt_q "db.fa"; Opt_l 5 (padded "5"); Opt_t "hits.tbl";
               Opt_p 1] in
  let a := args_of (parseCmdline [] argv) in
  parseCmdline [] argv = Some (0, a) /\
  config_status 0 = None /\
  seqLenBuf a = 1 /\
  seqLen a = [5; 0; 0; 0; 0] /\
  pipeMode a = 1 /\
  btable a = "hits.tbl"%string.
Proof. repeat split; vm_compute; reflexivity. Qed.

(* ------------------------------------------------------------------ *)
(** ** One record in its region (C8) *)

Ltac len_lia :=
  repeat (progress (rewrite ?length_app in *; cbn [length] in *)); lia.

Lemma deref_mid (A B : list ascii) (y : ascii) :
  deref (A ++ y :: B) (length A) = y.
Proof.
  rewrite <- (Nat.add_0_r (length A)). rewrite deref_app_r. reflexivity.
Qed.

Lemma scanFor_through (sym : ascii) (fin : nat) (l A B : list ascii)
      (fuel : nat) :
  Forall (fun c => c <> sym) l ->
  (length A + length l < fin)%nat -> (length l < fuel)%nat ->
  scanFor sym (A ++ l ++ sym :: B) fin fuel (length A)
  = Some (length A + length l)%nat.
Proof.
  revert A fuel; induction l as [|y l IH]; intros A fuel Hl Hfin Hfuel;
    (destruct fuel as [|fuel]; [cbn [length] in Hfuel; lia|]);
    cbn [scanFor]; cbn [length] in *;
    (destruct (Nat.eqb_spec (length A) fin); [lia|]).
  - cbn [app]. rewrite deref_mid, Ascii.eqb_refl. f_equal. lia.
  - inversion Hl; subst. cbn [app]. rewrite deref_mid.
    destruct (Ascii.eqb_spec y sym) as [He|He]; [contradiction|].
    replace (A ++ y :: l ++ sym :: B) with ((A ++ [y]) ++ l ++ sym :: B)
      by (rewrite <- app_assoc; reflexivity).
    replace (S (length A)) with (length (A ++ [y])) by len_lia.
    rewrite IH; auto; try len_lia. f_equal. len_lia.
Qed.

(** [getAnnot] on a record that stands in the region after [A ++ l],
    the pointer [fsq] being at the first byte of [l] and [l] holding no
    [>]. *)
Lemma getAnnot_ctx (fin : nat) (A l hdr rest : list ascii) (q : query_t) :
  Forall (fun c => c <> GT) l ->
  Forall (fun c => c <> GT /\ c <> NL) hdr ->
  fsq q = length A ->
  (length A + length l + length hdr + 1 < fin)%nat ->
  getAnnot (A ++ l ++ GT :: hdr ++ NL :: rest) fin q
  = Some (mkQuery (length A + length l)
                  (length A + length l + length hdr + 1) (isq q) (fsq q)).
Proof.
  intros Hl Hh Hq Hfin. unfold getAnnot. rewrite Hq.
  rewrite scanFor_through; auto; try lia.
  replace (A ++ l ++ GT :: hdr ++ NL :: rest)
    with ((A ++ l ++ [GT]) ++ hdr ++ NL :: rest)
    by (rewrite <- !app_assoc; reflexivity).
  replace (S (length A + length l)) with (length (A ++ l ++ [GT]))
    by (rewrite !length_app; simpl; lia).
  rewrite scanFor_through; try len_lia.
  - f_equal. f_equal. rewrite !length_app; simpl; lia.
  - eapply Forall_impl; [|exact Hh]. simpl; tauto.
Qed.

Lemma seq_len_cons (c : ascii) (b : list ascii) :
  seq_len (c :: b) = if Ascii.eqb c NL then seq_len b else seq_len b + 1.
Proof.
  unfold seq_len. simpl. destruct (Ascii.eqb c NL); simpl; lia.
Qed.

(** The sequence loop over a body [b] that stands after [A]: it stops
    at the newline that ends the body, either because the region ends
    there or because a [>] follows. *)
Lemma seqLoop_body (fin : nat) (b A post : list ascii) (fuel : nat)
      (sz : Z) :
  Forall (fun c => c <> GT) b ->
  (fin = (length A + length b)%nat \/
   ((length A + length b + 1 < fin)%nat /\
    exists post', post = GT :: post')) ->
  (S fin - length A <= fuel)%nat ->
  seqLoop (A ++ b ++ NL :: post) fin fuel (length A) sz
  = ((length A + length b)%nat, sz + seq_len b).
Proof.
  revert A fuel sz; induction b as [|y b IH]; intros A fuel sz Hb Hfin Hfuel;
    (destruct fuel as [|fuel];
     [cbn [length] in Hfin; destruct Hfin as [Hfin|[Hfin _]]; lia|]);
    cbn [seqLoop app]; cbn [length] in *.
  - destruct Hfin as [Hfin|(Hfin & post' & ->)].
    + replace (length A + 0)%nat with (length A) in * by lia. subst fin.
      rewrite Nat.eqb_refl. unfold seq_len; simpl. f_equal; lia.
    + destruct (Nat.eqb_spec (length A) fin); [lia|].
      rewrite deref_mid, Ascii.eqb_refl.
      destruct fuel as [|fuel]; [lia|]. cbn [seqLoop].
      destruct (Nat.eqb_spec (S (length A)) fin); [lia|].
      replace (A ++ NL :: GT :: post') with ((A ++ [NL]) ++ GT :: post')
        by (rewrite <- app_assoc; reflexivity).
      replace (S (length A)) with (length (A ++ [NL])) by len_lia.
      rewrite deref_mid. change (Ascii.eqb GT NL) with false.
      rewrite Ascii.eqb_refl. unfold seq_len; simpl. f_equal; len_lia.
  - inversion Hb; subst.
    destruct (Nat.eqb_spec (length A) fin); [lia|].
    rewrite deref_mid.
    replace (A ++ y :: b ++ NL :: post) with ((A ++ [y]) ++ b ++ NL :: post)
      by (rewrite <- app_assoc; reflexivity).
    replace (S (length A)) with (length (A ++ [y])) by len_lia.
    rewrite seq_len_cons.
    assert (Hfin' : fin = (length (A ++ [y]) + length b)%nat \/
                    ((length (A ++ [y]) + length b + 1 < fin)%nat /\
                     exists post', post = GT :: post')).
    { destruct Hfin as [Hfin|[Hfin Hp]]; [left|right; split; auto];
        len_lia. }
    assert (Hlen : (length (A ++ [y]) + length b)%nat
                   = (length A + S (length b))%nat) by len_lia.
    destruct (Ascii.eqb_spec y NL) as [Hn|Hn].
    + rewrite IH; auto; [|len_lia]. rewrite Hlen. reflexivity.
    + destruct (Ascii.eqb_spec y GT) as [Hg|Hg]; [contradiction|].
      rewrite IH; auto; [|len_lia]. rewrite Hlen. f_equal. lia.
Qed.

Lemma seq_len_pos (b : list ascii) :
  Exists (fun c => c <> NL) b -> 0 < seq_len b.
Proof.
  induction 1 as [c b Hc|c b _ IH]; rewrite seq_len_cons.
  - destruct (Ascii.eqb_spec c NL); [contradiction|].
    unfold seq_len. lia.
  - destruct (Ascii.eqb c NL); lia.
Qed.

(** [getSequence] on the record [(hdr, b)] that stands after [pre]: the
    region ends with the record, or a [>] follows and the region holds
    at least one byte more. *)
Lemma getSequence_ctx (fin : nat) (pre hdr b post : list ascii)
      (q : query_t) :
  Forall (fun c => c <> GT) b -> Exists (fun c => c <> NL) b ->
  faq q = (length pre + length hdr + 1)%nat ->
  (fin = (length pre + length hdr + length b + 2)%nat \/
   ((length pre + length hdr + length b + 3 < fin)%nat /\
    exists post', post = GT :: post')) ->
  getSequence (pre ++ rec_bytes (hdr, b) ++ post) fin q
  = Some (seq_len b,
          mkQuery (iaq q) (faq q) (S (faq q))
                  (length pre + length hdr + length b + 2)).
Proof.
  intros Hb He Hq Hfin. unfold getSequence, rec_bytes. cbn [fst snd].
  replace (pre ++ (GT :: hdr ++ NL :: b ++ [NL]) ++ post)
    with ((pre ++ GT :: hdr ++ [NL]) ++ b ++ NL :: post)
    by (cbn [app]; rewrite <- !app_assoc; cbn [app];
        rewrite <- !app_assoc; reflexivity).
  replace (S (faq q)) with (length (pre ++ GT :: hdr ++ [NL])) by len_lia.
  rewrite seqLoop_body; auto.
  - pose proof (seq_len_pos b He) as Hp.
    destruct (Z.eqb_spec (0 + seq_len b) 0); [lia|].
    replace (0 + seq_len b) with (seq_len b) by lia.
    do 3 f_equal. len_lia.
  - destruct Hfin as [Hfin|[Hfin Hp]]; [left|right; split; auto]; len_lia.
Qed.

Lemma deref_ctx (pre x post : list ascii) (p : nat) :
  (p < length x)%nat -> deref (pre ++ x ++ post) (length pre + p) = deref x p.
Proof. intros H. rewrite deref_app_r, deref_app_l; auto. Qed.

Lemma slice_ctx (pre x post : list ascii) (k n : nat) :
  (k + n <= length x)%nat ->
  slice (pre ++ x ++ post) (length pre + k) n = slice x k n.
Proof. intros H. rewrite slice_app_r, slice_app_l; auto. Qed.

Lemma prefix_eqb (hit l : list ascii) :
  bytes_eqb hit (firstn (length hit) l) = true <-> exists rest, l = hit ++ rest.
Proof.
  rewrite bytes_eqb_eq. split.
  - intros H. exists (skipn (length hit) l).
    rewrite H at 1. symmetry. apply firstn_skipn.
  - intros [rest ->]. rewrite firstn_app, firstn_all, Nat.sub_diag.
    simpl. rewrite app_nil_r. reflexivity.
Qed.

(** A string that holds no byte [c] is a prefix of [mid ++ c :: X] only
    when it is a prefix of [mid]. *)
Lemma prefix_stop (c : ascii) (hit mid X : list ascii) :
  Forall (fun y => y <> c) hit ->
  ((exists rest, mid ++ c :: X = hit ++ rest) <->
   (exists rest, mid = hit ++ rest)).
Proof.
  intros Hh. revert mid; induction Hh as [|h hit Hc Hh IH]; intros mid.
  - split; intros _; eexists; reflexivity.
  - destruct mid as [|y mid]; simpl.
    + split; intros [rest H]; inversion H. congruence.
    + split; intros [rest H]; inversion H; subst.
      * destruct (proj1 (IH mid)) as [rest' ->]; [eauto|]. eauto.
      * destruct (proj2 (IH (hit ++ rest))) as [rest' Hr]; [eauto|].
        exists rest'. f_equal. exact Hr.
Qed.

(** Comparing a hit ID that holds no newline with the header text at
    [X1] gives the same result in the region and in the record alone. *)
Lemma strncmp0_ctx (hit pre X1 mid tail post : list ascii) :
  Forall (fun y => y <> NL) hit ->
  strncmp0 hit (pre ++ (X1 ++ mid ++ NL :: tail) ++ post)
           (length pre + length X1)
  = strncmp0 hit (X1 ++ mid ++ NL :: tail) (length X1).
Proof.
  intros Hh. apply eq_iff_eq_true. unfold strncmp0, slice.
  rewrite !prefix_eqb.
  replace (skipn (length pre + length X1)
                 (pre ++ (X1 ++ mid ++ NL :: tail) ++ post))
    with (mid ++ NL :: (tail ++ post)).
  2:{ rewrite skipn_app, skipn_all2 by lia.
      replace (length pre + length X1 - length pre)%nat with (length X1)
        by lia.
      rewrite <- app_assoc, skipn_app, skipn_all, Nat.sub_diag. simpl.
      rewrite <- app_assoc. reflexivity. }
  replace (skipn (length X1) (X1 ++ mid ++ NL :: tail))
    with (mid ++ NL :: tail)
    by (rewrite skipn_app, skipn_all, Nat.sub_diag; reflexivity).
  rewrite !(prefix_stop NL) by exact Hh. tauto.
Qed.

Lemma parseLoop_ctx (pre x post : list ascii) (qc qx : query_t)
      (fuel p : nat) (cnt sz : Z) :
  iaq qc = (length pre + iaq qx)%nat -> faq qc = (length pre + faq qx)%nat ->
  (p <= faq qx)%nat -> (faq qx < length x)%nat ->
  parseLoop (pre ++ x ++ post) qc fuel (length pre + p) cnt sz
  = parseLoop x qx fuel p cnt sz.
Proof.
  intros Hi Hf. revert p cnt; induction fuel as [|fuel IH];
    intros p cnt Hp Hx; cbn [parseLoop]; [reflexivity|].
  rewrite Hf, Hi.
  replace (length pre + p =? length pre + faq qx)%nat with (p =? faq qx)%nat
    by (destruct (Nat.eqb_spec p (faq qx)),
          (Nat.eqb_spec (length pre + p) (length pre + faq qx));
        auto; lia).
  destruct (Nat.eqb_spec p (faq qx)); [reflexivity|].
  rewrite deref_ctx by lia.
  replace (length pre + p - (length pre + iaq qx))%nat with (p - iaq qx)%nat
    by lia.
  replace (S (length pre + p)) with (length pre + S p)%nat by lia.
  rewrite !IH by lia. reflexivity.
Qed.

Lemma parseLoop_le (m : list ascii) (q : query_t) (fuel p : nat)
      (cnt sz : Z) :
  (iaq q <= p <= faq q)%nat ->
  parseLoop m q fuel p cnt sz
  <= Z.max (sz - 1) (Z.of_nat (faq q - iaq q) - 1).
Proof.
  revert p cnt; induction fuel as [|fuel IH]; intros p cnt Hp;
    cbn [parseLoop]; [lia|].
  destruct (Nat.eqb_spec p (faq q)); [lia|].
  destruct (isDelim (deref m p)).
  - destruct (cnt - 1 =? 0); [lia | apply IH; lia].
  - apply IH; lia.
Qed.

Lemma rec_bytes_length (hdr b : list ascii) :
  length (rec_bytes (hdr, b)) = (length hdr + length b + 3)%nat.
Proof. unfold rec_bytes. cbn [fst snd]. len_lia. Qed.

Lemma rec_bytes_split (hdr b : list ascii) (j : nat) :
  (j <= length hdr)%nat ->
  rec_bytes (hdr, b)
  = (GT :: firstn j hdr) ++ skipn j hdr ++ NL :: (b ++ [NL]) /\
  length (GT :: firstn j hdr) = S j.
Proof.
  intros Hj. unfold rec_bytes. cbn [fst snd]. split.
  - cbn [app]. rewrite app_assoc, firstn_skipn. reflexivity.
  - cbn [length]. rewrite length_firstn. lia.
Qed.

Lemma rec_bytes_faq (hdr b : list ascii) :
  deref (rec_bytes (hdr, b)) (length hdr + 1) = NL.
Proof.
  unfold rec_bytes. cbn [fst snd].
  replace (GT :: hdr ++ NL :: b ++ [NL]) with ((GT :: hdr) ++ NL :: b ++ [NL])
    by reflexivity.
  replace (length hdr + 1)%nat with (length (GT :: hdr)) by len_lia.
  apply deref_mid.
Qed.

Lemma altLoop_ctx (hit pre hdr b post : list ascii) (fuel paq : nat) :
  Forall (fun y => y <> NL) hit ->
  (paq <= length hdr + 1)%nat ->
  altLoop hit (pre ++ rec_bytes (hdr, b) ++ post)
          (length pre + (length hdr + 1)) fuel (length pre + paq)
  = option_map (Nat.add (length pre))
               (altLoop hit (rec_bytes (hdr, b)) (length hdr + 1) fuel paq).
Proof.
  intros Hh. revert paq; induction fuel as [|fuel IH]; intros paq Hp;
    cbn [altLoop]; [reflexivity|].
  replace (length pre + paq =? length pre + (length hdr + 1))%nat
    with (paq =? length hdr + 1)%nat
    by (destruct (Nat.eqb_spec paq (length hdr + 1)),
          (Nat.eqb_spec (length pre + paq) (length pre + (length hdr + 1)));
        auto; lia).
  destruct (Nat.eqb_spec paq (length hdr + 1)); [reflexivity|].
  pose proof (rec_bytes_length hdr b) as Hlen.
  replace (S (length pre + paq)) with (length pre + S paq)%nat by lia.
  rewrite deref_ctx by lia.
  assert (Hcmp :
    Ascii.eqb (deref (rec_bytes (hdr, b)) (S paq)) SOH
    && strncmp0 hit (pre ++ rec_bytes (hdr, b) ++ post)
                (S (length pre + S paq))
    = Ascii.eqb (deref (rec_bytes (hdr, b)) (S paq)) SOH
      && strncmp0 hit (rec_bytes (hdr, b)) (S (S paq))).
  { destruct (le_lt_dec (S paq) (length hdr)) as [Hj|Hj].
    - destruct (rec_bytes_split hdr b (S paq) Hj) as [Hs Hl].
      f_equal. rewrite Hs.
      replace (S (length pre + S paq))
        with (length pre + length (GT :: firstn (S paq) hdr))%nat
        by (rewrite Hl; lia).
      rewrite strncmp0_ctx by exact Hh. rewrite Hl. reflexivity.
    - replace (S paq) with (length hdr + 1)%nat by lia.
      rewrite rec_bytes_faq. reflexivity. }
  rewrite Hcmp.
  destruct (Ascii.eqb (deref (rec_bytes (hdr, b)) (S paq)) SOH
            && strncmp0 hit (rec_bytes (hdr, b)) (S (S paq))).
  - reflexivity.
  - apply IH. lia.
Qed.

(** Without rewriting of alternative headers, the loop over the hit IDs
    leaves the memory and the pointers alone and decides in the region
    as it does on the record alone. *)
Lemma hitLoop_ctx (a : args_t) (hl : list (list ascii)) (i : nat)
      (pre hdr b post : list ascii) (cv : list Z) :
  Forall (fun hit => Forall (fun y => y <> NL) hit) hl ->
  annotCnt a = 0 \/ Forall (fun c => c <> SOH) hdr ->
  exists cv' sel,
    hitLoop a hl i (pre ++ rec_bytes (hdr, b) ++ post)
            (rec_query (length pre) hdr b) cv
    = (pre ++ rec_bytes (hdr, b) ++ post, rec_query (length pre) hdr b,
       cv', sel) /\
    hitLoop a hl i (rec_bytes (hdr, b)) (rec_query 0 hdr b) cv
    = (rec_bytes (hdr, b), rec_query 0 hdr b, cv', sel).
Proof.
  intros Hhl Hnr. revert i cv; induction Hhl as [|hit rest Hh Hrest IH];
    intros i cv; cbn [hitLoop]; [eauto|].
  cbn [rec_query iaq faq].
  assert (E1 : strncmp0 hit (pre ++ rec_bytes (hdr, b) ++ post)
                        (S (length pre))
               = strncmp0 hit (rec_bytes (hdr, b)) 1).
  { destruct (rec_bytes_split hdr b 0) as [Hs Hl]; [lia|]. rewrite Hs.
    replace (S (length pre))
      with (length pre + length (GT :: firstn 0 hdr))%nat
      by (rewrite Hl; lia).
    rewrite strncmp0_ctx by exact Hh. rewrite Hl. reflexivity. }
  rewrite E1.
  destruct (strncmp0 hit (rec_bytes (hdr, b)) 1); [eauto|].
  replace (length pre + (length hdr + 1) - length pre)%nat
    with (length hdr + 1)%nat by lia.
  pose proof (altLoop_ctx hit pre hdr b post (length hdr + 1) 0 Hh
                ltac:(lia)) as Ha.
  rewrite Nat.add_0_r in Ha. rewrite Ha. clear Ha.
  replace (0 + (length hdr + 1) - 0)%nat with (length hdr + 1)%nat by lia.
  cbn [Nat.add].
  destruct (altLoop hit (rec_bytes (hdr, b)) (length hdr + 1)
                    (length hdr + 1) 0) as [paq|] eqn:Ea; cbn [option_map].
  - destruct Hnr as [Hz|Hs].
    + rewrite Hz. cbn. eauto.
    + exfalso. apply altLoop_some in Ea as (Hr & Hd & _); [|lia].
      destruct (Nat.eq_dec paq (length hdr + 1)) as [->|Hne].
      * rewrite rec_bytes_faq in Hd. discriminate.
      * unfold rec_bytes, deref in Hd. cbn [fst snd] in Hd.
        destruct paq as [|j]; [lia|]. cbn [nth] in Hd.
        rewrite app_nth1 in Hd by lia.
        rewrite Forall_forall in Hs. apply (Hs (nth j hdr zero)); auto.
        apply nth_In. lia.
  - apply IH.
Qed.

Lemma selectQuery_ctx (a : args_t) (h : hits_t)
      (pre hdr b post : list ascii) (seqSz : Z) :
  (lookupMode h = true ->
   Forall (fun hit => Forall (fun y => y <> NL) hit) (hitList h) /\
   (annotCnt a = 0 \/ Forall (fun c => c <> SOH) hdr)) ->
  exists cv' sel,
    selectQuery a h (pre ++ rec_bytes (hdr, b) ++ post)
                (rec_query (length pre) hdr b) seqSz
    = (pre ++ rec_bytes (hdr, b) ++ post, rec_query (length pre) hdr b,
       cv', sel) /\
    selectQuery a h (rec_bytes (hdr, b)) (rec_query 0 hdr b) seqSz
    = (rec_bytes (hdr, b), rec_query 0 hdr b, cv', sel).
Proof.
  intros Hl. unfold selectQuery. destruct (lookupMode h).
  - destruct Hl as [H1 H2]; auto. apply hitLoop_ctx; auto.
  - eauto.
Qed.

Lemma slice_ctx_at (pre x post : list ascii) (k' k n : nat) :
  k' = (length pre + k)%nat -> (k + n <= length x)%nat ->
  slice (pre ++ x ++ post) k' n = slice x k n.
Proof. intros -> H. apply slice_ctx; exact H. Qed.

Lemma parseAnnot_ctx (cnt sz : Z) (pre hdr b post : list ascii) :
  parseAnnot cnt sz (pre ++ rec_bytes (hdr, b) ++ post)
             (rec_query (length pre) hdr b)
  = parseAnnot cnt sz (rec_bytes (hdr, b)) (rec_query 0 hdr b).
Proof.
  unfold parseAnnot. cbn [rec_query iaq faq].
  replace (S (length pre + (length hdr + 1)) - length pre)%nat
    with (S (0 + (length hdr + 1)) - 0)%nat by lia.
  pose proof (parseLoop_ctx pre (rec_bytes (hdr, b)) post
                (rec_query (length pre) hdr b) (rec_query 0 hdr b)
                (S (0 + (length hdr + 1)) - 0) 0 cnt sz) as H.
  cbn [rec_query iaq faq] in H. rewrite Nat.add_0_r in H.
  apply H; try lia. rewrite rec_bytes_length. lia.
Qed.

Lemma parseAnnot_rec_bounds (cnt : Z) (hdr b : list ascii) :
  1 <= parseAnnot cnt (Z.of_nat (length hdr) + 2) (rec_bytes (hdr, b))
                  (rec_query 0 hdr b)
    <= Z.of_nat (length hdr) + 1.
Proof.
  split.
  - apply parseAnnot_pos; [lia | reflexivity].
  - unfold parseAnnot.
    pose proof (parseLoop_le (rec_bytes (hdr, b)) (rec_query 0 hdr b)
                  (S (faq (rec_query 0 hdr b)) - iaq (rec_query 0 hdr b))
                  (iaq (rec_query 0 hdr b)) cnt
                  (Z.of_nat (length hdr) + 2)) as H.
    cbn [rec_query iaq faq] in *. specialize (H ltac:(lia)). lia.
Qed.

Lemma core_eq (s1 s2 : scan_t) :
  core s1 = core s2 <->
  hits s1 = hits s2 /\ xCnt s1 = xCnt s2 /\ ofd s1 = ofd s2 /\
  bytesWritten s1 = bytesWritten s2 /\ done s1 = done s2.
Proof.
  unfold core, with_region. split.
  - intros H; inversion H; auto.
  - intros (-> & -> & -> & -> & ->). reflexivity.
Qed.

Lemma put_ctx (pre x post : list ascii) (k' k : nat) (n : Z)
      (s1 s2 : scan_t) :
  k' = (length pre + k)%nat -> (k + Z.to_nat n <= length x)%nat ->
  core s1 = core s2 ->
  core (put (pre ++ x ++ post) k' n s1) = core (put x k n s2) /\
  bytesWritten (put (pre ++ x ++ post) k' n s1)
  = bytesWritten s1 + Z.of_nat (Z.to_nat n) /\
  mem (put (pre ++ x ++ post) k' n s1) = mem s1 /\
  query (put (pre ++ x ++ post) k' n s1) = query s1.
Proof.
  intros Hk Hn Hc. apply core_eq in Hc as (H1 & H2 & H3 & H4 & H5).
  unfold put, fwrite. rewrite (slice_ctx_at pre x post k' k) by auto.
  unfold set_ofd. cbn [mem query bytesWritten].
  rewrite slice_length_in by lia.
  repeat split; auto. apply core_eq. cbn. rewrite H1, H2, H3, H4, H5. auto.
Qed.

Lemma putNL_core (s1 s2 : scan_t) :
  core s1 = core s2 ->
  core (putNL s1) = core (putNL s2) /\
  bytesWritten (putNL s1) = bytesWritten s1 + 1 /\
  mem (putNL s1) = mem s1 /\ query (putNL s1) = query s1.
Proof.
  intros Hc. apply core_eq in Hc as (H1 & H2 & H3 & H4 & H5).
  rewrite !putNL_effect. cbn. repeat split; auto.
  apply core_eq. cbn. rewrite H1, H2, H3, H4, H5. auto.
Qed.

Lemma count_query_core (s1 s2 : scan_t) :
  core s1 = core s2 -> core (count_query s1) = core (count_query s2).
Proof.
  intros Hc. apply core_eq in Hc as (H1 & H2 & H3 & H4 & H5).
  apply core_eq. cbn. rewrite H1, H2, H3, H4, H5. auto.
Qed.

(** A guarded write of [wCnt] bytes that fit the limit goes through. *)
Lemma budget_fits (a : args_t) (st : scan_t) (wCnt : Z)
      (k : scan_t -> scan_t) :
  wCnt + bytesWritten st <= bytesLimit a ->
  budget a st wCnt k = (count_query (k st), false).
Proof.
  intros H. unfold budget.
  destruct (Z.gtb_spec (wCnt + bytesWritten st) (bytesLimit a)); [lia|].
  reflexivity.
Qed.

(** The writer on a selected record whose bytes fit the byte limit: it
    writes the same bytes in the region as on the record alone. *)
Lemma writeQuery_ctx (a : args_t) (pre hdr b post : list ascii)
      (h : hits_t) (xc : Z) (o : list ascii) (bw d : Z) :
  bw + Z.of_nat (length (rec_bytes (hdr, b))) <= bytesLimit a ->
  exists s1 s2,
    writeQuery a (mkScan (pre ++ rec_bytes (hdr, b) ++ post)
                         (rec_query (length pre) hdr b) h xc o bw d)
               (Z.of_nat (length hdr) + 2) (Z.of_nat (length b) + 1)
    = (s1, false) /\
    writeQuery a (mkScan (rec_bytes (hdr, b)) (rec_query 0 hdr b) h xc o bw d)
               (Z.of_nat (length hdr) + 2) (Z.of_nat (length b) + 1)
    = (s2, false) /\
    core s1 = core s2 /\
    mem s1 = pre ++ rec_bytes (hdr, b) ++ post /\
    query s1 = rec_query (length pre) hdr b /\
    bytesWritten s1 <= bw + Z.of_nat (length (rec_bytes (hdr, b))).
Proof.
  intros Hb. pose proof (rec_bytes_length hdr b) as Hlen.
  unfold writeQuery. cbn [mem query]. rewrite parseAnnot_ctx.
  pose proof (parseAnnot_rec_bounds (Z.abs (annotCnt a)) hdr b) as Hpa.
  set (pa := parseAnnot (Z.abs (annotCnt a)) (Z.of_nat (length hdr) + 2)
                        (rec_bytes (hdr, b)) (rec_query 0 hdr b)) in *.
  set (x := rec_bytes (hdr, b)) in *.
  set (s1 := mkScan (pre ++ x ++ post) (rec_query (length pre) hdr b)
                    h xc o bw d).
  set (s2 := mkScan x (rec_query 0 hdr b) h xc o bw d).
  assert (Hc : core s1 = core s2) by reflexivity.
  cbn [rec_query iaq isq].
  destruct ((annotCnt a =? INT_MAX) || (annotCnt a =? INT_MIN + 1)).
  - set (w := if annotCnt a =? INT_MAX
              then Z.of_nat (length hdr) + 2 + (Z.of_nat (length b) + 1)
              else Z.of_nat (length hdr) + 2).
    assert (Hw : 0 <= w <= Z.of_nat (length x))
      by (subst w; destruct (annotCnt a =? INT_MAX); lia).
    rewrite !budget_fits by (unfold s1, s2; cbn [bytesWritten]; lia).
    destruct (put_ctx pre x post (length pre) 0 w s1 s2)
      as (P1 & P2 & P3 & P4); auto; try lia.
    do 2 eexists. split; [reflexivity|]. split; [reflexivity|].
    split; [apply count_query_core; exact P1|].
    cbn [count_query mem query bytesWritten]. rewrite P2, P3, P4.
    subst s1; cbn [mem query bytesWritten]; repeat split; auto; lia.
  - destruct (negb (annotCnt a =? 0)).
    + destruct (annotCnt a >? 0).
      * rewrite !budget_fits by (unfold s1, s2; cbn [bytesWritten]; lia).
        destruct (put_ctx pre x post (length pre) 0 pa s1 s2)
          as (P1 & P2 & P3 & P4); auto; try lia.
        destruct (putNL_core _ _ P1) as (N1 & N2 & N3 & N4).
        destruct (put_ctx pre x post (length pre + (length hdr + 2))
                    (0 + (length hdr + 2)) (Z.of_nat (length b) + 1)
                    _ _ ltac:(lia) ltac:(lia) N1) as (Q1 & Q2 & Q3 & Q4).
        do 2 eexists. split; [reflexivity|]. split; [reflexivity|].
        split; [apply count_query_core; exact Q1|].
        cbn [count_query mem query bytesWritten].
        rewrite Q2, Q3, Q4, N2, N3, N4, P2, P3, P4.
        subst s1; cbn [mem query bytesWritten]; repeat split; auto; lia.
      * rewrite !budget_fits by (unfold s1, s2; cbn [bytesWritten]; lia).
        destruct (put_ctx pre x post (S (length pre)) 1 (pa - 1) s1 s2)
          as (P1 & P2 & P3 & P4); auto; try lia.
        destruct (putNL_core _ _ P1) as (N1 & N2 & N3 & N4).
        do 2 eexists. split; [reflexivity|]. split; [reflexivity|].
        split; [apply count_query_core; exact N1|].
        cbn [count_query mem query bytesWritten].
        rewrite N2, N3, N4, P2, P3, P4.
        subst s1; cbn [mem query bytesWritten]; repeat split; auto; lia.
    + rewrite !budget_fits by (unfold s1, s2; cbn [bytesWritten]; lia).
      destruct (put_ctx pre x post (length pre + (length hdr + 2))
                  (0 + (length hdr + 2)) (Z.of_nat (length b) + 1)
                  s1 s2 ltac:(lia) ltac:(lia) Hc) as (Q1 & Q2 & Q3 & Q4).
      do 2 eexists. split; [reflexivity|]. split; [reflexivity|].
      split; [apply count_query_core; exact Q1|].
      cbn [count_query mem query bytesWritten]. rewrite Q2, Q3, Q4.
      subst s1; cbn [mem query bytesWritten]; repeat split; auto; lia.
Qed.

(** [getAnnot] then [getSequence] on a record in its region. *)
Lemma parse_ctx (fin : nat) (A l hdr b post : list ascii) (q : query_t) :
  fsq q = length A ->
  Forall (fun c => c <> GT) l -> wf_rec (hdr, b) ->
  (fin = (length (A ++ l) + length hdr + length b + 2)%nat \/
   ((length (A ++ l) + length hdr + length b + 3 < fin)%nat /\
    exists post', post = GT :: post')) ->
  exists q1,
    getAnnot ((A ++ l) ++ rec_bytes (hdr, b) ++ post) fin q = Some q1 /\
    Z.of_nat (faq q1) - Z.of_nat (iaq q1) + 1 = Z.of_nat (length hdr) + 2 /\
    getSequence ((A ++ l) ++ rec_bytes (hdr, b) ++ post) fin q1
    = Some (seq_len b, rec_query (length (A ++ l)) hdr b).
Proof.
  intros Hq Hl (Hh & Hb & He) Hfin. cbn [fst snd] in *.
  assert (Ea : getAnnot ((A ++ l) ++ rec_bytes (hdr, b) ++ post) fin q
               = Some (mkQuery (length A + length l)
                               (length A + length l + length hdr + 1)
                               (isq q) (fsq q))).
  { replace ((A ++ l) ++ rec_bytes (hdr, b) ++ post)
      with (A ++ l ++ GT :: hdr ++ NL :: ((b ++ [NL]) ++ post))
      by (unfold rec_bytes; cbn [fst snd app];
          rewrite <- !app_assoc; cbn [app]; rewrite <- !app_assoc;
          reflexivity).
    apply getAnnot_ctx; auto.
    destruct Hfin as [Hfin|[Hfin _]]; len_lia. }
  eexists. split; [exact Ea|]. cbn [iaq faq]. split; [lia|].
  rewrite (getSequence_ctx fin (A ++ l) hdr b post); auto.
  - f_equal. f_equal. unfold rec_query. cbn [iaq faq].
    rewrite length_app. f_equal; lia.
  - cbn [faq]. len_lia.
Qed.

(** One turn of the loop body on a record that stands in the region
    after [A ++ l], the pointer [fsq] being at the first byte of [l]:
    the record is skipped or written as it is on its own, and [fsq]
    moves to its last byte. *)
Lemma extractBody_ctx (a : args_t) (fin : nat)
      (A l hdr b post : list ascii) (st : scan_t) :
  mem st = (A ++ l) ++ rec_bytes (hdr, b) ++ post ->
  fsq (query st) = length A ->
  Forall (fun c => c <> GT) l -> wf_rec (hdr, b) ->
  (fin = (length (A ++ l) + length hdr + length b + 2)%nat \/
   ((length (A ++ l) + length hdr + length b + 3 < fin)%nat /\
    exists post', post = GT :: post')) ->
  (lookupMode (hits st) = true ->
   Forall (fun hit => Forall (fun y => y <> NL) hit) (hitList (hits st)) /\
   (annotCnt a = 0 \/ Forall (fun c => c <> SOH) hdr)) ->
  bytesWritten st + Z.of_nat (length (rec_bytes (hdr, b))) <= bytesLimit a ->
  exists s1 s2,
    extractBody a fin st = (s1, false) /\
    extractBody a (length (rec_bytes (hdr, b)) - 1)
                (with_region st (rec_bytes (hdr, b))) = (s2, false) /\
    core s1 = core s2 /\ mem s1 = mem st /\
    fsq (query s1) = (length (A ++ l) + length hdr + length b + 2)%nat /\
    bytesWritten s1 <= bytesWritten st
                       + Z.of_nat (length (rec_bytes (hdr, b))).
Proof.
  intros Hm Hq Hl Hwf Hfin Hlk Hbw.
  pose proof (rec_bytes_length hdr b) as Hlen.
  destruct (parse_ctx fin A l hdr b post (query st) Hq Hl Hwf Hfin)
    as (q1 & Ea1 & Hsz1 & Es1).
  destruct (parse_ctx (length (rec_bytes (hdr, b)) - 1) [] [] hdr b []
              start_query eq_refl (Forall_nil _) Hwf)
    as (q2 & Ea2 & Hsz2 & Es2).
  { left. cbn [app length]. lia. }
  cbn [app length] in Ea2, Es2. rewrite app_nil_r in Ea2, Es2.
  destruct (selectQuery_ctx a (hits st) (A ++ l) hdr b post (seq_len b) Hlk)
    as (cv' & sel & Sc & Sx).
  unfold extractBody. rewrite Hm, Ea1, Es1, Sc.
  cbn [with_region mem query hits xCnt ofd bytesWritten done].
  rewrite Ea2, Es2, Sx, Hsz1, Hsz2.
  cbn [rec_query fsq isq].
  replace (Z.of_nat (length (A ++ l) + (length hdr + length b + 2))
           - Z.of_nat (length (A ++ l) + (length hdr + 2)) + 1)
    with (Z.of_nat (length b) + 1) by lia.
  replace (Z.of_nat (0 + (length hdr + length b + 2))
           - Z.of_nat (0 + (length hdr + 2)) + 1)
    with (Z.of_nat (length b) + 1) by lia.
  destruct (sel =? 1).
  - destruct (writeQuery_ctx a (A ++ l) hdr b post
                (set_charVect (hits st) cv') (xCnt st) (ofd st)
                (bytesWritten st) (done st) Hbw)
      as (s1 & s2 & W1 & W2 & Wc & Wm & Wq & Wb).
    exists s1, s2. fold (rec_query (length (A ++ l)) hdr b).
    fold (rec_query 0 hdr b). rewrite W1, W2.
    repeat split; auto. rewrite Wq. cbn [rec_query fsq]. lia.
  - do 2 eexists. split; [reflexivity|]. split; [reflexivity|].
    cbn [mem query fsq bytesWritten]. repeat split; auto;
      cbn [rec_query fsq]; lia.
Qed.

Lemma scanFor_none (sym : ascii) (fin : nat) (l A post : list ascii)
      (fuel : nat) :
  Forall (fun c => c <> sym) l -> (fuel <= length l)%nat ->
  scanFor sym (A ++ l ++ post) fin fuel (length A) = None.
Proof.
  revert A fuel; induction l as [|y l IH]; intros A fuel Hl Hf;
    (destruct fuel as [|fuel]; [reflexivity|]); cbn [length] in Hf; [lia|].
  inversion Hl; subst. cbn [scanFor app].
  destruct (Nat.eqb (length A) fin); [reflexivity|].
  rewrite deref_mid.
  destruct (Ascii.eqb_spec y sym); [contradiction|].
  replace (A ++ y :: l ++ post) with ((A ++ [y]) ++ l ++ post)
    by (rewrite <- app_assoc; reflexivity).
  replace (S (length A)) with (length (A ++ [y])) by len_lia.
  apply IH; auto. lia.
Qed.

(** At the end of the region [getAnnot] finds no record. *)
Lemma getAnnot_end (fin : nat) (A l post : list ascii) (q : query_t) :
  fsq q = length A -> Forall (fun c => c <> GT) l ->
  (fin < length A + length l)%nat ->
  getAnnot (A ++ l ++ post) fin q = None.
Proof.
  intros Hq Hl Hfin. unfold getAnnot. rewrite Hq.
  rewrite scanFor_none; auto. lia.
Qed.

Lemma with_region_core (s1 s2 : scan_t) (m : list ascii) :
  core s1 = core s2 -> with_region s1 m = with_region s2 m.
Proof.
  intros H. apply core_eq in H as (H1 & H2 & H3 & H4 & H5).
  unfold with_region. rewrite H1, H2, H3, H4, H5. reflexivity.
Qed.

Lemma quota_reached_core (a : args_t) (procCnt : Z) (s1 s2 : scan_t) :
  core s1 = core s2 ->
  quota_reached a procCnt s1 = quota_reached a procCnt s2.
Proof.
  intros H. apply core_eq in H as (H1 & H2 & H3 & H4 & H5).
  unfold quota_reached. rewrite H1, H2. reflexivity.
Qed.

Lemma set_done_core (s1 s2 : scan_t) :
  core s1 = core s2 -> core (set_done s1) = core (set_done s2).
Proof.
  intros H. apply core_eq in H as (H1 & H2 & H3 & H4 & H5).
  apply core_eq. cbn. auto.
Qed.

(** The record-by-record scan depends on the lasting part of the state
    only. *)
Lemma scanRecords_core (a : args_t) (procCnt : Z) (recs : list record_t)
      (s1 s2 : scan_t) :
  core s1 = core s2 ->
  core (scanRecords a procCnt recs s1) = core (scanRecords a procCnt recs s2).
Proof.
  revert s1 s2; induction recs as [|r rs IH]; intros s1 s2 H;
    cbn [scanRecords]; rewrite (quota_reached_core a procCnt s1 s2 H);
    destruct (quota_reached a procCnt s2); auto using set_done_core.
  rewrite (with_region_core s1 s2 _ H). reflexivity.
Qed.

Lemma recs_bytes_cons (r : record_t) (rs : list record_t) :
  recs_bytes (r :: rs) = rec_bytes r ++ recs_bytes rs.
Proof. reflexivity. Qed.

(** The extraction loop over a region that holds the records [recs]
    after [A ++ l] and ends with them does what the record-by-record
    scan does. *)
Lemma extractLoop_records (a : args_t) (procCnt : Z) (h0 : hits_t)
      (recs : list record_t) :
  forall (fin fuel : nat) (A l post : list ascii) (st : scan_t),
    Forall wf_rec recs ->
    mem st = (A ++ l) ++ recs_bytes recs ++ post ->
    fsq (query st) = length A -> Forall (fun c => c <> GT) l ->
    (fin + 1 = length (A ++ l) + length (recs_bytes recs))%nat ->
    same_index h0 (hits st) ->
    (lookupMode h0 = true ->
     Forall (fun hit => Forall (fun y => y <> NL) hit) (hitList h0) /\
     no_rewrite a recs) ->
    bytesWritten st + Z.of_nat (length (recs_bytes recs)) <= bytesLimit a ->
    (S fin - length A < fuel)%nat ->
    exists s',
      extractLoop a procCnt fin fuel st = Some s' /\
      core s' = core (scanRecords a procCnt recs st) /\
      (quota_done a procCnt st -> quota_done a procCnt s') /\
      same_index h0 (hits s') /\
      bytesWritten s' <= bytesWritten st
                         + Z.of_nat (length (recs_bytes recs)).
Proof.
  induction recs as [|[hdr b] rs IH];
    intros fin fuel A l post st Hwf Hm Hq Hl Hfin Hi Hlk Hbw Hfuel;
    (destruct fuel as [|fuel]; [lia|]);
    cbn [extractLoop scanRecords]; rewrite extractStep_quota;
    destruct (quota_reached a procCnt st) eqn:Equ;
    try (eexists; split; [reflexivity|]; split; [reflexivity|];
         split; [intros _; right; split; [reflexivity|exact Equ]|];
         split; [exact Hi|]; cbn [set_done bytesWritten]; lia).
  - unfold extractBody. cbn [recs_bytes map concat app length] in *.
    rewrite Hm, <- app_assoc, getAnnot_end; auto; [|len_lia].
    eexists. split; [reflexivity|]. split; [reflexivity|].
    split; [auto|]. split; [exact Hi|]. cbn [length]. lia.
  - inversion Hwf as [|? ? Hr Hrs]; subst.
    rewrite recs_bytes_cons in *. rewrite !length_app in *.
    pose proof (rec_bytes_length hdr b) as Hlen.
    destruct (lookupMode_same _ _ Hi) as [L1 _].
    destruct (extractBody_ctx a fin A l hdr b (recs_bytes rs ++ post) st)
      as (s1 & s2 & E1 & E2 & Hc & Hm1 & Hf1 & Hb1); auto.
    + rewrite Hm. f_equal. symmetry. apply app_assoc.
    + destruct rs as [|[hdr2 b2] rs'].
      * left. cbn [recs_bytes map concat length] in Hfin.
        rewrite length_app. lia.
      * right. split.
        -- rewrite recs_bytes_cons, length_app in Hfin.
           pose proof (rec_bytes_length hdr2 b2). rewrite length_app. lia.
        -- eexists. reflexivity.
    + rewrite L1. intros Hlm. destruct (Hlk Hlm) as [H1 H2].
      destruct Hi as (-> & _). split; auto.
      destruct H2 as [H2|H2]; [left; auto|right]. inversion H2; auto.
    + lia.
    + rewrite E1, E2. cbn [fst].
      assert (Hi1 : same_index h0 (hits s1)).
      { pose proof E1 as E1'.
        apply extractBody_effect in E1' as (Hi1 & _).
        eapply same_index_trans; eauto. }
      assert (Hd1 : done s1 = done st).
      { pose proof E1 as E1'.
        apply extractBody_effect in E1'
          as (_ & _ & [(Hf & _)|(_ & Hd & _)]); [discriminate|exact Hd]. }
      destruct (IH fin fuel ((A ++ l) ++ GT :: hdr ++ NL :: b) [NL] post s1)
        as (s' & El & Hs' & Hj' & Hi' & Hb'); auto.
      * rewrite Hm1, Hm. unfold rec_bytes. cbn [fst snd].
        rewrite <- !app_assoc. cbn [app]. rewrite <- !app_assoc.
        cbn [app]. rewrite <- !app_assoc. reflexivity.
      * rewrite Hf1. len_lia.
      * repeat constructor. discriminate.
      * len_lia.
      * intros Hlm. destruct (Hlk Hlm) as [H1 H2]. split; auto.
        destruct H2 as [H2|H2]; [left; auto|right]. inversion H2; auto.
      * lia.
      * len_lia.
      * exists s'. split; [exact El|].
        split; [rewrite Hs'; apply scanRecords_core; exact Hc|].
        split; [|split; [exact Hi'|lia]].
        intros [Hj|[_ Hj]]; [|congruence].
        apply Hj'. left. congruence.
Qed.

(* ------------------------------------------------------------------ *)
(** ** Records across map chunks *)

Lemma scanRecords_done (a : args_t) (procCnt : Z) (recs : list record_t)
      (st : scan_t) :
  quota_reached a procCnt st = true ->
  scanRecords a procCnt recs (set_done st) = set_done st.
Proof.
  intros H.
  assert (H' : quota_reached a procCnt (set_done st) = true) by exact H.
  destruct recs; cbn [scanRecords]; rewrite H'; reflexivity.
Qed.

Lemma scanRecords_app (a : args_t) (procCnt : Z) (r1 r2 : list record_t) :
  forall st,
    scanRecords a procCnt (r1 ++ r2) st
    = scanRecords a procCnt r2 (scanRecords a procCnt r1 st).
Proof.
  induction r1 as [|r rs IH]; intros st; cbn [app scanRecords].
  - destruct (quota_reached a procCnt st) eqn:E; [|reflexivity].
    rewrite scanRecords_done by exact E.
    destruct r2; cbn [scanRecords]; rewrite E; reflexivity.
  - destruct (quota_reached a procCnt st) eqn:E; [|apply IH].
    rewrite scanRecords_done by exact E. reflexivity.
Qed.

(** Once the flag is raised by a quota, the remaining records change
    nothing. *)
Lemma scanRecords_stopped (a : args_t) (procCnt : Z) (recs : list record_t)
      (st : scan_t) :
  quota_done a procCnt st -> done st <> 0 ->
  core (scanRecords a procCnt recs st) = core st.
Proof.
  intros [H|[Hd Hq]] Hn; [contradiction|].
  destruct recs; cbn [scanRecords]; rewrite Hq;
    unfold core, with_region, set_done; cbn; rewrite Hd; reflexivity.
Qed.

Lemma rec_bytes_gt (r : record_t) (p : nat) :
  wf_rec r -> (0 < p)%nat -> deref (rec_bytes r) p <> GT.
Proof.
  intros (Hh & Hb & _) Hp. destruct r as [hdr b]. cbn [fst snd] in *.
  unfold rec_bytes, deref. cbn [fst snd].
  destruct p as [|p]; [lia|]. cbn [nth].
  assert (F : Forall (fun c => c <> GT) (hdr ++ NL :: b ++ [NL])).
  { apply Forall_app. split.
    - eapply Forall_impl; [|exact Hh]. cbv beta. intros c [H _]. exact H.
    - constructor; [discriminate|]. apply Forall_app. split; [exact Hb|].
      constructor; [discriminate|constructor]. }
  destruct (Nat.lt_ge_cases p (length (hdr ++ NL :: b ++ [NL]))) as [H|H].
  - rewrite Forall_forall in F. apply F. apply nth_In. exact H.
  - rewrite nth_overflow by exact H. discriminate.
Qed.

(** In the bytes of well-formed records, a [>] stands at the first byte
    of a record. *)
Lemma gt_boundary (recs : list record_t) :
  forall p, Forall wf_rec recs -> deref (recs_bytes recs) p = GT ->
    exists r1 r2, recs = r1 ++ r2 /\ length (recs_bytes r1) = p.
Proof.
  induction recs as [|r rs IH]; intros p Hwf Hp.
  - unfold deref in Hp. cbn in Hp. destruct p; discriminate.
  - inversion Hwf as [|? ? Hr Hrs]; subst.
    destruct p as [|p]; [exists [], (r :: rs); split; reflexivity|].
    rewrite recs_bytes_cons in Hp.
    destruct (Nat.lt_ge_cases (S p) (length (rec_bytes r))) as [H|H].
    + rewrite deref_app_l in Hp by exact H.
      apply rec_bytes_gt in Hp; [contradiction|exact Hr|lia].
    + replace (S p) with (length (rec_bytes r) + (S p - length (rec_bytes r)))%nat
        in Hp by lia.
      rewrite deref_app_r in Hp.
      destruct (IH _ Hrs Hp) as (r1 & r2 & -> & Hl).
      exists (r :: r1), r2. split; [reflexivity|].
      rewrite recs_bytes_cons, length_app. lia.
Qed.

Lemma recs_bytes_app (r1 r2 : list record_t) :
  recs_bytes (r1 ++ r2) = recs_bytes r1 ++ recs_bytes r2.
Proof. unfold recs_bytes. rewrite map_app, concat_app. reflexivity. Qed.

Lemma beginLoop_some (m : list ascii) (fin : nat) :
  forall fuel c r, (c <= fin)%nat -> beginLoop m fin fuel c = Some r ->
    (c <= r < fin)%nat /\ deref m r = GT.
Proof.
  induction fuel as [|fuel IH]; intros c r Hc H; cbn [beginLoop] in H;
    [discriminate|].
  destruct (Nat.eqb_spec c fin); [discriminate|].
  destruct (Ascii.eqb (deref m c) EOFCH); [discriminate|].
  destruct (Ascii.eqb_spec (deref m c) GT) as [E|E].
  - inversion H; subst. split; [lia|exact E].
  - apply IH in H; [|lia]. destruct H as [H1 H2]. split; [lia|exact H2].
Qed.

Lemma endLoop_some (m : list ascii) :
  forall c r, endLoop m c = Some r -> (1 <= r <= c)%nat /\ deref m r = GT.
Proof.
  induction c as [|c IH]; intros r H; cbn [endLoop] in H; [discriminate|].
  destruct (Ascii.eqb (deref m (S c)) EOFCH); [discriminate|].
  destruct (Ascii.eqb_spec (deref m (S c)) GT) as [E|E].
  - inversion H; subst. split; [lia|exact E].
  - apply IH in H. destruct H as [H1 H2]. split; [lia|exact H2].
Qed.

Lemma ceil_div_upper (a b : Z) : 0 < b -> a <= b * ceil_div a b.
Proof.
  intros Hb. unfold ceil_div.
  pose proof (Z.mod_pos_bound (a + b - 1) b Hb).
  pose proof (Z.div_mod (a + b - 1) b). lia.
Qed.

(** The region of a map chunk is the chunk of the partition. *)
Lemma initQueryMap_chunk (file : list ascii) (po sk len msz off : Z) :
  0 <= po -> 0 <= sk -> 0 <= off -> 0 < msz -> off + msz <= len ->
  initQueryMap file (po, sk, len) msz off
  = (firstn (Z.to_nat msz)
            (skipn (Z.to_nat off) (partition_bytes file (po, sk, len))),
     (Z.to_nat msz - 1)%nat).
Proof.
  intros Hpo Hsk Hoff Hmsz Hle.
  unfold initQueryMap, partition_bytes, slice, range_start. cbn [snd].
  f_equal; [|lia].
  rewrite !skipn_firstn_comm, !skipn_skipn, firstn_firstn.
  replace (Z.to_nat (msz + sk) - Z.to_nat sk)%nat with (Z.to_nat msz) by lia.
  replace (Nat.min (Z.to_nat msz) (Z.to_nat len - Z.to_nat off))
    with (Z.to_nat msz) by lia.
  do 2 f_equal. lia.
Qed.

Lemma app_inj_length (x x' y y' : list ascii) :
  x ++ y = x' ++ y' -> length x = length x' -> x = x' /\ y = y'.
Proof.
  revert x'; induction x as [|c x IH]; intros [|c' x'] H Hl;
    try discriminate; [split; [reflexivity|exact H]|].
  cbn [app] in H. inversion H; subst.
  destruct (IH x') as [-> ->]; auto.
Qed.

Lemma deref_firstn (m : list ascii) (n p : nat) :
  (p < n)%nat -> deref (firstn n m) p = deref m p.
Proof.
  intros H. unfold deref. rewrite nth_firstn.
  destruct (Nat.ltb_spec p n); [reflexivity|lia].
Qed.

Lemma no_rewrite_app (a : args_t) (r1 r2 : list record_t) :
  no_rewrite a (r1 ++ r2) -> no_rewrite a r1 /\ no_rewrite a r2.
Proof.
  intros [H|H]; [split; left; exact H|].
  apply Forall_app in H. destruct H. split; right; assumption.
Qed.

Lemma recs_bytes_pos (recs : list record_t) :
  recs <> [] -> (0 < length (recs_bytes recs))%nat.
Proof.
  destruct recs as [|[hdr b] rs]; [congruence|]. intros _.
  rewrite recs_bytes_cons, length_app.
  pose proof (rec_bytes_length hdr b). lia.
Qed.

(** [extractQueries] over a region that begins with the records [recs]
    and whose end pointer is their last byte. *)
Lemma extractQueries_records (a : args_t) (procCnt : Z) (h0 : hits_t)
      (recs : list record_t) (post : list ascii) (st : scan_t) :
  Forall wf_rec recs -> (0 < length (recs_bytes recs))%nat ->
  same_index h0 (hits st) ->
  (lookupMode h0 = true ->
   Forall (fun hit => Forall (fun y => y <> NL) hit) (hitList h0) /\
   no_rewrite a recs) ->
  bytesWritten st + Z.of_nat (length (recs_bytes recs)) <= bytesLimit a ->
  exists s',
    extractQueries a procCnt (length (recs_bytes recs) - 1)
                   (with_region st (recs_bytes recs ++ post)) = Some s' /\
    core s' = core (scanRecords a procCnt recs st) /\
    (quota_done a procCnt st -> quota_done a procCnt s') /\
    same_index h0 (hits s') /\
    bytesWritten s' <= bytesWritten st + Z.of_nat (length (recs_bytes recs)).
Proof.
  intros Hwf Hpos Hi Hlk Hbw. unfold extractQueries.
  destruct (extractLoop_records a procCnt h0 recs
              (length (recs_bytes recs) - 1)
              (S (S (length (recs_bytes recs) - 1))) [] [] post
              (with_region st (recs_bytes recs ++ post)))
    as (s' & E & Hc & Hj & Hs & Hb);
    cbn [with_region mem query hits bytesWritten start_query fsq app length];
    auto; try lia.
  exists s'. split; [exact E|]. split; [|split; [|split]]; auto.
    rewrite Hc. apply scanRecords_core. reflexivity.
Qed.

(** The first [>] of a chunk ends the record that the carry buffer
    began. *)
Lemma begin_phase (rb : list record_t) (buf t : list ascii) (n : nat)
      (i : nat) (m' : list ascii) (fin' : nat) (buf' : list ascii) :
  Forall wf_rec rb -> buf ++ t = recs_bytes rb ->
  (1 <= n <= length t)%nat ->
  adjustMapBegin (firstn n t) (n - 1) buf = Some (i, m', fin', buf') ->
  exists r rb',
    rb = r ++ rb' /\ buf' = recs_bytes r /\ skipn i t = recs_bytes rb' /\
    m' = firstn (n - i) (skipn i t) /\ fin' = (n - i - 1)%nat /\
    (i < n - 1)%nat /\ buf' = buf ++ firstn i t.
Proof.
  intros Hwf Hbt Hn H. unfold adjustMapBegin in H.
  destruct (beginLoop (firstn n t) (n - 1) (S (n - 1)) 0) as [r|] eqn:E;
    [|discriminate].
  apply beginLoop_some in E; [|lia]. destruct E as [Hr Hg].
  rewrite deref_firstn in Hg by lia.
  assert (Hres : i = r /\ m' = firstn (n - r) (skipn r t) /\
                 fin' = (n - r - 1)%nat /\ buf' = buf ++ firstn r t).
  { destruct (Nat.ltb_spec 0 r); inversion H; subst.
    - rewrite skipn_firstn_comm. unfold slice. cbn [skipn].
      rewrite firstn_firstn. replace (Nat.min i n) with i by lia.
      repeat split; auto. lia.
    - assert (i = 0)%nat as -> by lia. cbn [skipn firstn].
      rewrite Nat.sub_0_r, app_nil_r. repeat split; auto. }
  destruct Hres as (-> & -> & -> & ->).
  assert (Hd : deref (recs_bytes rb) (length buf + r) = GT).
  { rewrite <- Hbt, deref_app_r. exact Hg. }
  destruct (gt_boundary rb _ Hwf Hd) as (r1 & r2 & -> & Hl).
  rewrite recs_bytes_app in Hbt.
  rewrite <- (firstn_skipn r t) in Hbt at 1. rewrite app_assoc in Hbt.
  apply app_inj_length in Hbt.
  - destruct Hbt as [H1 H2]. exists r1, r2. repeat split; auto. lia.
  - rewrite length_app, length_firstn. lia.
Qed.

(** The last [>] of a chunk begins the record that the next carry buffer
    holds the head of. *)
Lemma end_phase (rb : list record_t) (t : list ascii) (n : nat)
      (fin2 : nat) (buf2 : list ascii) :
  Forall wf_rec rb -> t = recs_bytes rb -> (1 <= n <= length t)%nat ->
  adjustMapEnd (firstn n t) (n - 1) = Some (fin2, buf2) ->
  exists r rb',
    rb = r ++ rb' /\ firstn n t = recs_bytes r ++ buf2 /\
    (fin2 = length (recs_bytes r) - 1)%nat /\
    (0 < length (recs_bytes r))%nat /\
    buf2 ++ skipn n t = recs_bytes rb' /\ buf2 <> [].
Proof.
  intros Hwf Ht Hn H. unfold adjustMapEnd in H.
  destruct (endLoop (firstn n t) (n - 1)) as [c|] eqn:E; [|discriminate].
  apply endLoop_some in E. destruct E as [Hc Hg].
  rewrite deref_firstn in Hg by lia. inversion H; subst fin2 buf2. clear H.
  rewrite Ht in Hg.
  destruct (gt_boundary rb _ Hwf Hg) as (r1 & r2 & -> & Hl).
  rewrite recs_bytes_app in Ht.
  replace (S (n - 1 - (n - 1 - c + 1))) with c by lia.
  replace (n - 1 - c + 1)%nat with (n - c)%nat by lia.
  assert (Hb : slice (firstn n t) c (n - c) = firstn (n - c) (recs_bytes r2)).
  { unfold slice. rewrite skipn_firstn_comm, firstn_firstn, Nat.min_id.
    f_equal. rewrite Ht, skipn_app, <- Hl, Nat.sub_diag, skipn_all.
    reflexivity. }
  assert (Hlt : length t = (c + length (recs_bytes r2))%nat).
  { rewrite Ht, length_app. lia. }
  exists r1, r2. split; [reflexivity|]. rewrite Hb.
  split; [|split; [lia|split; [lia|split]]].
  - rewrite Ht. replace n with (length (recs_bytes r1) + (n - c))%nat at 1
      by lia.
    rewrite firstn_app_2. reflexivity.
  - rewrite Ht. replace n with (length (recs_bytes r1) + (n - c))%nat at 2
      by lia.
    rewrite skipn_app, skipn_all2 by lia.
    replace (length (recs_bytes r1) + (n - c) - length (recs_bytes r1))%nat
      with (n - c)%nat by lia.
    cbn [app]. apply firstn_skipn.
  - intros Hnil. apply (f_equal (@length ascii)) in Hnil.
    rewrite length_firstn in Hnil. cbn [length] in Hnil. lia.
Qed.

Lemma recs_bytes_nil (recs : list record_t) :
  recs_bytes recs = [] -> recs = [].
Proof.
  destruct recs as [|r rs]; [reflexivity|]. intros H.
  assert (Hp : (0 < length (recs_bytes (r :: rs)))%nat)
    by (apply recs_bytes_pos; discriminate).
  rewrite H in Hp. cbn in Hp. lia.
Qed.

Section Chunks.

Variables (a : args_t) (procCnt : Z) (h0 : hits_t) (recs : list record_t).

Hypothesis Hwf : Forall wf_rec recs.
Hypothesis Hlk :
  lookupMode h0 = true ->
  Forall (fun hit => Forall (fun y => y <> NL) hit) (hitList h0) /\
  no_rewrite a recs.
Hypothesis Hbl : Z.of_nat (length (recs_bytes recs)) <= bytesLimit a.

(** The second half of a turn of the chunk loop: the end of the chunk
    is moved back to its last [>] and the records before it are
    scanned. *)
Lemma chunk_scan (mrem : Z) (st1 : scan_t) (ra rb : list record_t)
      (n : nat) (r : run_t) (brk : bool) :
  recs = ra ++ rb -> (1 <= n <= length (recs_bytes rb))%nat ->
  (mrem <= 0 -> n = length (recs_bytes rb)) ->
  same_index h0 (hits st1) ->
  bytesWritten st1 <= Z.of_nat (length (recs_bytes ra)) ->
  match
    (if mrem >? 0
     then match adjustMapEnd (firstn n (recs_bytes rb)) (n - 1) with
          | None => None
          | Some (fin', buf') => Some (fin', buf')
          end
     else Some ((n - 1)%nat, []))
  with
  | None => Some ((st1, [], ERROR), true)
  | Some (fin, buf) =>
      match extractQueries a procCnt fin
                           (with_region st1 (firstn n (recs_bytes rb))) with
      | None => None
      | Some st' => Some ((st', buf, 0), false)
      end
  end = Some (r, brk) ->
  (brk = true /\ snd r = ERROR) \/
  (brk = false /\ snd r = 0 /\
   exists r1 rb',
     rb = r1 ++ rb' /\
     core (fst (fst r)) = core (scanRecords a procCnt r1 st1) /\
     (quota_done a procCnt st1 -> quota_done a procCnt (fst (fst r))) /\
     same_index h0 (hits (fst (fst r))) /\
     bytesWritten (fst (fst r))
     <= Z.of_nat (length (recs_bytes (ra ++ r1))) /\
     snd (fst r) ++ skipn n (recs_bytes rb) = recs_bytes rb' /\
     (0 < mrem -> snd (fst r) <> []) /\
     (mrem <= 0 -> snd (fst r) = [])).
Proof.
  intros Hr Hn Hlast Hs Hb H.
  assert (Hwfb : Forall wf_rec rb).
  { rewrite Hr in Hwf. apply Forall_app in Hwf. tauto. }
  assert (Hlen : length (recs_bytes recs)
                 = (length (recs_bytes ra) + length (recs_bytes rb))%nat).
  { rewrite Hr, recs_bytes_app, length_app. reflexivity. }
  destruct (Z.gtb_spec mrem 0) as [Hm|Hm].
  - destruct (adjustMapEnd (firstn n (recs_bytes rb)) (n - 1))
      as [[fin2 buf2]|] eqn:E.
    + destruct (end_phase rb (recs_bytes rb) n fin2 buf2 Hwfb eq_refl Hn E)
        as (r1 & rb' & Hrb & Hf & Hfin & Hpos & Hbuf & Hne).
      rewrite Hf, Hfin in H.
      assert (Hl1 : length (recs_bytes rb)
                    = (length (recs_bytes r1) + length (recs_bytes rb'))%nat).
      { rewrite Hrb, recs_bytes_app, length_app. reflexivity. }
      destruct (extractQueries_records a procCnt h0 r1 buf2 st1)
        as (s' & Es & Hc & Hj & Hi & Hbw); auto.
      * rewrite Hrb in Hwfb. apply Forall_app in Hwfb. tauto.
      * intros Hlm. destruct (Hlk Hlm) as [H1 H2]. split; [exact H1|].
        rewrite Hr, Hrb in H2.
        apply no_rewrite_app in H2. destruct H2 as [_ H2].
        apply no_rewrite_app in H2. tauto.
      * lia.
      * rewrite Es in H. inversion H; subst r brk. right.
        cbn [fst snd]. split; [reflexivity|]. split; [reflexivity|].
        exists r1, rb'. rewrite recs_bytes_app, length_app.
        repeat split; auto; try lia; apply Hi.
    + inversion H; subst. left. split; reflexivity.
  - assert (Hf : firstn n (recs_bytes rb) = recs_bytes rb ++ []).
    { rewrite app_nil_r, (Hlast ltac:(lia)). apply firstn_all. }
    rewrite Hf, (Hlast ltac:(lia)) in H.
    destruct (extractQueries_records a procCnt h0 rb [] st1)
      as (s' & Es & Hc & Hj & Hi & Hbw); auto.
    + lia.
    + intros Hlm. destruct (Hlk Hlm) as [H1 H2]. split; [exact H1|].
      rewrite Hr in H2. apply no_rewrite_app in H2. tauto.
    + lia.
    + rewrite Es in H. inversion H; subst r brk. right.
      cbn [fst snd]. split; [reflexivity|]. split; [reflexivity|].
      exists rb, []. rewrite app_nil_r, recs_bytes_app, length_app.
      rewrite (Hlast ltac:(lia)), skipn_all.
      repeat split; auto; try lia; apply Hi.
Qed.

Lemma carried_core (st : scan_t) (ra r1 : list record_t) :
  (ra = [] /\ core st = core (init_scan h0)) \/
  core st = core (scanRecords a procCnt ra (init_scan h0)) ->
  core (scanRecords a procCnt r1 st)
  = core (scanRecords a procCnt (ra ++ r1) (init_scan h0)).
Proof.
  intros [[-> H]|H].
  - cbn [app]. apply scanRecords_core. exact H.
  - rewrite scanRecords_app. apply scanRecords_core. exact H.
Qed.

Variables (W : Z).

Hypothesis HW : 0 < W.

(** A chunk of [msz] bytes at offset [k * W] whose first record begins
    [i] bytes in: after its scan the invariant holds for the next
    chunk. *)
Lemma chunk_carried (k mrem msz : Z) (i : nat) (st1 : scan_t)
      (ra rb : list record_t) (r : run_t) (brk : bool) :
  0 <= k -> 0 < msz ->
  k * W + msz <= Z.of_nat (length (recs_bytes recs)) ->
  (0 < mrem ->
   msz = W /\ (k + 1) * W < Z.of_nat (length (recs_bytes recs))) ->
  (mrem <= 0 ->
   k * W + msz = Z.of_nat (length (recs_bytes recs)) /\
   Z.of_nat (length (recs_bytes recs)) <= (k + 1) * W) ->
  (i < Z.to_nat msz)%nat ->
  recs = ra ++ rb ->
  ((ra = [] /\ core st1 = core (init_scan h0)) \/
   core st1 = core (scanRecords a procCnt ra (init_scan h0))) ->
  quota_done a procCnt st1 -> same_index h0 (hits st1) ->
  bytesWritten st1 <= Z.of_nat (length (recs_bytes ra)) ->
  skipn i (skipn (Z.to_nat (k * W)) (recs_bytes recs)) = recs_bytes rb ->
  match
    (if mrem >? 0
     then match adjustMapEnd (firstn (Z.to_nat msz - i) (recs_bytes rb))
                             (Z.to_nat msz - i - 1) with
          | None => None
          | Some (fin', buf') => Some (fin', buf')
          end
     else Some ((Z.to_nat msz - i - 1)%nat, []))
  with
  | None => Some ((st1, [], ERROR), true)
  | Some (fin, buf) =>
      match extractQueries a procCnt fin
              (with_region st1 (firstn (Z.to_nat msz - i) (recs_bytes rb)))
      with
      | None => None
      | Some st' => Some ((st', buf, 0), false)
      end
  end = Some (r, brk) ->
  (brk = true /\ snd r = ERROR) \/
  (brk = false /\ snd r = 0 /\
   carried a procCnt h0 recs W (k + 1) (fst (fst r)) (snd (fst r))).
Proof.
  intros Hk Hmsz Hin Hmid Hend Hi Hr Hc Hj Hs Hb Hsk H.
  assert (Ek : (k + 1) * W = k * W + W) by ring.
  assert (Hkw : 0 <= k * W) by nia.
  remember (k * W) as kw eqn:Ekw. clear Ekw.
  assert (Hlb : length (recs_bytes rb)
                = (length (recs_bytes recs) - Z.to_nat kw - i)%nat).
  { rewrite <- Hsk, !length_skipn. reflexivity. }
  destruct (chunk_scan mrem st1 ra rb (Z.to_nat msz - i) r brk)
    as [Hl|(Hbrk & He & r1 & rb' & Hrb & Hc' & Hj' & Hs' & Hb' & Hbuf
            & Hne & Hnil)]; auto; try lia.
  right. split; [exact Hbrk|]. split; [exact He|].
  exists (ra ++ r1), rb'.
  split; [rewrite Hr, Hrb; apply app_assoc|].
  split; [right; rewrite Hc'; apply carried_core; exact Hc|].
  split; [auto|]. split; [exact Hs'|]. split; [exact Hb'|].
  split; [|split].
  - rewrite <- Hbuf, <- Hsk, !skipn_skipn. f_equal.
    destruct (Z.lt_ge_cases 0 mrem) as [Hm|Hm].
    + destruct (Hmid Hm) as [-> _]. f_equal. lia.
    + destruct (Hend ltac:(lia)) as [H1 H2].
      rewrite !skipn_all2 by lia. reflexivity.
  - intros _ Hlt. apply Hne.
    destruct (Z.lt_ge_cases 0 mrem) as [Hm|Hm]; [exact Hm|].
    destruct (Hend ltac:(lia)). lia.
  - intros [Hz|Hge]; [lia|]. apply Hnil.
    destruct (Z.lt_ge_cases 0 mrem) as [Hm|Hm]; [|lia].
    destruct (Hmid Hm). lia.
Qed.

Variables (file : list ascii) (po sk len : Z).

Hypothesis Hpo : 0 <= po.
Hypothesis Hsk : 0 <= sk.
Hypothesis Hpart : partition_bytes file (po, sk, len) = recs_bytes recs.
Hypothesis Hlen : len = Z.of_nat (length (recs_bytes recs)).

(** One turn of the chunk loop keeps the invariant, or leaves the loop
    with [ERROR]. *)
Lemma mapStep_carried (k : Z) (st : scan_t) (buf : list ascii)
      (r : run_t) (brk : bool) :
  0 <= k < ceil_div len W ->
  carried a procCnt h0 recs W k st buf ->
  mapStep a procCnt file (po, sk, len) W (ceil_div len W) k st buf
  = Some (r, brk) ->
  (brk = true /\ snd r = ERROR) \/
  (brk = false /\ snd r = 0 /\
   carried a procCnt h0 recs W (k + 1) (fst (fst r)) (snd (fst r))).
Proof.
  intros Hk (ra & rb & Hr & Hc & Hj & Hs & Hb & Hbt & Hne & He) H.
  assert (Hpos : 0 < len).
  { destruct (Z.eq_dec len 0) as [E|E]; [|lia].
    rewrite E in Hk. unfold ceil_div in Hk.
    rewrite Z.div_small in Hk by lia. lia. }
  pose proof (ceil_div_bounds len W Hpos HW) as [_ Hlo].
  pose proof (ceil_div_upper len W HW) as Hup.
  remember (ceil_div len W) as nmaps eqn:En. clear En.
  unfold mapStep in H. cbv zeta in H. cbn [snd] in H.
  remember (nmaps - (k + 1)) as mrem eqn:Em.
  remember (if mrem =? 0 then len - k * W else W) as msz eqn:Es.
  assert (Ek : (k + 1) * W = k * W + W) by ring.
  assert (Hkw : 0 <= k * W) by nia.
  assert (Hmsz : 0 < msz /\ k * W + msz <= len /\
                 (0 < mrem -> msz = W /\ (k + 1) * W < len) /\
                 (mrem <= 0 -> k * W + msz = len /\ len <= (k + 1) * W)).
  { destruct (Z.eqb_spec mrem 0); subst msz; nia. }
  destruct Hmsz as (Hm0 & Hin & Hmid & Hend).
  rewrite initQueryMap_chunk in H by lia. rewrite Hpart in H.
  assert (Hlt : length (skipn (Z.to_nat (k * W)) (recs_bytes recs))
                = (length (recs_bytes recs) - Z.to_nat (k * W))%nat)
    by apply length_skipn.
  rewrite Hlen in *.
  destruct (Z.gtb_spec k 0) as [Hk0|Hk0].
  - destruct (adjustMapBegin
                (firstn (Z.to_nat msz)
                        (skipn (Z.to_nat (k * W)) (recs_bytes recs)))
                (Z.to_nat msz - 1) buf)
      as [[[[i m'] fin'] buf1]|] eqn:E.
    + assert (Hwfb : Forall wf_rec rb).
      { rewrite Hr in Hwf. apply Forall_app in Hwf. tauto. }
      destruct (begin_phase rb buf _ (Z.to_nat msz) i m' fin' buf1 Hwfb Hbt
                            ltac:(lia) E)
        as (r1 & rb' & Hrb & Hb1 & Hskp & Hm' & Hf' & Hi & Hb1').
      assert (Hl1 : length (recs_bytes rb)
                    = (length (recs_bytes r1) + length (recs_bytes rb'))%nat).
      { rewrite Hrb, recs_bytes_app, length_app. reflexivity. }
      assert (Hlr : length (recs_bytes recs)
                    = (length (recs_bytes ra) + length (recs_bytes rb))%nat).
      { rewrite Hr, recs_bytes_app, length_app. reflexivity. }
      assert (Hnb : (0 < length buf1)%nat).
      { rewrite Hb1', length_app.
        assert (buf <> []) by (apply Hne; lia).
        destruct buf; [congruence|cbn [length]; lia]. }
      destruct (extractQueries_records a procCnt h0 r1 [] st)
        as (s1 & Es1 & Hc1 & Hj1 & Hs1 & Hbw1); auto.
      * rewrite Hrb in Hwfb. apply Forall_app in Hwfb. tauto.
      * rewrite <- Hb1. exact Hnb.
      * intros Hlm. destruct (Hlk Hlm) as [H1 H2]. split; [exact H1|].
        rewrite Hr, Hrb in H2.
        apply no_rewrite_app in H2. destruct H2 as [_ H2].
        apply no_rewrite_app in H2. tauto.
      * lia.
      * rewrite app_nil_r, <- Hb1 in Es1. rewrite Es1 in H.
        cbv beta iota in H. subst m' fin'. rewrite Hskp in H.
        apply (chunk_carried k mrem msz i s1 (ra ++ r1) rb' r brk);
          auto; try lia.
        -- rewrite Hr, Hrb. apply app_assoc.
        -- right. rewrite Hc1. apply carried_core. exact Hc.
        -- rewrite recs_bytes_app, length_app. lia.
    + inversion H; subst. left. split; reflexivity.
  - assert (k = 0) as -> by lia.
    rewrite (He (or_introl eq_refl)) in Hbt. cbn [app] in Hbt.
    rewrite Hbt in H.
    replace (Z.to_nat msz) with (Z.to_nat msz - 0)%nat in H by lia.
    apply (chunk_carried 0 mrem msz 0 st ra rb r brk); auto; lia.
Qed.

(** The chunk loop, when it ends without error, has scanned all the
    records. *)
Lemma mapLoop_carried (fuel : nat) :
  forall (k : Z) (st : scan_t) (buf : list ascii) (st' : scan_t),
    0 <= k <= ceil_div len W ->
    (Z.to_nat (ceil_div len W - k) <= fuel)%nat ->
    carried a procCnt h0 recs W k st buf ->
    mapLoop a procCnt file (po, sk, len) W (ceil_div len W) fuel k st buf
    = Some (st', 0) ->
    (recs = [] /\ core st' = core (init_scan h0)) \/
    core st' = core (scanRecords a procCnt recs (init_scan h0)).
Proof.
  assert (Hexit : forall k st buf,
            carried a procCnt h0 recs W k st buf ->
            k = ceil_div len W \/ done st <> 0 ->
            (recs = [] /\ core st = core (init_scan h0)) \/
            core st = core (scanRecords a procCnt recs (init_scan h0))).
  { intros k st buf (ra & rb & Hr & Hc & Hj & Hs & Hb & Hbt & Hne & He) Hx.
    destruct Hx as [Hx|Hx].
    - pose proof (ceil_div_upper len W HW) as Hup.
      rewrite (He ltac:(right; subst k; lia)) in Hbt.
      rewrite skipn_all2 in Hbt by (subst k; lia).
      symmetry in Hbt. apply recs_bytes_nil in Hbt. subst rb.
      rewrite app_nil_r in Hr. subst ra.
      destruct Hc as [[-> Hc]|Hc]; [left|right]; auto.
    - right. destruct Hc as [[-> Hc]|Hc].
      + exfalso. apply Hx.
        apply (f_equal done) in Hc. exact Hc.
      + rewrite Hr, scanRecords_app.
        rewrite <- (scanRecords_core a procCnt rb _ _ Hc).
        symmetry. apply scanRecords_stopped; assumption. }
  induction fuel as [|fuel IH]; intros k st buf st' Hk Hf Hc H.
  - cbn [mapLoop] in H. inversion H; subst.
    apply (Hexit k st' buf Hc). left. lia.
  - cbn [mapLoop] in H.
    destruct (Z.ltb_spec k (ceil_div len W)) as [Hlt|Hge];
      [destruct (Z.eqb_spec (done st) 0) as [Hd|Hd]|];
      cbn [andb] in H.
    + destruct (mapStep a procCnt file (po, sk, len) W (ceil_div len W)
                        k st buf) as [[[[s1 b1] e] brk]|] eqn:E;
        [|discriminate].
      destruct (mapStep_carried k st buf _ _ ltac:(lia) Hc E)
        as [[-> He]|(-> & He & Hc')]; cbn [fst snd] in *.
      * inversion H; subst. discriminate.
      * apply (IH (k + 1) s1 b1 st'); auto; lia.
    + inversion H; subst. apply (Hexit k st' buf Hc). right. exact Hd.
    + inversion H; subst. apply (Hexit k st' buf Hc). left. lia.
Qed.

End Chunks.

(** A scan that ends without error is the scan of the records one by
    one, whatever the size of the map chunks. *)
Lemma partScan_records (a : args_t) (h : hits_t) (procCnt : Z)
      (file : list ascii) (po sk len W : Z) (recs : list record_t)
      (st : scan_t) :
  Forall wf_rec recs ->
  (lookupMode h = true ->
   Forall (fun hit => Forall (fun y => y <> NL) hit) (hitList h) /\
   no_rewrite a recs) ->
  Z.of_nat (length (recs_bytes recs)) <= bytesLimit a ->
  0 < W -> 0 <= po -> 0 <= sk ->
  partition_bytes file (po, sk, len) = recs_bytes recs ->
  len = Z.of_nat (length (recs_bytes recs)) ->
  partScan a h procCnt file (po, sk, len) W = Some (st, 0) ->
  ofd st = ofd (scanRecords a procCnt recs (init_scan h)).
Proof.
  intros Hwf Hlk Hbl HW Hpo Hsk Hpart Hlen H.
  unfold partScan in H. cbn [snd] in H.
  assert (Hn : 0 <= ceil_div len W).
  { unfold ceil_div. apply Z.div_pos; lia. }
  destruct (mapLoop_carried a procCnt h recs Hwf Hlk Hbl W HW file po sk len
              Hpo Hsk Hpart Hlen (Z.to_nat (ceil_div len W)) 0
              (init_scan h) [] st) as [[-> Hc]|Hc]; auto; try lia.
  - exists [], recs. split; [reflexivity|].
    split; [left; split; reflexivity|].
    split; [left; reflexivity|].
    split; [repeat split|].
    split; [cbn; lia|].
    split; [reflexivity|]. split; [lia|reflexivity].
  - apply (f_equal ofd) in Hc. cbn [core with_region ofd] in Hc.
    rewrite Hc. cbn [scanRecords].
    destruct (quota_reached a procCnt (init_scan h)); reflexivity.
  - apply (f_equal ofd) in Hc. exact Hc.
Qed.

(** The hit index a scan that ends without error leaves is the one of
    the scan of the records one by one. *)
Lemma partScan_hits (a : args_t) (h : hits_t) (procCnt : Z)
      (file : list ascii) (po sk len W : Z) (recs : list record_t)
      (st : scan_t) :
  Forall wf_rec recs ->
  (lookupMode h = true ->
   Forall (fun hit => Forall (fun y => y <> NL) hit) (hitList h) /\
   no_rewrite a recs) ->
  Z.of_nat (length (recs_bytes recs)) <= bytesLimit a ->
  0 < W -> 0 <= po -> 0 <= sk ->
  partition_bytes file (po, sk, len) = recs_bytes recs ->
  len = Z.of_nat (length (recs_bytes recs)) ->
  partScan a h procCnt file (po, sk, len) W = Some (st, 0) ->
  hits st = hits (scanRecords a procCnt recs (init_scan h)).
Proof.
  intros Hwf Hlk Hbl HW Hpo Hsk Hpart Hlen H.
  unfold partScan in H. cbn [snd] in H.
  assert (Hn : 0 <= ceil_div len W).
  { unfold ceil_div. apply Z.div_pos; lia. }
  destruct (mapLoop_carried a procCnt h recs Hwf Hlk Hbl W HW file po sk len
              Hpo Hsk Hpart Hlen (Z.to_nat (ceil_div len W)) 0
              (init_scan h) [] st) as [[-> Hc]|Hc]; auto; try lia.
  - exists [], recs. split; [reflexivity|].
    split; [left; split; reflexivity|].
    split; [left; reflexivity|].
    split; [repeat split|].
    split; [cbn; lia|].
    split; [reflexivity|]. split; [lia|reflexivity].
  - apply (f_equal hits) in Hc. cbn [core with_region hits] in Hc.
    rewrite Hc. cbn [scanRecords].
    destruct (quota_reached a procCnt (init_scan h)); reflexivity.
  - apply (f_equal hits) in Hc. exact Hc.
Qed.

(* ------------------------------------------------------------------ *)
(** ** The output and the size of the map chunks (C8) *)

(** Let the partition of a worker be the bytes of well-formed records
    (a header of one line, no [>] but the leading one, a body with at
    least one sequence byte), let the byte limit be no smaller than the
    partition and, in lookup mode, let no hit ID hold a newline and no
    alternative header be rewritten (annotations are not written, or no
    header holds an SOH).  Then for any two chunk sizes [W1] and [W2],
    if the chunk loops of both scans end with [err = 0], the bytes
    written to the output file are the same: they are the bytes the
    records give when scanned one by one, each straddling record being
    scanned once, in the carry buffer. *)
Theorem output_same_when_scans_succeed
        (a : args_t) (h : hits_t) (procCnt : Z) (file : list ascii)
        (po sk len W1 W2 : Z) (recs : list record_t) (st1 st2 : scan_t) :
  Forall wf_rec recs ->
  (lookupMode h = true ->
   Forall (fun hit => Forall (fun y => y <> NL) hit) (hitList h) /\
   no_rewrite a recs) ->
  Z.of_nat (length (recs_bytes recs)) <= bytesLimit a ->
  0 <= po -> 0 <= sk ->
  partition_bytes file (po, sk, len) = recs_bytes recs ->
  len = Z.of_nat (length (recs_bytes recs)) ->
  0 < W1 -> 0 < W2 ->
  partScan a h procCnt file (po, sk, len) W1 = Some (st1, 0) ->
  partScan a h procCnt file (po, sk, len) W2 = Some (st2, 0) ->
  ofd st1 = ofd st2 /\
  ofd st1 = ofd (scanRecords a procCnt recs (init_scan h)).
Proof.
  intros Hwf Hlk Hbl Hpo Hsk Hpart Hlen HW1 HW2 H1 H2.
  pose proof (partScan_records a h procCnt file po sk len W1 recs st1
                Hwf Hlk Hbl HW1 Hpo Hsk Hpart Hlen H1) as E1.
  pose proof (partScan_records a h procCnt file po sk len W2 recs st2
                Hwf Hlk Hbl HW2 Hpo Hsk Hpart Hlen H2) as E2.
  split; congruence.
Qed.

(** The statement for five records of 8 bytes, scanned in chunks of 20
    bytes (the third record straddles the two chunks) and in one
    chunk. *)
Lemma output_same_when_scans_succeed_witness :
  ofd (run_state (partScan default_args no_hits 1 fasta_five
                                (0, 0, 40) 20))
  = ofd (run_state (partScan default_args no_hits 1 fasta_five
                                  (0, 0, 40) 1000)) /\
  ofd (run_state (partScan default_args no_hits 1 fasta_five
                                (0, 0, 40) 20))
  = ofd (scanRecords default_args 1 recs_five (init_scan no_hits)).
Proof.
  apply (output_same_when_scans_succeed
           default_args no_hits 1 fasta_five 0 0 40 20 1000 recs_five).
  - repeat constructor; try discriminate;
      solve [apply Exists_cons_hd; discriminate].
  - intros H. vm_compute in H. discriminate H.
  - vm_compute. discriminate.
  - lia.
  - lia.
  - vm_compute. reflexivity.
  - vm_compute. reflexivity.
  - lia.
  - lia.
  - vm_compute. reflexivity.
  - vm_compute. reflexivity.
Defined.

Lemma beginLoop_none (m : list ascii) (fin : nat) :
  forall fuel c,
    (c <= fin)%nat ->
    (forall k, (c <= k < fin)%nat -> deref m k <> GT) ->
    beginLoop m fin fuel c = None.
Proof.
  induction fuel as [|fuel IH]; intros c Hle H; cbn [beginLoop];
    [reflexivity|].
  destruct (Nat.eqb_spec c fin) as [Hc|Hc]; [reflexivity|].
  destruct (Ascii.eqb (deref m c) EOFCH); [reflexivity|].
  destruct (Ascii.eqb_spec (deref m c) GT) as [Hg|Hg].
  - exfalso. apply (H c); [lia|exact Hg].
  - apply IH; [lia|]. intros k Hk. apply H. lia.
Qed.

(** A chunk after the first that holds no [>] before its last byte ends
    the scan: [adjustMapBegin] returns [ERROR], the loop is left and
    the record carried over from the chunk before is not scanned. *)
Lemma mapStep_no_record_start (a : args_t) (procCnt : Z) (file : list ascii)
      (fo : offs_t) (msz nmaps nmap : Z) (st : scan_t) (buf : list ascii)
      (m : list ascii) (fin : nat) :
  0 < nmap ->
  initQueryMap file fo
    (if nmaps - (nmap + 1) =? 0 then snd fo - nmap * msz else msz)
    (nmap * msz) = (m, fin) ->
  (forall k, (k < fin)%nat -> deref m k <> GT) ->
  mapStep a procCnt file fo msz nmaps nmap st buf
  = Some ((st, buf, ERROR), true).
Proof.
  intros Hk Hmap Hno. unfold mapStep. rewrite Hmap.
  destruct (Z.gtb_spec nmap 0) as [_|Hle]; [|lia].
  unfold adjustMapBegin.
  rewrite beginLoop_none; [reflexivity|lia|].
  intros k Hk'. apply Hno. lia.
Qed.

(** C8.  The output depends on the size of the map chunks.  A chunk
    after the first that holds no [>] before its last byte ends the
    scan with [ERROR] and the carry buffer is dropped, whatever the
    chunk size.  So for the well-formed file of 4102 bytes whose second
    record begins at offset 4094: in chunks of 4096 bytes the second
    chunk holds the last 6 bytes of that record and no [>], and only
    the first record is written; in chunks of 8192 bytes both records
    are written. *)
Theorem C8_last_record_across_chunks_lost :
  (forall a procCnt file fo msz nmaps nmap st buf m fin,
      0 < nmap ->
      initQueryMap file fo
        (if nmaps - (nmap + 1) =? 0 then snd fo - nmap * msz else msz)
        (nmap * msz) = (m, fin) ->
      (forall k, (k < fin)%nat -> deref m k <> GT) ->
      mapStep a procCnt file fo msz nmaps nmap st buf
      = Some ((st, buf, ERROR), true)) /\
  fasta_wf_spec fasta_long = true /\
  length fasta_long = 4102%nat /\
  Forall (fun r => (length (rec_bytes r) <= 4096)%nat)
         [rec_long; rec_short] /\
  output_of (partQueryFile default_args no_hits 1 fasta_long
                           (whole fasta_long) 4096 true [])
  = Some (recs_bytes [rec_long]) /\
  output_of (partQueryFile default_args no_hits 1 fasta_long
                           (whole fasta_long) 8192 true [])
  = Some (recs_bytes [rec_long; rec_short]) /\
  option_map snd (partQueryFile default_args no_hits 1 fasta_long
                                (whole fasta_long) 4096 true [])
  = Some ERROR /\
  option_map snd (partQueryFile default_args no_hits 1 fasta_long
                                (whole fasta_long) 8192 true [])
  = Some 0.
Proof.
  split; [exact mapStep_no_record_start|].
  split; [vm_compute; reflexivity|].
  split; [vm_compute; reflexivity|].
  split; [repeat constructor; vm_compute; discriminate|].
  vm_compute. repeat split; reflexivity.
Qed.

(* ------------------------------------------------------------------ *)
(** ** The output of a scan *)

Lemma fields_prefix (s : list ascii) :
  forall cnt, fields cnt s = firstn (length (fields cnt s)) s.
Proof.
  induction s as [|c s IH]; intros cnt; cbn [fields]; [reflexivity|].
  destruct (isDelim c); [destruct (cnt - 1 =? 0); [reflexivity|]|];
    cbn [length firstn]; f_equal; apply IH.
Qed.

Lemma fields_length (s : list ascii) (cnt : Z) :
  (length (fields cnt s) <= length s)%nat.
Proof.
  rewrite (fields_prefix s cnt) at 1. rewrite length_firstn. lia.
Qed.

(** The loop of [parseAnnot] from the byte after [pre], where the text
    [s] stands before the end of the annotation. *)
Lemma parseLoop_fields (s : list ascii) :
  forall (pre rest : list ascii) (q : query_t) (fuel : nat) (cnt sz : Z),
    faq q = (length pre + length s)%nat -> (iaq q <= length pre)%nat ->
    (length s < fuel)%nat ->
    parseLoop (pre ++ s ++ rest) q fuel (length pre) cnt sz
    = if (length (fields cnt s) <? length s)%nat
      then Z.of_nat (length pre + length (fields cnt s) - iaq q)
      else sz - 1.
Proof.
  induction s as [|c s IH]; intros pre rest q fuel cnt sz Hf Hi Hfuel;
    (destruct fuel as [|fuel]; [cbn [length] in Hfuel; lia|]);
    cbn [parseLoop fields length] in *.
  - rewrite Hf, Nat.add_0_r, Nat.eqb_refl. reflexivity.
  - destruct (Nat.eqb_spec (length pre) (faq q)) as [E|_]; [lia|].
    change (pre ++ (c :: s) ++ rest) with (pre ++ c :: s ++ rest).
    rewrite deref_mid.
    assert (Hm : pre ++ c :: s ++ rest = (pre ++ [c]) ++ s ++ rest).
    { rewrite <- app_assoc. reflexivity. }
    assert (Hl : S (length pre) = length (pre ++ [c])).
    { rewrite length_app. cbn [length]. lia. }
    pose proof (fields_length s cnt) as L1.
    pose proof (fields_length s (cnt - 1)) as L2.
    destruct (isDelim c).
    + destruct (cnt - 1 =? 0).
      * cbn [length]. destruct (Nat.ltb_spec 0 (S (length s))); [|lia].
        f_equal. lia.
      * rewrite Hm, Hl, IH; rewrite ?length_app; cbn [length]; try lia.
        destruct (Nat.ltb_spec (length (fields (cnt - 1) s)) (length s));
          destruct (Nat.ltb_spec (S (length (fields (cnt - 1) s)))
                                 (S (length s))); try lia.
    + rewrite Hm, Hl, IH; rewrite ?length_app; cbn [length]; try lia.
      destruct (Nat.ltb_spec (length (fields cnt s)) (length s));
        destruct (Nat.ltb_spec (S (length (fields cnt s)))
                               (S (length s))); try lia.
Qed.

(** [parseAnnot] on a record: one more than the length of the fields
    kept. *)
Lemma parseAnnot_fields (cnt : Z) (hdr b : list ascii) :
  parseAnnot cnt (Z.of_nat (length hdr) + 2) (rec_bytes (hdr, b))
             (rec_query 0 hdr b)
  = Z.of_nat (length (fields cnt hdr)) + 1.
Proof.
  unfold parseAnnot.
  pose proof (parseLoop_fields (GT :: hdr) [] (NL :: b ++ [NL])
                (rec_query 0 hdr b)
                (S (faq (rec_query 0 hdr b)) - iaq (rec_query 0 hdr b))
                cnt (Z.of_nat (length hdr) + 2)) as H.
  cbn [rec_query iaq faq length] in H.
  specialize (H ltac:(lia) ltac:(lia) ltac:(lia)).
  etransitivity; [exact H|].
  cbn [fields]. replace (isDelim GT) with false by reflexivity.
  cbn [length]. pose proof (fields_length hdr cnt).
  destruct (Nat.ltb_spec (S (length (fields cnt hdr))) (S (length hdr)));
    lia.
Qed.

Lemma slice_mid (x y z : list ascii) (n : nat) :
  n = length y -> slice (x ++ y ++ z) (length x) n = y.
Proof.
  intros ->. unfold slice. rewrite skipn_app, Nat.sub_diag, skipn_all.
  cbn [skipn app]. rewrite firstn_app, Nat.sub_diag, firstn_all.
  cbn [firstn]. apply app_nil_r.
Qed.

Lemma rec_bytes_parts (hdr b : list ascii) :
  rec_bytes (hdr, b) = (GT :: hdr ++ [NL]) ++ (b ++ [NL]) ++ [].
Proof.
  unfold rec_bytes. cbn [fst snd app].
  rewrite app_nil_r, <- app_assoc. reflexivity.
Qed.

(** The writer on a selected record that fits the byte limit. *)
Lemma writeQuery_record (a : args_t) (hdr b : list ascii) (h : hits_t)
      (xc : Z) (o : list ascii) (bw d : Z) :
  bw + Z.of_nat (length (rec_bytes (hdr, b))) <= bytesLimit a ->
  writeQuery a (mkScan (rec_bytes (hdr, b)) (rec_query 0 hdr b) h xc o bw d)
             (Z.of_nat (length hdr) + 2) (Z.of_nat (length b) + 1)
  = (mkScan (rec_bytes (hdr, b)) (rec_query 0 hdr b) h (xc + 1)
            (o ++ written a (hdr, b))
            (bw + Z.of_nat (length (written a (hdr, b)))) d, false).
Proof.
  intros Hbw. pose proof (rec_bytes_length hdr b) as Hl.
  assert (S1 : forall n, n = (length hdr + 2 + (length b + 1))%nat ->
                         slice (rec_bytes (hdr, b)) 0 n = rec_bytes (hdr, b)).
  { intros n ->. rewrite <- slice_all. f_equal. lia. }
  assert (S2 : forall n, n = (length hdr + 2)%nat ->
                         slice (rec_bytes (hdr, b)) 0 n = GT :: hdr ++ [NL]).
  { intros n ->. rewrite rec_bytes_parts.
    apply (slice_mid [] (GT :: hdr ++ [NL])). len_lia. }
  assert (S3 : forall n, n = (length b + 1)%nat ->
                 slice (rec_bytes (hdr, b)) (0 + (length hdr + 2)) n
                 = b ++ [NL]).
  { intros n ->. rewrite rec_bytes_parts.
    replace (0 + (length hdr + 2))%nat with (length (GT :: hdr ++ [NL]))
      by len_lia.
    apply slice_mid. len_lia. }
  assert (S4 : forall cnt n,
             n = S (length (fields cnt hdr)) ->
             slice (rec_bytes (hdr, b)) 0 n = GT :: fields cnt hdr).
  { intros cnt n ->. pose proof (fields_length hdr cnt) as Hf.
    destruct (rec_bytes_split hdr b _ Hf) as [E _].
    rewrite E, <- fields_prefix.
    apply (slice_mid [] (GT :: fields cnt hdr)). reflexivity. }
  assert (S5 : forall cnt n,
             n = length (fields cnt hdr) ->
             slice (rec_bytes (hdr, b)) 1 n = fields cnt hdr).
  { intros cnt n ->. pose proof (fields_length hdr cnt) as Hf.
    destruct (rec_bytes_split hdr b _ Hf) as [E _].
    rewrite E, <- fields_prefix.
    apply (slice_mid [GT] (fields cnt hdr)). reflexivity. }
  unfold writeQuery, written. cbn [mem query rec_query iaq isq fst snd].
  destruct (Z.eqb_spec (annotCnt a) INT_MAX) as [E1|E1]; cbn [orb].
  - rewrite budget_fits by (cbn [bytesWritten]; lia).
    unfold put, fwrite, count_query, set_ofd.
    cbn [fst snd ofd bytesWritten mem query hits xCnt done].
    rewrite S1 by lia. rewrite Hl. do 2 f_equal; try lia.
  - destruct (Z.eqb_spec (annotCnt a) (INT_MIN + 1)) as [E2|E2].
    + rewrite budget_fits by (cbn [bytesWritten]; lia).
      unfold put, fwrite, count_query, set_ofd.
    cbn [fst snd ofd bytesWritten mem query hits xCnt done].
      rewrite S2 by lia. do 2 f_equal; try len_lia.
    + destruct (Z.eqb_spec (annotCnt a) 0) as [E3|E3]; cbn [negb].
      * destruct (Z.gtb_spec (annotCnt a) 0); [lia|].
        destruct (Z.ltb_spec (annotCnt a) 0); [lia|].
        rewrite budget_fits by (cbn [bytesWritten]; lia).
        unfold put, fwrite, count_query, set_ofd.
    cbn [fst snd ofd bytesWritten mem query hits xCnt done].
        rewrite S3 by lia. do 2 f_equal; try len_lia.
      * rewrite parseAnnot_fields.
        pose proof (fields_length hdr (Z.abs (annotCnt a))) as Hf.
        destruct (Z.gtb_spec (annotCnt a) 0) as [E4|E4].
        -- rewrite budget_fits by (cbn [bytesWritten]; lia).
           rewrite Z.abs_eq in * by lia.
           unfold put, putNL, fwrite, count_query, set_ofd.
    cbn [fst snd ofd bytesWritten mem query hits xCnt done].
           rewrite (S4 (annotCnt a)), S3 by lia.
           f_equal. f_equal.
           ++ rewrite <- !app_assoc. reflexivity.
           ++ change (slice [NL] 0 (Z.to_nat 1)) with [NL]. len_lia.
        -- destruct (Z.ltb_spec (annotCnt a) 0); [|lia].
           rewrite budget_fits by (cbn [bytesWritten]; lia).
           rewrite Z.abs_neq in * by lia.
           unfold put, putNL, fwrite, count_query, set_ofd.
    cbn [fst snd ofd bytesWritten mem query hits xCnt done].
           rewrite (S5 (- annotCnt a)) by lia.
           f_equal. f_equal.
           ++ rewrite <- !app_assoc. reflexivity.
           ++ change (slice [NL] 0 (Z.to_nat 1)) with [NL]. len_lia.
Qed.

(** The writer on a selected record: the bytes counted before the
    guard are the bytes of the record under the annotation policy; when
    they do not fit the byte limit the writer signals "done" and writes
    nothing, else it writes them and counts the record. *)
Lemma writeQuery_guard (a : args_t) (hdr b : list ascii) (h : hits_t)
      (xc : Z) (o : list ascii) (bw d : Z) :
  writeQuery a (mkScan (rec_bytes (hdr, b)) (rec_query 0 hdr b) h xc o bw d)
             (Z.of_nat (length hdr) + 2) (Z.of_nat (length b) + 1)
  = if Z.of_nat (length (written a (hdr, b))) + bw >? bytesLimit a
    then (mkScan (rec_bytes (hdr, b)) (rec_query 0 hdr b) h xc o bw 1, true)
    else (mkScan (rec_bytes (hdr, b)) (rec_query 0 hdr b) h (xc + 1)
                 (o ++ written a (hdr, b))
                 (bw + Z.of_nat (length (written a (hdr, b)))) d, false).
Proof.
  pose proof (rec_bytes_length hdr b) as Hl.
  assert (S1 : forall n, n = (length hdr + 2 + (length b + 1))%nat ->
                         slice (rec_bytes (hdr, b)) 0 n = rec_bytes (hdr, b)).
  { intros n ->. rewrite <- slice_all. f_equal. lia. }
  assert (S2 : forall n, n = (length hdr + 2)%nat ->
                         slice (rec_bytes (hdr, b)) 0 n = GT :: hdr ++ [NL]).
  { intros n ->. rewrite rec_bytes_parts.
    apply (slice_mid [] (GT :: hdr ++ [NL])). len_lia. }
  assert (S3 : forall n, n = (length b + 1)%nat ->
                 slice (rec_bytes (hdr, b)) (0 + (length hdr + 2)) n
                 = b ++ [NL]).
  { intros n ->. rewrite rec_bytes_parts.
    replace (0 + (length hdr + 2))%nat with (length (GT :: hdr ++ [NL]))
      by len_lia.
    apply slice_mid. len_lia. }
  assert (S4 : forall cnt n,
             n = S (length (fields cnt hdr)) ->
             slice (rec_bytes (hdr, b)) 0 n = GT :: fields cnt hdr).
  { intros cnt n ->. pose proof (fields_length hdr cnt) as Hf.
    destruct (rec_bytes_split hdr b _ Hf) as [E _].
    rewrite E, <- fields_prefix.
    apply (slice_mid [] (GT :: fields cnt hdr)). reflexivity. }
  assert (S5 : forall cnt n,
             n = length (fields cnt hdr) ->
             slice (rec_bytes (hdr, b)) 1 n = fields cnt hdr).
  { intros cnt n ->. pose proof (fields_length hdr cnt) as Hf.
    destruct (rec_bytes_split hdr b _ Hf) as [E _].
    rewrite E, <- fields_prefix.
    apply (slice_mid [GT] (fields cnt hdr)). reflexivity. }
  set (st := mkScan (rec_bytes (hdr, b)) (rec_query 0 hdr b) h xc o bw d).
  assert (B : forall wCnt k w,
             wCnt = Z.of_nat (length w) ->
             count_query (k st)
             = mkScan (rec_bytes (hdr, b)) (rec_query 0 hdr b) h (xc + 1)
                      (o ++ w) (bw + Z.of_nat (length w)) d ->
             budget a st wCnt k
             = if Z.of_nat (length w) + bw >? bytesLimit a
               then (mkScan (rec_bytes (hdr, b)) (rec_query 0 hdr b) h xc o
                            bw 1, true)
               else (mkScan (rec_bytes (hdr, b)) (rec_query 0 hdr b) h
                            (xc + 1) (o ++ w) (bw + Z.of_nat (length w)) d,
                     false)).
  { intros wCnt k w -> Hk. unfold budget. cbn [st bytesWritten].
    destruct (Z.of_nat (length w) + bw >? bytesLimit a); [reflexivity|].
    rewrite Hk. reflexivity. }
  unfold writeQuery, written. cbn [st mem query rec_query iaq isq fst snd].
  fold st.
  destruct (Z.eqb_spec (annotCnt a) INT_MAX) as [E1|E1]; cbn [orb].
  - apply B; [lia|].
    unfold put, fwrite, count_query, set_ofd.
    cbn [st fst snd ofd bytesWritten mem query hits xCnt done].
    rewrite S1 by lia. reflexivity.
  - destruct (Z.eqb_spec (annotCnt a) (INT_MIN + 1)) as [E2|E2].
    + apply B; [len_lia|].
      unfold put, fwrite, count_query, set_ofd.
      cbn [st fst snd ofd bytesWritten mem query hits xCnt done].
      rewrite S2 by lia. reflexivity.
    + destruct (Z.eqb_spec (annotCnt a) 0) as [E3|E3]; cbn [negb].
      * destruct (Z.gtb_spec (annotCnt a) 0); [lia|].
        destruct (Z.ltb_spec (annotCnt a) 0); [lia|].
        apply B; [len_lia|].
        unfold put, fwrite, count_query, set_ofd.
        cbn [st fst snd ofd bytesWritten mem query hits xCnt done].
        rewrite S3 by lia. reflexivity.
      * cbn [st]. rewrite parseAnnot_fields. fold st.
        pose proof (fields_length hdr (Z.abs (annotCnt a))) as Hf.
        destruct (Z.gtb_spec (annotCnt a) 0) as [E4|E4].
        -- rewrite Z.abs_eq in * by lia.
           apply B; [len_lia|].
           unfold put, putNL, fwrite, count_query, set_ofd.
           cbn [st fst snd ofd bytesWritten mem query hits xCnt done].
           rewrite (S4 (annotCnt a)), S3 by lia.
           change (slice [NL] 0 (Z.to_nat 1)) with [NL].
           f_equal.
           ++ rewrite <- !app_assoc. reflexivity.
           ++ len_lia.
        -- destruct (Z.ltb_spec (annotCnt a) 0); [|lia].
           rewrite Z.abs_neq in * by lia.
           apply B; [len_lia|].
           unfold put, putNL, fwrite, count_query, set_ofd.
           cbn [st fst snd ofd bytesWritten mem query hits xCnt done].
           rewrite (S5 (- annotCnt a)) by lia.
           change (slice [NL] 0 (Z.to_nat 1)) with [NL].
           f_equal.
           ++ rewrite <- !app_assoc. reflexivity.
           ++ len_lia.
Qed.

Lemma set_charVect_same (h : hits_t) : set_charVect h (charVect h) = h.
Proof. destruct h; reflexivity. Qed.

(** The length filter of the code selects the records that pass the
    filter as [selected] states it. *)
Lemma selected_lenSelect (a : args_t) (r : record_t) :
  selected a r = (lenSelect a (seq_len (snd r)) =? 1).
Proof.
  unfold selected, lenSelect, forBreak, zidx. cbn zeta.
  change (Z.to_nat 0) with 0%nat. change (Z.to_nat (0 * 2)) with 0%nat.
  change (Z.to_nat (0 * 2 + 1)) with 1%nat.
  rewrite (Z.geb_leb (nth 1 (rseqLen a) 0)).
  rewrite (Z.eqb_sym (seq_len (snd r))).
  destruct ((seqLenBuf a =? 0) && (rseqLenBuf a =? 0)); [reflexivity|].
  destruct (0 <? rseqLenBuf a), (0 <? seqLenBuf a),
    (nth 0 (rseqLen a) 0 <=? seq_len (snd r)),
    (seq_len (snd r) <=? nth 1 (rseqLen a) 0),
    (nth 0 (seqLen a) 0 =? seq_len (snd r)); reflexivity.
Qed.

(** One record outside lookup mode: it is written when it passes the
    length filter. *)
Lemma extractBody_record (a : args_t) (hdr b : list ascii) (st : scan_t) :
  wf_rec (hdr, b) -> lookupMode (hits st) = false ->
  bytesWritten st + Z.of_nat (length (rec_bytes (hdr, b))) <= bytesLimit a ->
  core (fst (extractBody a (length (rec_bytes (hdr, b)) - 1)
                         (with_region st (rec_bytes (hdr, b)))))
  = core (emit a (hdr, b) st).
Proof.
  intros Hwf Hlm Hbw. pose proof (rec_bytes_length hdr b) as Hl.
  destruct (parse_ctx (length (rec_bytes (hdr, b)) - 1) [] [] hdr b []
                      start_query eq_refl (Forall_nil _) Hwf)
    as (q1 & Ea & Hsz & Es).
  { left. cbn [app length]. lia. }
  cbn [app length] in Ea, Es. rewrite app_nil_r in Ea, Es.
  unfold extractBody, with_region. cbn [mem query hits].
  rewrite Ea, Es. unfold selectQuery. rewrite Hlm.
  cbn [xCnt ofd bytesWritten done].
  rewrite set_charVect_same. unfold emit. rewrite selected_lenSelect.
  cbn [snd].
  destruct (lenSelect a (seq_len b) =? 1); [|reflexivity].
  rewrite Hsz. cbn [rec_query fsq isq].
  replace (Z.of_nat (0 + (length hdr + length b + 2))
           - Z.of_nat (0 + (length hdr + 2)) + 1)
    with (Z.of_nat (length b) + 1) by lia.
  pose proof (writeQuery_record a hdr b (hits st) (xCnt st) (ofd st)
                (bytesWritten st) (done st) Hbw) as Hw.
  cbn [rec_query] in Hw. rewrite Hw. reflexivity.
Qed.

Lemma written_length (a : args_t) (r : record_t) :
  (length (written a r) <= length (rec_bytes r))%nat.
Proof.
  destruct r as [hdr b]. rewrite rec_bytes_length. unfold written.
  cbn [fst snd].
  pose proof (fields_length hdr (annotCnt a)).
  pose proof (fields_length hdr (- annotCnt a)).
  destruct (annotCnt a =? INT_MAX); [rewrite rec_bytes_length; lia|].
  destruct (annotCnt a =? INT_MIN + 1); [len_lia|].
  destruct (annotCnt a >? 0); [len_lia|].
  destruct (annotCnt a <? 0); len_lia.
Qed.

(** The record-by-record scan outside lookup mode writes the selected
    records, up to the count quota in a run of one process. *)
Lemma scanRecords_filter (a : args_t) (procCnt : Z) (recs : list record_t) :
  forall st,
    Forall wf_rec recs -> lookupMode (hits st) = false ->
    bytesWritten st + Z.of_nat (length (recs_bytes recs)) <= bytesLimit a ->
    (procCnt = 1 -> xCnt st <= seqCnt a) ->
    ofd (scanRecords a procCnt recs st)
    = ofd st ++
      concat (map (written a)
                  (if procCnt =? 1
                   then firstn (Z.to_nat (seqCnt a - xCnt st))
                               (filter (selected a) recs)
                   else filter (selected a) recs)).
Proof.
  induction recs as [|[hdr b] rs IH]; intros st Hwf Hlm Hbw Hx;
    cbn [scanRecords filter]; unfold quota_reached; rewrite Hlm;
    cbn [andb orb]; rewrite orb_false_r.
  - rewrite firstn_nil.
    destruct ((procCnt =? 1) && (xCnt st =? seqCnt a));
      destruct (procCnt =? 1); cbn [map concat set_done ofd];
      rewrite app_nil_r; reflexivity.
  - inversion Hwf as [|? ? Hr Hrs]; subst.
    rewrite recs_bytes_cons, length_app in Hbw.
    pose proof (written_length a (hdr, b)) as Hw.
    assert (Hstep : ofd (scanRecords a procCnt rs
                           (fst (extractBody a
                                   (length (rec_bytes (hdr, b)) - 1)
                                   (with_region st (rec_bytes (hdr, b))))))
                    = ofd (scanRecords a procCnt rs (emit a (hdr, b) st))).
    { apply (f_equal ofd (x := core _) (y := core _)).
      apply scanRecords_core, extractBody_record; auto. lia. }
    destruct (Z.eqb_spec procCnt 1) as [Hp|Hp]; cbn [andb].
    + specialize (Hx Hp).
      destruct (Z.eqb_spec (xCnt st) (seqCnt a)) as [E|E].
      * rewrite E, Z.sub_diag. cbn [Z.to_nat firstn map concat set_done ofd].
        rewrite app_nil_r. reflexivity.
      * rewrite Hstep. unfold emit.
        destruct (selected a (hdr, b)) eqn:Es.
        -- rewrite IH; cbn [hits bytesWritten xCnt ofd]; auto; try lia.
           destruct (Z.eqb_spec procCnt 1); [|contradiction].
           replace (Z.to_nat (seqCnt a - xCnt st))
             with (S (Z.to_nat (seqCnt a - (xCnt st + 1)))) by lia.
           cbn [firstn map concat]. rewrite <- app_assoc. reflexivity.
        -- rewrite IH; auto; lia.
    + rewrite Hstep. unfold emit.
      destruct (selected a (hdr, b)) eqn:Es.
      * rewrite IH; cbn [hits bytesWritten xCnt ofd]; auto; try lia.
        destruct (Z.eqb_spec procCnt 1); [contradiction|].
        cbn [map concat]. rewrite <- app_assoc. reflexivity.
      * rewrite IH; auto; lia.
Qed.











(* ------------------------------------------------------------------ *)
(** ** loadSearchIDs *)

Lemma lineLoop_line (x : list ascii) :
  forall (pre post : list ascii) (t : ascii) (fin fuel : nat) (len : Z),
    Forall (fun c => c <> NL) x -> (t = NL \/ post = []) ->
    fin = (length (pre ++ x ++ t :: post) - 1)%nat ->
    (length x < fuel)%nat ->
    lineLoop (pre ++ x ++ t :: post) fin fuel (length pre) len
    = Some ((length pre + length x)%nat, len + Z.of_nat (length x) + 1).
Proof.
  induction x as [|c x IH]; intros pre post t fin fuel len Hx Ht Hfin Hfuel;
    (destruct fuel as [|fuel]; [cbn [length] in Hfuel; lia|]);
    cbn [lineLoop].
  - cbn [app]. rewrite deref_mid.
    assert (E : Ascii.eqb t NL || Nat.eqb (length pre) fin = true).
    { destruct Ht as [->| ->]; [reflexivity|].
      apply orb_true_iff. right. apply Nat.eqb_eq.
      rewrite Hfin. len_lia. }
    rewrite E. cbn [length]. do 2 f_equal; lia.
  - inversion Hx as [|? ? Hc Hx']; subst.
    change (pre ++ (c :: x) ++ t :: post) with (pre ++ c :: x ++ t :: post).
    rewrite deref_mid.
    destruct (Ascii.eqb_spec c NL) as [|_]; [contradiction|].
    destruct (Nat.eqb_spec (length pre)
                (length (pre ++ c :: x ++ t :: post) - 1)) as [E|_];
      [exfalso; revert E; len_lia|].
    cbn [orb].
    replace (pre ++ c :: x ++ t :: post) with ((pre ++ [c]) ++ x ++ t :: post)
      by (rewrite <- app_assoc; reflexivity).
    replace (S (length pre)) with (length (pre ++ [c])) by len_lia.
    rewrite IH; auto; [|cbn [length] in Hfuel; lia].
    rewrite length_app. cbn [length]. do 2 f_equal; lia.
Qed.

(** The reading loop over a file given by its lines: the lines [lns],
    each ended by a newline, then the bytes [x] and the last byte [c]
    of the file. *)
Lemma readLoop_lines (lns : list (list ascii)) (x : list ascii) (c : ascii) :
  forall (pre : list ascii) (hl : list (list ascii)) (fin fuel : nat),
    Forall (Forall (fun y => y <> NL)) lns -> Forall (fun y => y <> NL) x ->
    fin = (length (pre ++ id_lines lns ++ x ++ [c]) - 1)%nat ->
    (length lns < fuel)%nat ->
    readLoop (pre ++ id_lines lns ++ x ++ [c]) fin fuel (length pre) hl
    = Some (addSearchID
              (fold_left (fun hl ln =>
                            addSearchID hl (ln ++ [NL])
                                        (Z.of_nat (length ln) + 1))
                         lns hl)
              (x ++ [c]) (Z.of_nat (length x) + 1)).
Proof.
  induction lns as [|ln lns IH]; intros pre hl fin fuel Hl Hx Hfin Hfuel;
    (destruct fuel as [|fuel]; [cbn [length] in Hfuel; lia|]);
    cbn [readLoop fold_left].
  - unfold id_lines in *. cbn [map concat app] in *.
    change (x ++ [c]) with (x ++ c :: []) at 1.
    rewrite (lineLoop_line x pre [] c fin); auto;
      try (rewrite Hfin; len_lia).
    assert (Ep : Nat.eqb (length pre + length x) fin = true).
    { apply Nat.eqb_eq. rewrite Hfin. len_lia. }
    rewrite Ep. do 2 f_equal; try lia.
    replace (length pre + length x + 1
             - Z.to_nat (0 + Z.of_nat (length x) + 1))%nat
      with (length pre) by lia.
    replace (pre ++ x ++ [c]) with (pre ++ (x ++ [c]) ++ [])
      by (rewrite app_nil_r; reflexivity).
    apply slice_mid. len_lia.
  - inversion Hl as [|? ? Hln Hlns]; subst.
    unfold id_lines in *. cbn [map concat] in *.
    fold (id_lines lns) in *.
    assert (Em : pre ++ ((ln ++ [NL]) ++ id_lines lns) ++ x ++ [c]
                 = pre ++ ln ++ NL :: (id_lines lns ++ x ++ [c])).
    { rewrite <- !app_assoc. reflexivity. }
    rewrite Em in *.
    rewrite (lineLoop_line ln pre (id_lines lns ++ x ++ [c]) NL); auto;
      try len_lia.
    destruct (Nat.eqb_spec (length pre + length ln)
                (length (pre ++ ln ++ NL :: id_lines lns ++ x ++ [c]) - 1))
      as [E|_]; [exfalso; revert E; len_lia|].
    assert (El : slice (pre ++ ln ++ NL :: id_lines lns ++ x ++ [c])
                       (length pre + length ln + 1
                        - Z.to_nat (0 + Z.of_nat (length ln) + 1))
                       (Z.to_nat (0 + Z.of_nat (length ln) + 1))
                 = ln ++ [NL]).
    { replace (length pre + length ln + 1
               - Z.to_nat (0 + Z.of_nat (length ln) + 1))%nat
        with (length pre) by lia.
      replace (pre ++ ln ++ NL :: id_lines lns ++ x ++ [c])
        with (pre ++ (ln ++ [NL]) ++ id_lines lns ++ x ++ [c])
        by (rewrite <- !app_assoc; reflexivity).
      apply slice_mid. len_lia. }
    rewrite El.
    replace (pre ++ ln ++ NL :: id_lines lns ++ x ++ [c])
      with ((pre ++ ln ++ [NL]) ++ id_lines lns ++ x ++ [c])
      by (rewrite <- !app_assoc; reflexivity).
    replace (S (length pre + length ln)) with (length (pre ++ ln ++ [NL]))
      by len_lia.
    rewrite IH; auto; try (cbn [length] in Hfuel; lia).
Qed.

Lemma id_lines_app (l1 l2 : list (list ascii)) :
  id_lines (l1 ++ l2) = id_lines l1 ++ id_lines l2.
Proof. unfold id_lines. rewrite map_app, concat_app. reflexivity. Qed.

(** Every file is a sequence of lines ended by a newline, followed by
    bytes without newline. *)
Lemma split_lines (m : list ascii) :
  exists lns x,
    m = id_lines lns ++ x /\
    Forall (Forall (fun y => y <> NL)) lns /\ Forall (fun y => y <> NL) x.
Proof.
  induction m as [|c m (lns & x & -> & Hl & Hx)].
  - exists [], []. repeat split; constructor.
  - destruct (Ascii.eqb_spec c NL) as [->|Hc].
    + exists ([] :: lns), x. repeat split; auto.
    + destruct lns as [|l1 r].
      * exists [], (c :: x). repeat split; auto.
      * inversion Hl; subst. exists ((c :: l1) :: r), x.
        repeat split; auto.
Qed.

Lemma cstr_app (x y : list ascii) :
  cstr (x ++ y) = if forallb (fun c => negb (Ascii.eqb c zero)) x
                  then x ++ cstr y else cstr x.
Proof.
  induction x as [|c x IH]; cbn [app cstr forallb]; [reflexivity|].
  destruct (Ascii.eqb c zero); cbn [negb andb]; [reflexivity|].
  rewrite IH. destruct (forallb _ x); reflexivity.
Qed.

Lemma cstr_id (x : list ascii) :
  Forall (fun c => c <> zero) x -> cstr x = x.
Proof.
  induction 1 as [|c x Hc _ IH]; cbn [cstr]; [reflexivity|].
  destruct (Ascii.eqb_spec c zero); [contradiction|]. rewrite IH.
  reflexivity.
Qed.

Lemma cstr_prefix (x : list ascii) : cstr x = firstn (length (cstr x)) x.
Proof.
  induction x as [|c x IH]; cbn [cstr]; [reflexivity|].
  destruct (Ascii.eqb c zero); [reflexivity|].
  cbn [length firstn]. f_equal. exact IH.
Qed.

Lemma cstr_no_nul (x : list ascii) : Forall (fun c => c <> zero) (cstr x).
Proof.
  induction x as [|c x IH]; cbn [cstr]; [constructor|].
  destruct (Ascii.eqb_spec c zero); constructor; auto.
Qed.

Lemma firstn_cstr_app (x y : list ascii) (n : nat) :
  (n <= length x)%nat -> firstn n (cstr (x ++ y)) = firstn n (cstr x).
Proof.
  intros Hn. rewrite cstr_app.
  destruct (forallb (fun c => negb (Ascii.eqb c zero)) x) eqn:E;
    [|reflexivity].
  assert (Hx : cstr x = x).
  { apply cstr_id. rewrite forallb_forall in E. apply Forall_forall.
    intros c Hc Hz. specialize (E c Hc). subst c. discriminate. }
  rewrite Hx, firstn_app.
  replace (n - length x)%nat with 0%nat by lia.
  cbn [firstn]. apply app_nil_r.
Qed.

(** The number of bytes of a line that are compared and stored. *)
Lemma addSearchID_key (hl : list (list ascii)) (l1 l2 : list ascii)
      (len : Z) :
  firstn (Z.to_nat ((if len + 1 >? HITS_ID_LEN then HITS_ID_LEN else len)
                    - 1)) (cstr l1)
  = firstn (Z.to_nat ((if len + 1 >? HITS_ID_LEN then HITS_ID_LEN else len)
                      - 1)) (cstr l2) ->
  addSearchID hl l1 len = addSearchID hl l2 len.
Proof.
  intros H. unfold addSearchID. destruct (len <=? 1); [reflexivity|].
  cbv zeta. rewrite H.
  assert (E : existsLoop l1 hl
                ((if len + 1 >? HITS_ID_LEN then HITS_ID_LEN else len) - 1)
              = existsLoop l2 hl
                ((if len + 1 >? HITS_ID_LEN then HITS_ID_LEN else len) - 1)).
  { induction hl as [|hit hl IH]; cbn [existsLoop]; [reflexivity|].
    unfold strncmp_eq. rewrite H, IH. reflexivity. }
  rewrite E. reflexivity.
Qed.

(** The last byte of the file ends the last line whether or not it is a
    newline. *)
Lemma addSearchID_last (hl : list (list ascii)) (x : list ascii)
      (c1 c2 : ascii) :
  addSearchID hl (x ++ [c1]) (Z.of_nat (length x) + 1)
  = addSearchID hl (x ++ [c2]) (Z.of_nat (length x) + 1).
Proof.
  apply addSearchID_key. unfold HITS_ID_LEN.
  rewrite !firstn_cstr_app; [reflexivity| |];
    destruct (Z.of_nat (length x) + 1 + 1 >? 64) eqn:E; lia.
Qed.

Lemma countLoop_line (x : list ascii) :
  forall (pre post : list ascii) (t : ascii) (fin fuel : nat)
         (nch total longest : Z),
    Forall (fun c => c <> NL) x -> (t = NL \/ post = []) ->
    fin = (length (pre ++ x ++ t :: post) - 1)%nat ->
    countLoop (pre ++ x ++ t :: post) fin (length x + S fuel) (length pre)
              nch total longest
    = if Nat.eqb (length pre + length x) fin
      then Some (total + 1, longer (nch + Z.of_nat (length x) + 1) longest)
      else countLoop (pre ++ x ++ t :: post) fin fuel
                     (S (length pre + length x)) 0 (total + 1)
                     (longer (nch + Z.of_nat (length x) + 1) longest).
Proof.
  induction x as [|c x IH];
    intros pre post t fin fuel nch total longest Hx Ht Hfin;
    cbn [length Nat.add countLoop].
  - cbn [app]. rewrite deref_mid, Nat.add_0_r.
    assert (E : Ascii.eqb t NL || Nat.eqb (length pre) fin = true).
    { destruct Ht as [->| ->]; [reflexivity|].
      apply orb_true_iff. right. apply Nat.eqb_eq.
      rewrite Hfin. len_lia. }
    rewrite E. replace (nch + Z.of_nat 0 + 1) with (nch + 1) by lia.
    reflexivity.
  - inversion Hx as [|? ? Hc Hx']; subst.
    change (pre ++ (c :: x) ++ t :: post) with (pre ++ c :: x ++ t :: post).
    rewrite deref_mid.
    destruct (Ascii.eqb_spec c NL) as [|_]; [contradiction|].
    destruct (Nat.eqb_spec (length pre)
                (length (pre ++ c :: x ++ t :: post) - 1)) as [E|_];
      [exfalso; revert E; len_lia|].
    cbn [orb].
    replace (pre ++ c :: x ++ t :: post) with ((pre ++ [c]) ++ x ++ t :: post)
      by (rewrite <- app_assoc; reflexivity).
    replace (S (length pre)) with (length (pre ++ [c])) by len_lia.
    rewrite IH; auto.
    replace (length (pre ++ [c]) + length x)%nat
      with (length pre + S (length x))%nat by len_lia.
    replace (nch + 1 + Z.of_nat (length x) + 1)
      with (nch + Z.of_nat (S (length x)) + 1) by lia.
    reflexivity.
Qed.

(** [total] is the number of lines and [longest] the length of the
    longest, its last byte counted. *)
Lemma countLoop_lines (lns : list (list ascii)) (x : list ascii) (c : ascii) :
  forall (pre : list ascii) (fin fuel : nat) (total longest : Z),
    Forall (Forall (fun y => y <> NL)) lns -> Forall (fun y => y <> NL) x ->
    fin = (length (pre ++ id_lines lns ++ x ++ [c]) - 1)%nat ->
    (length (id_lines lns ++ x ++ [c]) <= fuel)%nat ->
    countLoop (pre ++ id_lines lns ++ x ++ [c]) fin fuel (length pre)
              0 total longest
    = Some (total + Z.of_nat (length lns) + 1,
            longer (Z.of_nat (length x) + 1)
                   (fold_left (fun lg ln =>
                                 longer (Z.of_nat (length ln) + 1) lg)
                              lns longest)).
Proof.
  induction lns as [|ln lns IH];
    intros pre fin fuel total longest Hl Hx Hfin Hfuel; cbn [fold_left].
  - unfold id_lines in *. cbn [map concat app] in *.
    replace fuel with (length x + S (fuel - length x - 1))%nat
      by (revert Hfuel; len_lia).
    change (x ++ [c]) with (x ++ c :: []).
    rewrite (countLoop_line x pre [] c fin); auto.
    assert (Ep : Nat.eqb (length pre + length x) fin = true).
    { apply Nat.eqb_eq. rewrite Hfin. len_lia. }
    rewrite Ep. cbn [length]. do 2 f_equal; lia.
  - inversion Hl as [|? ? Hln Hlns]; subst.
    unfold id_lines in *. cbn [map concat] in *.
    fold (id_lines lns) in *.
    assert (Em : pre ++ ((ln ++ [NL]) ++ id_lines lns) ++ x ++ [c]
                 = pre ++ ln ++ NL :: (id_lines lns ++ x ++ [c])).
    { rewrite <- !app_assoc. reflexivity. }
    rewrite Em in *.
    replace fuel with (length ln + S (fuel - length ln - 1))%nat
      by (revert Hfuel; len_lia).
    rewrite (countLoop_line ln pre (id_lines lns ++ x ++ [c]) NL); auto.
    destruct (Nat.eqb_spec (length pre + length ln)
                (length (pre ++ ln ++ NL :: id_lines lns ++ x ++ [c]) - 1))
      as [E|_]; [exfalso; revert E; len_lia|].
    replace (pre ++ ln ++ NL :: id_lines lns ++ x ++ [c])
      with ((pre ++ ln ++ [NL]) ++ id_lines lns ++ x ++ [c])
      by (rewrite <- !app_assoc; reflexivity).
    replace (S (length pre + length ln)) with (length (pre ++ ln ++ [NL]))
      by len_lia.
    rewrite IH; auto; [|revert Hfuel; len_lia].
    cbn [length]. do 2 f_equal. lia.
Qed.

Lemma id_lines_length (lns : list (list ascii)) :
  (length lns <= length (id_lines lns))%nat.
Proof.
  induction lns as [|l r IH]; [cbn; lia|].
  unfold id_lines in *. cbn [map concat]. len_lia.
Qed.

Lemma loadSearchIDs_lines (lns : list (list ascii)) (x : list ascii)
      (c : ascii) (h : hits_t) :
  Forall (Forall (fun y => y <> NL)) lns -> Forall (fun y => y <> NL) x ->
  hsearchMode h <> 0 ->
  loadSearchIDs (Some (id_lines lns ++ x ++ [c])) h
  = Some (0, let hl := addSearchID
                         (fold_left (fun hl ln =>
                                       addSearchID hl (ln ++ [NL])
                                         (Z.of_nat (length ln) + 1))
                                    lns [])
                         (x ++ [c]) (Z.of_nat (length x) + 1) in
             mkHits hl (repeat 0 (length hl)) (hpipeMode h) (hsearchMode h)).
Proof.
  intros Hl Hx Hs. unfold loadSearchIDs.
  destruct (Z.eqb_spec (hsearchMode h) 0) as [|_]; [contradiction|].
  destruct (Z.leb_spec (Z.of_nat (length (id_lines lns ++ x ++ [c]))) 0)
    as [E|_]; [revert E; len_lia|].
  pose proof (countLoop_lines lns x c []
                (length (id_lines lns ++ x ++ [c]) - 1)
                (S (length (id_lines lns ++ x ++ [c]) - 1)) 0 0
                Hl Hx eq_refl) as Hc.
  cbn [app length] in Hc. rewrite Hc by len_lia.
  pose proof (readLoop_lines lns x c [] []
                (length (id_lines lns ++ x ++ [c]) - 1)
                (S (length (id_lines lns ++ x ++ [c]) - 1)) Hl Hx eq_refl)
    as H.
  cbn [app length] in H. rewrite H; [reflexivity|].
  pose proof (id_lines_length lns). len_lia.
Qed.

(** [loadSearchIDs] takes the last byte of the file for the end of the
    last line, whatever that byte is: a last line without newline
    loses its last byte. *)
Theorem search_file_last_byte_ends_line (m : list ascii) (c : ascii)
        (h : hits_t) :
  loadSearchIDs (Some (m ++ [c])) h = loadSearchIDs (Some (m ++ [NL])) h.
Proof.
  destruct (Z.eq_dec (hsearchMode h) 0) as [E|E].
  - unfold loadSearchIDs. rewrite E. reflexivity.
  - destruct (split_lines m) as (lns & x & -> & Hl & Hx).
    rewrite <- !app_assoc.
    rewrite !loadSearchIDs_lines by assumption.
    cbv zeta. rewrite (addSearchID_last _ x c NL). reflexivity.
Qed.

Lemma existsLoop_false (line : list ascii) (hl : list (list ascii))
      (len : Z) :
  existsLoop line hl len = false <->
  Forall (fun hit => strncmp_eq line hit (Z.to_nat len) = false) hl.
Proof.
  induction hl as [|hit hl IH]; cbn [existsLoop].
  - split; [constructor|reflexivity].
  - destruct (strncmp_eq line hit (Z.to_nat len)) eqn:E.
    + split; [discriminate|]. intros H. inversion H; congruence.
    + rewrite IH. split; [constructor; assumption|].
      intros H. inversion H; assumption.
Qed.

Lemma In_firstn (A : Type) (n : nat) (l : list A) (x : A) :
  In x (firstn n l) -> In x l.
Proof.
  intros H. rewrite <- (firstn_skipn n l). apply in_or_app. left. exact H.
Qed.

Lemma NoDup_snoc (A : Type) (l : list A) (x : A) :
  NoDup l -> ~ In x l -> NoDup (l ++ [x]).
Proof.
  induction l as [|y l IH]; intros Hn Hx; cbn [app].
  - constructor; [intros []|constructor].
  - inversion Hn; subst. constructor.
    + rewrite in_app_iff. intros [H|[H|[]]]; [contradiction|].
      subst. apply Hx. left. reflexivity.
    + apply IH; [assumption|]. intros H. apply Hx. right. exact H.
Qed.

Lemma addSearchID_shape (hl : list (list ascii)) (x : list ascii)
      (t : ascii) :
  Forall (fun y => y <> NL) x -> ids_shape hl ->
  ids_shape (addSearchID hl (x ++ [t]) (Z.of_nat (length x) + 1)).
Proof.
  intros Hx [Hs Hn]. unfold addSearchID.
  destruct (Z.of_nat (length x) + 1 <=? 1); [split; assumption|].
  cbv zeta.
  remember ((if Z.of_nat (length x) + 1 + 1 >? HITS_ID_LEN
             then HITS_ID_LEN else Z.of_nat (length x) + 1) - 1) as n eqn:En.
  assert (Hn1 : (Z.to_nat n <= length x)%nat /\ n < HITS_ID_LEN).
  { subst n. unfold HITS_ID_LEN.
    destruct (Z.of_nat (length x) + 1 + 1 >? 64) eqn:E; lia. }
  destruct Hn1 as [Hn1 Hn2].
  destruct (existsLoop (x ++ [t]) hl n) eqn:Ee; [split; assumption|].
  rewrite firstn_cstr_app in * by exact Hn1.
  apply existsLoop_false in Ee.
  assert (Hlen : (length (firstn (Z.to_nat n) (cstr x)) <= Z.to_nat n)%nat)
    by (rewrite length_firstn; lia).
  split.
  - apply Forall_app. split; [exact Hs|]. constructor; [|constructor].
    split; [unfold HITS_ID_LEN in *; lia|].
    apply Forall_forall. intros c Hc.
    apply In_firstn in Hc. split.
    + rewrite cstr_prefix in Hc. apply In_firstn in Hc.
      rewrite Forall_forall in Hx. apply Hx. exact Hc.
    + pose proof (cstr_no_nul x) as Hz. rewrite Forall_forall in Hz.
      apply Hz. exact Hc.
  - apply NoDup_snoc; [exact Hn|]. intros Hin.
    rewrite Forall_forall in Ee. specialize (Ee _ Hin).
    unfold strncmp_eq in Ee. rewrite firstn_cstr_app in Ee by exact Hn1.
    rewrite Forall_forall in Hs. destruct (Hs _ Hin) as [_ Hz].
    rewrite (cstr_id (firstn (Z.to_nat n) (cstr x))) in Ee.
    + rewrite (firstn_all2 (firstn (Z.to_nat n) (cstr x))) in Ee
        by exact Hlen.
      rewrite bytes_eqb_refl in Ee. discriminate.
    + eapply Forall_impl; [|exact Hz]. cbv beta. tauto.
Qed.

Lemma searchIDs_fold_shape (lns : list (list ascii)) :
  forall hl, Forall (Forall (fun y => y <> NL)) lns -> ids_shape hl ->
    ids_shape (fold_left (fun hl ln =>
                            addSearchID hl (ln ++ [NL])
                                        (Z.of_nat (length ln) + 1))
                         lns hl).
Proof.
  induction lns as [|ln lns IH]; intros hl Hl Hs; cbn [fold_left];
    [exact Hs|].
  inversion Hl; subst. apply IH; [assumption|].
  apply addSearchID_shape; assumption.
Qed.

(** Whatever the search file holds, the index [loadSearchIDs] builds
    has IDs of fewer than 64 bytes without newline or NUL, no ID twice,
    and a characteristic vector of as many zeros as IDs. *)
Theorem search_index_shape (m : list ascii) (h h' : hits_t) :
  hsearchMode h <> 0 ->
  loadSearchIDs (Some m) h = Some (0, h') ->
  ids_shape (hitList h') /\
  charVect h' = repeat 0 (length (hitList h')) /\
  hpipeMode h' = hpipeMode h /\ hsearchMode h' = hsearchMode h.
Proof.
  intros Hs H.
  destruct (exists_last (l := m)) as (m' & c & ->).
  { intros ->. unfold loadSearchIDs in H.
    destruct (Z.eqb_spec (hsearchMode h) 0); [contradiction|].
    cbn in H. discriminate. }
  destruct (split_lines m') as (lns & x & -> & Hl & Hx).
  rewrite <- app_assoc, loadSearchIDs_lines in H by assumption.
  inversion H; subst h'; clear H. cbn [hitList charVect hpipeMode hsearchMode].
  split; [|repeat split].
  apply addSearchID_shape; [assumption|].
  apply searchIDs_fold_shape; [assumption|].
  split; constructor.
Qed.

Lemma search_index_shape_witness :
  ids_shape [bytes "h10"; bytes "abc"] /\
  charVect (mkHits [bytes "h10"; bytes "abc"] [0; 0] 0 1)
  = repeat 0 (length [bytes "h10"; bytes "abc"]) /\
  0 = hpipeMode (mkHits [] [] 0 1) /\ 1 = hsearchMode (mkHits [] [] 0 1).
Proof.
  apply (search_index_shape
           (bytes ("h10" ++ nl ++ "h1" ++ nl ++ "abc" ++ nl))
           (mkHits [] [] 0 1) (mkHits [bytes "h10"; bytes "abc"] [0; 0] 0 1)).
  - discriminate.
  - vm_compute. reflexivity.
Defined.

(** A line that holds a plain ID not a prefix of an ID of the list adds
    that ID; one that is a prefix of an ID of the list adds nothing. *)
Lemma addSearchID_plain (hl : list (list ascii)) (x : list ascii) :
  plain_id x -> Forall (Forall (fun c => c <> zero)) hl ->
  addSearchID hl (x ++ [NL]) (Z.of_nat (length x) + 1)
  = if existsb (fun hit => bytes_eqb x (firstn (length x) hit)) hl
    then hl else hl ++ [x].
Proof.
  intros (Hne & Hlen & Hc) Hz. unfold addSearchID, HITS_ID_LEN in *.
  assert (Hl : (0 < length x)%nat) by (destruct x; [congruence|cbn; lia]).
  destruct (Z.leb_spec (Z.of_nat (length x) + 1) 1); [lia|].
  cbv zeta.
  assert (En : (if Z.of_nat (length x) + 1 + 1 >? 64
                then 64 else Z.of_nat (length x) + 1) - 1
               = Z.of_nat (length x)).
  { destruct (Z.gtb_spec (Z.of_nat (length x) + 1 + 1) 64); lia. }
  rewrite En, Nat2Z.id.
  assert (Hx : cstr x = x).
  { apply cstr_id. eapply Forall_impl; [|exact Hc]. cbv beta. tauto. }
  assert (Ex : firstn (length x) (cstr (x ++ [NL])) = x).
  { rewrite firstn_cstr_app by lia. rewrite Hx. apply firstn_all. }
  rewrite Ex.
  assert (Ee : existsLoop (x ++ [NL]) hl (Z.of_nat (length x))
               = existsb (fun hit => bytes_eqb x (firstn (length x) hit)) hl).
  { induction hl as [|hit hl IH]; cbn [existsLoop existsb]; [reflexivity|].
    inversion Hz; subst. unfold strncmp_eq.
    rewrite Nat2Z.id, Ex, (cstr_id hit), IH by assumption.
    destruct (bytes_eqb x (firstn (length x) hit)); reflexivity. }
  rewrite Ee. reflexivity.
Qed.

Lemma plain_no_nul (ids : list (list ascii)) :
  Forall plain_id ids -> Forall (Forall (fun c => c <> zero)) ids.
Proof.
  intros H. eapply Forall_impl; [|exact H]. cbv beta.
  intros id (_ & _ & Hc). eapply Forall_impl; [|exact Hc]. cbv beta. tauto.
Qed.

Lemma searchIDs_fold_plain (ids : list (list ascii)) :
  forall hl,
    Forall plain_id ids -> Forall (Forall (fun c => c <> zero)) hl ->
    no_prefix_before hl ids ->
    fold_left (fun hl ln =>
                 addSearchID hl (ln ++ [NL]) (Z.of_nat (length ln) + 1))
              ids hl
    = hl ++ ids.
Proof.
  induction ids as [|x ids IH]; intros hl Hp Hz Hn; cbn [fold_left].
  - symmetry. apply app_nil_r.
  - inversion Hp as [|? ? Hx Hids]; subst. destruct Hn as [Hn1 Hn2].
    rewrite addSearchID_plain by assumption.
    assert (E : existsb (fun hit => bytes_eqb x (firstn (length x) hit)) hl
                = false).
    { apply not_true_is_false. intros E. apply existsb_exists in E.
      destruct E as (hit & Hin & E). apply bytes_eqb_eq in E.
      rewrite Forall_forall in Hn1. apply (Hn1 hit Hin).
      unfold is_prefix. congruence. }
    rewrite E, IH; auto.
    + rewrite <- app_assoc. reflexivity.
    + apply Forall_app. split; [assumption|].
      constructor; [|constructor].
      destruct Hx as (_ & _ & Hc). eapply Forall_impl; [|exact Hc].
      cbv beta. tauto.
Qed.

Lemma plain_no_nl (ids : list (list ascii)) :
  Forall plain_id ids -> Forall (Forall (fun y => y <> NL)) ids.
Proof.
  intros H. eapply Forall_impl; [|exact H]. cbv beta.
  intros id (_ & _ & Hc). eapply Forall_impl; [|exact Hc]. cbv beta. tauto.
Qed.

(** What [loadSearchIDs] makes of plain IDs, one per line, followed by
    one more line that holds the plain ID [x]. *)
Lemma loadSearchIDs_plain (ids : list (list ascii)) (x : list ascii)
      (h : hits_t) :
  Forall plain_id ids -> no_prefix_before [] ids -> plain_id x ->
  hsearchMode h <> 0 ->
  loadSearchIDs (Some (id_lines (ids ++ [x]))) h
  = Some (0, let hl := if existsb (fun hit =>
                                     bytes_eqb x (firstn (length x) hit))
                                  ids
                       then ids else ids ++ [x] in
             mkHits hl (repeat 0 (length hl)) (hpipeMode h) (hsearchMode h)).
Proof.
  intros Hp Hn Hx Hs.
  rewrite id_lines_app. unfold id_lines at 2. cbn [map concat].
  rewrite app_nil_r.
  rewrite loadSearchIDs_lines; auto using plain_no_nl.
  - cbv zeta. rewrite searchIDs_fold_plain by (auto; constructor).
    cbn [app]. rewrite addSearchID_plain by auto using plain_no_nul.
    reflexivity.
  - destruct Hx as (_ & _ & Hc). eapply Forall_impl; [|exact Hc].
    cbv beta. tauto.
Qed.

Lemma no_prefix_snoc (ids : list (list ascii)) (x : list ascii) :
  forall seen,
    no_prefix_before seen (ids ++ [x]) <->
    no_prefix_before seen ids /\
    Forall (fun hit => ~ is_prefix x hit) (seen ++ ids).
Proof.
  induction ids as [|y ids IH]; intros seen; cbn [app no_prefix_before].
  - rewrite app_nil_r. tauto.
  - rewrite IH, <- app_assoc. cbn [app]. tauto.
Qed.

Lemma loadSearchIDs_ids (ids : list (list ascii)) (h : hits_t) :
  ids <> [] -> Forall plain_id ids -> no_prefix_before [] ids ->
  hsearchMode h <> 0 ->
  loadSearchIDs (Some (id_lines ids)) h
  = Some (0, mkHits ids (repeat 0 (length ids)) (hpipeMode h)
                    (hsearchMode h)).
Proof.
  intros Hne Hp Hn Hs.
  destruct (exists_last Hne) as (ids' & x & ->).
  apply Forall_app in Hp. destruct Hp as [Hp Hx].
  inversion Hx as [|? ? Hx' _]; subst.
  apply no_prefix_snoc in Hn. destruct Hn as [Hn Hf]. cbn [app] in Hf.
  rewrite loadSearchIDs_plain by assumption. cbv zeta.
  assert (E : existsb (fun hit => bytes_eqb x (firstn (length x) hit)) ids'
              = false).
  { apply not_true_is_false. intros E. apply existsb_exists in E.
    destruct E as (hit & Hin & E). apply bytes_eqb_eq in E.
    rewrite Forall_forall in Hf. apply (Hf hit Hin).
    unfold is_prefix. congruence. }
  rewrite E. reflexivity.
Qed.

(** Round trip: a file of plain IDs, one per line, none a prefix of an
    earlier one, loads as the list of these IDs, every flag zero. *)
Theorem search_ids_round_trip (ids : list (list ascii)) (h : hits_t) :
  ids <> [] -> Forall plain_id ids -> no_prefix_before [] ids ->
  hsearchMode h <> 0 ->
  loadSearchIDs (Some (id_lines ids)) h
  = Some (0, mkHits ids (repeat 0 (length ids)) (hpipeMode h)
                    (hsearchMode h)).
Proof. apply loadSearchIDs_ids. Qed.

Lemma search_ids_round_trip_witness :
  loadSearchIDs (Some (id_lines [bytes "h1"; bytes "h10"; bytes "abc"]))
                (mkHits [] [] 0 1)
  = Some (0, mkHits [bytes "h1"; bytes "h10"; bytes "abc"]
                    (repeat 0 3) 0 1).
Proof.
  apply (search_ids_round_trip [bytes "h1"; bytes "h10"; bytes "abc"]
                               (mkHits [] [] 0 1)).
  - discriminate.
  - repeat constructor; try discriminate; vm_compute; reflexivity.
  - cbn [no_prefix_before app]. unfold is_prefix.
    repeat split; repeat constructor; discriminate.
  - discriminate.
Defined.

(** A line whose ID is a prefix of an ID loaded before it adds nothing
    to the index: the comparison covers the length of the new ID
    only. *)
Theorem search_id_prefix_of_loaded_dropped
        (ids : list (list ascii)) (x : list ascii) (h : hits_t) :
  ids <> [] -> Forall plain_id ids -> no_prefix_before [] ids ->
  plain_id x -> Exists (is_prefix x) ids -> hsearchMode h <> 0 ->
  loadSearchIDs (Some (id_lines (ids ++ [x]))) h
  = loadSearchIDs (Some (id_lines ids)) h.
Proof.
  intros Hne Hp Hn Hx He Hs.
  rewrite loadSearchIDs_plain, loadSearchIDs_ids by assumption.
  cbv zeta.
  assert (E : existsb (fun hit => bytes_eqb x (firstn (length x) hit)) ids
              = true).
  { apply existsb_exists. apply Exists_exists in He.
    destruct He as (hit & Hin & Hpre). exists hit. split; [exact Hin|].
    apply bytes_eqb_eq. symmetry. exact Hpre. }
  rewrite E. reflexivity.
Qed.

Lemma search_id_prefix_of_loaded_dropped_witness :
  loadSearchIDs (Some (id_lines ([bytes "h10"] ++ [bytes "h1"])))
                (mkHits [] [] 0 1)
  = loadSearchIDs (Some (id_lines [bytes "h10"])) (mkHits [] [] 0 1).
Proof.
  apply (search_id_prefix_of_loaded_dropped
           [bytes "h10"] (bytes "h1") (mkHits [] [] 0 1)).
  - discriminate.
  - repeat constructor; try discriminate; vm_compute; reflexivity.
  - cbn [no_prefix_before app]. repeat split; constructor.
  - repeat constructor; try discriminate; vm_compute; reflexivity.
  - apply Exists_cons_hd. reflexivity.
  - discriminate.
Defined.

Lemma addSearchID_length (hl : list (list ascii)) (line : list ascii)
      (len : Z) :
  (length (addSearchID hl line len) <= S (length hl))%nat.
Proof.
  unfold addSearchID. destruct (len <=? 1); [lia|]. cbv zeta.
  destruct (existsLoop _ _ _); [lia|]. len_lia.
Qed.

Lemma searchIDs_fold_length (lns : list (list ascii)) :
  forall hl,
    (length (fold_left (fun hl ln =>
                          addSearchID hl (ln ++ [NL])
                                      (Z.of_nat (length ln) + 1))
                       lns hl)
     <= length hl + length lns)%nat.
Proof.
  induction lns as [|ln lns IH]; intros hl; cbn [fold_left length]; [lia|].
  specialize (IH (addSearchID hl (ln ++ [NL]) (Z.of_nat (length ln) + 1))).
  pose proof (addSearchID_length hl (ln ++ [NL])
                (Z.of_nat (length ln) + 1)). lia.
Qed.

Lemma longer_fold (lns : list (list ascii)) :
  forall lg,
    lg <= fold_left (fun lg ln => longer (Z.of_nat (length ln) + 1) lg)
                    lns lg /\
    Forall (fun ln =>
              Z.of_nat (length ln) + 1
              <= fold_left (fun lg ln => longer (Z.of_nat (length ln) + 1) lg)
                           lns lg) lns.
Proof.
  induction lns as [|ln lns IH]; intros lg; cbn [fold_left].
  - split; [lia|constructor].
  - destruct (IH (longer (Z.of_nat (length ln) + 1) lg)) as [H1 H2].
    assert (Hl : lg <= longer (Z.of_nat (length ln) + 1) lg /\
                 Z.of_nat (length ln) + 1
                 <= longer (Z.of_nat (length ln) + 1) lg).
    { unfold longer.
      destruct (Z.gtb_spec (Z.of_nat (length ln) + 1) lg); lia. }
    split; [lia|]. constructor; [lia|exact H2].
Qed.

(** The arrays [loadSearchIDs] allocates are large enough: the index
    never holds more IDs than the file has lines ([total]), and no line
    is longer than [longest], so that the line and its NUL fit the
    buffer of [longest + 1] bytes. *)
Theorem search_index_fits_allocation
        (lns : list (list ascii)) (x : list ascii) (c : ascii) (h : hits_t) :
  hsearchMode h <> 0 ->
  Forall (Forall (fun y => y <> NL)) lns -> Forall (fun y => y <> NL) x ->
  exists total longest h',
    countLoop (id_lines lns ++ x ++ [c])
              (length (id_lines lns ++ x ++ [c]) - 1)
              (S (length (id_lines lns ++ x ++ [c]) - 1)) 0 0 0 0
    = Some (total, longest) /\
    loadSearchIDs (Some (id_lines lns ++ x ++ [c])) h = Some (0, h') /\
    Z.of_nat (length (hitList h')) <= total /\
    Forall (fun ln => Z.of_nat (length ln) + 1 <= longest) lns /\
    Z.of_nat (length x) + 1 <= longest.
Proof.
  intros Hs Hl Hx.
  pose proof (countLoop_lines lns x c []
                (length (id_lines lns ++ x ++ [c]) - 1)
                (S (length (id_lines lns ++ x ++ [c]) - 1)) 0 0
                Hl Hx eq_refl) as Hc.
  cbn [app length] in Hc. rewrite Hc by len_lia.
  rewrite loadSearchIDs_lines by assumption.
  do 3 eexists. split; [reflexivity|]. split; [reflexivity|].
  cbv zeta. cbn [hitList].
  destruct (longer_fold lns 0) as [H1 H2].
  pose proof (searchIDs_fold_length lns []) as H3.
  pose proof (addSearchID_length
                (fold_left (fun hl ln =>
                              addSearchID hl (ln ++ [NL])
                                          (Z.of_nat (length ln) + 1))
                           lns [])
                (x ++ [c]) (Z.of_nat (length x) + 1)) as H4.
  cbn [length] in H3.
  assert (Hg : forall a b, b <= longer a b /\ a <= longer a b).
  { intros a b. unfold longer. destruct (Z.gtb_spec a b); lia. }
  destruct (Hg (Z.of_nat (length x) + 1)
               (fold_left (fun lg ln => longer (Z.of_nat (length ln) + 1) lg)
                          lns 0)) as [G1 G2].
  split; [lia|]. split; [|lia].
  eapply Forall_impl; [|exact H2]. cbv beta. intros ln Hln. lia.
Qed.

Lemma search_index_fits_allocation_witness :
  exists total longest h',
    countLoop (id_lines [bytes "h10"; bytes "h1"] ++ bytes "z" ++ ["z"%char])
              (length (id_lines [bytes "h10"; bytes "h1"]
                       ++ bytes "z" ++ ["z"%char]) - 1)
              (S (length (id_lines [bytes "h10"; bytes "h1"]
                          ++ bytes "z" ++ ["z"%char]) - 1)) 0 0 0 0
    = Some (total, longest) /\
    loadSearchIDs (Some (id_lines [bytes "h10"; bytes "h1"]
                         ++ bytes "z" ++ ["z"%char])) (mkHits [] [] 0 1)
    = Some (0, h') /\
    Z.of_nat (length (hitList h')) <= total /\
    Forall (fun ln => Z.of_nat (length ln) + 1 <= longest)
           [bytes "h10"; bytes "h1"] /\
    Z.of_nat (length (bytes "z")) + 1 <= longest.
Proof.
  apply (search_index_fits_allocation [bytes "h10"; bytes "h1"] (bytes "z")
           "z"%char (mkHits [] [] 0 1)).
  - discriminate.
  - repeat constructor; discriminate.
  - repeat constructor; discriminate.
Defined.

(* ------------------------------------------------------------------ *)
(** ** parseBlastTableIDs, loadBlastTable *)

Lemma tableLoop_lines (pm : Z) (lns : list (list ascii)) (x : list ascii)
      (c : ascii) :
  forall (pre : list ascii) (ql hl : list (list ascii)) (fin fuel : nat),
    Forall (Forall (fun y => y <> NL)) lns -> Forall (fun y => y <> NL) x ->
    fin = (length (pre ++ id_lines lns ++ x ++ [c]) - 1)%nat ->
    (length lns < fuel)%nat ->
    tableLoop pm (pre ++ id_lines lns ++ x ++ [c]) fin fuel (length pre)
              ql hl
    = Some (parseLines pm (map (fun ln => ln ++ [NL]) lns ++ [x ++ [c]])
                       ql hl).
Proof.
  induction lns as [|ln lns IH]; intros pre ql hl fin fuel Hl Hx Hfin Hfuel;
    (destruct fuel as [|fuel]; [cbn [length] in Hfuel; lia|]);
    cbn [tableLoop map app parseLines].
  - unfold id_lines in *. cbn [map concat app] in *.
    change (x ++ [c]) with (x ++ c :: []) at 1.
    rewrite (lineLoop_line x pre [] c fin); auto;
      try (rewrite Hfin; len_lia).
    assert (Ep : Nat.eqb (length pre + length x) fin = true).
    { apply Nat.eqb_eq. rewrite Hfin. len_lia. }
    rewrite Ep.
    replace (slice (pre ++ x ++ [c])
               (length pre + length x + 1
                - Z.to_nat (0 + Z.of_nat (length x) + 1))
               (Z.to_nat (0 + Z.of_nat (length x) + 1)))
      with (x ++ [c]).
    + destruct (parseBlastTableIDs pm ql hl (x ++ [c])) as [[e ql'] hl'].
      destruct (negb (e =? 0)) eqn:Ee; [reflexivity|].
      apply negb_false_iff, Z.eqb_eq in Ee. subst e. reflexivity.
    + symmetry.
      replace (length pre + length x + 1
               - Z.to_nat (0 + Z.of_nat (length x) + 1))%nat
        with (length pre) by lia.
      replace (pre ++ x ++ [c]) with (pre ++ (x ++ [c]) ++ [])
        by (rewrite app_nil_r; reflexivity).
      apply slice_mid. len_lia.
  - inversion Hl as [|? ? Hln Hlns]; subst.
    unfold id_lines in *. cbn [map concat] in *.
    fold (id_lines lns) in *.
    assert (Em : pre ++ ((ln ++ [NL]) ++ id_lines lns) ++ x ++ [c]
                 = pre ++ ln ++ NL :: (id_lines lns ++ x ++ [c])).
    { rewrite <- !app_assoc. reflexivity. }
    rewrite Em in *.
    rewrite (lineLoop_line ln pre (id_lines lns ++ x ++ [c]) NL); auto;
      try len_lia.
    destruct (Nat.eqb_spec (length pre + length ln)
                (length (pre ++ ln ++ NL :: id_lines lns ++ x ++ [c]) - 1))
      as [E|_]; [exfalso; revert E; len_lia|].
    assert (El : slice (pre ++ ln ++ NL :: id_lines lns ++ x ++ [c])
                       (length pre + length ln + 1
                        - Z.to_nat (0 + Z.of_nat (length ln) + 1))
                       (Z.to_nat (0 + Z.of_nat (length ln) + 1))
                 = ln ++ [NL]).
    { replace (length pre + length ln + 1
               - Z.to_nat (0 + Z.of_nat (length ln) + 1))%nat
        with (length pre) by lia.
      replace (pre ++ ln ++ NL :: id_lines lns ++ x ++ [c])
        with (pre ++ (ln ++ [NL]) ++ id_lines lns ++ x ++ [c])
        by (rewrite <- !app_assoc; reflexivity).
      apply slice_mid. len_lia. }
    rewrite El.
    destruct (parseBlastTableIDs pm ql hl (ln ++ [NL])) as [[e ql'] hl'].
    destruct (negb (e =? 0)); [reflexivity|].
    replace (pre ++ ln ++ NL :: id_lines lns ++ x ++ [c])
      with ((pre ++ ln ++ [NL]) ++ id_lines lns ++ x ++ [c])
      by (rewrite <- !app_assoc; reflexivity).
    replace (S (length pre + length ln)) with (length (pre ++ ln ++ [NL]))
      by len_lia.
    rewrite IH; auto; try (cbn [length] in Hfuel; lia).
Qed.

Lemma parseLines_err (pm : Z) (lns : list (list ascii)) :
  forall ql hl e ql' hl',
    parseLines pm lns ql hl = (e, ql', hl') -> e = 0 \/ e = ERROR.
Proof.
  induction lns as [|ln lns IH]; intros ql hl e ql' hl' H;
    cbn [parseLines] in H.
  - inversion H. left. reflexivity.
  - destruct (parseBlastTableIDs pm ql hl ln) as [[e1 q1] h1].
    destruct (negb (e1 =? 0)).
    + inversion H. right. reflexivity.
    + eapply IH. exact H.
Qed.

Lemma loadBlastTable_lines (lns : list (list ascii)) (x : list ascii)
      (c : ascii) (h : hits_t) :
  Forall (Forall (fun y => y <> NL)) lns -> Forall (fun y => y <> NL) x ->
  hpipeMode h <> 0 ->
  loadBlastTable (Some (id_lines lns ++ x ++ [c])) h
  = Some (let '(err, _, hl) :=
            parseLines (hpipeMode h)
                       (map (fun ln => ln ++ [NL]) lns ++ [x ++ [c]]) [] [] in
          if negb (err =? 0) then (ERROR, h)
          else (0, mkHits hl (repeat 0 (length hl)) (hpipeMode h)
                          (hsearchMode h))).
Proof.
  intros Hl Hx Hs. unfold loadBlastTable.
  destruct (Z.eqb_spec (hpipeMode h) 0) as [|_]; [contradiction|].
  destruct (Z.leb_spec (Z.of_nat (length (id_lines lns ++ x ++ [c]))) 0)
    as [E|_]; [revert E; len_lia|].
  pose proof (countLoop_lines lns x c []
                (length (id_lines lns ++ x ++ [c]) - 1)
                (S (length (id_lines lns ++ x ++ [c]) - 1)) 0 0
                Hl Hx eq_refl) as Hc.
  cbn [app length] in Hc. rewrite Hc by len_lia.
  pose proof (tableLoop_lines (hpipeMode h) lns x c [] [] []
                (length (id_lines lns ++ x ++ [c]) - 1)
                (S (length (id_lines lns ++ x ++ [c]) - 1)) Hl Hx eq_refl)
    as H.
  cbn [app length] in H. rewrite H.
  - destruct (parseLines _ _ _ _) as [[e ql] hl].
    destruct (negb (e =? 0)); reflexivity.
  - pose proof (id_lines_length lns). len_lia.
Qed.

Lemma parseBlastTableIDs_muscle (ql hl : list (list ascii))
      (line : list ascii) :
  fst (fst (parseBlastTableIDs 2 ql hl line)) = ERROR.
Proof.
  unfold parseBlastTableIDs.
  destruct (strtok (cstr line)) as [[q rest]|]; [|reflexivity].
  destruct (strtok rest) as [[hit r]|]; reflexivity.
Qed.

(** In the pipeline mode 2 (MUSCLE) [loadBlastTable] fails on every
    table file, and [main] ends with an error: the first line parsed
    returns [ERROR]. *)
Theorem muscle_pipeline_never_loads (file : option (list ascii))
        (h : hits_t) :
  hpipeMode h = 2 -> loadBlastTable file h = Some (ERROR, h).
Proof.
  intros Hp. destruct file as [m|].
  - destruct m as [|b m'] using rev_ind.
    + unfold loadBlastTable. rewrite Hp. reflexivity.
    + clear IHm'. destruct (split_lines m') as (lns & x & -> & Hl & Hx).
      rewrite <- app_assoc, loadBlastTable_lines; auto; [|lia].
      rewrite Hp.
      assert (E : forall l r, fst (fst (parseLines 2 (l :: r) [] [])) = ERROR).
      { intros l r. cbn [parseLines].
        pose proof (parseBlastTableIDs_muscle [] [] l) as E.
        destruct (parseBlastTableIDs 2 [] [] l) as [[e q1] h1].
        cbn [fst] in E. subst e. reflexivity. }
      destruct lns as [|l r]; cbn [map app];
        [specialize (E (x ++ [b]) [])
        |specialize (E (l ++ [NL])
                       (map (fun ln => ln ++ [NL]) r ++ [x ++ [b]]))];
        destruct (parseLines 2 _ [] []) as [[e q1] h1];
        cbn [fst] in E; subst e; reflexivity.
  - unfold loadBlastTable. rewrite Hp. reflexivity.
Qed.

Lemma muscle_pipeline_never_loads_witness :
  loadBlastTable (Some (bytes ("q1 h1 x" ++ nl))) (mkHits [] [] 2 0)
  = Some (ERROR, mkHits [] [] 2 0).
Proof.
  apply (muscle_pipeline_never_loads (Some (bytes ("q1 h1 x" ++ nl)))
                                     (mkHits [] [] 2 0)).
  reflexivity.
Defined.

Lemma token_word (w : list ascii) (d : ascii) (r : list ascii) :
  Forall (fun c => isBlank c = false) w -> isBlank d = true ->
  token (w ++ d :: r) = (w, r).
Proof.
  intros Hw Hd. induction Hw as [|c w Hc _ IH]; cbn [app token].
  - rewrite Hd. reflexivity.
  - rewrite Hc, IH. reflexivity.
Qed.

Lemma token_end (w : list ascii) :
  Forall (fun c => isBlank c = false) w -> token w = (w, []).
Proof.
  intros Hw. induction Hw as [|c w Hc _ IH]; cbn [token]; [reflexivity|].
  rewrite Hc, IH. reflexivity.
Qed.

Lemma strtok_word (w : list ascii) (d : ascii) (r : list ascii) :
  w <> [] -> Forall (fun c => isBlank c = false) w -> isBlank d = true ->
  strtok (w ++ d :: r) = Some (w, r).
Proof.
  intros Hne Hw Hd. unfold strtok.
  destruct w as [|c w]; [congruence|]. inversion Hw as [|? ? Hc Hw']; subst.
  cbn [app skipDelims]. rewrite Hc.
  change (c :: w ++ d :: r) with ((c :: w) ++ d :: r).
  rewrite token_word by assumption. reflexivity.
Qed.

Lemma strtok_last (w : list ascii) :
  w <> [] -> Forall (fun c => isBlank c = false) w ->
  strtok w = Some (w, []).
Proof.
  intros Hne Hw. unfold strtok.
  destruct w as [|c w]; [congruence|]. inversion Hw as [|? ? Hc Hw']; subst.
  cbn [skipDelims]. rewrite Hc, token_end by assumption. reflexivity.
Qed.

Lemma firstn_longer (A : Type) (x y : list A) (n : nat) :
  (length x < n)%nat -> (firstn n x = firstn n y <-> x = y).
Proof.
  intros Hn. rewrite (firstn_all2 x) by lia. split.
  - intros H. destruct (Nat.le_gt_cases (length y) n) as [Hy|Hy].
    + rewrite (firstn_all2 y) in H by lia. exact H.
    + apply (f_equal (@length A)) in H. rewrite length_firstn in H. lia.
  - intros ->. rewrite firstn_all2 by lia. reflexivity.
Qed.

Lemma word_facts (w : list ascii) :
  word w ->
  w <> [] /\ Forall (fun c => isBlank c = false) w /\
  Forall (fun c => c <> zero) w /\ Forall (fun c => c <> NL) w /\
  idLen w = Z.of_nat (length w) + 1.
Proof.
  intros (Hne & Hlen & Hc). split; [exact Hne|].
  repeat split; try (eapply Forall_impl; [|exact Hc]; cbv beta; tauto).
  unfold idLen, HITS_ID_LEN in *.
  destruct (Z.gtb_spec (Z.of_nat (length w) + 1) 64); lia.
Qed.

Lemma existsLoop_word (x : list ascii) (hl : list (list ascii)) :
  Forall (fun c => c <> zero) x ->
  Forall (Forall (fun c => c <> zero)) hl ->
  existsLoop x hl (Z.of_nat (length x) + 1) = existsb (bytes_eqb x) hl.
Proof.
  intros Hx Hz. induction Hz as [|hit hl Hh _ IH];
    cbn [existsLoop existsb]; [reflexivity|].
  rewrite IH. unfold strncmp_eq. rewrite !cstr_id by assumption.
  replace (bytes_eqb (firstn (Z.to_nat (Z.of_nat (length x) + 1)) x)
                     (firstn (Z.to_nat (Z.of_nat (length x) + 1)) hit))
    with (bytes_eqb x hit); [destruct (bytes_eqb x hit); reflexivity|].
  apply eq_true_iff_eq. rewrite !bytes_eqb_eq.
  symmetry. apply firstn_longer. lia.
Qed.

(** A row with the hit followed by a tab: the hit ID is added unless it
    is the query ID of the row or stands in the list. *)
Lemma parseBlastTableIDs_row (ql hl : list (list ascii)) (r : row_t)
      (c : ascii) :
  row_ok r -> c <> zero -> Forall (Forall (fun y => y <> zero)) hl ->
  exists ql',
    parseBlastTableIDs 1 ql hl (row_text r ++ [c])
    = (0, ql',
       let '(q, h, _) := r in
       if bytes_eqb q h then hl
       else if existsb (bytes_eqb h) hl then hl else hl ++ [h]).
Proof.
  destruct r as [[q h] rest]. intros (Hq & Hh & Hr) Hc Hz.
  destruct (word_facts q Hq) as (Q1 & Q2 & Q3 & Q4 & Q5).
  destruct (word_facts h Hh) as (H1 & H2 & H3 & H4 & H5).
  unfold parseBlastTableIDs, row_text.
  assert (Ez : cstr ((q ++ TAB :: h ++ TAB :: rest) ++ [c])
               = q ++ TAB :: h ++ TAB :: rest ++ [c]).
  { rewrite <- app_assoc. cbn [app]. rewrite <- app_assoc. cbn [app].
    apply cstr_id. apply Forall_app. split; [exact Q3|].
    constructor; [discriminate|]. apply Forall_app. split; [exact H3|].
    constructor; [discriminate|]. apply Forall_app. split.
    - eapply Forall_impl; [|exact Hr]. cbv beta. tauto.
    - constructor; [exact Hc|constructor]. }
  rewrite Ez, strtok_word, strtok_word by (auto; reflexivity).
  cbv zeta.
  exists (if (Z.of_nat (length ql) =? 0)
             || negb (strncmp_eq q (last ql []) (Z.to_nat (idLen q)))
          then ql ++ [firstn (Z.to_nat (idLen q)) q] else ql).
  assert (Emin : Z.to_nat (Z.min (idLen q) (idLen h))
                 = S (Nat.min (length q) (length h)))
    by (rewrite Q5, H5; lia).
  rewrite Emin, H5.
  assert (Eq : strncmp_eq q h (S (Nat.min (length q) (length h)))
               = bytes_eqb q h).
  { unfold strncmp_eq. rewrite !cstr_id by assumption.
    apply eq_true_iff_eq. rewrite !bytes_eqb_eq.
    destruct (Nat.le_gt_cases (length q) (length h)) as [L|L].
    - rewrite Nat.min_l by lia. apply firstn_longer. lia.
    - rewrite Nat.min_r by lia.
      split; [intros E; symmetry in E|intros E; symmetry; symmetry in E];
        [symmetry|]; revert E; apply firstn_longer; lia. }
  rewrite Eq. cbn [Z.eqb Pos.eqb].
  destruct (bytes_eqb q h); cbn [negb]; [reflexivity|].
  rewrite existsLoop_word by assumption.
  destruct (existsb (bytes_eqb h) hl); [reflexivity|].
  replace (Z.to_nat (Z.of_nat (length h) + 1)) with (S (length h)) by lia.
  rewrite (firstn_all2 h) by lia. reflexivity.
Qed.

Lemma parseLines_rows (rows : list row_t) :
  forall ql hl,
    Forall row_ok rows -> Forall (Forall (fun y => y <> zero)) hl ->
    exists ql',
      parseLines 1 (map (fun r => row_text r ++ [NL]) rows) ql hl
      = (0, ql',
         fold_left (fun acc (r : row_t) =>
                      let '(q, h, _) := r in
                      if bytes_eqb q h then acc
                      else if existsb (bytes_eqb h) acc then acc
                      else acc ++ [h])
                   rows hl).
Proof.
  induction rows as [|r rows IH]; intros ql hl Hr Hz;
    cbn [map parseLines fold_left].
  - eexists. reflexivity.
  - inversion Hr as [|? ? Hr1 Hr2]; subst.
    destruct (parseBlastTableIDs_row ql hl r NL Hr1 ltac:(discriminate) Hz)
      as (ql1 & E).
    rewrite E. cbn [Z.eqb negb]. apply IH; [assumption|].
    destruct r as [[q h] rest]. destruct Hr1 as (_ & Hh & _).
    destruct (bytes_eqb q h); [assumption|].
    destruct (existsb (bytes_eqb h) hl); [assumption|].
    apply Forall_app. split; [assumption|]. constructor; [|constructor].
    apply word_facts in Hh. tauto.
Qed.

Lemma row_text_no_nl (r : row_t) :
  row_ok r -> Forall (fun y => y <> NL) (row_text r).
Proof.
  destruct r as [[q h] rest]. intros (Hq & Hh & Hr).
  apply word_facts in Hq. apply word_facts in Hh. unfold row_text.
  apply Forall_app. split; [tauto|]. constructor; [discriminate|].
  apply Forall_app. split; [tauto|]. constructor; [discriminate|].
  eapply Forall_impl; [|exact Hr]. cbv beta. tauto.
Qed.

(** Round trip in the pipeline mode 1: a table of rows "query, hit,
    other columns" loads as the hit IDs that differ from the query of
    their row, each once, in the order of their first row, every flag
    zero. *)
Theorem blast_table_round_trip (rows : list row_t) (h : hits_t) :
  rows <> [] -> Forall row_ok rows -> hpipeMode h = 1 ->
  loadBlastTable (Some (table_lines rows)) h
  = Some (0, mkHits (hits_of_rows rows)
                    (repeat 0 (length (hits_of_rows rows)))
                    (hpipeMode h) (hsearchMode h)).
Proof.
  intros Hne Hr Hp.
  destruct (exists_last Hne) as (rows' & r & ->).
  pose proof Hr as Hr'. apply Forall_app in Hr'. destruct Hr' as [Hr1 Hr2].
  inversion Hr2 as [|? ? Hr3 _]; subst.
  unfold table_lines. rewrite map_app, id_lines_app.
  unfold id_lines at 2. cbn [map concat]. rewrite app_nil_r.
  rewrite loadBlastTable_lines.
  - rewrite Hp.
    replace (map (fun ln => ln ++ [NL]) (map row_text rows')
             ++ [row_text r ++ [NL]])
      with (map (fun r => row_text r ++ [NL]) (rows' ++ [r]))
      by (rewrite map_app, map_map; reflexivity).
    destruct (parseLines_rows (rows' ++ [r]) [] [] Hr (Forall_nil _))
      as (ql' & E).
    rewrite E. reflexivity.
  - apply Forall_forall. intros ln Hin. apply in_map_iff in Hin.
    destruct Hin as (r0 & <- & Hin). apply row_text_no_nl.
    rewrite Forall_forall in Hr1. apply Hr1. exact Hin.
  - apply row_text_no_nl. exact Hr3.
  - lia.
Qed.

Lemma blast_table_round_trip_witness :
  loadBlastTable
    (Some (table_lines [(bytes "q1", bytes "h1", bytes "99.0");
                        (bytes "q1", bytes "q1", bytes "100");
                        (bytes "q2", bytes "h1", bytes "x")]))
    (mkHits [] [] 1 0)
  = Some (0, mkHits [bytes "h1"] [0] 1 0).
Proof.
  apply (blast_table_round_trip
           [(bytes "q1", bytes "h1", bytes "99.0");
            (bytes "q1", bytes "q1", bytes "100");
            (bytes "q2", bytes "h1", bytes "x")] (mkHits [] [] 1 0)).
  - discriminate.
  - repeat constructor; try discriminate; vm_compute; reflexivity.
  - reflexivity.
Defined.

(** A hit ID that ends its line keeps the newline: [strtok] is given
    the blank and the tab as delimiters, not the newline. *)
Theorem hit_at_line_end_keeps_newline (q hid : list ascii) (h : hits_t) :
  word q -> word hid -> Z.of_nat (length hid) + 1 < HITS_ID_LEN ->
  hpipeMode h = 1 ->
  loadBlastTable (Some (q ++ TAB :: hid ++ [NL])) h
  = Some (0, mkHits [hid ++ [NL]] [0] (hpipeMode h) (hsearchMode h)).
Proof.
  intros Hq Hh Hlen Hp.
  destruct (word_facts q Hq) as (Q1 & Q2 & Q3 & Q4 & Q5).
  destruct (word_facts hid Hh) as (H1 & H2 & H3 & H4 & H5).
  pose proof (loadBlastTable_lines [] (q ++ TAB :: hid) NL h) as E.
  unfold id_lines in E. cbn [map concat app] in E.
  rewrite <- app_assoc in E. cbn [app] in E.
  rewrite E; clear E; [|constructor| |lia].
  2:{ apply Forall_app. split; [exact Q4|].
      constructor; [discriminate|exact H4]. }
  rewrite Hp. cbn [parseLines]. unfold parseBlastTableIDs.
  assert (Hz : Forall (fun c => c <> zero) (hid ++ [NL])).
  { apply Forall_app. split; [exact H3|].
    constructor; [discriminate|constructor]. }
  assert (Ez : cstr (q ++ TAB :: hid ++ [NL]) = q ++ TAB :: hid ++ [NL]).
  { apply cstr_id. apply Forall_app. split; [exact Q3|].
    constructor; [discriminate|exact Hz]. }
  assert (T1 : strtok (q ++ TAB :: hid ++ [NL]) = Some (q, hid ++ [NL]))
    by (apply strtok_word; auto).
  assert (T2 : strtok (hid ++ [NL]) = Some (hid ++ [NL], [])).
  { apply strtok_last; [destruct hid; discriminate|].
    apply Forall_app. split; [exact H2|].
    constructor; [reflexivity|constructor]. }
  rewrite Ez, T1, T2. cbv zeta.
  assert (Eh : idLen (hid ++ [NL]) = Z.of_nat (length hid) + 2).
  { unfold idLen, HITS_ID_LEN in *. rewrite length_app. cbn [length].
    destruct (Z.gtb_spec (Z.of_nat (length hid + 1) + 1) 64); lia. }
  assert (Eq : strncmp_eq q (hid ++ [NL])
                 (Z.to_nat (Z.min (idLen q) (idLen (hid ++ [NL]))))
               = false).
  { unfold strncmp_eq. rewrite !cstr_id by assumption.
    apply not_true_is_false. intros E. apply bytes_eqb_eq in E.
    rewrite Q5, Eh in E.
    assert (Hin : forall n, (length hid < n)%nat ->
                            In NL (firstn n (hid ++ [NL]))).
    { intros n Hn. rewrite firstn_all2 by len_lia.
      apply in_or_app. right. left. reflexivity. }
    assert (Hq' : forall n, ~ In NL (firstn n q)).
    { intros n Hi. apply In_firstn in Hi.
      rewrite Forall_forall in Q4. exact (Q4 _ Hi eq_refl). }
    destruct (Nat.le_gt_cases (length q) (length hid)) as [L|L].
    - apply (f_equal (@length ascii)) in E.
      rewrite !length_firstn, length_app in E. cbn [length] in E. lia.
    - apply (Hq' (Z.to_nat (Z.min (Z.of_nat (length q) + 1)
                                  (Z.of_nat (length hid) + 2)))).
      rewrite E. apply Hin. lia. }
  rewrite Eq. cbn [Z.eqb Pos.eqb negb existsLoop app length repeat].
  rewrite Eh. rewrite firstn_all2 by len_lia. reflexivity.
Qed.

Lemma hit_at_line_end_keeps_newline_witness :
  loadBlastTable (Some (bytes "q1" ++ TAB :: bytes "h1" ++ [NL]))
                 (mkHits [] [] 1 0)
  = Some (0, mkHits [bytes "h1" ++ [NL]] [0] 1 0).
Proof.
  apply (hit_at_line_end_keeps_newline (bytes "q1") (bytes "h1")
                                       (mkHits [] [] 1 0)).
  - repeat constructor; try discriminate; vm_compute; reflexivity.
  - repeat constructor; try discriminate; vm_compute; reflexivity.
  - vm_compute. reflexivity.
  - reflexivity.
Defined.

Lemma parseBlastTableIDs_one_field (pm : Z) (ql hl : list (list ascii))
      (line : list ascii) :
  Forall (fun c => isBlank c = false) line ->
  fst (fst (parseBlastTableIDs pm ql hl line)) = ERROR.
Proof.
  intros Hb. unfold parseBlastTableIDs.
  assert (Hc : Forall (fun c => isBlank c = false) (cstr line)).
  { apply Forall_forall. intros c Hin. rewrite cstr_prefix in Hin.
    apply In_firstn in Hin. rewrite Forall_forall in Hb. apply Hb.
    exact Hin. }
  destruct (cstr line) as [|c s] eqn:E; [reflexivity|].
  rewrite strtok_last by (auto; discriminate). reflexivity.
Qed.

Lemma parseLines_bad (pm : Z) (b : list ascii) (l2 : list (list ascii)) :
  (forall ql hl, fst (fst (parseBlastTableIDs pm ql hl b)) = ERROR) ->
  forall l1 ql hl, fst (fst (parseLines pm (l1 ++ b :: l2) ql hl)) = ERROR.
Proof.
  intros Hb. induction l1 as [|l l1 IH]; intros ql hl;
    cbn [app parseLines].
  - specialize (Hb ql hl).
    destruct (parseBlastTableIDs pm ql hl b) as [[e q1] h1].
    cbn [fst] in Hb. subst e. reflexivity.
  - destruct (parseBlastTableIDs pm ql hl l) as [[e q1] h1].
    destruct (negb (e =? 0)); [reflexivity|apply IH].
Qed.

(** A table that holds a line without blank or tab, an empty line
    among them, does not load: [strtok] finds no hit ID on that
    line. *)
Theorem table_line_of_one_field_fails
        (lns1 lns2 : list (list ascii)) (bad x : list ascii) (c : ascii)
        (h : hits_t) :
  Forall (Forall (fun y => y <> NL)) lns1 ->
  Forall (Forall (fun y => y <> NL)) lns2 ->
  Forall (fun y => y <> NL) x ->
  Forall (fun y => isBlank y = false /\ y <> NL) bad ->
  hpipeMode h <> 0 ->
  loadBlastTable (Some (id_lines (lns1 ++ bad :: lns2) ++ x ++ [c])) h
  = Some (ERROR, h).
Proof.
  intros H1 H2 Hx Hb Hp.
  rewrite loadBlastTable_lines; auto.
  - rewrite map_app. cbn [map]. rewrite <- app_assoc. cbn [app].
    pose proof (parseLines_bad (hpipeMode h) (bad ++ [NL])
                  (map (fun ln => ln ++ [NL]) lns2 ++ [x ++ [c]])) as E.
    specialize (E (fun ql hl =>
                     parseBlastTableIDs_one_field (hpipeMode h) ql hl
                       (bad ++ [NL]) ltac:(
                         apply Forall_app; split;
                         [eapply Forall_impl; [|exact Hb]; cbv beta; tauto
                         |constructor; [reflexivity|constructor]]))
                  (map (fun ln => ln ++ [NL]) lns1) [] []).
    destruct (parseLines _ _ _ _) as [[e q1] h1]. cbn [fst] in E.
    subst e. reflexivity.
  - apply Forall_app. split; [exact H1|].
    constructor; [|exact H2].
    eapply Forall_impl; [|exact Hb]. cbv beta. tauto.
Qed.

Lemma table_line_of_one_field_fails_witness :
  loadBlastTable
    (Some (id_lines ([bytes "q1 h1 x"] ++ [] :: [bytes "q2 h2 y"])
           ++ bytes "q3 h3 " ++ ["z"%char]))
    (mkHits [] [] 1 0)
  = Some (ERROR, mkHits [] [] 1 0).
Proof.
  apply (table_line_of_one_field_fails
           [bytes "q1 h1 x"] [bytes "q2 h2 y"] [] (bytes "q3 h3 ")
           "z"%char (mkHits [] [] 1 0)).
  - repeat constructor; discriminate.
  - repeat constructor; discriminate.
  - repeat constructor; discriminate.
  - constructor.
  - discriminate.
Defined.

Lemma skipDelims_incl (s : list ascii) : incl (skipDelims s) s.
Proof.
  induction s as [|c s IH]; cbn [skipDelims]; [apply incl_refl|].
  destruct (isBlank c); [apply incl_tl; exact IH|apply incl_refl].
Qed.

Lemma token_facts (s : list ascii) :
  Forall (fun c => isBlank c = false) (fst (token s)) /\
  incl (fst (token s)) s /\ incl (snd (token s)) s.
Proof.
  induction s as [|c s (I1 & I2 & I3)]; cbn [token].
  - cbn [fst snd]. repeat split; [constructor|apply incl_refl..].
  - destruct (isBlank c) eqn:E.
    + cbn [fst snd]. repeat split;
        [constructor|intros y []|apply incl_tl, incl_refl].
    + destruct (token s) as [tok r]. cbn [fst snd] in *.
      repeat split.
      * constructor; assumption.
      * intros y [<-|Hy]; [left; reflexivity|right; apply I2; exact Hy].
      * apply incl_tl. exact I3.
Qed.

Lemma strtok_facts (s tok r : list ascii) :
  strtok s = Some (tok, r) ->
  Forall (fun c => isBlank c = false) tok /\ incl tok s /\ incl r s.
Proof.
  unfold strtok. intros H.
  pose proof (skipDelims_incl s) as Hi.
  destruct (skipDelims s) as [|c s'] eqn:E; [discriminate|].
  destruct (token_facts (c :: s')) as (I1 & I2 & I3).
  destruct (token (c :: s')) as [tok' r'] eqn:Et.
  inversion H; subst tok' r'. clear H.
  cbn [fst snd] in *. repeat split; [exact I1| |];
    eapply incl_tran; eauto.
Qed.

Lemma idLen_bound (id : list ascii) :
  0 <= idLen id < HITS_ID_LEN + 1 /\
  Z.of_nat (length (firstn (Z.to_nat (idLen id)) id)) < HITS_ID_LEN.
Proof.
  unfold idLen, HITS_ID_LEN. rewrite length_firstn.
  destruct (Z.gtb_spec (Z.of_nat (length id) + 1) 64); lia.
Qed.

Lemma parseBlastTableIDs_shape (pm : Z) (ql hl : list (list ascii))
      (line : list ascii) :
  table_ids_shape hl ->
  table_ids_shape (snd (parseBlastTableIDs pm ql hl line)).
Proof.
  intros [Hs Hn]. unfold parseBlastTableIDs.
  destruct (strtok (cstr line)) as [[q rest]|] eqn:E1;
    [|split; assumption].
  destruct (strtok rest) as [[hid r]|] eqn:E2; [|split; assumption].
  cbv zeta.
  destruct (pm =? 1); [|destruct (pm =? 2); split; assumption].
  destruct (negb (strncmp_eq q hid _)); [|split; assumption].
  destruct (existsLoop hid hl (idLen hid)) eqn:Ee; [split; assumption|].
  cbn [snd].
  apply strtok_facts in E1. destruct E1 as (_ & _ & R1).
  apply strtok_facts in E2. destruct E2 as (B2 & T2 & _).
  assert (Hz : Forall (fun c => c <> zero) hid).
  { apply Forall_forall. intros c Hc.
    pose proof (cstr_no_nul line) as Z0. rewrite Forall_forall in Z0.
    apply Z0, R1, T2, Hc. }
  destruct (idLen_bound hid) as [Hb1 Hb2].
  split.
  - apply Forall_app. split; [exact Hs|]. constructor; [|constructor].
    split; [exact Hb2|]. apply Forall_forall. intros c Hc.
    apply In_firstn in Hc. rewrite Forall_forall in B2, Hz. auto.
  - apply NoDup_snoc; [exact Hn|]. intros Hin.
    apply existsLoop_false in Ee. rewrite Forall_forall in Ee.
    specialize (Ee _ Hin). unfold strncmp_eq in Ee.
    rewrite (cstr_id hid), (cstr_id (firstn _ hid)) in Ee.
    + rewrite firstn_firstn, Nat.min_id, bytes_eqb_refl in Ee.
      discriminate.
    + apply Forall_forall. intros c Hc. apply In_firstn in Hc.
      rewrite Forall_forall in Hz. auto.
    + exact Hz.
Qed.

Lemma parseLines_shape (pm : Z) (lns : list (list ascii)) :
  forall ql hl, table_ids_shape hl ->
                table_ids_shape (snd (parseLines pm lns ql hl)).
Proof.
  induction lns as [|ln lns IH]; intros ql hl Hs; cbn [parseLines];
    [exact Hs|].
  pose proof (parseBlastTableIDs_shape pm ql hl ln Hs) as H1.
  destruct (parseBlastTableIDs pm ql hl ln) as [[e q1] h1].
  cbn [snd] in H1. destruct (negb (e =? 0)); [exact H1|].
  apply IH. exact H1.
Qed.

(** Whatever the table file holds, the index [loadBlastTable] builds
    has hit IDs of fewer than 64 bytes without blank, tab or NUL, no ID
    twice, and a characteristic vector of as many zeros as IDs. *)
Theorem blast_index_shape (m : list ascii) (h h' : hits_t) :
  hpipeMode h <> 0 ->
  loadBlastTable (Some m) h = Some (0, h') ->
  table_ids_shape (hitList h') /\
  charVect h' = repeat 0 (length (hitList h')) /\
  hpipeMode h' = hpipeMode h /\ hsearchMode h' = hsearchMode h.
Proof.
  intros Hp H.
  destruct (exists_last (l := m)) as (m' & c & ->).
  { intros ->. unfold loadBlastTable in H.
    destruct (Z.eqb_spec (hpipeMode h) 0); [contradiction|].
    cbn in H. discriminate. }
  destruct (split_lines m') as (lns & x & -> & Hl & Hx).
  rewrite <- app_assoc, loadBlastTable_lines in H by assumption.
  pose proof (parseLines_shape (hpipeMode h)
                (map (fun ln => ln ++ [NL]) lns ++ [x ++ [c]]) [] []
                (conj (Forall_nil _) (NoDup_nil _))) as Hs.
  destruct (parseLines _ _ _ _) as [[e q1] h1]. cbn [snd] in Hs.
  destruct (negb (e =? 0)); inversion H; subst h'.
  cbn [hitList charVect hpipeMode hsearchMode]. repeat split; apply Hs.
Qed.

Lemma blast_index_shape_witness :
  table_ids_shape (hitList (mkHits [bytes "h1"] [0] 1 0)) /\
  charVect (mkHits [bytes "h1"] [0] 1 0)
  = repeat 0 (length (hitList (mkHits [bytes "h1"] [0] 1 0))) /\
  hpipeMode (mkHits [bytes "h1"] [0] 1 0) = hpipeMode (mkHits [] [] 1 0) /\
  hsearchMode (mkHits [bytes "h1"] [0] 1 0)
  = hsearchMode (mkHits [] [] 1 0).
Proof.
  apply (blast_index_shape (bytes ("q1 h1 x" ++ nl ++ "q2 h1 y" ++ nl))
                           (mkHits [] [] 1 0) (mkHits [bytes "h1"] [0] 1 0)).
  - discriminate.
  - vm_compute. reflexivity.
Defined.

(* ------------------------------------------------------------------ *)
(** ** adjustMapBegin, adjustMapEnd *)

Lemma beginLoop_first (m : list ascii) (fin : nat) :
  forall fuel c r, beginLoop m fin fuel c = Some r ->
    forall k, (c <= k < r)%nat -> deref m k <> GT.
Proof.
  induction fuel as [|fuel IH]; intros c r H k Hk; cbn [beginLoop] in H;
    [discriminate|].
  destruct (Nat.eqb_spec c fin); [discriminate|].
  destruct (Ascii.eqb (deref m c) EOFCH); [discriminate|].
  destruct (Ascii.eqb_spec (deref m c) GT) as [E|E].
  - inversion H; subst. lia.
  - destruct (Nat.eq_dec k c) as [->|Hne]; [exact E|].
    apply (IH _ _ H). lia.
Qed.

Lemma endLoop_last (m : list ascii) :
  forall c r, endLoop m c = Some r ->
    forall k, (r < k <= c)%nat -> deref m k <> GT.
Proof.
  induction c as [|c IH]; intros r H k Hk; cbn [endLoop] in H;
    [discriminate|].
  destruct (Ascii.eqb (deref m (S c)) EOFCH); [discriminate|].
  destruct (Ascii.eqb_spec (deref m (S c)) GT) as [E|E].
  - inversion H; subst. lia.
  - destruct (Nat.eq_dec k (S c)) as [->|Hne]; [exact E|].
    apply (IH _ H). lia.
Qed.

(** [adjustMapEnd] cuts the chunk at its last [>]: the bytes up to the
    new end pointer followed by the carry buffer are the chunk, the
    buffer begins with that [>] and holds no other, and at least one
    byte is left before it.  No byte is lost or copied twice. *)
Theorem adjustMapEnd_splits_at_last_gt
        (m : list ascii) (fin fin' : nat) (buf : list ascii) :
  (fin < length m)%nat ->
  adjustMapEnd m fin = Some (fin', buf) ->
  firstn (S fin') m ++ buf = firstn (S fin) m /\
  (fin' < fin)%nat /\ length buf = (fin - fin')%nat /\
  deref buf 0 = GT /\
  forall k, (0 < k)%nat -> deref buf k <> GT.
Proof.
  intros Hfin H. unfold adjustMapEnd in H.
  destruct (endLoop m fin) as [c|] eqn:E; [|discriminate].
  pose proof (endLoop_last m fin c E) as Hlast.
  apply endLoop_some in E. destruct E as [Hc Hg].
  inversion H; subst fin' buf; clear H.
  replace (S (fin - (fin - c + 1))) with c by lia.
  replace (fin - c + 1)%nat with (S fin - c)%nat by lia.
  assert (Hb : slice m c (S fin - c) = skipn c (firstn (S fin) m)).
  { unfold slice. rewrite skipn_firstn_comm. reflexivity. }
  rewrite Hb. split; [|split; [lia|split; [|split]]].
  - rewrite <- (firstn_skipn c (firstn (S fin) m)) at 2.
    f_equal. rewrite firstn_firstn. f_equal. lia.
  - rewrite length_skipn, length_firstn. lia.
  - unfold deref in *. rewrite nth_skipn, nth_firstn.
    destruct (Nat.ltb_spec (c + 0) (S fin)); [|lia].
    rewrite Nat.add_0_r. exact Hg.
  - intros k Hk. unfold deref in *. rewrite nth_skipn, nth_firstn.
    destruct (Nat.ltb_spec (c + k) (S fin)) as [L|L].
    + apply Hlast. lia.
    + discriminate.
Qed.

Lemma adjustMapEnd_splits_at_last_gt_witness :
  firstn (S 14) fasta_two ++ bytes ">r2|b" = firstn (S 19) fasta_two /\
  (14 < 19)%nat /\ length (bytes ">r2|b") = (19 - 14)%nat /\
  deref (bytes ">r2|b") 0 = GT /\
  forall k, (0 < k)%nat -> deref (bytes ">r2|b") k <> GT.
Proof.
  apply (adjustMapEnd_splits_at_last_gt fasta_two 19 14 (bytes ">r2|b")).
  - vm_compute. lia.
  - vm_compute. reflexivity.
Defined.

(** [adjustMapBegin] moves the bytes before the first [>] of the chunk
    to the end of the carry buffer: buffer and chunk together hold the
    same bytes as before, the chunk now begins with a [>], and none was
    among the bytes moved. *)
Theorem adjustMapBegin_moves_head_to_buffer
        (m : list ascii) (fin : nat) (buf : list ascii)
        (off : nat) (m' : list ascii) (fin' : nat) (buf' : list ascii) :
  adjustMapBegin m fin buf = Some (off, m', fin', buf') ->
  buf' ++ m' = buf ++ m /\
  buf' = buf ++ firstn off m /\
  (off < fin)%nat /\ fin' = (fin - off)%nat /\
  deref m' 0 = GT /\
  Forall (fun c => c <> GT) (firstn off m).
Proof.
  intros H. unfold adjustMapBegin in H.
  destruct (beginLoop m fin (S fin) 0) as [r|] eqn:E; [|discriminate].
  pose proof (beginLoop_first m fin _ _ _ E) as Hfirst.
  apply beginLoop_some in E; [|lia]. destruct E as [Hr Hg].
  assert (Hres : off = r /\ m' = skipn r m /\ fin' = (fin - r)%nat /\
                 buf' = buf ++ firstn r m).
  { destruct (Nat.ltb_spec 0 r); inversion H; subst.
    - unfold slice. cbn [skipn]. repeat split; reflexivity.
    - assert (off = 0)%nat as -> by lia. cbn [skipn firstn].
      rewrite Nat.sub_0_r, app_nil_r. repeat split; reflexivity. }
  destruct Hres as (-> & -> & -> & ->).
  split; [rewrite <- app_assoc, firstn_skipn; reflexivity|].
  split; [reflexivity|]. split; [lia|]. split; [reflexivity|]. split.
  - unfold deref in *. rewrite nth_skipn, Nat.add_0_r. exact Hg.
  - apply Forall_forall. intros c Hc.
    destruct (In_nth _ _ zero Hc) as (k & Hk & <-).
    rewrite length_firstn in Hk. rewrite nth_firstn.
    destruct (Nat.ltb_spec k r); [|lia]. apply Hfirst. lia.
Qed.

Lemma adjustMapBegin_moves_head_to_buffer_witness :
  (firstn 10 fasta_two ++ firstn 5 (skipn 10 fasta_two))
    ++ skipn 5 (skipn 10 fasta_two)
  = firstn 10 fasta_two ++ skipn 10 fasta_two /\
  firstn 10 fasta_two ++ firstn 5 (skipn 10 fasta_two)
  = firstn 10 fasta_two ++ firstn 5 (skipn 10 fasta_two) /\
  (5 < 21)%nat /\ 16%nat = (21 - 5)%nat /\
  deref (skipn 5 (skipn 10 fasta_two)) 0 = GT /\
  Forall (fun c => c <> GT) (firstn 5 (skipn 10 fasta_two)).
Proof.
  apply (adjustMapBegin_moves_head_to_buffer
           (skipn 10 fasta_two) 21 (firstn 10 fasta_two) 5
           (skipn 5 (skipn 10 fasta_two)) 16
           (firstn 10 fasta_two ++ firstn 5 (skipn 10 fasta_two))).
  vm_compute. reflexivity.
Defined.

(* ------------------------------------------------------------------ *)
(** ** The output of a scan in lookup mode *)

Lemma after_soh_spec (s t : list ascii) :
  In t (after_soh s) <-> exists h1, s = h1 ++ SOH :: t.
Proof.
  induction s as [|c s IH]; cbn [after_soh].
  - split; [intros []|]. intros [h1 H]. destruct h1; discriminate.
  - destruct (Ascii.eqb_spec c SOH) as [->|Hc].
    + cbn [In]. rewrite IH. split.
      * intros [<-|[h1 ->]]; [exists []; reflexivity|].
        exists (SOH :: h1). reflexivity.
      * intros [[|y h1] H]; inversion H; subst; [left; reflexivity|].
        right. exists h1. reflexivity.
    + rewrite IH. split.
      * intros [h1 ->]. exists (c :: h1). reflexivity.
      * intros [[|y h1] H]; inversion H; subst; [contradiction|].
        exists h1. reflexivity.
Qed.

(** A hit ID without newline compared with the record from a byte of
    its header on: the comparison stays within the header. *)
Lemma strncmp0_header (hit hdr b : list ascii) (j : nat) :
  Forall (fun y => y <> NL) hit -> (j <= length hdr)%nat ->
  strncmp0 hit (rec_bytes (hdr, b)) (S j)
  = bytes_eqb hit (firstn (length hit) (skipn j hdr)).
Proof.
  intros Hh Hj. destruct (rec_bytes_split hdr b j Hj) as [Hs Hl].
  apply eq_iff_eq_true. unfold strncmp0, slice. rewrite !prefix_eqb.
  replace (skipn (S j) (rec_bytes (hdr, b)))
    with (skipn j hdr ++ NL :: (b ++ [NL])).
  - apply prefix_stop. exact Hh.
  - rewrite Hs at 1. rewrite <- Hl, skipn_app, skipn_all, Nat.sub_diag.
    reflexivity.
Qed.

Lemma skipn_nth (l : list ascii) :
  forall k, (k < length l)%nat -> skipn k l = nth k l zero :: skipn (S k) l.
Proof.
  induction l as [|c l IH]; intros k Hk; [cbn in Hk; lia|].
  destruct k as [|k]; [reflexivity|].
  cbn [skipn nth]. apply IH. cbn [length] in Hk. lia.
Qed.

Lemma hitLoop_looked_up (a : args_t) (hl : list (list ascii)) (i : nat)
      (hdr b : list ascii) (cv : list Z) :
  Forall (fun hit => Forall (fun y => y <> NL) hit) hl ->
  (snd (hitLoop a hl i (rec_bytes (hdr, b)) (rec_query 0 hdr b) cv) = 1 <->
   looked_up hl (hdr, b) = true).
Proof.
  intros Hhl. rewrite hitLoop_select by (cbn [rec_query iaq faq]; lia).
  cbn [rec_query iaq faq]. unfold looked_up. cbn [fst].
  rewrite existsb_exists. rewrite Forall_forall in Hhl.
  split.
  - intros (hit & Hin & H). exists hit. split; [exact Hin|].
    apply existsb_exists. destruct H as [H|(paq & Hp & Hd & H)].
    + exists hdr. split; [left; reflexivity|].
      rewrite strncmp0_header in H by (auto; lia). exact H.
    + assert (Hp' : (paq <= length hdr)%nat).
      { destruct (Nat.eq_dec paq (length hdr + 1)) as [->|]; [|lia].
        cbn [Nat.add] in Hd. rewrite rec_bytes_faq in Hd. discriminate. }
      exists (skipn paq hdr). split.
      * right. apply after_soh_spec. exists (firstn (paq - 1) hdr).
        unfold rec_bytes, deref in Hd. cbn [fst snd] in Hd.
        destruct paq as [|k]; [lia|]. cbn [nth] in Hd.
        rewrite app_nth1 in Hd by lia.
        replace (S k - 1)%nat with k by lia.
        rewrite <- Hd.
        rewrite <- (firstn_skipn k hdr) at 1. f_equal.
        apply skipn_nth. lia.
      * rewrite strncmp0_header in H by auto. exact H.
  - intros (hit & Hin & H). exists hit. split; [exact Hin|].
    apply existsb_exists in H. destruct H as (t & [<-|Ht] & H).
    + left. rewrite strncmp0_header by (auto; lia). exact H.
    + right. apply after_soh_spec in Ht. destruct Ht as [h1 ->].
      exists (S (length h1)). split; [len_lia|]. split.
      * unfold rec_bytes, deref. cbn [fst snd nth].
        rewrite <- app_assoc. cbn [app]. apply (deref_mid h1).
      * rewrite strncmp0_header by (auto; len_lia).
        replace (skipn (S (length h1)) (h1 ++ SOH :: t)) with t; [exact H|].
        rewrite skipn_app, skipn_all2 by lia.
        replace (S (length h1) - length h1)%nat with 1%nat by lia.
        reflexivity.
Qed.

(** One hit ID matches a record when it is found in the header. *)
Lemma hitLoop_one (a : args_t) (hit : list ascii) (i : nat)
      (hdr b : list ascii) (cv : list Z) :
  Forall (fun y => y <> NL) hit ->
  (snd (hitLoop a [hit] i (rec_bytes (hdr, b)) (rec_query 0 hdr b) cv) = 1 <->
   hit_in_header hdr hit = true).
Proof.
  intros Hnl. rewrite hitLoop_looked_up by (constructor; auto).
  unfold looked_up, hit_in_header. cbn [existsb fst].
  rewrite orb_false_r. reflexivity.
Qed.

(** On a record, the loop over the hit IDs sets the entry of the first
    hit ID found in the header, and no other. *)
Lemma hitLoop_first (a : args_t) (hl : list (list ascii)) (i : nat)
      (hdr b : list ascii) (cv : list Z) :
  Forall (fun hit => Forall (fun y => y <> NL) hit) hl ->
  let r := hitLoop a hl i (rec_bytes (hdr, b)) (rec_query 0 hdr b) cv in
  match first_index (hit_in_header hdr) hl with
  | None => snd r = 0 /\ snd (fst r) = cv
  | Some k => snd r = 1 /\ snd (fst r) = setZ cv (i + k) 1
  end.
Proof.
  revert i; induction hl as [|hit rest IH]; intros i Hnl; [cbn; auto|].
  inversion Hnl as [|? ? Hh Hr]; subst.
  pose proof (hitLoop_one a hit i hdr b cv Hh) as Hiff.
  cbn [first_index]. cbn [hitLoop] in Hiff |- *.
  destruct (strncmp0 hit (rec_bytes (hdr, b)) (S (iaq (rec_query 0 hdr b)))).
  - cbn [snd fst] in Hiff |- *. rewrite (proj1 Hiff eq_refl).
    split; [reflexivity | f_equal; lia].
  - destruct (altLoop hit (rec_bytes (hdr, b)) (faq (rec_query 0 hdr b))
                      (faq (rec_query 0 hdr b) - iaq (rec_query 0 hdr b))
                      (iaq (rec_query 0 hdr b))).
    + destruct (negb (annotCnt a =? 0)); cbn [snd fst] in Hiff |- *;
        rewrite (proj1 Hiff eq_refl); (split; [reflexivity | f_equal; lia]).
    + cbn [snd] in Hiff.
      destruct (hit_in_header hdr hit);
        [destruct Hiff as [_ Hiff]; specialize (Hiff eq_refl); discriminate|].
      specialize (IH (S i) Hr). cbn zeta in IH.
      destruct (first_index (hit_in_header hdr) rest) as [k|];
        cbn [option_map]; [|exact IH].
      replace (i + S k)%nat with (S i + k)%nat by lia. exact IH.
Qed.

(** One record in lookup mode, the rewriting of alternative headers
    left out: it is written when a hit ID is looked up in its
    header. *)
Lemma extractBody_lookup (a : args_t) (hdr b : list ascii) (st : scan_t) :
  wf_rec (hdr, b) -> lookupMode (hits st) = true ->
  Forall (fun hit => Forall (fun y => y <> NL) hit) (hitList (hits st)) ->
  annotCnt a = 0 \/ Forall (fun c => c <> SOH) hdr ->
  bytesWritten st + Z.of_nat (length (rec_bytes (hdr, b))) <= bytesLimit a ->
  exists s',
    fst (extractBody a (length (rec_bytes (hdr, b)) - 1)
                     (with_region st (rec_bytes (hdr, b)))) = s' /\
    same_index (hits st) (hits s') /\ done s' = done st /\
    if looked_up (hitList (hits st)) (hdr, b)
    then ofd s' = ofd st ++ written a (hdr, b) /\
         xCnt s' = xCnt st + 1 /\
         bytesWritten s'
         = bytesWritten st + Z.of_nat (length (written a (hdr, b)))
    else ofd s' = ofd st /\ xCnt s' = xCnt st /\
         bytesWritten s' = bytesWritten st.
Proof.
  intros Hwf Hlm Hnl Hnr Hbw. pose proof (rec_bytes_length hdr b) as Hl.
  destruct (parse_ctx (length (rec_bytes (hdr, b)) - 1) [] [] hdr b []
                      start_query eq_refl (Forall_nil _) Hwf)
    as (q1 & Ea & Hsz & Es).
  { left. cbn [app length]. lia. }
  cbn [app length] in Ea, Es. rewrite app_nil_r in Ea, Es.
  unfold extractBody, with_region. cbn [mem query hits].
  rewrite Ea, Es. unfold selectQuery. rewrite Hlm.
  cbn [xCnt ofd bytesWritten done].
  destruct (hitLoop_ctx a (hitList (hits st)) 0 [] hdr b []
                        (charVect (hits st)) Hnl Hnr)
    as (cv' & sel & _ & Eh).
  rewrite Eh.
  pose proof (hitLoop_looked_up a (hitList (hits st)) 0 hdr b
                (charVect (hits st)) Hnl) as Hiff.
  pose proof (hitLoop_marks a (hitList (hits st)) 0 (rec_bytes (hdr, b))
                (rec_query 0 hdr b) (charVect (hits st))) as Hm.
  rewrite Eh in Hiff, Hm. cbn [fst snd] in Hiff, Hm.
  assert (Hsi : same_index (hits st) (set_charVect (hits st) cv')).
  { unfold same_index, set_charVect. cbn [hitList hpipeMode hsearchMode
                                            charVect].
    repeat split.
    destruct Hm as [[_ ->]|(_ & i & hit & _ & ->)];
      [reflexivity|apply setZ_length]. }
  destruct (looked_up (hitList (hits st)) (hdr, b)) eqn:El.
  - rewrite (proj2 Hiff eq_refl). cbn [Z.eqb Pos.eqb].
    rewrite Hsz. cbn [rec_query fsq isq].
    replace (Z.of_nat (0 + (length hdr + length b + 2))
             - Z.of_nat (0 + (length hdr + 2)) + 1)
      with (Z.of_nat (length b) + 1) by lia.
    pose proof (writeQuery_record a hdr b (set_charVect (hits st) cv')
                  (xCnt st) (ofd st) (bytesWritten st) (done st) Hbw) as Hw.
    cbn [rec_query] in Hw. rewrite Hw. eexists. split; [reflexivity|].
    cbn [fst hits done ofd xCnt bytesWritten]. repeat split; auto; apply Hsi.
  - destruct Hm as [[-> _]|[Hs1 _]].
    + cbn [Z.eqb]. eexists. split; [reflexivity|].
      cbn [fst hits done ofd xCnt bytesWritten].
      repeat split; auto; apply Hsi.
    + apply Hiff in Hs1. discriminate.
Qed.

(* ------------------------------------------------------------------ *)
(** ** The byte limit and the record ceiling (C3) *)





(** The record-by-record scan in lookup mode writes the records looked
    up, up to the quotas of a run of one process. *)
Lemma scanRecords_lookup (a : args_t) (h0 : hits_t) (procCnt : Z)
      (recs : list record_t) :
  forall st,
    Forall wf_rec recs -> same_index h0 (hits st) ->
    lookupMode h0 = true ->
    Forall (fun hit => Forall (fun y => y <> NL) hit) (hitList h0) ->
    no_rewrite a recs ->
    bytesWritten st + Z.of_nat (length (recs_bytes recs)) <= bytesLimit a ->
    (procCnt = 1 -> xCnt st <= Z.min (seqCnt a) (htotal h0)) ->
    ofd (scanRecords a procCnt recs st)
    = ofd st ++
      concat (map (written a)
                  (if procCnt =? 1
                   then firstn (Z.to_nat (Z.min (seqCnt a) (htotal h0)
                                          - xCnt st))
                               (filter (looked_up (hitList h0)) recs)
                   else filter (looked_up (hitList h0)) recs)).
Proof.
  induction recs as [|[hdr b] rs IH];
    intros st Hwf Hsi Hlm Hnl Hnr Hbw Hx;
    destruct (lookupMode_same _ _ Hsi) as [L1 L2];
    assert (Hht : htotal (hits st) = htotal h0)
      by (unfold htotal; destruct Hsi as (-> & _); reflexivity);
    cbn [scanRecords filter]; unfold quota_reached;
    rewrite L1, Hlm, Hht; cbn [andb].
  - rewrite firstn_nil.
    destruct ((procCnt =? 1) && _);
      destruct (procCnt =? 1); cbn [map concat set_done ofd];
      rewrite app_nil_r; reflexivity.
  - inversion Hwf as [|? ? Hr Hrs]; subst.
    rewrite recs_bytes_cons, length_app in Hbw.
    pose proof (written_length a (hdr, b)) as Hw.
    assert (Hnr1 : annotCnt a = 0 \/ Forall (fun c => c <> SOH) hdr).
    { destruct Hnr as [H|H]; [left; exact H|right].
      inversion H; assumption. }
    assert (Hnr2 : no_rewrite a rs).
    { destruct Hnr as [H|H]; [left; exact H|right].
      inversion H; assumption. }
    assert (Hhl : hitList (hits st) = hitList h0) by apply Hsi.
    destruct (extractBody_lookup a hdr b st Hr) as (s1 & E1 & S1 & D1 & O1);
      auto; try lia.
    { rewrite L1. exact Hlm. }
    { rewrite Hhl. exact Hnl. }
    rewrite Hhl in O1.
    assert (Hsi1 : same_index h0 (hits s1))
      by (eapply same_index_trans; eauto).
    destruct (Z.eqb_spec procCnt 1) as [Hp|Hp]; cbn [andb].
    + specialize (Hx Hp).
      destruct ((xCnt st =? seqCnt a) || (xCnt st =? htotal h0)) eqn:Eq.
      * assert (E : xCnt st = Z.min (seqCnt a) (htotal h0)).
        { apply orb_true_iff in Eq. destruct Eq as [E|E];
            apply Z.eqb_eq in E; lia. }
        rewrite E, Z.sub_diag.
        cbn [Z.to_nat firstn map concat set_done ofd].
        rewrite app_nil_r. reflexivity.
      * apply orb_false_iff in Eq. destruct Eq as [E1' E2'].
        apply Z.eqb_neq in E1', E2'.
        rewrite E1.
        destruct (looked_up (hitList h0) (hdr, b)) eqn:El.
        -- destruct O1 as (Oo & Ox & Ob).
           rewrite IH; auto; try lia.
           destruct (Z.eqb_spec procCnt 1); [|contradiction].
           rewrite Oo, Ox.
           replace (Z.to_nat (Z.min (seqCnt a) (htotal h0) - xCnt st))
             with (S (Z.to_nat (Z.min (seqCnt a) (htotal h0)
                                - (xCnt st + 1)))) by lia.
           cbn [firstn map concat]. rewrite <- app_assoc. reflexivity.
        -- destruct O1 as (Oo & Ox & Ob).
           rewrite IH; auto; try lia.
           destruct (Z.eqb_spec procCnt 1); [|contradiction].
           rewrite Oo, Ox. reflexivity.
    + rewrite E1.
      destruct (looked_up (hitList h0) (hdr, b)) eqn:El;
        destruct O1 as (Oo & Ox & Ob);
        rewrite IH; auto; try lia;
        (destruct (Z.eqb_spec procCnt 1); [contradiction|]);
        rewrite Oo; [|reflexivity].
      cbn [map concat]. rewrite <- app_assoc. reflexivity.
Qed.

Lemma first_index_existsb {A : Type} (f : A -> bool) (l : list A) :
  first_index f l = None <-> existsb f l = false.
Proof.
  induction l as [|x l IH]; cbn [first_index existsb]; [tauto|].
  destruct (f x); cbn [orb]; [split; discriminate|].
  destruct (first_index f l); cbn [option_map];
    [split; [discriminate|]|tauto].
  intros H. apply IH in H. discriminate.
Qed.

Lemma mark_not_looked_up (hl : list (list ascii)) (cv : list Z)
      (r : record_t) :
  looked_up hl r = false -> mark hl cv r = cv.
Proof.
  intros H. unfold mark.
  replace (first_index (hit_in_header (fst r)) hl) with (@None nat);
    [reflexivity|].
  symmetry. apply first_index_existsb. exact H.
Qed.

(** One record in lookup mode, the rewriting of alternative headers
    left out: the vector is marked at the first hit ID found in the
    header, whether the record fits the byte limit or not. *)
Lemma extractBody_marks (a : args_t) (hdr b : list ascii) (st : scan_t) :
  wf_rec (hdr, b) -> lookupMode (hits st) = true ->
  Forall (fun hit => Forall (fun y => y <> NL) hit) (hitList (hits st)) ->
  annotCnt a = 0 \/ Forall (fun c => c <> SOH) hdr ->
  charVect (hits (fst (extractBody a (length (rec_bytes (hdr, b)) - 1)
                         (with_region st (rec_bytes (hdr, b))))))
  = mark (hitList (hits st)) (charVect (hits st)) (hdr, b).
Proof.
  intros Hwf Hlm Hnl Hnr. pose proof (rec_bytes_length hdr b) as Hl.
  destruct (parse_ctx (length (rec_bytes (hdr, b)) - 1) [] [] hdr b []
                      start_query eq_refl (Forall_nil _) Hwf)
    as (q1 & Ea & Hsz & Es).
  { left. cbn [app length]. lia. }
  cbn [app length] in Ea, Es. rewrite app_nil_r in Ea, Es.
  assert (Hraw : Z.of_nat (fsq (rec_query 0 hdr b))
                 - Z.of_nat (isq (rec_query 0 hdr b)) + 1
                 = Z.of_nat (length b) + 1)
    by (cbn [rec_query fsq isq]; lia).
  unfold extractBody, with_region. cbn [mem query hits].
  rewrite Ea, Es. unfold selectQuery. rewrite Hlm.
  cbn [xCnt ofd bytesWritten done].
  destruct (hitLoop_ctx a (hitList (hits st)) 0 [] hdr b []
                        (charVect (hits st)) Hnl Hnr)
    as (cv' & sel & _ & Eh).
  rewrite Eh.
  pose proof (hitLoop_first a (hitList (hits st)) 0 hdr b
                (charVect (hits st)) Hnl) as Hf.
  cbn zeta in Hf. rewrite Eh in Hf. cbn [fst snd] in Hf.
  unfold mark. cbn [fst].
  destruct (first_index (hit_in_header hdr) (hitList (hits st))) as [k|];
    destruct Hf as [-> ->]; cbn [Z.eqb Pos.eqb Nat.add].
  - rewrite Hsz, Hraw, writeQuery_guard.
    destruct (Z.of_nat (length (written a (hdr, b))) + bytesWritten st
              >? bytesLimit a);
      reflexivity.
  - reflexivity.
Qed.

(** The record-by-record scan in lookup mode marks the vector at the
    records it keeps. *)
Lemma scanRecords_marks (a : args_t) (h0 : hits_t) (procCnt : Z)
      (recs : list record_t) :
  forall st,
    Forall wf_rec recs -> same_index h0 (hits st) ->
    lookupMode h0 = true ->
    Forall (fun hit => Forall (fun y => y <> NL) hit) (hitList h0) ->
    no_rewrite a recs ->
    bytesWritten st + Z.of_nat (length (recs_bytes recs)) <= bytesLimit a ->
    (procCnt = 1 -> xCnt st <= Z.min (seqCnt a) (htotal h0)) ->
    charVect (hits (scanRecords a procCnt recs st))
    = fold_left (mark (hitList h0))
                (if procCnt =? 1
                 then firstn (Z.to_nat (Z.min (seqCnt a) (htotal h0)
                                        - xCnt st))
                             (filter (looked_up (hitList h0)) recs)
                 else filter (looked_up (hitList h0)) recs)
                (charVect (hits st)).
Proof.
  induction recs as [|[hdr b] rs IH];
    intros st Hwf Hsi Hlm Hnl Hnr Hbw Hx;
    destruct (lookupMode_same _ _ Hsi) as [L1 L2];
    assert (Hht : htotal (hits st) = htotal h0)
      by (unfold htotal; destruct Hsi as (-> & _); reflexivity);
    cbn [scanRecords filter]; unfold quota_reached;
    rewrite L1, Hlm, Hht; cbn [andb].
  - rewrite firstn_nil.
    destruct ((procCnt =? 1) && _);
      destruct (procCnt =? 1); reflexivity.
  - inversion Hwf as [|? ? Hr Hrs]; subst.
    rewrite recs_bytes_cons, length_app in Hbw.
    pose proof (written_length a (hdr, b)) as Hw.
    assert (Hnr1 : annotCnt a = 0 \/ Forall (fun c => c <> SOH) hdr).
    { destruct Hnr as [H|H]; [left; exact H|right].
      inversion H; assumption. }
    assert (Hnr2 : no_rewrite a rs).
    { destruct Hnr as [H|H]; [left; exact H|right].
      inversion H; assumption. }
    assert (Hhl : hitList (hits st) = hitList h0) by apply Hsi.
    assert (Hlm' : lookupMode (hits st) = true) by (rewrite L1; exact Hlm).
    assert (Hnl' : Forall (fun hit => Forall (fun y => y <> NL) hit)
                          (hitList (hits st)))
      by (rewrite Hhl; exact Hnl).
    pose proof (extractBody_marks a hdr b st Hr Hlm' Hnl' Hnr1) as M1.
    rewrite Hhl in M1.
    destruct (extractBody_lookup a hdr b st Hr) as (s1 & E1 & S1 & D1 & O1);
      auto; try lia.
    rewrite Hhl in O1. rewrite E1 in M1.
    assert (Hsi1 : same_index h0 (hits s1))
      by (eapply same_index_trans; eauto).
    destruct (Z.eqb_spec procCnt 1) as [Hp|Hp]; cbn [andb].
    + specialize (Hx Hp).
      destruct ((xCnt st =? seqCnt a) || (xCnt st =? htotal h0)) eqn:Eq.
      * assert (E : xCnt st = Z.min (seqCnt a) (htotal h0)).
        { apply orb_true_iff in Eq. destruct Eq as [E|E];
            apply Z.eqb_eq in E; lia. }
        rewrite E, Z.sub_diag. reflexivity.
      * apply orb_false_iff in Eq. destruct Eq as [E1' E2'].
        apply Z.eqb_neq in E1', E2'.
        rewrite E1.
        destruct (looked_up (hitList h0) (hdr, b)) eqn:El.
        -- destruct O1 as (Oo & Ox & Ob).
           rewrite IH; auto; try lia.
           destruct (Z.eqb_spec procCnt 1); [|contradiction].
           rewrite Ox, M1.
           replace (Z.to_nat (Z.min (seqCnt a) (htotal h0) - xCnt st))
             with (S (Z.to_nat (Z.min (seqCnt a) (htotal h0)
                                - (xCnt st + 1)))) by lia.
           reflexivity.
        -- destruct O1 as (Oo & Ox & Ob).
           rewrite IH; auto; try lia.
           destruct (Z.eqb_spec procCnt 1); [|contradiction].
           rewrite Ox, M1, mark_not_looked_up by exact El. reflexivity.
    + rewrite E1.
      destruct (looked_up (hitList h0) (hdr, b)) eqn:El;
        destruct O1 as (Oo & Ox & Ob);
        rewrite IH; auto; try lia;
        (destruct (Z.eqb_spec procCnt 1); [contradiction|]);
        rewrite M1; [reflexivity|].
      rewrite mark_not_looked_up by exact El. reflexivity.
Qed.

(** The vector a worker leaves in lookup mode: the vector it started
    from, marked at the records the worker keeps. *)
Lemma partScan_marks (a : args_t) (h : hits_t) (procCnt : Z)
      (file : list ascii) (po sk len W : Z) (recs : list record_t)
      (st : scan_t) :
  Forall wf_rec recs -> lookupMode h = true ->
  Forall (fun hit => Forall (fun y => y <> NL) hit) (hitList h) ->
  no_rewrite a recs ->
  Z.of_nat (length (recs_bytes recs)) <= bytesLimit a ->
  0 <= seqCnt a ->
  0 < W -> 0 <= po -> 0 <= sk ->
  partition_bytes file (po, sk, len) = recs_bytes recs ->
  len = Z.of_nat (length (recs_bytes recs)) ->
  partScan a h procCnt file (po, sk, len) W = Some (st, 0) ->
  charVect (hits st)
  = fold_left (mark (hitList h)) (kept_lookup a h procCnt recs) (charVect h).
Proof.
  intros Hwf Hlm Hnl Hnr Hbl Hc HW Hpo Hsk Hpart Hlen H.
  rewrite (partScan_hits a h procCnt file po sk len W recs st); auto.
  rewrite (scanRecords_marks a h); auto using same_index_refl;
    cbn [init_scan ofd xCnt app bytesWritten hits charVect]; try lia.
  - unfold kept_lookup. rewrite Z.sub_0_r. reflexivity.
  - intros _. unfold htotal. lia.
Qed.

(** C4 (amended).  The entry of hit ID [i] is a found flag, not a
    count.  For hit IDs that hold no newline, the loop over the hit IDs
    run on a record sets to 1 the entry of the first hit ID that is a
    prefix of the record's header or of what follows an SOH of the
    header, changes no other entry, and changes nothing when there is
    no such hit ID.  The vector a worker leaves when the chunk loop of
    its scan ends with [err = 0] is the zero vector marked in this way
    at every record the worker keeps (for a partition of well-formed
    records, no rewriting of alternative headers, a byte limit not
    below the size of the partition and a record ceiling that is not
    negative).  The vector of every worker holds only 0 and 1; so the
    element-wise sum over the workers holds, for every hit ID, a number
    between 0 and the number of workers. *)
Theorem C4_seen_count_is_found_flag (a : args_t) (h : hits_t)
        (procCnt : Z) (file : list ascii) (msz : Z) (plan : list offs_t) :
  charVect h = repeat 0 (length (hitList h)) ->
  Forall (fun hit => Forall (fun y => y <> NL) hit) (hitList h) ->
  let vs := map (worker_vect a h procCnt file msz) plan in
  (forall hdr b cv,
      let r := hitLoop a (hitList h) 0 (rec_bytes (hdr, b))
                       (rec_query 0 hdr b) cv in
      match first_index (hit_in_header hdr) (hitList h) with
      | None => snd r = 0 /\ snd (fst r) = cv
      | Some i => snd r = 1 /\ snd (fst r) = setZ cv i 1
      end) /\
  (forall po sk len recs st,
      Forall wf_rec recs -> lookupMode h = true -> no_rewrite a recs ->
      Z.of_nat (length (recs_bytes recs)) <= bytesLimit a ->
      0 <= seqCnt a -> 0 < msz -> 0 <= po -> 0 <= sk ->
      partition_bytes file (po, sk, len) = recs_bytes recs ->
      len = Z.of_nat (length (recs_bytes recs)) ->
      partScan a h procCnt file (po, sk, len) msz = Some (st, 0) ->
      worker_vect a h procCnt file msz (po, sk, len)
      = fold_left (mark (hitList h)) (kept_lookup a h procCnt recs)
                  (repeat 0 (length (hitList h)))) /\
  Forall flags vs /\
  Forall (fun x => 0 <= x <= Z.of_nat (length plan))
         (MPI_Reduce_sum (length (hitList h)) vs).
Proof.
  intros Hz Hnl vs. split; [|split; [|split]].
  - intros hdr b cv. apply (hitLoop_first a (hitList h) 0 hdr b cv Hnl).
  - intros po sk len recs st Hwf Hlm Hnr Hbl Hc HW Hpo Hsk Hpart Hlen E.
    unfold worker_vect. rewrite E, <- Hz.
    apply (partScan_marks a h procCnt file po sk len msz recs st);
      assumption.
  - subst vs. apply Forall_forall. intros v Hv.
    apply in_map_iff in Hv as (fo & <- & _).
    apply worker_vect_flags. rewrite Hz. apply flags_repeat_zero.
  - unfold MPI_Reduce_sum.
    replace (length plan) with (length vs) by (subst vs; apply length_map).
    apply (reduce_bounds vs 0 0).
    + subst vs. apply Forall_forall. intros v Hv.
      apply in_map_iff in Hv as (fo & <- & _).
      apply worker_vect_flags. rewrite Hz. apply flags_repeat_zero.
    + apply repeat_zero_bounds.
Qed.

(** The amended statement for the run of one process over two records
    that carry the ID [h1], with the plan [setOffs] returns for it. *)
Lemma C4_seen_count_is_found_flag_witness :
  setOffs fasta_h1_twice 18 4096 (zero_heap 4096) 1
  = Some (1%nat, [whole fasta_h1_twice]) /\
  worker_vect args_pipe hits_h1_h2 1 fasta_h1_twice IMAP_LIMIT (0, 0, 18)
  = fold_left (mark (hitList hits_h1_h2))
              (kept_lookup args_pipe hits_h1_h2 1
                 [(bytes "h1|a", bytes "AC"); (bytes "h1|b", bytes "GT")])
              (repeat 0 (length (hitList hits_h1_h2))) /\
  Forall (fun x => 0 <= x <= 1)
         (MPI_Reduce_sum 2
            (map (worker_vect args_pipe hits_h1_h2 1 fasta_h1_twice
                              IMAP_LIMIT)
                 [whole fasta_h1_twice])).
Proof.
  split; [reflexivity|].
  assert (H0 : charVect hits_h1_h2 = repeat 0 (length (hitList hits_h1_h2)))
    by reflexivity.
  assert (Hnl : Forall (fun hit => Forall (fun y => y <> NL) hit)
                       (hitList hits_h1_h2))
    by (repeat constructor; discriminate).
  destruct (C4_seen_count_is_found_flag args_pipe hits_h1_h2 1
              fasta_h1_twice IMAP_LIMIT [whole fasta_h1_twice] H0 Hnl)
    as (_ & Hscan & _ & Hsum).
  split; [|exact Hsum].
  apply (Hscan 0 0 18
           [(bytes "h1|a", bytes "AC"); (bytes "h1|b", bytes "GT")]
           (run_state (partScan args_pipe hits_h1_h2 1 fasta_h1_twice
                                (0, 0, 18) IMAP_LIMIT))).
  - repeat constructor; try discriminate;
      solve [apply Exists_cons_hd; discriminate].
  - reflexivity.
  - right. repeat constructor; discriminate.
  - vm_compute. discriminate.
  - vm_compute. discriminate.
  - reflexivity.
  - lia.
  - lia.
  - vm_compute. reflexivity.
  - vm_compute. reflexivity.
  - vm_compute. reflexivity.
Defined.

(** C4 (counterexample).  Two source records carry the ID [h1] and one
    process scans the whole file, which is the plan [setOffs] returns
    for it; both records are written, the entry of [h1] is 1 and not
    2. *)
Lemma C4_entry_is_flag_not_count :
  seen_count_spec fasta_h1_twice (bytes "h1") = 2 /\
  setOffs fasta_h1_twice 18 4096 (zero_heap 4096) 1
  = Some (1%nat, [whole fasta_h1_twice]) /\
  output_of (partQueryFile args_pipe hits_h1_h2 1 fasta_h1_twice
                           (whole fasta_h1_twice) IMAP_LIMIT true [])
  = Some fasta_h1_twice /\
  worker_vect args_pipe hits_h1_h2 1 fasta_h1_twice IMAP_LIMIT
              (whole fasta_h1_twice) = [1; 0] /\
  MPI_Reduce_sum 2
    (map (worker_vect args_pipe hits_h1_h2 1 fasta_h1_twice IMAP_LIMIT)
         [whole fasta_h1_twice]) = [1; 0].
Proof. repeat split; vm_compute; reflexivity. Qed.

(** In lookup mode, for a partition that is the bytes of well-formed
    records, hit IDs that hold no newline, no rewriting of alternative
    headers (annotations are not written, or no header holds an SOH), a
    byte limit not below the size of the partition and a record ceiling
    that is not negative: when the chunk loop of the scan ends with
    [err = 0] (the value [partQueryFile] then replaces by the status of
    the report of the hit IDs not found), the scan has written the
    records in whose header a hit ID is looked up, in file order, each
    in the form the annotation option asks for; a run of one process
    stops after [seqCnt] of them, and after as many as there are hit
    IDs. *)
Theorem lookup_scan_writes_looked_up_records
        (a : args_t) (h : hits_t) (procCnt : Z) (file : list ascii)
        (po sk len W : Z) (recs : list record_t) (st : scan_t) :
  Forall wf_rec recs -> lookupMode h = true ->
  Forall (fun hit => Forall (fun y => y <> NL) hit) (hitList h) ->
  no_rewrite a recs ->
  Z.of_nat (length (recs_bytes recs)) <= bytesLimit a ->
  0 <= seqCnt a ->
  0 < W -> 0 <= po -> 0 <= sk ->
  partition_bytes file (po, sk, len) = recs_bytes recs ->
  len = Z.of_nat (length (recs_bytes recs)) ->
  partScan a h procCnt file (po, sk, len) W = Some (st, 0) ->
  ofd st = concat (map (written a) (kept_lookup a h procCnt recs)).
Proof.
  intros Hwf Hlm Hnl Hnr Hbl Hc HW Hpo Hsk Hpart Hlen H.
  rewrite (partScan_records a h procCnt file po sk len W recs st);
    auto.
  rewrite (scanRecords_lookup a h); auto using same_index_refl;
    cbn [init_scan ofd xCnt app bytesWritten]; try lia.
  - unfold kept_lookup. rewrite Z.sub_0_r. reflexivity.
  - intros _. unfold htotal. lia.
Qed.

Lemma lookup_scan_writes_looked_up_records_witness :
  ofd (run_state (partScan args_pipe hits_h1 1 fasta_h1_thrice
                                (0, 0, 27) 1000))
  = concat (map (written args_pipe)
                (kept_lookup args_pipe hits_h1 1
                   [(bytes "h1|a", bytes "AC"); (bytes "h1|b", bytes "GT");
                    (bytes "h1|c", bytes "TT")])).
Proof.
  apply (lookup_scan_writes_looked_up_records
           args_pipe hits_h1 1 fasta_h1_thrice 0 0 27 1000
           [(bytes "h1|a", bytes "AC"); (bytes "h1|b", bytes "GT");
            (bytes "h1|c", bytes "TT")]).
  - repeat constructor; try discriminate;
      solve [apply Exists_cons_hd; discriminate].
  - reflexivity.
  - repeat constructor; discriminate.
  - right. repeat constructor; discriminate.
  - vm_compute. discriminate.
  - vm_compute. discriminate.
  - lia.
  - lia.
  - lia.
  - vm_compute. reflexivity.
  - vm_compute. reflexivity.
  - vm_compute. reflexivity.
Defined.

(* ------------------------------------------------------------------ *)
(** ** A record without sequence data *)





(* ------------------------------------------------------------------ *)
(** ** The option loop *)

Lemma setZ_at (l1 l2 : list Z) (x y : Z) :
  setZ (l1 ++ x :: l2) (length l1) y = l1 ++ y :: l2.
Proof. induction l1 as [|h t IH]; cbn; [|rewrite IH]; reflexivity. Qed.

Lemma foundLen_existsb (t : Z) (acc : list Z) :
  forall pre rest,
    foundLen (pre ++ acc ++ rest) (length acc) (Z.of_nat (length pre)) t
    = existsb (Z.eqb t) acc.
Proof.
  induction acc as [|x acc IH]; intros pre rest; [reflexivity|].
  cbn [foundLen length existsb app]. unfold zidx.
  rewrite Nat2Z.id, app_nth2, Nat.sub_diag by lia. cbn [nth].
  destruct (t =? x); [reflexivity|]. cbn [orb].
  replace (pre ++ x :: acc ++ rest) with ((pre ++ [x]) ++ acc ++ rest)
    by (rewrite <- app_assoc; reflexivity).
  replace (Z.of_nat (length pre) + 1) with (Z.of_nat (length (pre ++ [x])))
    by (rewrite length_app; cbn [length]; lia).
  apply IH.
Qed.

Lemma foundRange_existsb (s e : Z) (acc : list (Z * Z)) :
  forall pre rest i,
    length pre = (2 * i)%nat ->
    foundRange (pre ++ flat acc ++ rest) (length acc) (Z.of_nat i) s e
    = existsb (range_eqb (s, e)) acc.
Proof.
  induction acc as [|[x y] acc IH]; intros pre rest i Hi; [reflexivity|].
  cbn [foundRange length existsb flat flat_map app fst snd]. unfold zidx.
  replace (Z.to_nat (Z.of_nat i * 2)) with (length pre) by lia.
  replace (Z.to_nat (Z.of_nat i * 2 + 1)) with (S (length pre)) by lia.
  rewrite app_nth2, Nat.sub_diag by lia. cbn [nth].
  rewrite app_nth2 by lia.
  replace (S (length pre) - length pre)%nat with 1%nat by lia. cbn [nth].
  unfold range_eqb at 1. cbn [fst snd].
  destruct ((s =? x) && (e =? y)); [reflexivity|]. cbn [orb].
  replace (pre ++ x :: y :: flat_map (fun p => [fst p; snd p]) acc ++ rest)
    with ((pre ++ [x; y]) ++ flat acc ++ rest)
    by (rewrite <- app_assoc; reflexivity).
  replace (Z.of_nat i + 1) with (Z.of_nat (S i)) by lia.
  apply IH; rewrite length_app; cbn [length]; lia.
Qed.

Lemma flat_length (l : list (Z * Z)) : length (flat l) = (2 * length l)%nat.
Proof.
  induction l as [|p l IH]; [reflexivity|].
  unfold flat in *. cbn [flat_map length app]. lia.
Qed.

Lemma flat_app (l1 l2 : list (Z * Z)) : flat (l1 ++ l2) = flat l1 ++ flat l2.
Proof. unfold flat. apply flat_map_app. Qed.

Lemma add_new_firstn {A : Type} (eqb : A -> A -> bool) (acc : list A)
      (x : A) :
  (5 <= length acc)%nat ->
  firstn 5 (add_new eqb acc x) = firstn 5 acc /\
  Nat.min 5 (length (add_new eqb acc x)) = Nat.min 5 (length acc).
Proof.
  intros H. unfold add_new. destruct (existsb (eqb x) acc); [auto|].
  rewrite firstn_app, length_app.
  replace (5 - length acc)%nat with 0%nat by lia.
  cbn [firstn length]. rewrite app_nil_r. split; [reflexivity|lia].
Qed.

Lemma kept_exact (a : args_t) (ret t : Z) (l copy : list ascii)
      (ls : list Z) (rs : list (Z * Z))
      (a1 : args_t) (ret1 : Z) (l1 : list ascii) :
  parseOpt a ret l (Opt_l t copy) = Some (a1, ret1, l1) ->
  kept_lengths a ls rs ->
  kept_lengths a1 (fold_left (add_new Z.eqb) (exact_of (Opt_l t copy)) ls) rs.
Proof.
  intros E (Hl & Hll & Hn & Hr & Hrl & Hrn). cbn [parseOpt] in E.
  injection E as E _. apply (f_equal fst) in E. cbn [fst] in E. subst a1.
  unfold kept_lengths. cbn [exact_of].
  destruct (t <? 0); [cbn [fst fold_left]; repeat split; auto|].
  cbn [fold_left]. unfold MAXARG_CNT.
  destruct (Z.ltb_spec (seqLenBuf a) 5) as [Hlt|Hge].
  - assert (Hls : (length ls < 5)%nat) by lia.
    destruct Hl as [rest Hl]. rewrite firstn_all2 in Hl by lia.
    rewrite Hn, Nat2Z.id.
    replace (Nat.min 5 (length ls)) with (length ls) by lia.
    rewrite Hl.
    pose proof (foundLen_existsb t ls [] rest) as Hf.
    cbn [app length Z.of_nat] in Hf. rewrite Hf. unfold add_new.
    destruct (existsb (Z.eqb t) ls) eqn:Ex; cbn [fst].
    + repeat split; auto. exists rest. rewrite firstn_all2 by lia. exact Hl.
    + destruct rest as [|x rest].
      { rewrite Hl, app_nil_r in Hll. lia. }
      rewrite setZ_at.
      cbn [set_lengths seqLen seqLenBuf rseqLen rseqLenBuf].
      rewrite Hl, !length_app in *. cbn [length] in *.
      split; [|split; [|split]]; auto; try lia;
        try (rewrite length_app; cbn; lia).
      exists rest. rewrite firstn_all2 by (rewrite length_app; cbn; lia).
      rewrite <- app_assoc. reflexivity.
  - cbn [fst]. assert (Hls : (5 <= length ls)%nat) by lia.
    destruct (add_new_firstn Z.eqb ls t Hls) as [-> ->].
    repeat split; auto.
Qed.

Lemma kept_range (a : args_t) (ret s e : Z) (ls : list Z)
      (rs : list (Z * Z)) :
  kept_lengths a ls rs ->
  kept_lengths (fst (addRange a ret s e)) ls
               (fold_left (add_new range_eqb)
                          (if e <=? s then [] else [(s, e)]) rs).
Proof.
  intros (Hl & Hll & Hn & Hr & Hrl & Hrn). unfold kept_lengths, addRange.
  destruct (e <=? s); [cbn [fst fold_left]; repeat split; auto|].
  cbn [fold_left]. unfold MAXARG_CNT.
  destruct (Z.ltb_spec (rseqLenBuf a) 5) as [Hlt|Hge].
  - assert (Hrs : (length rs < 5)%nat) by lia.
    destruct Hr as [rest Hr]. rewrite firstn_all2 in Hr by lia.
    rewrite Hrn, Nat2Z.id.
    replace (Nat.min 5 (length rs)) with (length rs) by lia.
    rewrite Hr.
    pose proof (foundRange_existsb s e rs [] rest 0 eq_refl) as Hf.
    cbn [app Z.of_nat] in Hf. rewrite Hf. unfold add_new.
    destruct (existsb (range_eqb (s, e)) rs) eqn:Ex; cbn [fst].
    + repeat split; auto. exists rest. rewrite firstn_all2 by lia. exact Hr.
    + pose proof (flat_length rs) as Hfl.
      rewrite Hr, length_app in Hrl.
      destruct rest as [|x [|y rest]]; cbn [length] in Hrl; try lia.
      replace (Z.to_nat (Z.of_nat (length rs) * 2)) with (length (flat rs))
        by lia.
      rewrite setZ_at.
      replace (flat rs ++ s :: y :: rest)
        with ((flat rs ++ [s]) ++ y :: rest)
        by (rewrite <- app_assoc; reflexivity).
      replace (Z.to_nat (Z.of_nat (length rs) * 2 + 1))
        with (length (flat rs ++ [s]))
        by (rewrite length_app; cbn [length]; lia).
      rewrite setZ_at.
      cbn [set_lengths seqLen seqLenBuf rseqLen rseqLenBuf].
      split; [|split; [|split; [|split; [|split]]]]; auto.
      * exists rest.
        rewrite firstn_all2 by (rewrite length_app; cbn [length]; lia).
        rewrite flat_app, <- !app_assoc. reflexivity.
      * rewrite !length_app. cbn [length]. lia.
      * rewrite length_app. cbn [length]. lia.
  - cbn [fst]. assert (Hrs : (5 <= length rs)%nat) by lia.
    destruct (add_new_firstn range_eqb rs (s, e) Hrs) as [-> ->].
    repeat split; auto.
Qed.

Lemma setBytes_kept (a : args_t) (ret : Z) (l : list ascii) (mult : Z)
      (a' : args_t) (ret' : Z) (l' : list ascii)
      (ls : list Z) (rs : list (Z * Z)) :
  setBytes a ret l mult = Some (a', ret', l') ->
  kept_lengths a ls rs -> kept_lengths a' ls rs.
Proof.
  unfold setBytes. intros H K.
  repeat break_in H; inversion H; subst; exact K.
Qed.

Lemma parseBytes_kept (a : args_t) (ret : Z) (l before optarg : list ascii)
      (a' : args_t) (ret' : Z) (l' : list ascii)
      (ls : list Z) (rs : list (Z * Z)) :
  parseBytes a ret l before optarg = Some (a', ret', l') ->
  kept_lengths a ls rs -> kept_lengths a' ls rs.
Proof.
  unfold parseBytes. intros H K.
  repeat break_in H; try discriminate;
    try (inversion H; subst; exact K);
    eapply setBytes_kept; eassumption.
Qed.

(** One turn of the option loop keeps the first five distinct exact
    lengths and the first five distinct ranges asked for so far. *)
Lemma parseOpt_kept (a : args_t) (ret : Z) (l : list ascii) (o : cmd_opt)
      (a1 : args_t) (ret1 : Z) (l1 : list ascii)
      (ls : list Z) (rs : list (Z * Z)) :
  parseOpt a ret l o = Some (a1, ret1, l1) ->
  kept_lengths a ls rs ->
  kept_lengths a1
               (fold_left (add_new Z.eqb) (exact_of o) ls)
               (fold_left (add_new range_eqb) (range_of o) rs).
Proof.
  intros E H.
  destruct o as [s|s|s|t|t c|r c|t|bf oa| | |s|t|];
    try (cbn [parseOpt exact_of range_of fold_left] in E |- *;
         repeat break_in E; inversion E; subst; exact H).
  - apply (kept_exact a ret t l c ls rs a1 ret1 l1 E H).
  - cbn [parseOpt] in E. injection E as E _.
    apply (f_equal fst) in E. cbn [fst] in E. subst a1.
    destruct r as [| |t m|t m|s e m];
      cbn [exact_of range_of fold_left orb];
      repeat (break_if; cbn [orb fst fold_left]);
      try exact H; try discriminate;
      match goal with
      | Hc : (?e <=? ?s) = _ |- context [addRange ?a ?ret ?s ?e] =>
          pose proof (kept_range a ret s e ls rs H) as K;
          rewrite Hc in K; exact K
      end.
  - cbn [parseOpt exact_of range_of fold_left] in E |- *.
    eapply parseBytes_kept; eassumption.
Qed.

Lemma optLoop_None (argv : list cmd_opt) : optLoop argv None = None.
Proof. induction argv; cbn; auto. Qed.

Lemma optLoop_kept (argv : list cmd_opt) :
  forall a ret l a1 ret1 l1 ls rs,
    optLoop argv (Some (a, ret, l)) = Some (a1, ret1, l1) ->
    kept_lengths a ls rs ->
    kept_lengths a1
                 (fold_left (add_new Z.eqb) (flat_map exact_of argv) ls)
                 (fold_left (add_new range_eqb) (flat_map range_of argv) rs).
Proof.
  induction argv as [|o argv IH]; intros a ret l a1 ret1 l1 ls rs E H;
    cbn [optLoop fold_left optStep flat_map] in E |- *.
  - inversion E; subst; exact H.
  - rewrite !fold_left_app.
    destruct (parseOpt a ret l o) as [[[a' ret'] l']|] eqn:Eo.
    + apply (IH a' ret' l' a1 ret1 l1); [exact E|].
      eapply parseOpt_kept; eassumption.
    + change (optLoop argv None = Some (a1, ret1, l1)) in E.
      rewrite optLoop_None in E. discriminate.
Qed.

(** Of the exact lengths and of the ranges that the [-l] options of a
    command line ask for, [parseCmdline] keeps the first five distinct
    ones each, in the order given; the structure holds as many as
    that and no more. *)
Theorem option_loop_keeps_first_five_distinct (stack : list ascii)
        (argv : list cmd_opt) (r : Z) (a : args_t) :
  parseCmdline stack argv = Some (r, a) ->
  let ls := distinct Z.eqb (flat_map exact_of argv) in
  let rs := distinct range_eqb (flat_map range_of argv) in
  seqLenBuf a = Z.of_nat (Nat.min 5 (length ls)) /\
  firstn (Z.to_nat (seqLenBuf a)) (seqLen a) = firstn 5 ls /\
  rseqLenBuf a = Z.of_nat (Nat.min 5 (length rs)) /\
  firstn (Z.to_nat (2 * rseqLenBuf a)) (rseqLen a) = flat (firstn 5 rs).
Proof.
  intros Hparse ls rs.
  apply parseCmdline_some in Hparse as (ret & l & E & _).
  destruct (optLoop_kept argv default_args 0 stack a ret l [] [] E)
    as ((r1 & Hl) & Hll & Hn & (r2 & Hr) & Hrl & Hrn).
  { unfold kept_lengths. cbn.
    repeat split; auto; eexists; reflexivity. }
  fold (distinct Z.eqb (flat_map exact_of argv)) in *.
  fold (distinct range_eqb (flat_map range_of argv)) in *.
  fold ls in Hl, Hn. fold rs in Hr, Hrn. clearbody ls rs.
  split; [exact Hn|]. split; [|split; [exact Hrn|]].
  - pose proof (length_firstn 5 ls) as Hf5.
    rewrite Hn, Nat2Z.id, Hl, firstn_app.
    replace (Nat.min 5 (length ls) - length (firstn 5 ls))%nat with 0%nat
      by lia.
    rewrite firstn_O, app_nil_r. apply firstn_all2. lia.
  - rewrite Hrn, Hr, firstn_app.
    pose proof (flat_length (firstn 5 rs)) as Hfl.
    rewrite length_firstn in Hfl.
    replace (Z.to_nat (2 * Z.of_nat (Nat.min 5 (length rs)))
             - length (flat (firstn 5 rs)))%nat with 0%nat by lia.
    rewrite firstn_O, app_nil_r. apply firstn_all2. lia.
Qed.

(** Seven [-l] options with six distinct exact lengths: the first five
    are kept. *)
Lemma option_loop_keeps_first_five_distinct_witness :
  let argv := [Opt_q "db.fa"; Opt_l 4 (padded "4"); Opt_l 6 (padded "6");
               Opt_l 4 (padded "4"); Opt_l 8 (padded "8");
               Opt_l 10 (padded "10"); Opt_l 12 (padded "12");
               Opt_l 14 (padded "14")] in
  let a := args_of (parseCmdline [] argv) in
  parseCmdline [] argv = Some (0, a) /\
  seqLenBuf a = 5 /\
  firstn (Z.to_nat (seqLenBuf a)) (seqLen a) = [4; 6; 8; 10; 12].
Proof.
  intros argv a.
  assert (Hparse : parseCmdline [] argv = Some (0, a))
    by (vm_compute; reflexivity).
  split; [exact Hparse|].
  destruct (option_loop_keeps_first_five_distinct [] argv 0 a Hparse)
    as (H1 & H2 & _).
  split; [exact H1 | exact H2].
Defined.

Lemma addRange_snd (a : args_t) (ret s e : Z) :
  snd (addRange a ret s e) = if e <=? s then ERROR else ret.
Proof.
  unfold addRange. repeat break_if; reflexivity.
Qed.

Lemma same_verdict_pair (ret : Z) (x y : args_t * Z) (l : list ascii) :
  (snd y = 0 /\ snd x = ret) \/ (snd y = ERROR /\ snd x = ERROR) ->
  same_verdict ret (Some (x, l)) (Some (y, l)).
Proof. destruct x, y. cbn. auto. Qed.

Lemma setBytes_verdict (a a' : args_t) (ret : Z) (l : list ascii) (mult : Z) :
  same_verdict ret (setBytes a ret l mult) (setBytes a' 0 l mult).
Proof.
  unfold setBytes. destruct (strtoll l) as [t|]; [|exact I].
  destruct (t <? 1); cbn; auto.
Qed.

Lemma parseBytes_verdict (a a' : args_t) (ret : Z)
      (l before optarg : list ascii) :
  same_verdict ret (parseBytes a ret l before optarg)
               (parseBytes a' 0 l before optarg).
Proof.
  unfold parseBytes.
  destruct (back before optarg 1) as [c1|]; [|exact I].
  destruct (if isalpha c1 then option_map isalpha (back before optarg 2)
            else Some false) as [[|]|]; [| |exact I].
  - destruct ((length optarg <? 2)%nat || (128 <=? length optarg - 2)%nat);
      [exact I|].
    destruct (multiplier _ _); [apply setBytes_verdict|cbn; auto].
  - destruct (128 <? length optarg)%nat; [exact I|apply setBytes_verdict].
Qed.

(** Whether a turn of the option loop is defined, whether it reports
    an error and what it leaves in the scratch array do not depend on
    the options structure, and no turn clears an error. *)
Lemma parseOpt_verdict (a a' : args_t) (ret : Z) (l : list ascii)
      (o : cmd_opt) :
  same_verdict ret (parseOpt a ret l o) (parseOpt a' 0 l o).
Proof.
  destruct o as [s|s|s|t|t c|r c|t|bf oa| | |s|t|]; cbn [parseOpt];
    try (repeat break_if; cbn; auto; fail).
  - apply same_verdict_pair.
    destruct r as [| |t m|t m|s e m];
      repeat break_if; cbn [snd]; auto;
      rewrite !addRange_snd; break_if; auto.
  - apply parseBytes_verdict.
Qed.

Lemma validate_ERROR (a : args_t) : validate a ERROR = ERROR.
Proof. unfold validate, orErr. repeat break_if; reflexivity. Qed.

Lemma optLoop_verdict (argv : list cmd_opt) :
  forall a ret l a1 ret1 l1,
    optLoop argv (Some (a, ret, l)) = Some (a1, ret1, l1) ->
    (accepted l argv = true /\ ret1 = ret) \/
    (accepted l argv = false /\ ret1 = ERROR).
Proof.
  induction argv as [|o argv IH]; intros a ret l a1 ret1 l1 E;
    cbn [optLoop fold_left optStep accepted] in E |- *.
  - inversion E; subst. left; auto.
  - pose proof (parseOpt_verdict a default_args ret l o) as V.
    destruct (parseOpt a ret l o) as [[[a' ret'] l']|].
    + destruct (parseOpt default_args 0 l o) as [[[a2 ret2] l2]|];
        [|contradiction].
      cbn in V. destruct V as [<- [[-> ->]|[-> ->]]].
      * cbn [Z.eqb andb]. apply (IH a' ret l' a1 ret1 l1 E).
      * change (ERROR =? 0) with false. cbn [andb]. right. split; auto.
        destruct (IH a' ERROR l' a1 ret1 l1 E) as [[_ ?]|[_ ?]]; auto.
    + change (optLoop argv None = Some (a1, ret1, l1)) in E.
      rewrite optLoop_None in E. discriminate.
Qed.

(** A command line whose parsing is defined is accepted exactly when
    every option is accepted in its turn, taken with the defaults and
    with what the scratch array [loptarg] holds at that turn, and the
    checks after the option loop pass: an option refused anywhere on
    the line refuses the line, and options that are repeated or exceed
    the five slots are no error. *)
Theorem command_line_accepted_iff (stack : list ascii)
        (argv : list cmd_opt) (r : Z) (a : args_t) :
  parseCmdline stack argv = Some (r, a) ->
  (r = 0 <-> accepted stack argv = true /\ validate a 0 = 0).
Proof.
  intros Hparse. apply parseCmdline_some in Hparse as (ret & l & E & ->).
  destruct (optLoop_verdict argv default_args 0 stack a ret l E)
    as [[H1 ->]|[H1 ->]]; rewrite H1.
  - split; [auto|intros [_ H]; exact H].
  - rewrite validate_ERROR. split; [discriminate|].
    intros [Hf _]. discriminate.
Qed.

(** [-b 5] after [-l 120]: the bytes of the second argument are copied
    over the first without a NUL, [strtoll] reads 520 and the line is
    accepted with that byte limit; the same [-b 5] as the first option
    of a run whose scratch array holds no digit after it gives 5. *)
Lemma command_line_accepted_iff_witness :
  let argv1 := [Opt_q "db.fa"; Opt_l 120 (padded "120");
                Opt_b [] (bytes "5")] in
  let argv2 := [Opt_q "db.fa"; Opt_b [] (bytes "5")] in
  let a1 := args_of (parseCmdline [] argv1) in
  let a2 := args_of (parseCmdline (repeat zero 128) argv2) in
  parseCmdline [] argv1 = Some (0, a1) /\
  parseCmdline (repeat zero 128) argv2 = Some (0, a2) /\
  (0 = 0 <-> accepted [] argv1 = true /\ validate a1 0 = 0) /\
  bytesLimit a1 = 520 /\ bytesLimit a2 = 5.
Proof.
  intros argv1 argv2 a1 a2.
  assert (H1 : parseCmdline [] argv1 = Some (0, a1))
    by (vm_compute; reflexivity).
  split; [exact H1|]. split; [vm_compute; reflexivity|].
  split; [exact (command_line_accepted_iff [] argv1 0 a1 H1)|].
  split; vm_compute; reflexivity.
Defined.

(* ------------------------------------------------------------------ *)
(** ** From the search file to the output *)

(** The IDs of a search file, loaded by [loadSearchIDs] and handed to
    the scan as [main] does, select the records that are written.  The
    search file holds plain IDs, one per line, none a prefix of an
    earlier one; the partition is the bytes of well-formed records; no
    alternative header is rewritten (annotations are not written, or no
    header holds an SOH); the byte limit is not below the size of the
    partition and the record ceiling is not negative.  Then the index
    holds these IDs, and when the chunk loop of the scan ends with
    [err = 0] the scan has written the records in whose header one of
    the IDs is looked up, in file order; a run of one process stops
    after [seqCnt] of them, and after as many as there are IDs. *)
Theorem search_file_selects_records
        (a : args_t) (h0 h : hits_t) (ids : list (list ascii))
        (procCnt : Z) (file : list ascii)
        (po sk len W : Z) (recs : list record_t) (st : scan_t) :
  ids <> [] -> Forall plain_id ids -> no_prefix_before [] ids ->
  hsearchMode h0 <> 0 ->
  Forall wf_rec recs -> no_rewrite a recs ->
  Z.of_nat (length (recs_bytes recs)) <= bytesLimit a ->
  0 <= seqCnt a ->
  0 < W -> 0 <= po -> 0 <= sk ->
  partition_bytes file (po, sk, len) = recs_bytes recs ->
  len = Z.of_nat (length (recs_bytes recs)) ->
  loadSearchIDs (Some (id_lines ids)) h0 = Some (0, h) ->
  partScan a h procCnt file (po, sk, len) W = Some (st, 0) ->
  hitList h = ids /\
  ofd st = concat (map (written a) (kept_lookup a h procCnt recs)).
Proof.
  intros Hne Hp Hn Hs Hwf Hnr Hbl Hc HW Hpo Hsk Hpart Hlen Hload H.
  rewrite loadSearchIDs_ids in Hload by assumption.
  inversion Hload; subst h. clear Hload. split; [reflexivity|].
  assert (Hlm : lookupMode (mkHits ids (repeat 0 (length ids))
                                   (hpipeMode h0) (hsearchMode h0)) = true).
  { unfold lookupMode. cbn [hpipeMode hsearchMode].
    apply Z.eqb_neq in Hs. rewrite Hs. apply orb_true_r. }
  assert (Hnl : Forall (fun hit => Forall (fun y => y <> NL) hit) ids).
  { eapply Forall_impl; [|exact Hp]. intros id (_ & _ & Hid).
    eapply Forall_impl; [|exact Hid]. intros c [Hc1 _]. exact Hc1. }
  rewrite (partScan_records a
             (mkHits ids (repeat 0 (length ids)) (hpipeMode h0)
                     (hsearchMode h0))
             procCnt file po sk len W recs st);
    auto; try (intros _; split; [exact Hnl|exact Hnr]).
  rewrite (scanRecords_lookup a
             (mkHits ids (repeat 0 (length ids)) (hpipeMode h0)
                     (hsearchMode h0)));
    auto using same_index_refl;
    cbn [init_scan ofd xCnt app bytesWritten hitList]; try lia.
  - unfold kept_lookup. rewrite Z.sub_0_r. reflexivity.
  - intros _. unfold htotal. cbn [hitList]. lia.
Qed.

Lemma search_file_selects_records_witness :
  hitList (mkHits [bytes "h1"] [0] 0 1) = [bytes "h1"] /\
  ofd (run_state (partScan args_search (mkHits [bytes "h1"] [0] 0 1) 1
                                (fasta_r1 ++ fasta_h1a) (0, 0, 24) 1000))
  = concat (map (written args_search)
                (kept_lookup args_search (mkHits [bytes "h1"] [0] 0 1) 1
                   [(bytes "r1|alpha", bytes "ACGT");
                    (bytes "h1|a", bytes "AC")])).
Proof.
  apply (search_file_selects_records
           args_search (mkHits [] [] 0 1) (mkHits [bytes "h1"] [0] 0 1)
           [bytes "h1"] 1 (fasta_r1 ++ fasta_h1a) 0 0 24 1000
           [(bytes "r1|alpha", bytes "ACGT"); (bytes "h1|a", bytes "AC")]).
  - discriminate.
  - repeat constructor; try discriminate.
  - cbn. auto.
  - discriminate.
  - repeat constructor; try discriminate;
      solve [apply Exists_cons_hd; discriminate].
  - right. repeat constructor; discriminate.
  - vm_compute. discriminate.
  - vm_compute. discriminate.
  - lia.
  - lia.
  - lia.
  - vm_compute. reflexivity.
  - vm_compute. reflexivity.
  - vm_compute. reflexivity.
  - vm_compute. reflexivity.
Defined.

(* ------------------------------------------------------------------ *)
(** ** The ranges of a plan *)

(** The backward scan of a page stops at the highest [>] of the page. *)
Lemma chunkLoop_top (buffer : list ascii) (n : nat) (offset o' : Z)
      (found : bool) :
  chunkLoop buffer n offset = (o', found) ->
  forall k, (k < n)%nat ->
            (found = true -> Z.of_nat n - (o' - offset) < Z.of_nat k) ->
            deref buffer k <> GT.
Proof.
  revert offset; induction n as [|c IH]; intros offset H k Hk Hf; [lia|].
  cbn [chunkLoop] in H.
  destruct (Ascii.eqb_spec (deref buffer c) GT) as [Hg|Hg].
  - inversion H; subst. specialize (Hf eq_refl). lia.
  - destruct (Nat.eq_dec k c) as [->|Hne]; [exact Hg|].
    apply (IH _ H); [lia|]. intros Ht. specialize (Hf Ht). lia.
Qed.

(** The page loop stops at the highest [>] below the nominal end of the
    partition. *)
Lemma seekLoop_top (file : list ascii) (P partSz po sk : Z) (fuel : nat) :
  forall (j offset : Z) (buffer : list ascii),
    0 < P -> offset = P * j -> 0 <= j ->
    po + partSz <= Z.of_nat (length file) ->
    (forall x, po + partSz - P * j <= x < po + partSz ->
               deref file (Z.to_nat x) <> GT) ->
    match seekLoop file P partSz po sk fuel j offset buffer with
    | SeekLen len _ =>
        forall x, po + sk + len < x < po + partSz ->
                  deref file (Z.to_nat x) <> GT
    | _ => True
    end.
Proof.
  induction fuel as [|fuel IH]; intros j offset buffer HP Ho Hj Hin Hinv;
    [exact I|].
  cbn [seekLoop].
  destruct (Z.ltb_spec (po + partSz - P * (j + 1)) 0) as [Hr|Hr]; [exact I|].
  set (readOffs := po + partSz - P * (j + 1)) in *.
  destruct (chunkLoop (fread file readOffs P buffer) (Z.to_nat P) offset)
    as [o' found] eqn:E.
  pose proof (chunkLoop_top _ _ _ _ _ E) as Ht.
  apply chunkLoop_spec in E.
  assert (Hpage : forall x, readOffs <= x < readOffs + P ->
                    (found = true ->
                     P - (o' - offset) < x - readOffs) ->
                    deref file (Z.to_nat x) <> GT).
  { intros x Hx Hf.
    specialize (Ht (Z.to_nat (x - readOffs))).
    rewrite fread_in_file in Ht; try lia.
    replace (Z.to_nat readOffs + Z.to_nat (x - readOffs))%nat
      with (Z.to_nat x) in Ht by lia.
    apply Ht; [lia|]. intros Hfound. specialize (Hf Hfound). lia. }
  destruct found.
  - destruct E as (c & Hc & Hd & Ho').
    destruct (Z.eqb_spec (partSz - o' - sk) 0) as [Hz|Hz]; [exact I|].
    intros x Hx.
    destruct (Z_lt_le_dec x (po + partSz - P * j)) as [Hlt|Hge].
    + apply Hpage; [subst readOffs; lia|]. intros _. subst readOffs. lia.
    + apply Hinv. lia.
  - assert (Hnext : forall x, po + partSz - P * (j + 1) <= x < po + partSz ->
                      deref file (Z.to_nat x) <> GT).
    { intros x Hx.
      destruct (Z_lt_le_dec x (po + partSz - P * j)) as [Hlt|Hge].
      - apply Hpage; [subst readOffs; lia|]. discriminate.
      - apply Hinv. lia. }
    destruct (Z.eqb_spec (partSz - o' - sk) 0);
      apply IH; auto; lia.
Qed.

(** The partition loop gives every process a range that is not empty:
    the [>] that begins a range lies below the nominal end of the
    partition, so the backward scan stops at it at the latest, and then
    the plan is dropped for one process less. *)
Lemma offsLoop_pos (file : list ascii) (fsize P partSz procCnt : Z)
      (fuel : nat) :
  forall (i : Z) (plan : list offs_t) (buffer : list ascii),
    0 < P -> P <= partSz -> 0 < fsize -> fsize = Z.of_nat (length file) ->
    (procCnt - 1) * partSz - (procCnt - 2) <= Z.of_nat (length file) ->
    Z.of_nat fuel = procCnt - i -> (0 < fuel)%nat ->
    Z.of_nat (length plan) = i ->
    0 <= chain_end 0 plan <= i * partSz - i ->
    Forall range_ok plan ->
    (plan <> [] -> deref file (Z.to_nat (chain_end 0 plan)) = GT) ->
    match offsLoop file fsize P partSz procCnt fuel i plan buffer with
    | OffsOk final => Forall range_ok final
    | _ => True
    end.
Proof.
  induction fuel as [|fuel IH];
    intros i plan buffer HP Hps HS Hsz Hin Hf Hpos Hlen He Hok Hg; [lia|].
  cbn [offsLoop]. set (prev := chain_end 0 plan) in *.
  assert (Hpo : 0 <= P * (prev / P) <= prev).
  { split; [apply Z.mul_nonneg_nonneg; [lia | apply Z.div_pos; lia]|].
    apply Z.mul_div_le; lia. }
  assert (Hsk : prev - P * (prev / P) < P).
  { pose proof (Z.mod_pos_bound prev P HP) as Hm.
    rewrite Z.mod_eq in Hm by lia. lia. }
  assert (Hprev : plan <> [] -> prev < Z.of_nat (length file)).
  { intros Hne. specialize (Hg Hne).
    destruct (Z_lt_le_dec prev (Z.of_nat (length file))) as [|Hge]; auto.
    unfold deref in Hg. rewrite nth_overflow in Hg by lia. discriminate. }
  destruct (Z.ltb_spec i (procCnt - 1)) as [Hi|Hi].
  - assert (Epair : (if i =? 0 then (0, 0) else nextOffs P plan)
                    = (P * (prev / P), prev - P * (prev / P))).
    { destruct (Z.eqb_spec i 0) as [Hz|Hz]; [|apply nextOffs_eq].
      destruct plan; [|simpl in Hlen; lia].
      subst prev. simpl. rewrite Z.div_0_l by lia. f_equal; lia. }
    rewrite Epair.
    set (po := P * (prev / P)) in *. set (sk := prev - po) in *.
    assert (Hfile : po + partSz <= Z.of_nat (length file)).
    { assert (0 <= (procCnt - 2 - i) * (partSz - 1))
        by (apply Z.mul_nonneg_nonneg; lia).
      nia. }
    assert (Hx : 0 <= (po + partSz) / P) by (apply Z.div_pos; lia).
    pose proof (seekLoop_spec file P partSz po sk
                  (S (Z.to_nat ((po + partSz) / P))) 0 0 buffer HP) as Hs.
    pose proof (seekLoop_top file P partSz po sk
                  (S (Z.to_nat ((po + partSz) / P))) 0 0 buffer HP) as Ht.
    destruct (seekLoop file P partSz po sk
                (S (Z.to_nat ((po + partSz) / P))) 0 0 buffer)
      as [len buffer'| |]; [|exact I|exact I].
    destruct Hs as (Hl0 & Hl1 & Hl2); try lia.
    specialize (Hl2 Hfile).
    assert (Hj0 : 0 = P * 0) by lia.
    assert (Hvac : forall x, po + partSz - P * 0 <= x < po + partSz ->
                     deref file (Z.to_nat x) <> GT) by (intros; lia).
    specialize (Ht Hj0 (Z.le_refl 0) Hfile Hvac).
    assert (Hlen0 : 0 < len).
    { destruct (Z_lt_le_dec 0 len) as [|Hle]; auto. exfalso.
      destruct plan as [|fo plan'] eqn:Eplan.
      - subst prev po sk. cbn [chain_end] in *.
        rewrite Z.div_0_l in * by lia. lia.
      - apply (Ht prev); [subst sk; lia|].
        apply Hg. discriminate. }
    apply IH; auto; try lia.
    + rewrite length_app. simpl. lia.
    + rewrite chain_end_app. simpl. nia.
    + apply Forall_app. split; auto. constructor; [|constructor].
      unfold range_ok. cbn [fst snd]. subst sk. lia.
    + intros _. rewrite chain_end_app. simpl. exact Hl2.
  - assert (fuel = 0%nat) by lia. subst fuel.
    rewrite nextOffs_eq. fold prev.
    set (po := P * (prev / P)) in *. set (sk := prev - po) in *.
    cbn [offsLoop].
    apply Forall_app. split; auto. constructor; [|constructor].
    unfold range_ok. cbn [fst snd].
    destruct plan as [|fo plan'] eqn:Eplan.
    + subst prev po sk. cbn [chain_end] in *.
      rewrite Z.div_0_l in * by lia. lia.
    + assert (prev < Z.of_nat (length file)) by (apply Hprev; discriminate).
      subst sk. lia.
Qed.

Lemma setOffsQueryFile_pos (file : list ascii) (P procCnt : Z)
      (buffer : list ascii) :
  0 < Z.of_nat (length file) -> 2 <= procCnt -> 0 < P ->
  match setOffsQueryFile file (Z.of_nat (length file)) P procCnt buffer with
  | OffsOk final => Forall range_ok final
  | _ => True
  end.
Proof.
  intros HS Hn HP. unfold setOffsQueryFile.
  set (fsize := Z.of_nat (length file)) in *.
  pose proof (in_file_bound fsize procCnt P HS Hn HP) as Hb.
  assert (Hm : 0 <= ceil_div fsize procCnt / P).
  { apply Z.div_pos; [|lia].
    destruct (ceil_div_bounds fsize procCnt); lia. }
  set (m := ceil_div fsize procCnt / P) in *.
  destruct (Z.eq_dec m 0) as [Hz|Hz].
  - rewrite Hz. replace (P * 0) with 0 by lia.
    destruct (Z.to_nat procCnt) as [|fuel] eqn:Ef; [lia|].
    cbn [offsLoop].
    destruct (Z.ltb_spec 0 (procCnt - 1)); [|lia].
    cbn [Z.eqb seekLoop].
    destruct (Z.ltb_spec (0 + 0 - P * (0 + 1)) 0); [exact I|lia].
  - apply offsLoop_pos; auto; try lia; try nia.
    + cbn. lia.
    + intros H. contradiction.
Qed.

Lemma setOffs_pos (file : list ascii) (P : Z) (heap : nat -> list ascii)
      (N : nat) :
  0 < Z.of_nat (length file) -> 0 < P ->
  forall n' plan,
    setOffs file (Z.of_nat (length file)) P heap N = Some (n', plan) ->
    Forall range_ok plan.
Proof.
  intros HS HP. induction N as [|n IH]; intros n' plan H;
    cbn [setOffs] in H; [discriminate|].
  destruct (Nat.eqb_spec (S n) 1) as [H1|H1].
  - inversion H; subst. repeat constructor; cbn [fst snd]; lia.
  - pose proof (setOffsQueryFile_pos file P (Z.of_nat (S n)) (heap (S n)) HS)
      as Hq.
    destruct (setOffsQueryFile file (Z.of_nat (length file)) P
                               (Z.of_nat (S n)) (heap (S n)))
      as [final| |]; [| |discriminate].
    + inversion H; subst. apply Hq; lia.
    + apply (IH n' plan H).
Qed.

Lemma recs_bytes_nil_length (rs : list record_t) :
  (0 < length (recs_bytes rs))%nat -> rs <> [].
Proof. intros H E. subst rs. cbn in H. lia. Qed.

(** A contiguous plan whose inner boundaries are [>] bytes of a file of
    records cuts the list of records into one piece per range. *)
Lemma split_plan (plan : list offs_t) :
  forall r1 r2 : list record_t,
    Forall wf_rec r2 -> plan <> [] ->
    contiguous_from (Z.of_nat (length (recs_bytes r1))) plan ->
    Forall range_ok plan ->
    chain_end (Z.of_nat (length (recs_bytes r1))) plan
    = Z.of_nat (length (recs_bytes (r1 ++ r2))) ->
    Forall (fun fo => deref (recs_bytes (r1 ++ r2))
                            (Z.to_nat (range_end fo)) = GT)
           (removelast plan) ->
    exists parts,
      concat parts = r2 /\
      Forall2 (range_holds (recs_bytes (r1 ++ r2))) plan parts.
Proof.
  induction plan as [|[[po sk] len] rest IH];
    intros r1 r2 Hwf Hne Hc Hok He Hg; [congruence|].
  cbn [contiguous_from range_start range_end] in Hc. destruct Hc as [Hs Hc].
  inversion Hok as [|? ? (Hpo & Hsk & Hlen) Hok']; subst.
  cbn [fst snd] in Hpo, Hsk, Hlen.
  rewrite recs_bytes_app in *.
  destruct rest as [|fo2 rest'].
  - cbn [chain_end range_end] in He. rewrite length_app in He.
    exists [r2]. split; [cbn; apply app_nil_r|].
    constructor; [|constructor]. unfold range_holds, partition_bytes.
    cbn [range_start snd].
    assert (El : len = Z.of_nat (length (recs_bytes r2))) by lia.
    split; [apply recs_bytes_nil_length; lia|]. split; [|exact El].
    replace (Z.to_nat (po + sk)) with (length (recs_bytes r1) + 0)%nat
      by lia.
    rewrite slice_app_r, El, Nat2Z.id. apply slice_all.
  - change (removelast ((po, sk, len) :: fo2 :: rest'))
      with ((po, sk, len) :: removelast (fo2 :: rest')) in Hg.
    inversion Hg as [|? ? Hd Hg']; subst. cbn [range_end] in Hd.
    replace (Z.to_nat (po + sk + len))
      with (length (recs_bytes r1) + Z.to_nat len)%nat in Hd by lia.
    rewrite deref_app_r in Hd.
    destruct (gt_boundary r2 _ Hwf Hd) as (mid & q2 & -> & Hmid).
    apply Forall_app in Hwf. destruct Hwf as [Hwm Hwq].
    destruct (IH (r1 ++ mid) q2) as (parts & Hp & Hf); auto.
    + discriminate.
    + rewrite recs_bytes_app, length_app.
      replace (Z.of_nat (length (recs_bytes r1) + length (recs_bytes mid)))
        with (po + sk + len) by lia.
      exact Hc.
    + rewrite recs_bytes_app, length_app.
      replace (Z.of_nat (length (recs_bytes r1) + length (recs_bytes mid)))
        with (po + sk + len) by lia.
      change (chain_end (po + sk + len) (fo2 :: rest')
              = Z.of_nat (length (recs_bytes r1
                                  ++ recs_bytes (mid ++ q2)))) in He.
      rewrite He.
      rewrite <- app_assoc, !recs_bytes_app. reflexivity.
    + rewrite <- app_assoc, !recs_bytes_app. rewrite recs_bytes_app in Hg'.
      exact Hg'.
    + exists (mid :: parts). split; [cbn [concat]; rewrite Hp; reflexivity|].
      constructor.
      * unfold range_holds, partition_bytes. cbn [range_start snd].
        split; [apply recs_bytes_nil_length; lia|]. split; [|lia].
        rewrite recs_bytes_app.
        replace (Z.to_nat (po + sk)) with (length (recs_bytes r1)) by lia.
        apply slice_mid. lia.
      * rewrite <- app_assoc, !recs_bytes_app in Hf.
        rewrite recs_bytes_app. exact Hf.
Qed.

Lemma setOffs_splits (recs : list record_t) (P : Z)
        (heap : nat -> list ascii) (N n' : nat) (plan : list offs_t) :
  Forall wf_rec recs -> recs <> [] -> (1 <= N)%nat -> 0 < P ->
  setOffs (recs_bytes recs) (Z.of_nat (length (recs_bytes recs))) P heap N
  = Some (n', plan) ->
  Forall range_ok plan /\
  exists parts,
    concat parts = recs /\
    Forall2 (range_holds (recs_bytes recs)) plan parts.
Proof.
  intros Hwf Hne HN HP E.
  assert (HS : 0 < Z.of_nat (length (recs_bytes recs))).
  { destruct recs as [|[hdr b] rs]; [congruence|].
    rewrite recs_bytes_cons, length_app.
    pose proof (rec_bytes_length hdr b). lia. }
  pose proof (setOffs_pos _ P heap N HS HP n' plan E) as Hok.
  split; [exact Hok|].
  destruct (setOffs_spec (recs_bytes recs) _ P heap N HS)
    as (n1 & pre & lst & E1 & _ & _ & Hc & He & Hg); try lia.
  rewrite E in E1. inversion E1; subst n1 plan. clear E1.
  apply (split_plan (pre ++ [lst]) [] recs); auto.
  - destruct pre; discriminate.
  - cbn [recs_bytes map concat length Z.of_nat app].
    rewrite chain_end_app. exact He.
  - rewrite removelast_last. cbn [app].
    eapply Forall_impl; [|exact Hg]. cbn beta. intros fo Hfo.
    apply Hfo; auto.
Qed.

(** Every range of the plan holds whole records and is not empty, and
    the ranges taken in order hold all the records of the file: the
    partitioner neither cuts a record nor leaves one out, when the file
    is made of records with no [>] but their first byte and the page
    size is positive. *)
Theorem plan_splits_records (recs : list record_t) (P : Z)
        (heap : nat -> list ascii) (N n' : nat) (plan : list offs_t) :
  Forall wf_rec recs -> recs <> [] -> (1 <= N)%nat -> 0 < P ->
  setOffs (recs_bytes recs) (Z.of_nat (length (recs_bytes recs))) P heap N
  = Some (n', plan) ->
  Forall range_ok plan /\
  exists parts,
    concat parts = recs /\
    Forall2 (range_holds (recs_bytes recs)) plan parts.
Proof. apply setOffs_splits. Qed.

Lemma plan_splits_records_witness :
  Forall range_ok [(0, 0, 15); (12, 3, 17)] /\
  exists parts,
    concat parts = [(bytes "r1|alpha", bytes "ACGT");
                    (bytes "r2|beta", bytes ("GGG" ++ nl ++ "TTT"))] /\
    Forall2 (range_holds
               (recs_bytes [(bytes "r1|alpha", bytes "ACGT");
                            (bytes "r2|beta", bytes ("GGG" ++ nl ++ "TTT"))]))
            [(0, 0, 15); (12, 3, 17)] parts.
Proof.
  apply (plan_splits_records
           [(bytes "r1|alpha", bytes "ACGT");
            (bytes "r2|beta", bytes ("GGG" ++ nl ++ "TTT"))]
           4 (zero_heap 4) 3 2).
  - repeat constructor; try discriminate;
      solve [apply Exists_cons_hd; discriminate].
  - discriminate.
  - lia.
  - lia.
  - vm_compute. reflexivity.
Defined.

(** What one scan writes, in either mode. *)
Lemma partScan_kept_any
      (a : args_t) (h : hits_t) (procCnt : Z) (file : list ascii)
      (fo : offs_t) (W : Z) (recs : list record_t) (st : scan_t) :
  Forall wf_rec recs ->
  (lookupMode h = true ->
   Forall (fun hit => Forall (fun y => y <> NL) hit) (hitList h) /\
   no_rewrite a recs) ->
  Z.of_nat (length (recs_bytes recs)) <= bytesLimit a ->
  0 <= seqCnt a -> 0 < W ->
  range_ok fo -> range_holds file fo recs ->
  partScan a h procCnt file fo W = Some (st, 0) ->
  ofd st = concat (map (written a) (kept_any a h procCnt recs)).
Proof.
  destruct fo as [[po sk] len].
  intros Hwf Hlk Hbl Hc HW (Hpo & Hsk & _) (_ & Hpart & Hlen) H.
  cbn [fst snd] in *.
  rewrite (partScan_records a h procCnt file po sk len W recs st);
    auto.
  unfold kept_any. destruct (lookupMode h) eqn:Hlm.
  - destruct (Hlk eq_refl) as [Hnl Hnr].
    rewrite (scanRecords_lookup a h); auto using same_index_refl;
      cbn [init_scan ofd xCnt app bytesWritten]; try lia.
    + unfold kept_lookup. rewrite Z.sub_0_r. reflexivity.
    + intros _. unfold htotal. lia.
  - rewrite scanRecords_filter; auto;
      cbn [init_scan ofd xCnt app bytesWritten hits]; try lia.
    unfold kept. rewrite Z.sub_0_r. reflexivity.
Qed.

Lemma filter_concat {A : Type} (f : A -> bool) (ls : list (list A)) :
  filter f (concat ls) = concat (map (filter f) ls).
Proof.
  induction ls as [|l ls IH]; [reflexivity|].
  cbn [concat map]. rewrite filter_app, IH. reflexivity.
Qed.

Lemma concat_map_concat {A B : Type} (f : A -> list B) (ls : list (list A)) :
  concat (map f (concat ls)) = concat (map (fun l => concat (map f l)) ls).
Proof.
  induction ls as [|l ls IH]; [reflexivity|].
  cbn [concat map]. rewrite map_app, concat_app, IH. reflexivity.
Qed.

Lemma kept_any_parts (a : args_t) (h : hits_t) (procCnt : Z)
      (parts : list (list record_t)) :
  procCnt <> 1 ->
  kept_any a h procCnt (concat parts)
  = concat (map (kept_any a h procCnt) parts).
Proof.
  intros Hp. apply Z.eqb_neq in Hp.
  unfold kept_any, kept_lookup, kept. rewrite Hp.
  destruct (lookupMode h); apply filter_concat.
Qed.

Lemma recs_bytes_part (parts : list (list record_t)) (rs : list record_t) :
  In rs parts ->
  (length (recs_bytes rs) <= length (recs_bytes (concat parts)))%nat.
Proof.
  induction parts as [|p parts IH]; intros Hin; [destruct Hin|].
  cbn [concat]. rewrite recs_bytes_app, length_app.
  destruct Hin as [->|Hin]; [lia|]. specialize (IH Hin). lia.
Qed.

(** The outputs of the scans of the ranges of a plan, range by range. *)
Lemma ranks_outputs (a : args_t) (h : hits_t) (procCnt : Z)
      (file : list ascii) (W : Z) :
  forall (plan : list offs_t) (parts : list (list record_t))
         (sts : list scan_t),
    Forall2 (range_holds file) plan parts ->
    Forall range_ok plan ->
    Forall2 (fun fo st => partScan a h procCnt file fo W = Some (st, 0))
            plan sts ->
    Forall (fun rs =>
              Forall wf_rec rs /\
              (lookupMode h = true ->
               Forall (fun hit => Forall (fun y => y <> NL) hit) (hitList h) /\
               no_rewrite a rs) /\
              Z.of_nat (length (recs_bytes rs)) <= bytesLimit a) parts ->
    0 <= seqCnt a -> 0 < W ->
    map ofd sts
    = map (fun rs => concat (map (written a) (kept_any a h procCnt rs)))
          parts.
Proof.
  induction plan as [|fo plan IH]; intros parts sts Hh Hok Hs Hp Hc HW;
    inversion Hh; subst; inversion Hs; subst; [reflexivity|].
  inversion Hok; subst. inversion Hp as [|? ? (Hwf & Hlk & Hbl) Hp']; subst.
  cbn [map]. f_equal.
  - eapply partScan_kept_any; eauto.
  - apply IH; auto.
Qed.

Lemma Forall_part {A : Type} (Q : A -> Prop) (parts : list (list A))
      (rs : list A) :
  Forall Q (concat parts) -> In rs parts -> Forall Q rs.
Proof.
  rewrite !Forall_forall. intros H Hin x Hx. apply H.
  apply in_concat. exists rs. split; assumption.
Qed.

(** The plan and the scans together.  The file is the bytes of
    well-formed records (no [>] but their first byte), the page size is
    positive, the byte limit is not below the size of the file, the
    record ceiling is not negative and, in lookup mode, no hit ID holds
    a newline and no alternative header is rewritten.  When the chunk
    loop of every process ends with [err = 0] on its range of the plan,
    the outputs of the processes, taken in rank order, hold the records
    that the run keeps, each once and in file order: outside lookup
    mode the records that pass the length filter, in lookup mode the
    ones in whose header a hit ID is looked up, and in a run of one
    process no more than [seqCnt] of them (nor, in lookup mode, more
    than there are hit IDs). *)
Theorem ranks_write_every_kept_record
        (a : args_t) (h : hits_t) (W : Z) (recs : list record_t) (P : Z)
        (heap : nat -> list ascii) (N n' : nat) (plan : list offs_t)
        (sts : list scan_t) :
  Forall wf_rec recs -> recs <> [] -> (1 <= N)%nat -> 0 < P ->
  (lookupMode h = true ->
   Forall (fun hit => Forall (fun y => y <> NL) hit) (hitList h) /\
   no_rewrite a recs) ->
  Z.of_nat (length (recs_bytes recs)) <= bytesLimit a ->
  0 <= seqCnt a -> 0 < W ->
  setOffs (recs_bytes recs) (Z.of_nat (length (recs_bytes recs))) P heap N
  = Some (n', plan) ->
  Forall2 (fun fo st =>
             partScan a h (Z.of_nat n') (recs_bytes recs) fo W
             = Some (st, 0)) plan sts ->
  concat (map ofd sts)
  = concat (map (written a) (kept_any a h (Z.of_nat n') recs)).
Proof.
  intros Hwf Hne HN HP Hlk Hbl Hc HW E Hs.
  destruct (setOffs_splits recs P heap N n' plan Hwf Hne HN HP E)
    as (Hok & parts & Hcat & Hh).
  assert (HS : 0 < Z.of_nat (length (recs_bytes recs))).
  { destruct recs as [|[hdr b] rs]; [congruence|].
    rewrite recs_bytes_cons, length_app.
    pose proof (rec_bytes_length hdr b). lia. }
  destruct (setOffs_spec (recs_bytes recs) _ P heap N HS)
    as (n1 & pre & lst & E1 & _ & Hlen & _); try lia.
  assert (Hplan : length plan = n').
  { rewrite E in E1. inversion E1. congruence. }
  clear E1.
  rewrite (ranks_outputs a h (Z.of_nat n') (recs_bytes recs) W plan parts sts);
    auto.
  - destruct (Nat.eq_dec n' 1) as [Hone|Hone].
    + apply Forall2_length in Hh.
      destruct parts as [|p [|q parts]]; cbn [length] in Hh; try lia.
      cbn [concat] in Hcat. rewrite app_nil_r in Hcat. subst p.
      cbn [map concat]. apply app_nil_r.
    + rewrite <- Hcat, kept_any_parts by lia.
      rewrite concat_map_concat, map_map. reflexivity.
  - apply Forall_forall. intros rs Hin. subst recs.
    split; [eapply Forall_part; eauto|]. split.
    + intros Hl. destruct (Hlk Hl) as [Hnl Hnr]. split; [exact Hnl|].
      destruct Hnr as [Hz|Hf]; [left; exact Hz|right].
      eapply Forall_part; eauto.
    + pose proof (recs_bytes_part parts rs Hin). lia.
Qed.

Lemma ranks_write_every_kept_record_witness :
  concat (map ofd
              [run_state (partScan args_len_4_6 no_hits 2 fasta_two
                                        (0, 0, 15) 1000);
               run_state (partScan args_len_4_6 no_hits 2 fasta_two
                                        (12, 3, 17) 1000)])
  = concat (map (written args_len_4_6)
                (kept_any args_len_4_6 no_hits 2
                   [(bytes "r1|alpha", bytes "ACGT");
                    (bytes "r2|beta", bytes ("GGG" ++ nl ++ "TTT"))])).
Proof.
  apply (ranks_write_every_kept_record
           args_len_4_6 no_hits 1000
           [(bytes "r1|alpha", bytes "ACGT");
            (bytes "r2|beta", bytes ("GGG" ++ nl ++ "TTT"))]
           4 (zero_heap 4) 3 2 [(0, 0, 15); (12, 3, 17)]).
  - repeat constructor; try discriminate;
      solve [apply Exists_cons_hd; discriminate].
  - discriminate.
  - lia.
  - lia.
  - discriminate.
  - vm_compute. discriminate.
  - vm_compute. discriminate.
  - lia.
  - vm_compute. reflexivity.
  - repeat constructor; vm_compute; reflexivity.
Defined.

(** No range of a plan is empty, whatever the file holds and for every
    positive page size: every range has a positive length, and a page
    offset and a skew that are not negative. *)
Theorem plan_ranges_not_empty (file : list ascii) (P : Z)
        (heap : nat -> list ascii) (N n' : nat) (plan : list offs_t) :
  0 < Z.of_nat (length file) -> 0 < P ->
  setOffs file (Z.of_nat (length file)) P heap N = Some (n', plan) ->
  Forall range_ok plan.
Proof. intros HS HP. apply setOffs_pos; assumption. Qed.

Lemma plan_ranges_not_empty_witness :
  Forall range_ok [(0, 0, 15); (8, 7, 26)].
Proof.
  apply (plan_ranges_not_empty
           (fasta_two ++ fasta_h1a) 8 (zero_heap 8) 3 2).
  - vm_compute. reflexivity.
  - lia.
  - vm_compute. reflexivity.
Defined.
